(** * A model of the promise polyfill of [src/Tools/babylon.promise.ts]

    The TypeScript class [InternalPromise] is a mutable object graph: every
    promise owns an array of children, callbacks are closures, and settlement
    walks the graph recursively.  The embedding below keeps that shape:

    - objects live in a store and are named by references (indices);
    - the [_children] arrays are objects of their own, because a [for ... of]
      loop keeps iterating the array object it started on even when the
      field is reassigned by [_moveChildren];
    - exceptions are a result of their own, carrying the store reached when
      they were thrown;
    - the recursion through the object graph is not structural (nothing in the
      code prevents a cycle), so the routines take a bound on the call depth
      and answer [OutOfFuel] when it is exhausted. *)

From Stdlib Require Import ZArith String Lia.
From stdpp Require Import base list option.

Open Scope string_scope.

(** ** Data model *)

(** Object references are indices into the store. *)
Abbreviation ref := nat (only parsing).

(** [enum PromiseStates] *)
Inductive PromiseStates := Pending | Fulfilled | Rejected.

Global Instance PromiseStates_eq_dec : EqDecision PromiseStates.
Proof. solve_decision. Defined.

(** JavaScript values that flow through the promise code. [VPromise p] is a
    reference to an [InternalPromise] object and [VArray a] is a reference to
    the [results] array object of agregator [a]. *)
Inductive jsvalue :=
| VUndefined
| VNull
| VNumber (n : Z)
| VString (s : string)
| VPromise (p : ref)
| VArray (a : ref).

(** What a callback supplied by the user of the class does when it is called.
    User callbacks are the environment of the class: they return a value
    (possibly a promise that already exists), return
    [InternalPromise.resolve(v)] for some [v], or throw [new Error(message)]. *)
Inductive completion :=
| Return (v : jsvalue)
| ReturnResolved (v : jsvalue)
| Raise (message : string).

(** The closures stored in [_onFulfilled] and [_onRejected]: either a user
    callback or one of the two closures built by [_RegisterForFulfillment],
    which capture the agregator and the index. *)
Inductive onFulfilled_fn :=
| UserFulfilled (f : jsvalue -> completion)
| AgregatorFulfilled (agregator : ref) (index : nat).

Inductive onRejected_fn :=
| UserRejected (f : jsvalue -> option string)   (* [Some m]: throws [Error(m)] *)
| AgregatorRejected (agregator : ref).

(** [class InternalPromise<T>] *)
Record InternalPromise := {
  _state : PromiseStates;
  _result : jsvalue;
  _reason : jsvalue;
  _children : ref;                       (* an array object *)
  _onFulfilled : option onFulfilled_fn;
  _onRejected : option onRejected_fn;
  _rejectWasConsumed : bool
}.

(** [class FulFillmentAgregator<T>] *)
Record FulFillmentAgregator := {
  count : nat;
  target : nat;
  rootPromise : ref;
  results : list jsvalue
}.

(** Ghost events: the calls of the settlement routines and of the stored
    callbacks, newest first. They change nothing in the behaviour and let
    statements speak about who was notified with what. *)
Inductive event :=
| EvResolve (p : ref) (v : jsvalue)
| EvReject (p : ref) (r : jsvalue)
| EvOnFulfilled (p : ref) (v : jsvalue)
| EvOnRejected (p : ref) (r : jsvalue).

Record store := {
  promises : list InternalPromise;
  arrays : list (list ref);
  agregators : list FulFillmentAgregator;
  trace : list event
}.

Definition empty_store : store :=
  {| promises := []; arrays := []; agregators := []; trace := [] |}.

(** ** Computations: state, exceptions and the depth bound *)

Inductive result (A : Type) : Type :=
| Normal (a : A) (s : store)
| Thrown (message : string) (s : store)
| OutOfFuel
| Stuck.   (* a reference that names no object: no execution of the code *)

Arguments Normal {A} a s.
Arguments Thrown {A} message s.
Arguments OutOfFuel {A}.
Arguments Stuck {A}.

Definition M (A : Type) : Type := store -> result A.

Definition ret {A} (a : A) : M A := fun s => Normal a s.

Definition bind {A B} (m : M A) (k : A -> M B) : M B :=
  fun s =>
    match m s with
    | Normal a s' => k a s'
    | Thrown e s' => Thrown e s'
    | OutOfFuel => OutOfFuel
    | Stuck => Stuck
    end.

Definition throw {A} (message : string) : M A := fun s => Thrown message s.

(** [try { body } catch (e) { handler((<Error>e).message) }] *)
Definition try_catch {A} (body : M A) (handler : string -> M A) : M A :=
  fun s =>
    match body s with
    | Thrown e s' => handler e s'
    | r => r
    end.

Declare Scope js_scope.
Delimit Scope js_scope with js.
Notation "x ← m ; k" := (bind m (fun x => k))
  (at level 20, m at level 100, k at level 200, only parsing) : js_scope.
Notation "m ;; k" := (bind m (fun _ => k))
  (at level 100, k at level 200, only parsing, right associativity) : js_scope.
Open Scope js_scope.

(** *** Store access *)

Definition read (p : ref) : M InternalPromise :=
  fun s => match promises s !! p with Some n => Normal n s | None => Stuck end.

Definition update (p : ref) (f : InternalPromise -> InternalPromise) : M unit :=
  fun s =>
    match promises s !! p with
    | Some n =>
        Normal tt {| promises := <[p := f n]> (promises s); arrays := arrays s;
                     agregators := agregators s; trace := trace s |}
    | None => Stuck
    end.

Definition read_array (a : ref) : M (list ref) :=
  fun s => match arrays s !! a with Some l => Normal l s | None => Stuck end.

Definition write_array (a : ref) (l : list ref) : M unit :=
  fun s =>
    match arrays s !! a with
    | Some _ =>
        Normal tt {| promises := promises s; arrays := <[a := l]> (arrays s);
                     agregators := agregators s; trace := trace s |}
    | None => Stuck
    end.

(** [new Array<InternalPromise<T>>()], also the fresh array [splice] returns *)
Definition new_array (l : list ref) : M ref :=
  fun s =>
    Normal (length (arrays s))
           {| promises := promises s; arrays := arrays s ++ [l];
              agregators := agregators s; trace := trace s |}.

Definition read_agregator (a : ref) : M FulFillmentAgregator :=
  fun s => match agregators s !! a with Some g => Normal g s | None => Stuck end.

Definition update_agregator (a : ref)
    (f : FulFillmentAgregator -> FulFillmentAgregator) : M unit :=
  fun s =>
    match agregators s !! a with
    | Some g =>
        Normal tt {| promises := promises s; arrays := arrays s;
                     agregators := <[a := f g]> (agregators s); trace := trace s |}
    | None => Stuck
    end.

Definition emit (e : event) : M unit :=
  fun s =>
    Normal tt {| promises := promises s; arrays := arrays s;
                 agregators := agregators s; trace := e :: trace s |}.

(** Field assignments *)
Definition with_state (st : PromiseStates) (n : InternalPromise) : InternalPromise :=
  {| _state := st; _result := _result n; _reason := _reason n;
     _children := _children n; _onFulfilled := _onFulfilled n;
     _onRejected := _onRejected n; _rejectWasConsumed := _rejectWasConsumed n |}.

Definition with_result (v : jsvalue) (n : InternalPromise) : InternalPromise :=
  {| _state := _state n; _result := v; _reason := _reason n;
     _children := _children n; _onFulfilled := _onFulfilled n;
     _onRejected := _onRejected n; _rejectWasConsumed := _rejectWasConsumed n |}.

Definition with_reason (r : jsvalue) (n : InternalPromise) : InternalPromise :=
  {| _state := _state n; _result := _result n; _reason := r;
     _children := _children n; _onFulfilled := _onFulfilled n;
     _onRejected := _onRejected n; _rejectWasConsumed := _rejectWasConsumed n |}.

Definition with_children (a : ref) (n : InternalPromise) : InternalPromise :=
  {| _state := _state n; _result := _result n; _reason := _reason n;
     _children := a; _onFulfilled := _onFulfilled n;
     _onRejected := _onRejected n; _rejectWasConsumed := _rejectWasConsumed n |}.

Definition with_callbacks (f : option onFulfilled_fn) (r : option onRejected_fn)
    (n : InternalPromise) : InternalPromise :=
  {| _state := _state n; _result := _result n; _reason := _reason n;
     _children := _children n; _onFulfilled := f;
     _onRejected := r; _rejectWasConsumed := _rejectWasConsumed n |}.

Definition with_rejectWasConsumed (b : bool) (n : InternalPromise) : InternalPromise :=
  {| _state := _state n; _result := _result n; _reason := _reason n;
     _children := _children n; _onFulfilled := _onFulfilled n;
     _onRejected := _onRejected n; _rejectWasConsumed := b |}.

(** [arr.push(x)] *)
Definition push (a : ref) (x : ref) : M unit :=
  l ← read_array a ; write_array a (l ++ [x]).

(** [arr[i] = v] on a JavaScript array: in range the slot is overwritten, out
    of range the array grows; the holes read back as [undefined]. *)
Definition array_store (l : list jsvalue) (i : nat) (v : jsvalue) : list jsvalue :=
  if decide (i < length l) then <[i := v]> l
  else l ++ replicate (i - length l) VUndefined ++ [v].

(** [for (var child of arr) body(child)]. The array iterator reads the array
    object again at every step, so elements pushed or spliced away during
    the loop are seen. *)
Fixpoint for_of (fuel : nat) (arr : ref) (i : nat) (body : ref -> M unit) : M unit :=
  match fuel with
  | 0 => fun _ => OutOfFuel
  | S fuel =>
      l ← read_array arr ;
      match l !! i with
      | None => ret tt
      | Some child => body child ;; for_of fuel arr (S i) body
      end
  end.

(** The getters *)
Definition state (this : ref) : M PromiseStates := n ← read this ; ret (_state n).
Definition isFulfilled (this : ref) : M bool :=
  n ← read this ; ret (bool_decide (_state n = Fulfilled)).
Definition isRejected (this : ref) : M bool :=
  n ← read this ; ret (bool_decide (_state n = Rejected)).
Definition isPending (this : ref) : M bool :=
  n ← read this ; ret (bool_decide (_state n = Pending)).

(** [value()] and [reason()] *)
Definition value (this : ref) : M jsvalue :=
  f ← isFulfilled this ;
  if negb f then throw "Promise is not fulfilled"
  else n ← read this ; ret (_result n).

Definition reason (this : ref) : M jsvalue :=
  f ← isRejected this ;
  if negb f then throw "Promise is not rejected"
  else n ← read this ; ret (_reason n).

(** The field initialisers of the class, run by [new InternalPromise()]
    before the constructor body. *)
Definition alloc_promise : M ref :=
  a ← new_array [] ;
  fun s =>
    Normal (length (promises s))
           {| promises := promises s ++
                [ {| _state := Pending; _result := VUndefined; _reason := VUndefined;
                     _children := a; _onFulfilled := None; _onRejected := None;
                     _rejectWasConsumed := false |} ];
              arrays := arrays s; agregators := agregators s; trace := trace s |}.

(** [returnedValue !== undefined && returnedValue !== null], then the probe
    [returnedValue._state !== undefined], which only a promise passes. *)
Definition as_promise (v : jsvalue) : option ref :=
  match v with
  | VPromise p => Some p
  | _ => None
  end.

Definition is_nullish (v : jsvalue) : bool :=
  match v with
  | VUndefined | VNull => true
  | _ => false
  end.

(** ** The settlement routines *)

Section Callbacks.
(** The callbacks call back into the class. *)
Variable resolve_rec : ref -> jsvalue -> M jsvalue.
Variable reject_rec : ref -> jsvalue -> M unit.

(** [this._onFulfilled(value)] *)
Definition call_onFulfilled (f : onFulfilled_fn) (value : jsvalue) : M jsvalue :=
  match f with
  | UserFulfilled f =>
      match f value with
      | Return v => ret v
      | ReturnResolved v =>
          (* InternalPromise.resolve(v) *)
          newPromise ← alloc_promise ;
          resolve_rec newPromise v ;;
          ret (VPromise newPromise)
      | Raise message => throw message
      end
  | AgregatorFulfilled agregator index =>
      update_agregator agregator (fun g =>
        {| count := count g; target := target g; rootPromise := rootPromise g;
           results := array_store (results g) index value |}) ;;
      update_agregator agregator (fun g =>
        {| count := S (count g); target := target g; rootPromise := rootPromise g;
           results := results g |}) ;;
      g ← read_agregator agregator ;
      (if decide (count g = target g)
       then resolve_rec (rootPromise g) (VArray agregator) ;; ret tt
       else ret tt) ;;
      ret VNull
  end.

(** [this._onRejected(reason)] *)
Definition call_onRejected (f : onRejected_fn) (reason : jsvalue) : M unit :=
  match f with
  | UserRejected f =>
      match f reason with
      | None => ret tt
      | Some message => throw message
      end
  | AgregatorRejected agregator =>
      g ← read_agregator agregator ;
      rejected ← isRejected (rootPromise g) ;
      if negb rejected then
        g ← read_agregator agregator ;
        reject_rec (rootPromise g) reason
      else ret tt
  end.
End Callbacks.

Section Routines.
(** The three routines call each other; [fuel] bounds the loops. *)
Variable resolve_rec : ref -> jsvalue -> M jsvalue.
Variable reject_rec : ref -> jsvalue -> M unit.
Variable moveChildren_rec : ref -> ref -> M unit.
Variable fuel : nat.

(** [private _resolve(value)] *)
Definition resolve_body (this : ref) (value : jsvalue) : M jsvalue :=
  emit (EvResolve this value) ;;
  try_catch
    (update this (with_state Fulfilled) ;;
     update this (with_result value) ;;
     n ← read this ;
     returnedValue ←
       match _onFulfilled n with
       | Some f =>
           emit (EvOnFulfilled this value) ;;
           call_onFulfilled resolve_rec f value
       | None => ret VNull
       end ;
     (if negb (is_nullish returnedValue) then
        match as_promise returnedValue with
        | Some returnedPromise =>
            (* Transmit children *)
            n ← read this ;
            moveChildren_rec returnedPromise (_children n)
        | None => ret tt
        end
      else ret tt) ;;
     n ← read this ;
     for_of fuel (_children n) 0 (fun child => resolve_rec child value ;; ret tt) ;;
     ret returnedValue)
    (fun message =>
       reject_rec this (VString message) ;;
       ret VNull).

(** [private _reject(reason)] *)
Definition reject_body (this : ref) (reason : jsvalue) : M unit :=
  emit (EvReject this reason) ;;
  update this (with_state Rejected) ;;
  update this (with_reason reason) ;;
  n ← read this ;
  match _onRejected n with
  | Some f =>
      emit (EvOnRejected this reason) ;;
      call_onRejected reject_rec f reason ;;
      update this (with_rejectWasConsumed true)
  | None => ret tt
  end ;;
  n ← read this ;
  for_of fuel (_children n) 0 (fun child =>
    n ← read this ;
    if _rejectWasConsumed n then resolve_rec child VNull ;; ret tt
    else reject_rec child reason).

(** [private _moveChildren(children)] *)
Definition moveChildren_body (this : ref) (children : ref) : M unit :=
  (* this._children = children.splice(0, children.length) *)
  l ← read_array children ;
  write_array children [] ;;
  removed ← new_array l ;
  update this (with_children removed) ;;
  fulfilled ← isFulfilled this ;
  if fulfilled then
    n ← read this ;
    for_of fuel (_children n) 0 (fun child =>
      n ← read this ;
      resolve_rec child (_result n) ;; ret tt)
  else
    rejected ← isRejected this ;
    if rejected then
      n ← read this ;
      for_of fuel (_children n) 0 (fun child =>
        n ← read this ;
        reject_rec child (_reason n))
    else ret tt.
End Routines.

Fixpoint _resolve (fuel : nat) (this : ref) (value : jsvalue) : M jsvalue :=
  match fuel with
  | 0 => fun _ => OutOfFuel
  | S fuel =>
      resolve_body (_resolve fuel) (_reject fuel) (_moveChildren fuel) fuel this value
  end

with _reject (fuel : nat) (this : ref) (reason : jsvalue) : M unit :=
  match fuel with
  | 0 => fun _ => OutOfFuel
  | S fuel => reject_body (_resolve fuel) (_reject fuel) fuel this reason
  end

with _moveChildren (fuel : nat) (this : ref) (children : ref) : M unit :=
  match fuel with
  | 0 => fun _ => OutOfFuel
  | S fuel => moveChildren_body (_resolve fuel) (_reject fuel) fuel this children
  end.

(** ** The public operations *)

(** [then(onFulfilled?, onRejected?)] *)
Definition then_ (fuel : nat) (this : ref)
    (onFulfilled : option onFulfilled_fn) (onRejected : option onRejected_fn) : M ref :=
  newPromise ← alloc_promise ;
  update newPromise (with_callbacks onFulfilled onRejected) ;;
  (* Composition *)
  n ← read this ;
  push (_children n) newPromise ;;
  n ← read this ;
  if negb (bool_decide (_state n = Pending)) then
    if bool_decide (_state n = Fulfilled) || _rejectWasConsumed n then
      returnedValue ← _resolve fuel newPromise (_result n) ;
      if negb (is_nullish returnedValue) then
        match as_promise returnedValue with
        | Some returnedPromise =>
            c ← read newPromise ;
            push (_children c) returnedPromise ;;
            ret returnedPromise
        | None =>
            update newPromise (with_result returnedValue) ;;
            ret newPromise
        end
      else ret newPromise
    else
      _reject fuel newPromise (_reason n) ;;
      ret newPromise
  else ret newPromise.

(** [catch(onRejected)] *)
Definition catch (fuel : nat) (this : ref) (onRejected : onRejected_fn) : M ref :=
  then_ fuel this None (Some onRejected).

(** The resolver handed to the constructor is a user callback as well: it
    calls the two functions it receives some number of times and returns, or
    throws [new Error(message)] after these calls. *)
Inductive settle_call :=
| CallResolve (value : jsvalue)
| CallReject (reason : jsvalue).

Record resolver_fn := {
  resolver_calls : list settle_call;
  resolver_raises : option string
}.

Fixpoint run_resolver_calls (fuel : nat) (this : ref) (cs : list settle_call) : M unit :=
  match cs with
  | [] => ret tt
  | CallResolve v :: cs => _resolve fuel this v ;; run_resolver_calls fuel this cs
  | CallReject r :: cs => _reject fuel this r ;; run_resolver_calls fuel this cs
  end.

(** [new InternalPromise(resolver?)] *)
Definition new_InternalPromise (fuel : nat) (resolver : option resolver_fn) : M ref :=
  this ← alloc_promise ;
  match resolver with
  | None => ret this
  | Some resolver =>
      try_catch
        (run_resolver_calls fuel this (resolver_calls resolver) ;;
         match resolver_raises resolver with
         | Some message => throw message
         | None => ret tt
         end)
        (fun message => _reject fuel this (VString message)) ;;
      ret this
  end.

(** [static resolve(value)] *)
Definition resolve (fuel : nat) (value : jsvalue) : M ref :=
  newPromise ← alloc_promise ;
  _resolve fuel newPromise value ;;
  ret newPromise.

(** [new FulFillmentAgregator()] followed by the assignments of [target] and
    [rootPromise], which [all] makes before the agregator is used. *)
Definition new_FulFillmentAgregator (target : nat) (rootPromise : ref) : M ref :=
  fun s =>
    Normal (length (agregators s))
           {| promises := promises s; arrays := arrays s;
              agregators := agregators s ++
                [ {| count := 0; target := target; rootPromise := rootPromise;
                     results := [] |} ];
              trace := trace s |}.

(** [static _RegisterForFulfillment(promise, agregator, index)] *)
Definition _RegisterForFulfillment (fuel : nat) (promise agregator : ref) (index : nat)
    : M unit :=
  then_ fuel promise (Some (AgregatorFulfilled agregator index))
                     (Some (AgregatorRejected agregator)) ;;
  ret tt.

(** The loop of [all], from [index] on. *)
Fixpoint register_from (fuel : nat) (promises : list ref) (agregator : ref) (index : nat)
    : M unit :=
  match promises with
  | [] => ret tt
  | promise :: rest =>
      _RegisterForFulfillment fuel promise agregator index ;;
      register_from fuel rest agregator (S index)
  end.

(** [static all(promises)] *)
Definition all (fuel : nat) (promises : list ref) : M ref :=
  newPromise ← alloc_promise ;
  agregator ← new_FulFillmentAgregator (length promises) newPromise ;
  register_from fuel promises agregator 0 ;;
  ret newPromise.

(** ** Observations on a store *)

Definition state_of (s : store) (p : ref) : option PromiseStates :=
  _state <$> promises s !! p.
Definition result_of (s : store) (p : ref) : option jsvalue :=
  _result <$> promises s !! p.
Definition reason_of (s : store) (p : ref) : option jsvalue :=
  _reason <$> promises s !! p.
Definition children_of (s : store) (p : ref) : option (list ref) :=
  match promises s !! p with
  | Some n => arrays s !! _children n
  | None => None
  end.


(** ** Running the code on a store described by hypotheses *)

Lemma bind_Normal {A B} (m : M A) (k : A -> M B) s a s' :
  m s = Normal a s' -> bind m k s = k a s'.
Proof. unfold bind. intros ->. reflexivity. Qed.

Lemma bind_Thrown {A B} (m : M A) (k : A -> M B) s e s' :
  m s = Thrown e s' -> bind m k s = Thrown e s'.
Proof. unfold bind. intros ->. reflexivity. Qed.

Lemma _resolve_S fuel this value :
  _resolve (S fuel) this value =
  resolve_body (_resolve fuel) (_reject fuel) (_moveChildren fuel) fuel this value.
Proof. reflexivity. Qed.

Lemma _reject_S fuel this reason :
  _reject (S fuel) this reason =
  reject_body (_resolve fuel) (_reject fuel) fuel this reason.
Proof. reflexivity. Qed.

Lemma _moveChildren_S fuel this children :
  _moveChildren (S fuel) this children =
  moveChildren_body (_resolve fuel) (_reject fuel) fuel this children.
Proof. reflexivity. Qed.

Lemma lookup_insert_same {A} (l : list A) i x y :
  l !! i = Some x -> <[i := y]> l !! i = Some y.
Proof. intros H. apply list_lookup_insert_eq. eapply lookup_lt_Some, H. Qed.

Lemma insert_insert_same {A} (l : list A) i x y :
  <[i := y]> (<[i := x]> l) = <[i := y]> l.
Proof. apply list_insert_insert_eq. Qed.

(** One step of symbolic execution: unfold the monad, push the record
    projections through, and resolve the lookups from the context. *)
Ltac js_unfold :=
  repeat (progress unfold resolve_body, reject_body, moveChildren_body,
    call_onFulfilled, call_onRejected, value, reason, state, isFulfilled,
    isRejected, isPending, alloc_promise, push, try_catch, bind, ret, throw,
    emit, read, update, read_array, write_array, new_array, read_agregator,
    update_agregator);
  cbv beta; cbn [promises arrays agregators trace].

Ltac js_lookup :=
  match goal with
  | H : ?l !! ?i = Some _ |- context [?l !! ?i] => rewrite H
  | |- context [<[?i := _]> (<[?i := _]> _)] => rewrite insert_insert_same
  | H : ?l !! ?i = Some _ |- context [<[?i := ?y]> ?l !! ?i] =>
      rewrite (lookup_insert_same l i _ y H)
  | |- context [<[?i := _]> ?l !! ?j] =>
      rewrite (list_lookup_insert_ne l i j) by congruence
  | |- context [<[?i := ?y]> ?l !! ?i] =>
      rewrite (list_lookup_insert_eq l i y)
        by (rewrite ?length_insert; eapply lookup_lt_Some; eassumption)
  end.

Ltac js_step :=
  repeat (first [ js_lookup | progress cbn [promises arrays agregators trace
                    _state _result _reason _children _onFulfilled _onRejected
                    _rejectWasConsumed with_state with_result with_reason
                    with_children with_callbacks with_rejectWasConsumed
                    negb is_nullish as_promise] ]).

(** ** The accessors *)

(** C8: [value()] throws exactly when the node is not Fulfilled and returns
    the stored result otherwise; [reason()] throws exactly when the node is
    not Rejected and returns the stored reason otherwise. Neither changes the
    store. *)
Theorem value_reason_invalid_state (s : store) (this : ref) (n : InternalPromise) :
  promises s !! this = Some n ->
  (_state n <> Fulfilled <-> value this s = Thrown "Promise is not fulfilled" s) /\
  (_state n = Fulfilled <-> value this s = Normal (_result n) s) /\
  (_state n <> Rejected <-> reason this s = Thrown "Promise is not rejected" s) /\
  (_state n = Rejected <-> reason this s = Normal (_reason n) s).
Proof.
  intros Hn. js_unfold. rewrite Hn. cbn.
  destruct (_state n) eqn:E; repeat case_bool_decide; try congruence;
    cbn; rewrite ?Hn; rewrite ?E;
    repeat split; intros; try congruence; try discriminate.
Qed.

Lemma value_reason_invalid_state_witness :
  let s := {| promises := [ {| _state := Rejected; _result := VUndefined;
                               _reason := VString "boom"; _children := 0;
                               _onFulfilled := None; _onRejected := None;
                               _rejectWasConsumed := false |} ];
              arrays := [[]]; agregators := []; trace := [] |} in
  value 0 s = Thrown "Promise is not fulfilled" s /\
  reason 0 s = Normal (VString "boom") s.
Proof.
  intros s.
  destruct (value_reason_invalid_state s 0 _ eq_refl) as (H1 & _ & _ & H4).
  split.
  - apply H1. discriminate.
  - apply H4. reflexivity.
Defined.

(** ** [all] on the empty sequence *)

(** C2: for the empty input sequence the loop of [all] registers nothing and
    nothing resolves the root: when [all] returns, the root it hands back is
    still Pending (with [count = target = 0] in its agregator) and [value()]
    on it throws. *)
Theorem all_empty_returns_pending (fuel : nat) (s : store) :
  exists root s',
    all fuel [] s = Normal root s' /\
    state_of s' root = Some Pending /\
    result_of s' root = Some VUndefined /\
    agregators s' =
      (agregators s ++
         [ {| count := 0; target := 0; rootPromise := root; results := [] |} ])%list /\
    trace s' = trace s /\
    value root s' = Thrown "Promise is not fulfilled" s'.
Proof.
  eexists _, _. split; [reflexivity|].
  unfold state_of, result_of, value, isFulfilled, read, bind, ret, throw.
  cbn [promises arrays agregators trace].
  rewrite lookup_app_r by reflexivity.
  rewrite Nat.sub_diag. cbn.
  repeat split; reflexivity.
Qed.

(** ** A rejection handler that raises *)

Lemma reject_handler_raise_escapes_aux (fuel : nat) (s : store) (this : ref)
    (n : InternalPromise) (f : jsvalue -> option string) (reason : jsvalue)
    (message : string) :
  promises s !! this = Some n ->
  _onRejected n = Some (UserRejected f) ->
  f reason = Some message ->
  _reject (S fuel) this reason s =
    Thrown message
      {| promises := <[this := with_reason reason (with_state Rejected n)]> (promises s);
         arrays := arrays s;
         agregators := agregators s;
         trace := EvOnRejected this reason :: EvReject this reason :: trace s |}.
Proof.
  intros Hn Hf Hraise. rewrite _reject_S. js_unfold. js_step.
  rewrite Hf. cbn. rewrite Hraise. reflexivity.
Qed.

(** ** Settling a node nobody is chained on *)

(** The store in which promise [p] has been replaced by [n] and the events
    [evs] (newest first) have been added to the trace. *)
Definition settled (p : ref) (n : InternalPromise) (evs : list event) (s : store) : store :=
  {| promises := <[p := n]> (promises s);
     arrays := arrays s;
     agregators := agregators s;
     trace := (evs ++ trace s)%list |}.

Lemma for_of_end fuel arr l i body s :
  arrays s !! arr = Some l -> length l <= i ->
  for_of (S fuel) arr i body s = Normal tt s.
Proof.
  intros Ha Hi. cbn [for_of]. js_unfold. rewrite Ha.
  rewrite (lookup_ge_None_2 l i Hi). reflexivity.
Qed.

Lemma for_of_next fuel arr l i c body s :
  arrays s !! arr = Some l -> l !! i = Some c ->
  for_of (S fuel) arr i body s = bind (body c) (fun _ => for_of fuel arr (S i) body) s.
Proof.
  intros Ha Hi. cbn [for_of]. unfold bind at 1. unfold read_array. rewrite Ha, Hi.
  reflexivity.
Qed.

(** [_resolve] on a node without continuation and without children. *)
Lemma resolve_bare fuel s c n v :
  promises s !! c = Some n ->
  _onFulfilled n = None ->
  arrays s !! _children n = Some [] ->
  _resolve (S (S fuel)) c v s =
    Normal VNull (settled c (with_result v (with_state Fulfilled n)) [EvResolve c v] s).
Proof.
  intros Hn Hf Ha. rewrite _resolve_S. js_unfold. js_step.
  rewrite Hf. js_step.
  erewrite for_of_end; [reflexivity | exact Ha | cbn; lia].
Qed.

(** [_reject] on a node without handler and without children. *)
Lemma reject_bare fuel s c n r :
  promises s !! c = Some n ->
  _onRejected n = None ->
  arrays s !! _children n = Some [] ->
  _reject (S (S fuel)) c r s =
    Normal tt (settled c (with_reason r (with_state Rejected n)) [EvReject c r] s).
Proof.
  intros Hn Hf Ha. rewrite _reject_S. js_unfold. js_step.
  rewrite Hf. js_step.
  erewrite for_of_end; [reflexivity | exact Ha | cbn; lia].
Qed.

(** ** An invariant of every run: no node goes back to Pending *)

(** The store a computation leaves behind, when it returns or throws. *)
Definition final_store {A} (r : result A) : option store :=
  match r with
  | Normal _ s | Thrown _ s => Some s
  | OutOfFuel | Stuck => None
  end.

(** Every promise of [s] still exists in [s'], and the settled ones are still
    settled. *)
Definition stays_settled (s s' : store) : Prop :=
  forall q n, promises s !! q = Some n ->
    exists n', promises s' !! q = Some n' /\ (_state n <> Pending -> _state n' <> Pending).

Definition preserves {A} (m : M A) : Prop :=
  forall s s', final_store (m s) = Some s' -> stays_settled s s'.

Lemma stays_settled_refl s : stays_settled s s.
Proof. intros q n Hq. eauto. Qed.

Lemma stays_settled_trans s1 s2 s3 :
  stays_settled s1 s2 -> stays_settled s2 s3 -> stays_settled s1 s3.
Proof.
  intros H12 H23 q n Hq.
  destruct (H12 q n Hq) as (n2 & Hq2 & Hs2).
  destruct (H23 q n2 Hq2) as (n3 & Hq3 & Hs3).
  exists n3. split; [exact Hq3 | auto].
Qed.

Lemma stays_settled_same_promises s s' :
  promises s' = promises s -> stays_settled s s'.
Proof. intros E q n Hq. rewrite E. eauto. Qed.

Lemma preserves_ret {A} (a : A) : preserves (ret a).
Proof. intros s s' [= <-]. apply stays_settled_refl. Qed.

Lemma preserves_throw {A} e : preserves (@throw A e).
Proof. intros s s' [= <-]. apply stays_settled_refl. Qed.

Lemma preserves_bind {A B} (m : M A) (k : A -> M B) :
  preserves m -> (forall a, preserves (k a)) -> preserves (bind m k).
Proof.
  intros Hm Hk s s'. unfold bind.
  destruct (m s) as [a s1|e s1| |] eqn:E; cbn; try discriminate.
  - intros H. eapply stays_settled_trans; [apply (Hm s); rewrite E; reflexivity|].
    apply (Hk a s1), H.
  - intros [= <-]. apply (Hm s). rewrite E. reflexivity.
Qed.

Lemma preserves_try_catch {A} (m : M A) (h : string -> M A) :
  preserves m -> (forall e, preserves (h e)) -> preserves (try_catch m h).
Proof.
  intros Hm Hh s s'. unfold try_catch.
  destruct (m s) as [a s1|e s1| |] eqn:E; cbn; try discriminate.
  - intros [= <-]. apply (Hm s). rewrite E. reflexivity.
  - intros H. eapply stays_settled_trans; [apply (Hm s); rewrite E; reflexivity|].
    apply (Hh e s1), H.
Qed.

Lemma preserves_same_promises {A} (m : M A) :
  (forall s s', final_store (m s) = Some s' -> promises s' = promises s) ->
  preserves m.
Proof. intros H s s' Hs. apply stays_settled_same_promises, (H s s' Hs). Qed.

Lemma preserves_emit e : preserves (emit e).
Proof. apply preserves_same_promises. intros s s' [= <-]. reflexivity. Qed.

Lemma preserves_read p : preserves (read p).
Proof.
  apply preserves_same_promises. intros s s'. unfold read.
  destruct (promises s !! p); cbn; [intros [= <-]; reflexivity | discriminate].
Qed.

Lemma preserves_read_array a : preserves (read_array a).
Proof.
  apply preserves_same_promises. intros s s'. unfold read_array.
  destruct (arrays s !! a); cbn; [intros [= <-]; reflexivity | discriminate].
Qed.

Lemma preserves_write_array a l : preserves (write_array a l).
Proof.
  apply preserves_same_promises. intros s s'. unfold write_array.
  destruct (arrays s !! a); cbn; [intros [= <-]; reflexivity | discriminate].
Qed.

Lemma preserves_new_array l : preserves (new_array l).
Proof. apply preserves_same_promises. intros s s' [= <-]. reflexivity. Qed.

Lemma preserves_read_agregator a : preserves (read_agregator a).
Proof.
  apply preserves_same_promises. intros s s'. unfold read_agregator.
  destruct (agregators s !! a); cbn; [intros [= <-]; reflexivity | discriminate].
Qed.

Lemma preserves_update_agregator a f : preserves (update_agregator a f).
Proof.
  apply preserves_same_promises. intros s s'. unfold update_agregator.
  destruct (agregators s !! a); cbn; [intros [= <-]; reflexivity | discriminate].
Qed.

Lemma preserves_update p f :
  (forall n, _state n <> Pending -> _state (f n) <> Pending) ->
  preserves (update p f).
Proof.
  intros Hf s s'. unfold update.
  destruct (promises s !! p) as [n|] eqn:E; cbn; [|discriminate].
  intros [= <-] q m Hq. cbn.
  destruct (decide (p = q)) as [->|Hne].
  - rewrite (lookup_insert_same _ _ _ _ Hq). exists (f n). split; [reflexivity|].
    assert (m = n) as -> by congruence. apply Hf.
  - rewrite list_lookup_insert_ne by exact Hne. eauto.
Qed.

Lemma preserves_alloc_promise : preserves alloc_promise.
Proof.
  intros s s'. unfold alloc_promise, bind, new_array. cbn.
  intros [= <-] q m Hq. cbn. exists m. split; [|auto].
  apply lookup_app_l_Some, Hq.
Qed.

Lemma preserves_for_of fuel arr body :
  (forall c, preserves (body c)) -> forall i, preserves (for_of fuel arr i body).
Proof.
  intros Hb. induction fuel as [|fuel IH]; intros i.
  - intros s s'. cbn. discriminate.
  - cbn [for_of]. apply preserves_bind; [apply preserves_read_array|].
    intros l. destruct (l !! i); [|apply preserves_ret].
    apply preserves_bind; [apply Hb | intros _; apply IH].
Qed.

Lemma preserves_getter {A} p (f : InternalPromise -> A) :
  preserves (bind (read p) (fun n => ret (f n))).
Proof. apply preserves_bind; [apply preserves_read | intros; apply preserves_ret]. Qed.

Create HintDb preserves.
#[local] Hint Resolve preserves_ret preserves_throw preserves_emit preserves_read
  preserves_read_array preserves_write_array preserves_new_array
  preserves_read_agregator preserves_update_agregator preserves_alloc_promise
  preserves_getter : preserves.

(** Break a computation into its primitive steps. *)
Ltac preserves_tac :=
  repeat first
    [ progress auto with preserves
    | apply preserves_bind; [|intros ?]
    | apply preserves_try_catch; [|intros ?]
    | apply preserves_for_of; intros ?
    | apply preserves_update; intros ?; cbn; congruence
    | match goal with
      | |- preserves (match ?x with _ => _ end) => destruct x
      | |- preserves (if ?x then _ else _) => destruct x
      end ].

Section RoutinesPreserve.
Variable resolve_rec : ref -> jsvalue -> M jsvalue.
Variable reject_rec : ref -> jsvalue -> M unit.
Variable moveChildren_rec : ref -> ref -> M unit.
Variable fuel : nat.
Hypothesis resolve_ok : forall p v, preserves (resolve_rec p v).
Hypothesis reject_ok : forall p r, preserves (reject_rec p r).
Hypothesis moveChildren_ok : forall p c, preserves (moveChildren_rec p c).

Lemma preserves_call_onFulfilled f v : preserves (call_onFulfilled resolve_rec f v).
Proof. unfold call_onFulfilled. preserves_tac. Qed.

Lemma preserves_call_onRejected f r : preserves (call_onRejected reject_rec f r).
Proof. unfold call_onRejected, isRejected. preserves_tac. Qed.

Lemma preserves_resolve_body this v :
  preserves (resolve_body resolve_rec reject_rec moveChildren_rec fuel this v).
Proof.
  unfold resolve_body. pose proof preserves_call_onFulfilled. preserves_tac.
Qed.

Lemma preserves_reject_body this r :
  preserves (reject_body resolve_rec reject_rec fuel this r).
Proof.
  unfold reject_body. pose proof preserves_call_onRejected. preserves_tac.
Qed.

Lemma preserves_moveChildren_body this c :
  preserves (moveChildren_body resolve_rec reject_rec fuel this c).
Proof. unfold moveChildren_body, isFulfilled, isRejected. preserves_tac. Qed.
End RoutinesPreserve.

Lemma preserves_routines fuel :
  (forall p v, preserves (_resolve fuel p v)) /\
  (forall p r, preserves (_reject fuel p r)) /\
  (forall p c, preserves (_moveChildren fuel p c)).
Proof.
  induction fuel as [|fuel (IHr & IHj & IHm)].
  - repeat split; intros ? ? s s'; cbn; discriminate.
  - repeat split; intros.
    + rewrite _resolve_S. apply preserves_resolve_body; assumption.
    + rewrite _reject_S. apply preserves_reject_body; assumption.
    + rewrite _moveChildren_S. apply preserves_moveChildren_body; assumption.
Qed.

(** ** Settling a node more than once *)

Lemma final_store_bind {A B} (m : M A) (k : A -> M B) s s' :
  final_store (bind m k s) = Some s' ->
  (exists e, m s = Thrown e s') \/
  (exists a s1, m s = Normal a s1 /\ final_store (k a s1) = Some s').
Proof.
  unfold bind. destruct (m s) as [a s1|e s1| |]; cbn; try discriminate.
  - intros H. right. eauto.
  - intros [= <-]. left. eauto.
Qed.

Lemma settled_after_update {A} this st (k : M A) s s' :
  st <> Pending ->
  preserves k ->
  final_store (bind (update this (with_state st)) (fun _ => k) s) = Some s' ->
  exists n', promises s' !! this = Some n' /\ _state n' <> Pending.
Proof.
  intros Hst Hk H. apply final_store_bind in H as [(e & H)|(a & s1 & H & Hfin)].
  - unfold update in H. destruct (promises s !! this); discriminate.
  - unfold update in H. destruct (promises s !! this) as [n|] eqn:E; [|discriminate].
    injection H as _ <-.
    destruct (Hk _ _ Hfin this (with_state st n)) as (n' & Hn' & Hs).
    + cbn. apply (lookup_insert_same _ _ _ _ E).
    + exists n'. split; [exact Hn' | apply Hs; exact Hst].
Qed.

Lemma reject_leaves_settled fuel this r s s' :
  final_store (_reject fuel this r s) = Some s' ->
  exists n', promises s' !! this = Some n' /\ _state n' <> Pending.
Proof.
  destruct fuel as [|fuel]; [discriminate|].
  destruct (preserves_routines fuel) as (Hr & Hj & Hm).
  rewrite _reject_S. unfold reject_body. intros H.
  apply final_store_bind in H as [(e & H)|(a & s1 & H & Hfin)]; [discriminate|].
  injection H as _ <-.
  eapply settled_after_update; [| |exact Hfin]; [discriminate|].
  pose proof (preserves_call_onRejected _ Hj). preserves_tac.
Qed.

Lemma resolve_leaves_settled fuel this v s s' :
  final_store (_resolve fuel this v s) = Some s' ->
  exists n', promises s' !! this = Some n' /\ _state n' <> Pending.
Proof.
  destruct fuel as [|fuel]; [discriminate|].
  destruct (preserves_routines fuel) as (Hr & Hj & Hm).
  rewrite _resolve_S. unfold resolve_body. intros H.
  apply final_store_bind in H as [(e & H)|(a & s1 & H & Hfin)]; [discriminate|].
  injection H as _ <-.
  unfold try_catch in Hfin.
  match type of Hfin with
  | final_store (match ?body ?s0 with _ => _ end) = _ =>
      assert (Hbody : preserves
                (fun s => match body s with Thrown e s1 => Normal VNull s1 | r => r end) /\
              forall s1, final_store (body s0) = Some s1 ->
                exists n', promises s1 !! this = Some n' /\ _state n' <> Pending);
      [|destruct (body s0) as [a1 s1|e s1| |] eqn:E]
  end.
  - split.
    + intros s0 s1. apply (@preserves_try_catch jsvalue _ (fun _ => ret VNull)).
      * pose proof (preserves_call_onFulfilled _ Hr). preserves_tac.
      * intros e. apply preserves_ret.
    + intros s1. apply settled_after_update; [discriminate|].
      pose proof (preserves_call_onFulfilled _ Hr). preserves_tac.
  - destruct Hbody as [_ Hb]. cbn in Hfin. injection Hfin as <-. apply Hb. reflexivity.
  - destruct Hbody as [_ Hb]. destruct (Hb s1 eq_refl) as (n1 & Hn1 & Hs1).
    apply final_store_bind in Hfin as [(e' & H)|(a' & s2 & H & Hfin)].
    + apply (reject_leaves_settled fuel this (VString e) s1). rewrite H. reflexivity.
    + injection Hfin as <-.
      apply (reject_leaves_settled fuel this (VString e) s1). rewrite H. reflexivity.
  - discriminate.
  - discriminate.
Qed.

(** C1, as stated, fails: a promise fulfilled with 1 and then rejected is
    Rejected afterwards, and a rejected one that is then resolved is
    Fulfilled. The same happens through the constructor when the resolver
    calls [resolve] and then [reject]. *)
Lemma settled_node_is_overwritten :
  exists p s1 s2 s3,
    resolve 2 (VNumber 1) empty_store = Normal p s1 /\
    state_of s1 p = Some Fulfilled /\
    _reject 2 p (VString "late") s1 = Normal tt s2 /\
    state_of s2 p = Some Rejected /\
    reason_of s2 p = Some (VString "late") /\
    _resolve 2 p (VNumber 2) s2 = Normal VNull s3 /\
    state_of s3 p = Some Fulfilled /\
    result_of s3 p = Some (VNumber 2) /\
    exists q s4,
      new_InternalPromise 2
        (Some {| resolver_calls := [CallResolve (VNumber 1); CallReject (VString "late")];
                 resolver_raises := None |}) empty_store = Normal q s4 /\
      state_of s4 q = Some Rejected.
Proof.
  eexists _, _, _, _.
  repeat (split; [vm_compute; reflexivity|]).
  eexists _, _. split; vm_compute; reflexivity.
Qed.

(** ** Fan-out over children nobody is chained on *)

(** A node created by [then()] without callbacks, or by the constructor, on
    which nothing has been chained. *)
Definition bare_leaf (s : store) (c : ref) : Prop :=
  exists n, promises s !! c = Some n /\
    _onFulfilled n = None /\ _onRejected n = None /\
    arrays s !! _children n = Some [].

(** What the two routines do to a bare leaf. *)
Definition resolve_leaf (v : jsvalue) (s : store) (c : ref) : store :=
  match promises s !! c with
  | Some n => settled c (with_result v (with_state Fulfilled n)) [EvResolve c v] s
  | None => s
  end.

Definition reject_leaf (r : jsvalue) (s : store) (c : ref) : store :=
  match promises s !! c with
  | Some n => settled c (with_reason r (with_state Rejected n)) [EvReject c r] s
  | None => s
  end.

Lemma resolve_bare_leaf fuel s c v :
  bare_leaf s c -> _resolve (S (S fuel)) c v s = Normal VNull (resolve_leaf v s c).
Proof.
  intros (n & Hn & Hf & _ & Ha). unfold resolve_leaf. rewrite Hn.
  apply resolve_bare; assumption.
Qed.

Lemma reject_bare_leaf fuel s c r :
  bare_leaf s c -> _reject (S (S fuel)) c r s = Normal tt (reject_leaf r s c).
Proof.
  intros (n & Hn & _ & Hf & Ha). unfold reject_leaf. rewrite Hn.
  apply reject_bare; assumption.
Qed.

(** The loop rule: a body that acts as [step] on every element, under an
    invariant that pins the array down. *)
Lemma for_of_foldl (body : ref -> M unit) (step : store -> ref -> store)
    (I : store -> Prop) (arr : ref) (cs : list ref) :
  (forall s, I s -> arrays s !! arr = Some cs) ->
  (forall s c, I s -> c ∈ cs -> body c s = Normal tt (step s c) /\ I (step s c)) ->
  forall fuel i s, I s -> length cs - i < fuel ->
    for_of fuel arr i body s = Normal tt (foldl step s (drop i cs)) /\
    I (foldl step s (drop i cs)).
Proof.
  intros Harr Hbody. induction fuel as [|fuel IH]; intros i s HI Hfuel; [lia|].
  destruct (cs !! i) as [c|] eqn:Hi.
  - rewrite (for_of_next fuel arr cs i c body s (Harr s HI) Hi).
    destruct (Hbody s c HI) as [Hrun HI']; [eapply list_elem_of_lookup_2, Hi|].
    rewrite (bind_Normal _ _ _ _ _ Hrun).
    rewrite (drop_S cs c i Hi). cbn [foldl].
    apply IH; [exact HI'|]. apply lookup_lt_Some in Hi. lia.
  - rewrite (for_of_end fuel arr cs i body s (Harr s HI)) by (apply lookup_ge_None_1, Hi).
    rewrite drop_ge by (apply lookup_ge_None_1, Hi). cbn. auto.
Qed.

(** Settling a bare leaf changes that node's state and result or reason and
    nothing else. *)
Definition same_shape (n n' : InternalPromise) : Prop :=
  _children n' = _children n /\ _onFulfilled n' = _onFulfilled n /\
  _onRejected n' = _onRejected n /\ _rejectWasConsumed n' = _rejectWasConsumed n.

(** [leaf_settled s s']: [s'] comes from [s] by settling bare leaves only. *)
Record leaf_settled (s s' : store) : Prop := {
  ls_arrays : arrays s' = arrays s;
  ls_agregators : agregators s' = agregators s;
  ls_shape : forall q n, promises s !! q = Some n ->
      exists n', promises s' !! q = Some n' /\ same_shape n n';
  ls_frame : forall q n, promises s !! q = Some n -> ~ bare_leaf s q ->
      promises s' !! q = Some n
}.

Lemma leaf_settled_refl s : leaf_settled s s.
Proof.
  split; auto. intros q n Hq. exists n. split; [exact Hq|]. repeat split.
Qed.

Lemma bare_leaf_preserved s s' c :
  leaf_settled s s' -> bare_leaf s c -> bare_leaf s' c.
Proof.
  intros [Ha _ Hs _] (n & Hn & Hf & Hr & Hc).
  destruct (Hs c n Hn) as (n' & Hn' & Hc' & Hf' & Hr' & _).
  exists n'. rewrite Hf', Hr', Hc', Ha. auto.
Qed.

Lemma bare_leaf_reflected s s' c :
  leaf_settled s s' -> bare_leaf s' c -> is_Some (promises s !! c) -> bare_leaf s c.
Proof.
  intros [Ha _ Hs _] (n' & Hn' & Hf & Hr & Hc) [n Hn].
  destruct (Hs c n Hn) as (n2 & Hn2 & Hc' & Hf' & Hr' & _).
  assert (n2 = n') as -> by congruence.
  exists n. rewrite <- Hf', <- Hr', <- Hc', <- Ha. auto.
Qed.

Lemma leaf_settled_trans s1 s2 s3 :
  leaf_settled s1 s2 -> leaf_settled s2 s3 -> leaf_settled s1 s3.
Proof.
  intros H12 H23. split.
  - rewrite (ls_arrays _ _ H23). apply (ls_arrays _ _ H12).
  - rewrite (ls_agregators _ _ H23). apply (ls_agregators _ _ H12).
  - intros q n Hq. destruct (ls_shape _ _ H12 q n Hq) as (n2 & Hq2 & S2).
    destruct (ls_shape _ _ H23 q n2 Hq2) as (n3 & Hq3 & S3).
    exists n3. split; [exact Hq3|].
    destruct S2 as (?&?&?&?), S3 as (?&?&?&?). repeat split; congruence.
  - intros q n Hq Hnb. pose proof (ls_frame _ _ H12 q n Hq Hnb) as Hq2.
    apply (ls_frame _ _ H23 q n Hq2). intros Hb. apply Hnb.
    apply (bare_leaf_reflected s1 s2 q H12 Hb). eauto.
Qed.

Lemma leaf_settled_step s c n n' evs :
  promises s !! c = Some n -> bare_leaf s c -> same_shape n n' ->
  leaf_settled s (settled c n' evs s).
Proof.
  intros Hn Hb Hshape. split; cbn; auto.
  - intros q m Hq. destruct (decide (c = q)) as [->|Hne].
    + rewrite (lookup_insert_same _ _ _ _ Hq). exists n'. split; [reflexivity|].
      congruence.
    + rewrite list_lookup_insert_ne by exact Hne. exists m. split; [exact Hq|].
      repeat split.
  - intros q m Hq Hnb. destruct (decide (c = q)) as [->|Hne]; [contradiction|].
    rewrite list_lookup_insert_ne by exact Hne. exact Hq.
Qed.

Lemma leaf_settled_resolve_leaf s c v :
  bare_leaf s c -> leaf_settled s (resolve_leaf v s c).
Proof.
  intros Hb. pose proof Hb as (n & Hn & _). unfold resolve_leaf. rewrite Hn.
  apply (leaf_settled_step s c n); [exact Hn | exact Hb | repeat split].
Qed.

Lemma leaf_settled_reject_leaf s c r :
  bare_leaf s c -> leaf_settled s (reject_leaf r s c).
Proof.
  intros Hb. pose proof Hb as (n & Hn & _). unfold reject_leaf. rewrite Hn.
  apply (leaf_settled_step s c n); [exact Hn | exact Hb | repeat split].
Qed.

Lemma resolve_leaf_lookup_ne v s c q :
  c <> q -> promises (resolve_leaf v s c) !! q = promises s !! q.
Proof.
  intros Hne. unfold resolve_leaf. destruct (promises s !! c); [|reflexivity].
  cbn. apply list_lookup_insert_ne, Hne.
Qed.

Lemma reject_leaf_lookup_ne r s c q :
  c <> q -> promises (reject_leaf r s c) !! q = promises s !! q.
Proof.
  intros Hne. unfold reject_leaf. destruct (promises s !! c); [|reflexivity].
  cbn. apply list_lookup_insert_ne, Hne.
Qed.

(** Where a fan-out leaves a child. *)
Definition fulfilled_with (v : jsvalue) (s : store) (c : ref) : Prop :=
  exists n, promises s !! c = Some n /\ _state n = Fulfilled /\ _result n = v.

Definition rejected_with (r : jsvalue) (s : store) (c : ref) : Prop :=
  exists n, promises s !! c = Some n /\ _state n = Rejected /\ _reason n = r.

Lemma resolve_leaf_fulfilled v s c :
  is_Some (promises s !! c) -> fulfilled_with v (resolve_leaf v s c) c.
Proof.
  intros [n Hn]. unfold resolve_leaf. rewrite Hn. eexists. cbn.
  rewrite (lookup_insert_same _ _ _ _ Hn). auto.
Qed.

Lemma reject_leaf_rejected r s c :
  is_Some (promises s !! c) -> rejected_with r (reject_leaf r s c) c.
Proof.
  intros [n Hn]. unfold reject_leaf. rewrite Hn. eexists. cbn.
  rewrite (lookup_insert_same _ _ _ _ Hn). auto.
Qed.

Lemma resolve_leaf_keeps v s c q :
  fulfilled_with v s q -> fulfilled_with v (resolve_leaf v s c) q.
Proof.
  intros (n & Hn & Hs). destruct (decide (c = q)) as [->|Hne].
  - apply resolve_leaf_fulfilled. eauto.
  - exists n. rewrite resolve_leaf_lookup_ne by exact Hne. auto.
Qed.

Lemma reject_leaf_keeps r s c q :
  rejected_with r s q -> rejected_with r (reject_leaf r s c) q.
Proof.
  intros (n & Hn & Hs). destruct (decide (c = q)) as [->|Hne].
  - apply reject_leaf_rejected. eauto.
  - exists n. rewrite reject_leaf_lookup_ne by exact Hne. auto.
Qed.

Lemma resolve_leaf_trace v s c :
  is_Some (promises s !! c) -> trace (resolve_leaf v s c) = EvResolve c v :: trace s.
Proof. intros [n Hn]. unfold resolve_leaf. rewrite Hn. reflexivity. Qed.

Lemma reject_leaf_trace r s c :
  is_Some (promises s !! c) -> trace (reject_leaf r s c) = EvReject c r :: trace s.
Proof. intros [n Hn]. unfold reject_leaf. rewrite Hn. reflexivity. Qed.

(** The outcome of resolving, or rejecting, a list of bare leaves in turn. *)
Lemma foldl_resolve_leaf v cs : forall s,
  (forall c, c ∈ cs -> bare_leaf s c) ->
  leaf_settled s (foldl (resolve_leaf v) s cs) /\
  (forall c, c ∈ cs -> fulfilled_with v (foldl (resolve_leaf v) s cs) c) /\
  trace (foldl (resolve_leaf v) s cs) =
    (rev (map (fun c => EvResolve c v) cs) ++ trace s)%list.
Proof.
  induction cs as [|c cs IH]; intros s Hb; cbn [foldl].
  - split; [apply leaf_settled_refl|]. split; [intros c Hc; inversion Hc | reflexivity].
  - assert (Hc : bare_leaf s c) by (apply Hb; left).
    pose proof (leaf_settled_resolve_leaf s c v Hc) as Hstep.
    destruct (IH (resolve_leaf v s c)) as (Hls & Hful & Htr).
    { intros c' Hc'. apply (bare_leaf_preserved s _ c' Hstep). apply Hb. right. exact Hc'. }
    split; [eapply leaf_settled_trans; eassumption|]. split.
    + intros c' Hc'. apply elem_of_cons in Hc' as [->|Hc']; [|apply Hful, Hc'].
      clear -Hc. destruct Hc as (n & Hn & _).
      assert (H0 : fulfilled_with v (resolve_leaf v s c) c)
        by (apply resolve_leaf_fulfilled; eauto).
      revert H0. generalize (resolve_leaf v s c). induction cs as [|d cs IHcs]; intros s0 H0.
      * exact H0.
      * cbn [foldl]. apply IHcs, resolve_leaf_keeps, H0.
    + rewrite Htr, resolve_leaf_trace by (destruct Hc as (n & Hn & _); eauto).
      cbn [map rev]. rewrite <- app_assoc. reflexivity.
Qed.

Lemma foldl_reject_leaf r cs : forall s,
  (forall c, c ∈ cs -> bare_leaf s c) ->
  leaf_settled s (foldl (reject_leaf r) s cs) /\
  (forall c, c ∈ cs -> rejected_with r (foldl (reject_leaf r) s cs) c) /\
  trace (foldl (reject_leaf r) s cs) =
    (rev (map (fun c => EvReject c r) cs) ++ trace s)%list.
Proof.
  induction cs as [|c cs IH]; intros s Hb; cbn [foldl].
  - split; [apply leaf_settled_refl|]. split; [intros c Hc; inversion Hc | reflexivity].
  - assert (Hc : bare_leaf s c) by (apply Hb; left).
    pose proof (leaf_settled_reject_leaf s c r Hc) as Hstep.
    destruct (IH (reject_leaf r s c)) as (Hls & Hful & Htr).
    { intros c' Hc'. apply (bare_leaf_preserved s _ c' Hstep). apply Hb. right. exact Hc'. }
    split; [eapply leaf_settled_trans; eassumption|]. split.
    + intros c' Hc'. apply elem_of_cons in Hc' as [->|Hc']; [|apply Hful, Hc'].
      clear -Hc. destruct Hc as (n & Hn & _).
      assert (H0 : rejected_with r (reject_leaf r s c) c)
        by (apply reject_leaf_rejected; eauto).
      revert H0. generalize (reject_leaf r s c). induction cs as [|d cs IHcs]; intros s0 H0.
      * exact H0.
      * cbn [foldl]. apply IHcs, reject_leaf_keeps, H0.
    + rewrite Htr, reject_leaf_trace by (destruct Hc as (n & Hn & _); eauto).
      cbn [map rev]. rewrite <- app_assoc. reflexivity.
Qed.

(** The three loops of the routines, run over bare leaves. *)
Section FanOut.
Variable fuel : nat.
Variable s0 : store.
Variable arr : ref.
Variable cs : list ref.
Hypothesis Harr : arrays s0 !! arr = Some cs.
Hypothesis Hleaves : forall c, c ∈ cs -> bare_leaf s0 c.
Hypothesis Hfuel : length cs <= S fuel.

Lemma fan_out_resolve v :
  for_of (S (S fuel)) arr 0
    (fun child => bind (_resolve (S (S fuel)) child v) (fun _ => ret tt)) s0
  = Normal tt (foldl (resolve_leaf v) s0 cs).
Proof.
  refine (proj1 (for_of_foldl _ (resolve_leaf v) (leaf_settled s0) arr cs _ _
                   (S (S fuel)) 0 s0 (leaf_settled_refl s0) _)).
  - intros s Hs. rewrite (ls_arrays _ _ Hs). exact Harr.
  - intros s c Hs Hc.
    assert (Hb : bare_leaf s c) by (eapply bare_leaf_preserved; eauto).
    rewrite (bind_Normal _ _ _ _ _ (resolve_bare_leaf fuel s c v Hb)).
    split; [reflexivity|].
    eapply leaf_settled_trans; [exact Hs | apply leaf_settled_resolve_leaf, Hb].
  - lia.
Qed.

Variable this : ref.
Variable nt : InternalPromise.
Hypothesis Hthis : promises s0 !! this = Some nt.
Hypothesis Hnotin : this ∉ cs.

Let I (s : store) : Prop := leaf_settled s0 s /\ promises s !! this = Some nt.

Lemma fan_out_moved_resolve :
  for_of (S (S fuel)) arr 0
    (fun child =>
       bind (read this) (fun n =>
       bind (_resolve (S (S fuel)) child (_result n)) (fun _ => ret tt))) s0
  = Normal tt (foldl (resolve_leaf (_result nt)) s0 cs).
Proof.
  refine (proj1 (for_of_foldl _ (resolve_leaf (_result nt)) I arr cs _ _
                   (S (S fuel)) 0 s0 (conj (leaf_settled_refl s0) Hthis) _)).
  - intros s [Hs _]. rewrite (ls_arrays _ _ Hs). exact Harr.
  - intros s c [Hs Ht] Hc.
    assert (Hb : bare_leaf s c) by (eapply bare_leaf_preserved; eauto).
    unfold read, bind at 1. rewrite Ht.
    rewrite (bind_Normal _ _ _ _ _ (resolve_bare_leaf fuel s c _ Hb)).
    split; [reflexivity|]. split.
    + eapply leaf_settled_trans; [exact Hs | apply leaf_settled_resolve_leaf, Hb].
    + rewrite resolve_leaf_lookup_ne; [exact Ht | intros ->; contradiction].
  - lia.
Qed.

Lemma fan_out_moved_reject :
  for_of (S (S fuel)) arr 0
    (fun child =>
       bind (read this) (fun n => _reject (S (S fuel)) child (_reason n))) s0
  = Normal tt (foldl (reject_leaf (_reason nt)) s0 cs).
Proof.
  refine (proj1 (for_of_foldl _ (reject_leaf (_reason nt)) I arr cs _ _
                   (S (S fuel)) 0 s0 (conj (leaf_settled_refl s0) Hthis) _)).
  - intros s [Hs _]. rewrite (ls_arrays _ _ Hs). exact Harr.
  - intros s c [Hs Ht] Hc.
    assert (Hb : bare_leaf s c) by (eapply bare_leaf_preserved; eauto).
    unfold read, bind at 1. rewrite Ht.
    rewrite (reject_bare_leaf fuel s c _ Hb).
    split; [reflexivity|]. split.
    + eapply leaf_settled_trans; [exact Hs | apply leaf_settled_reject_leaf, Hb].
    + rewrite reject_leaf_lookup_ne; [exact Ht | intros ->; contradiction].
  - lia.
Qed.

Lemma fan_out_reject r :
  for_of (S (S fuel)) arr 0
    (fun child =>
       bind (read this) (fun n =>
         if _rejectWasConsumed n
         then bind (_resolve (S (S fuel)) child VNull) (fun _ => ret tt)
         else _reject (S (S fuel)) child r)) s0
  = Normal tt
      (if _rejectWasConsumed nt then foldl (resolve_leaf VNull) s0 cs
       else foldl (reject_leaf r) s0 cs).
Proof.
  destruct (_rejectWasConsumed nt) eqn:Hflag.
  - refine (proj1 (for_of_foldl _ (resolve_leaf VNull) I arr cs _ _
                     (S (S fuel)) 0 s0 (conj (leaf_settled_refl s0) Hthis) _)).
    + intros s [Hs _]. rewrite (ls_arrays _ _ Hs). exact Harr.
    + intros s c [Hs Ht] Hc.
      assert (Hb : bare_leaf s c) by (eapply bare_leaf_preserved; eauto).
      unfold read, bind at 1. rewrite Ht, Hflag.
      rewrite (bind_Normal _ _ _ _ _ (resolve_bare_leaf fuel s c _ Hb)).
      split; [reflexivity|]. split.
      * eapply leaf_settled_trans; [exact Hs | apply leaf_settled_resolve_leaf, Hb].
      * rewrite resolve_leaf_lookup_ne; [exact Ht | intros ->; contradiction].
    + lia.
  - refine (proj1 (for_of_foldl _ (reject_leaf r) I arr cs _ _
                     (S (S fuel)) 0 s0 (conj (leaf_settled_refl s0) Hthis) _)).
    + intros s [Hs _]. rewrite (ls_arrays _ _ Hs). exact Harr.
    + intros s c [Hs Ht] Hc.
      assert (Hb : bare_leaf s c) by (eapply bare_leaf_preserved; eauto).
      unfold read, bind at 1. rewrite Ht, Hflag.
      rewrite (reject_bare_leaf fuel s c _ Hb).
      split; [reflexivity|]. split.
      * eapply leaf_settled_trans; [exact Hs | apply leaf_settled_reject_leaf, Hb].
      * rewrite reject_leaf_lookup_ne; [exact Ht | intros ->; contradiction].
    + lia.
Qed.
End FanOut.

Lemma bare_leaf_settled_other s p n' evs c :
  c <> p -> bare_leaf s c -> bare_leaf (settled p n' evs s) c.
Proof.
  intros Hne (n & Hn & H). exists n. cbn.
  rewrite list_lookup_insert_ne by congruence. auto.
Qed.

Lemma parent_not_among_leaves s this n cs :
  promises s !! this = Some n ->
  arrays s !! _children n = Some cs ->
  (forall c, c ∈ cs -> bare_leaf s c) ->
  this ∉ cs.
Proof.
  intros Hn Ha Hb Hin. destruct (Hb this Hin) as (n' & Hn' & _ & _ & Ha').
  assert (n' = n) as -> by congruence.
  assert (cs = []) as -> by congruence. inversion Hin.
Qed.

(** ** Rejection and its consumption *)

Section RejectFanOut.
Variable fuel : nat.
Variable s : store.
Variable this : ref.
Variable n : InternalPromise.
Variable R : jsvalue.
Variable cs : list ref.
Hypothesis Hn : promises s !! this = Some n.
Hypothesis Ha : arrays s !! _children n = Some cs.
Hypothesis Hleaves : forall c, c ∈ cs -> bare_leaf s c.
Hypothesis Hfuel : length cs <= S fuel.

(** With a handler that returns: the handler is called, the flag is set and
    the children are resolved with [null]. *)
Lemma reject_consumed h :
  _onRejected n = Some (UserRejected h) -> h R = None ->
  _reject (S (S (S fuel))) this R s =
    Normal tt
      (foldl (resolve_leaf VNull)
         (settled this (with_rejectWasConsumed true (with_reason R (with_state Rejected n)))
            [EvOnRejected this R; EvReject this R] s) cs).
Proof.
  intros Hh Hret.
  pose proof (parent_not_among_leaves s this n cs Hn Ha Hleaves) as Hnotin.
  rewrite _reject_S. unfold reject_body.
  set (body := fun child : nat => bind (read this) _).
  js_unfold. js_step. rewrite Hh. js_step. rewrite Hret. js_step.
  subst body.
  match goal with
  | |- for_of _ _ _ _ ?s1 = _ =>
      change s1 with
        (settled this (with_rejectWasConsumed true (with_reason R (with_state Rejected n)))
           [EvOnRejected this R; EvReject this R] s)
  end.
  rewrite (fan_out_reject fuel
             (settled this
                (with_rejectWasConsumed true (with_reason R (with_state Rejected n)))
                [EvOnRejected this R; EvReject this R] s)
             (_children n) cs Ha) with (this := this)
    (nt := with_rejectWasConsumed true (with_reason R (with_state Rejected n))).
  - reflexivity.
  - intros c Hc. apply bare_leaf_settled_other; [intros ->; contradiction | auto].
  - exact Hfuel.
  - apply (lookup_insert_same _ _ _ _ Hn).
  - exact Hnotin.
Qed.

(** Without a handler: the children are rejected with the same reason. *)
Lemma reject_propagated :
  _onRejected n = None -> _rejectWasConsumed n = false ->
  _reject (S (S (S fuel))) this R s =
    Normal tt
      (foldl (reject_leaf R)
         (settled this (with_reason R (with_state Rejected n)) [EvReject this R] s) cs).
Proof.
  intros Hh Hflag.
  pose proof (parent_not_among_leaves s this n cs Hn Ha Hleaves) as Hnotin.
  rewrite _reject_S. unfold reject_body.
  set (body := fun child : nat => bind (read this) _).
  js_unfold. js_step. rewrite Hh. js_step.
  subst body.
  match goal with
  | |- for_of _ _ _ _ ?s1 = _ =>
      change s1 with
        (settled this (with_reason R (with_state Rejected n)) [EvReject this R] s)
  end.
  rewrite (fan_out_reject fuel
             (settled this (with_reason R (with_state Rejected n)) [EvReject this R] s)
             (_children n) cs Ha) with (this := this)
    (nt := with_reason R (with_state Rejected n)).
  - cbn. rewrite Hflag. reflexivity.
  - intros c Hc. apply bare_leaf_settled_other; [intros ->; contradiction | auto].
  - exact Hfuel.
  - apply (lookup_insert_same _ _ _ _ Hn).
  - exact Hnotin.
Qed.
End RejectFanOut.

(** ** More fuel changes nothing

    A run that ends with some bound on the depth ends the same way with any
    larger bound. *)

Definition refines {A} (m1 m2 : M A) : Prop :=
  forall s, m1 s <> OutOfFuel -> m2 s = m1 s.

Lemma refines_refl {A} (m : M A) : refines m m.
Proof. intros s _. reflexivity. Qed.

Lemma refines_bind {A B} (m1 m2 : M A) (k1 k2 : A -> M B) :
  refines m1 m2 -> (forall a, refines (k1 a) (k2 a)) ->
  refines (bind m1 k1) (bind m2 k2).
Proof.
  intros Hm Hk s. unfold bind. intros H.
  rewrite (Hm s) by (intros E; rewrite E in H; congruence).
  destruct (m1 s) as [a s1|e s1| |]; try reflexivity.
  apply Hk, H.
Qed.

Lemma refines_try_catch {A} (m1 m2 : M A) (h1 h2 : string -> M A) :
  refines m1 m2 -> (forall e, refines (h1 e) (h2 e)) ->
  refines (try_catch m1 h1) (try_catch m2 h2).
Proof.
  intros Hm Hh s. unfold try_catch. intros H.
  rewrite (Hm s) by (intros E; rewrite E in H; congruence).
  destruct (m1 s) as [a s1|e s1| |]; try reflexivity.
  apply Hh, H.
Qed.

Lemma refines_for_of n m arr (b1 b2 : ref -> M unit) :
  n <= m -> (forall c, refines (b1 c) (b2 c)) ->
  forall i, refines (for_of n arr i b1) (for_of m arr i b2).
Proof.
  intros Hnm Hb. revert m Hnm. induction n as [|n IH]; intros m Hnm i.
  - intros s H. cbn in H. congruence.
  - destruct m as [|m]; [lia|]. cbn [for_of].
    apply refines_bind; [apply refines_refl|]. intros l.
    destruct (l !! i); [|apply refines_refl].
    apply refines_bind; [apply Hb|]. intros _. apply IH. lia.
Qed.

(** Compare two computations of the same shape step by step. *)
Ltac refines_tac :=
  repeat first
    [ assumption
    | apply refines_refl
    | apply refines_bind; [|intros ?]
    | apply refines_try_catch; [|intros ?]
    | apply refines_for_of; [lia | intros ?]
    | match goal with
      | H : forall _ _, refines _ _ |- _ => apply H
      | |- refines (match ?x with _ => _ end) _ => destruct x
      | |- refines (if ?x then _ else _) _ => destruct x
      end ].

Section RoutinesRefine.
Variables (resolve1 resolve2 : ref -> jsvalue -> M jsvalue).
Variables (reject1 reject2 : ref -> jsvalue -> M unit).
Variables (move1 move2 : ref -> ref -> M unit).
Variables (n m : nat).
Hypothesis Hnm : n <= m.
Hypothesis Hresolve : forall p v, refines (resolve1 p v) (resolve2 p v).
Hypothesis Hreject : forall p r, refines (reject1 p r) (reject2 p r).
Hypothesis Hmove : forall p c, refines (move1 p c) (move2 p c).

Lemma refines_call_onFulfilled f v :
  refines (call_onFulfilled resolve1 f v) (call_onFulfilled resolve2 f v).
Proof. unfold call_onFulfilled. refines_tac. Qed.

Lemma refines_call_onRejected f r :
  refines (call_onRejected reject1 f r) (call_onRejected reject2 f r).
Proof. unfold call_onRejected. refines_tac. Qed.

Lemma refines_resolve_body this v :
  refines (resolve_body resolve1 reject1 move1 n this v)
          (resolve_body resolve2 reject2 move2 m this v).
Proof.
  unfold resolve_body. pose proof refines_call_onFulfilled. refines_tac.
Qed.

Lemma refines_reject_body this r :
  refines (reject_body resolve1 reject1 n this r)
          (reject_body resolve2 reject2 m this r).
Proof.
  unfold reject_body. pose proof refines_call_onRejected. refines_tac.
Qed.

Lemma refines_moveChildren_body this c :
  refines (moveChildren_body resolve1 reject1 n this c)
          (moveChildren_body resolve2 reject2 m this c).
Proof. unfold moveChildren_body. refines_tac. Qed.
End RoutinesRefine.

Lemma refines_routines n : forall m, n <= m ->
  (forall p v, refines (_resolve n p v) (_resolve m p v)) /\
  (forall p r, refines (_reject n p r) (_reject m p r)) /\
  (forall p c, refines (_moveChildren n p c) (_moveChildren m p c)).
Proof.
  induction n as [|n IH]; intros m Hnm.
  - repeat split; intros ? ? s H; cbn in H; congruence.
  - destruct m as [|m]; [lia|].
    destruct (IH m) as (Hr & Hj & Hm); [lia|].
    repeat split; intros.
    + rewrite !_resolve_S. apply refines_resolve_body; [lia|assumption..].
    + rewrite !_reject_S. apply refines_reject_body; [lia|assumption..].
    + rewrite !_moveChildren_S. apply refines_moveChildren_body; [lia|assumption..].
Qed.

Lemma refines_resolve n m p v : n <= m -> refines (_resolve n p v) (_resolve m p v).
Proof. intros H. apply (refines_routines n m H). Qed.

Lemma refines_reject n m p r : n <= m -> refines (_reject n p r) (_reject m p r).
Proof. intros H. apply (refines_routines n m H). Qed.

Lemma refines_then n m this f g : n <= m -> refines (then_ n this f g) (then_ m this f g).
Proof.
  intros H. unfold then_.
  pose proof (refines_resolve n m) as Hr. pose proof (refines_reject n m) as Hj.
  refines_tac; first [apply Hr | apply Hj]; exact H.
Qed.

Lemma refines_catch n m this g : n <= m -> refines (catch n this g) (catch m this g).
Proof. intros H. apply refines_then, H. Qed.

Lemma refines_static_resolve n m v : n <= m -> refines (resolve n v) (resolve m v).
Proof.
  intros H. unfold resolve. pose proof (refines_resolve n m) as Hr.
  refines_tac. apply Hr, H.
Qed.

Lemma refines_run_resolver_calls n m this cs :
  n <= m -> refines (run_resolver_calls n this cs) (run_resolver_calls m this cs).
Proof.
  intros H. induction cs as [|[v|r] cs IH]; cbn [run_resolver_calls].
  - apply refines_refl.
  - apply refines_bind; [apply refines_resolve, H | intros _; exact IH].
  - apply refines_bind; [apply refines_reject, H | intros _; exact IH].
Qed.

Lemma refines_new_InternalPromise n m resolver :
  n <= m -> refines (new_InternalPromise n resolver) (new_InternalPromise m resolver).
Proof.
  intros H. unfold new_InternalPromise.
  pose proof (refines_run_resolver_calls n m) as Hc.
  pose proof (refines_reject n m) as Hj.
  refines_tac; first [apply Hc | apply Hj]; exact H.
Qed.

Lemma refines_register_from n m ps a : n <= m ->
  forall i, refines (register_from n ps a i) (register_from m ps a i).
Proof.
  intros H. induction ps as [|p ps IH]; intros i; cbn [register_from].
  - apply refines_refl.
  - apply refines_bind; [|intros _; apply IH].
    unfold _RegisterForFulfillment.
    apply refines_bind; [apply refines_then, H | intros _; apply refines_refl].
Qed.

Lemma refines_all n m ps : n <= m -> refines (all n ps) (all m ps).
Proof.
  intros H. unfold all. pose proof (refines_register_from n m) as Hreg.
  refines_tac. apply Hreg, H.
Qed.

(** Scenarios built from the public operations. *)
Ltac refines_fuel H :=
  repeat first
    [ apply refines_refl
    | apply refines_resolve; exact H
    | apply refines_reject; exact H
    | apply refines_then; exact H
    | apply refines_catch; exact H
    | apply refines_static_resolve; exact H
    | apply refines_new_InternalPromise; exact H
    | apply refines_all; exact H
    | apply refines_bind; [|intros ?]
    | match goal with
      | |- refines (match ?x with _ => _ end) _ => destruct x
      | |- refines (if ?x then _ else _) _ => destruct x
      end ].

(** The form in which the lemmas above are used: a result obtained with
    fuel [n] is the result for every larger fuel. *)
Lemma enough_fuel {A} (f : nat -> M A) n s (r : result A) :
  (forall m, n <= m -> refines (f n) (f m)) ->
  f n s = r -> r <> OutOfFuel ->
  forall m, n <= m -> f m s = r.
Proof.
  intros Hf Hr Hne m Hnm. rewrite <- Hr. apply (Hf m Hnm). rewrite Hr. exact Hne.
Qed.

(** The chain of the specification: [B = A.catch(h)], [C = B.then()],
    [D = A.then()], with [A] rejected after the chain is built, or before. *)
Definition chain_then_reject (fuel : nat) (h : jsvalue -> option string) (R : jsvalue)
    : M (ref * ref * ref * ref) :=
  A ← new_InternalPromise fuel None ;
  B ← catch fuel A (UserRejected h) ;
  C ← then_ fuel B None None ;
  D ← then_ fuel A None None ;
  _reject fuel A R ;;
  ret (A, B, C, D).

Definition reject_then_chain (fuel : nat) (h : jsvalue -> option string) (R : jsvalue)
    : M (ref * ref * ref * ref) :=
  A ← new_InternalPromise fuel None ;
  _reject fuel A R ;;
  B ← catch fuel A (UserRejected h) ;
  C ← then_ fuel B None None ;
  D ← then_ fuel A None None ;
  ret (A, B, C, D).

Lemma refines_chain_then_reject n m h R :
  n <= m -> refines (chain_then_reject n h R) (chain_then_reject m h R).
Proof.
  intros H. unfold chain_then_reject. refines_fuel H.
Qed.

Lemma refines_reject_then_chain n m h R :
  n <= m -> refines (reject_then_chain n h R) (reject_then_chain m h R).
Proof.
  intros H. unfold reject_then_chain. refines_fuel H.
Qed.

(** Run the first computation of a sequence on the store it is applied to;
    [tac] rewrites what the callbacks of the scenario answer. *)
Ltac js_phase tac :=
  match goal with
  | |- bind ?m ?k ?s = _ =>
      let v := eval vm_compute in (m s) in
      let E := fresh "E" in
      assert (E : m s = v) by (vm_compute; reflexivity);
      tac E; cbv beta iota in E;
      rewrite (bind_Normal m k s _ _ E); clear E; cbv beta
  end.

Lemma chain_then_reject_run fuel h R :
  h R = None -> 4 <= fuel ->
  exists s',
    chain_then_reject fuel h R empty_store = Normal (0, 1, 2, 3) s' /\
    trace s' = [EvReject 3 R; EvResolve 2 VNull; EvOnRejected 1 R; EvReject 1 R;
                EvReject 0 R] /\
    fulfilled_with VNull s' 2 /\ rejected_with R s' 3.
Proof.
  intros Hret Hfuel.
  assert (H4 : exists s', chain_then_reject 4 h R empty_store = Normal (0, 1, 2, 3) s' /\
             trace s' = [EvReject 3 R; EvResolve 2 VNull; EvOnRejected 1 R; EvReject 1 R;
                         EvReject 0 R] /\
             fulfilled_with VNull s' 2 /\ rejected_with R s' 3).
  { eexists. split.
    - unfold chain_then_reject.
      do 5 js_phase ltac:(fun E => rewrite ?Hret in E). reflexivity.
    - split; [reflexivity|]. split; eexists; cbn; eauto. }
  destruct H4 as (s' & Hrun & Hprops). exists s'. split; [|exact Hprops].
  apply (enough_fuel (fun n => chain_then_reject n h R) 4 empty_store);
    [intros m Hm; apply refines_chain_then_reject, Hm | exact Hrun | discriminate
    | exact Hfuel].
Qed.

Lemma reject_then_chain_run fuel h R :
  h R = None -> 2 <= fuel ->
  exists s',
    reject_then_chain fuel h R empty_store = Normal (0, 1, 2, 3) s' /\
    trace s' = [EvReject 3 R; EvResolve 2 VUndefined; EvOnRejected 1 R; EvReject 1 R;
                EvReject 0 R] /\
    fulfilled_with VUndefined s' 2 /\ rejected_with R s' 3.
Proof.
  intros Hret Hfuel.
  assert (H2 : exists s', reject_then_chain 2 h R empty_store = Normal (0, 1, 2, 3) s' /\
             trace s' = [EvReject 3 R; EvResolve 2 VUndefined; EvOnRejected 1 R;
                         EvReject 1 R; EvReject 0 R] /\
             fulfilled_with VUndefined s' 2 /\ rejected_with R s' 3).
  { eexists. split.
    - unfold reject_then_chain.
      do 5 js_phase ltac:(fun E => rewrite ?Hret in E). reflexivity.
    - split; [reflexivity|]. split; eexists; cbn; eauto. }
  destruct H2 as (s' & Hrun & Hprops). exists s'. split; [|exact Hprops].
  apply (enough_fuel (fun n => reject_then_chain n h R) 2 empty_store);
    [intros m Hm; apply refines_reject_then_chain, Hm | exact Hrun | discriminate
    | exact Hfuel].
Qed.

Lemma foldl_resolve_leaf_notin v cs q : forall s,
  q ∉ cs -> promises (foldl (resolve_leaf v) s cs) !! q = promises s !! q.
Proof.
  induction cs as [|c cs IH]; intros s Hq; [reflexivity|].
  cbn [foldl]. apply not_elem_of_cons in Hq as [Hne Hq].
  rewrite IH by exact Hq. apply resolve_leaf_lookup_ne. congruence.
Qed.

Lemma foldl_reject_leaf_notin r cs q : forall s,
  q ∉ cs -> promises (foldl (reject_leaf r) s cs) !! q = promises s !! q.
Proof.
  induction cs as [|c cs IH]; intros s Hq; [reflexivity|].
  cbn [foldl]. apply not_elem_of_cons in Hq as [Hne Hq].
  rewrite IH by exact Hq. apply reject_leaf_lookup_ne. congruence.
Qed.

(** ** Handing the children over to a returned promise *)

(** The store after [this._children = children.splice(0, children.length)]
    on promise [r], where [children] is the array [arr] holding [cs]. *)
Definition spliced (r : ref) (nr : InternalPromise) (arr : ref) (cs : list ref)
    (s : store) : store :=
  {| promises := <[r := with_children (length (arrays s)) nr]> (promises s);
     arrays := (<[arr := []]> (arrays s) ++ [cs])%list;
     agregators := agregators s;
     trace := trace s |}.

Lemma bare_leaf_spliced s r nr arr cs c :
  arrays s !! arr = Some cs -> c ∈ cs -> c <> r ->
  bare_leaf s c -> bare_leaf (spliced r nr arr cs s) c.
Proof.
  intros Harr Hin Hne (nc & Hc & Hf & Hr & Ha). exists nc. cbn.
  rewrite list_lookup_insert_ne by congruence.
  repeat split; try assumption.
  assert (_children nc <> arr).
  { intros E. rewrite E in Ha. assert (cs = []) as -> by congruence. inversion Hin. }
  rewrite lookup_app_l by (rewrite length_insert; eapply lookup_lt_Some, Ha).
  rewrite list_lookup_insert_ne by congruence. exact Ha.
Qed.

Lemma moveChildren_onto fuel s r nr arr cs :
  promises s !! r = Some nr ->
  arrays s !! arr = Some cs ->
  (forall c, c ∈ cs -> bare_leaf s c) ->
  r ∉ cs ->
  length cs <= S fuel ->
  _moveChildren (S (S (S fuel))) r arr s =
    Normal tt
      match _state nr with
      | Fulfilled => foldl (resolve_leaf (_result nr)) (spliced r nr arr cs s) cs
      | Rejected => foldl (reject_leaf (_reason nr)) (spliced r nr arr cs s) cs
      | Pending => spliced r nr arr cs s
      end.
Proof.
  intros Hr Harr Hleaves Hnotin Hfuel.
  assert (Hl : forall c, c ∈ cs -> bare_leaf (spliced r nr arr cs s) c).
  { intros c Hc. apply bare_leaf_spliced; auto. intros ->. contradiction. }
  assert (Hnew : arrays (spliced r nr arr cs s) !! length (arrays s) = Some cs).
  { cbn. rewrite lookup_app_r by (rewrite length_insert; lia).
    rewrite length_insert, Nat.sub_diag. reflexivity. }
  assert (Hr' : promises (spliced r nr arr cs s) !! r = Some (with_children (length (arrays s)) nr)).
  { cbn. apply (lookup_insert_same _ _ _ _ Hr). }
  rewrite _moveChildren_S. unfold moveChildren_body.
  set (body1 := fun child : nat => bind (read r) (fun n => bind (_resolve _ _ _) _)).
  set (body2 := fun child : nat => bind (read r) (fun n => _reject _ _ _)).
  js_unfold. js_step. rewrite length_insert.
  change {| promises := <[r:=with_children (length (arrays s)) nr]> (promises s);
            arrays := <[arr:=[]]> (arrays s) ++ [cs];
            agregators := agregators s; trace := trace s |}
    with (spliced r nr arr cs s).
  subst body1 body2.
  destruct (_state nr) eqn:Est;
    repeat (first [rewrite Est | case_bool_decide | progress js_step]);
    try congruence.
  - apply (fan_out_moved_resolve fuel _ _ cs Hnew Hl Hfuel r _ Hr' Hnotin).
  - apply (fan_out_moved_reject fuel _ _ cs Hnew Hl Hfuel r _ Hr' Hnotin).
Qed.

(** ** Fulfilment and its fan-out *)

Section ResolveFanOut.
Variable fuel : nat.
Variable s : store.
Variable this : ref.
Variable n : InternalPromise.
Variable v : jsvalue.
Variable cs : list ref.
Hypothesis Hn : promises s !! this = Some n.
Hypothesis Ha : arrays s !! _children n = Some cs.
Hypothesis Hleaves : forall c, c ∈ cs -> bare_leaf s c.
Hypothesis Hfuel : length cs <= S fuel.

(** No continuation: the children are resolved with the value. *)
Lemma resolve_no_continuation :
  _onFulfilled n = None ->
  _resolve (S (S (S fuel))) this v s =
    Normal VNull
      (foldl (resolve_leaf v)
         (settled this (with_result v (with_state Fulfilled n)) [EvResolve this v] s) cs).
Proof.
  intros Hf.
  pose proof (parent_not_among_leaves s this n cs Hn Ha Hleaves) as Hnotin.
  rewrite _resolve_S. unfold resolve_body.
  set (body := fun child : nat => bind (_resolve _ child _) _).
  js_unfold. js_step. rewrite Hf. js_step. subst body.
  rewrite (fan_out_resolve fuel
             (settled this (with_result v (with_state Fulfilled n)) [EvResolve this v] s)
             (_children n) cs Ha).
  - reflexivity.
  - intros c Hc. apply bare_leaf_settled_other; [intros ->; contradiction | auto].
  - exact Hfuel.
Qed.

(** A continuation that returns something that is not a promise: the
    children are resolved with the value the node was resolved with. *)
Lemma resolve_plain_return f w :
  _onFulfilled n = Some (UserFulfilled f) -> f v = Return w -> as_promise w = None ->
  _resolve (S (S (S fuel))) this v s =
    Normal w
      (foldl (resolve_leaf v)
         (settled this (with_result v (with_state Fulfilled n))
            [EvOnFulfilled this v; EvResolve this v] s) cs).
Proof.
  intros Hf Hret Hw.
  pose proof (parent_not_among_leaves s this n cs Hn Ha Hleaves) as Hnotin.
  rewrite _resolve_S. unfold resolve_body.
  set (body := fun child : nat => bind (_resolve _ child _) _).
  js_unfold. js_step. rewrite Hf. js_step. rewrite Hret. js_step.
  rewrite Hw. destruct (negb (is_nullish w)); js_step; subst body;
  rewrite (fan_out_resolve fuel
             (settled this (with_result v (with_state Fulfilled n))
                [EvOnFulfilled this v; EvResolve this v] s)
             (_children n) cs Ha); try reflexivity; try exact Hfuel;
  intros c Hc; (apply bare_leaf_settled_other; [intros ->; contradiction | auto]).
Qed.
End ResolveFanOut.

(** The store after [r._moveChildren(arr)]: the children [cs] of [arr] now
    belong to [r] and have been settled the way [r] is settled. *)
Definition handed_over (r : ref) (nr : InternalPromise) (arr : ref) (cs : list ref)
    (s : store) : store :=
  match _state nr with
  | Fulfilled => foldl (resolve_leaf (_result nr)) (spliced r nr arr cs s) cs
  | Rejected => foldl (reject_leaf (_reason nr)) (spliced r nr arr cs s) cs
  | Pending => spliced r nr arr cs s
  end.

Section HandedOver.
Variable s : store.
Variable r : ref.
Variable nr : InternalPromise.
Variable arr : ref.
Variable cs : list ref.
Hypothesis Hr : promises s !! r = Some nr.
Hypothesis Harr : arrays s !! arr = Some cs.
Hypothesis Hleaves : forall c, c ∈ cs -> bare_leaf s c.
Hypothesis Hnotin : r ∉ cs.

Lemma spliced_leaves c : c ∈ cs -> bare_leaf (spliced r nr arr cs s) c.
Proof. intros Hc. apply bare_leaf_spliced; auto. intros ->. contradiction. Qed.

Lemma handed_over_arrays :
  arrays (handed_over r nr arr cs s) = (<[arr := []]> (arrays s) ++ [cs])%list.
Proof.
  unfold handed_over. destruct (_state nr); [reflexivity| |].
  - destruct (foldl_resolve_leaf (_result nr) cs _ spliced_leaves) as (H & _).
    apply (ls_arrays _ _ H).
  - destruct (foldl_reject_leaf (_reason nr) cs _ spliced_leaves) as (H & _).
    apply (ls_arrays _ _ H).
Qed.

Lemma handed_over_agregators :
  agregators (handed_over r nr arr cs s) = agregators s.
Proof.
  unfold handed_over. destruct (_state nr); [reflexivity| |].
  - destruct (foldl_resolve_leaf (_result nr) cs _ spliced_leaves) as (H & _).
    apply (ls_agregators _ _ H).
  - destruct (foldl_reject_leaf (_reason nr) cs _ spliced_leaves) as (H & _).
    apply (ls_agregators _ _ H).
Qed.

Lemma handed_over_old_array : arrays (handed_over r nr arr cs s) !! arr = Some [].
Proof.
  rewrite handed_over_arrays.
  rewrite lookup_app_l by (rewrite length_insert; eapply lookup_lt_Some, Harr).
  apply (lookup_insert_same _ _ _ _ Harr).
Qed.

Lemma handed_over_new_array :
  arrays (handed_over r nr arr cs s) !! length (arrays s) = Some cs.
Proof.
  rewrite handed_over_arrays.
  rewrite lookup_app_r by (rewrite length_insert; lia).
  rewrite length_insert, Nat.sub_diag. reflexivity.
Qed.

Lemma handed_over_other q :
  q ∉ cs -> q <> r -> promises (handed_over r nr arr cs s) !! q = promises s !! q.
Proof.
  intros Hq Hne. unfold handed_over.
  destruct (_state nr);
    rewrite ?foldl_resolve_leaf_notin, ?foldl_reject_leaf_notin by exact Hq;
    cbn; apply list_lookup_insert_ne; congruence.
Qed.

Lemma handed_over_receiver :
  promises (handed_over r nr arr cs s) !! r = Some (with_children (length (arrays s)) nr).
Proof.
  unfold handed_over.
  destruct (_state nr);
    rewrite ?foldl_resolve_leaf_notin, ?foldl_reject_leaf_notin by exact Hnotin;
    cbn; apply (lookup_insert_same _ _ _ _ Hr).
Qed.

Lemma handed_over_children c :
  c ∈ cs ->
  match _state nr with
  | Fulfilled => fulfilled_with (_result nr) (handed_over r nr arr cs s) c
  | Rejected => rejected_with (_reason nr) (handed_over r nr arr cs s) c
  | Pending => promises (handed_over r nr arr cs s) !! c = promises s !! c
  end.
Proof.
  intros Hc. unfold handed_over. destruct (_state nr).
  - cbn. apply list_lookup_insert_ne. intros ->. contradiction.
  - destruct (foldl_resolve_leaf (_result nr) cs _ spliced_leaves) as (_ & H & _). auto.
  - destruct (foldl_reject_leaf (_reason nr) cs _ spliced_leaves) as (_ & H & _). auto.
Qed.

Lemma handed_over_trace :
  trace (handed_over r nr arr cs s) =
    (match _state nr with
     | Fulfilled => rev (map (fun c => EvResolve c (_result nr)) cs)
     | Rejected => rev (map (fun c => EvReject c (_reason nr)) cs)
     | Pending => []
     end ++ trace s)%list.
Proof.
  unfold handed_over. destruct (_state nr); [reflexivity| |].
  - destruct (foldl_resolve_leaf (_result nr) cs _ spliced_leaves) as (_ & _ & H). exact H.
  - destruct (foldl_reject_leaf (_reason nr) cs _ spliced_leaves) as (_ & _ & H). exact H.
Qed.
End HandedOver.

Section ResolveHandOver.
Variable fuel : nat.
Variable s : store.
Variable this : ref.
Variable n : InternalPromise.
Variable v : jsvalue.
Variable cs : list ref.
Hypothesis Hn : promises s !! this = Some n.
Hypothesis Ha : arrays s !! _children n = Some cs.
Hypothesis Hleaves : forall c, c ∈ cs -> bare_leaf s c.
Hypothesis Hfuel : length cs <= S fuel.

Local Abbreviation s1 :=
  (settled this (with_result v (with_state Fulfilled n))
     [EvOnFulfilled this v; EvResolve this v] s).

(** A continuation that returns an existing promise [r]. *)
Lemma resolve_promise_return f r nr :
  _onFulfilled n = Some (UserFulfilled f) -> f v = Return (VPromise r) ->
  promises s !! r = Some nr -> r <> this -> r ∉ cs ->
  _resolve (S (S (S (S fuel)))) this v s =
    Normal (VPromise r) (handed_over r nr (_children n) cs s1).
Proof.
  intros Hf Hret Hr Hne Hrnotin.
  pose proof (parent_not_among_leaves s this n cs Hn Ha Hleaves) as Hnotin.
  assert (Hr1 : promises s1 !! r = Some nr).
  { cbn. rewrite list_lookup_insert_ne by congruence. exact Hr. }
  assert (Hl1 : forall c, c ∈ cs -> bare_leaf s1 c).
  { intros c Hc. apply bare_leaf_settled_other; [intros ->; contradiction | auto]. }
  assert (Ha1 : arrays s1 !! _children n = Some cs) by exact Ha.
  rewrite _resolve_S. unfold resolve_body.
  set (body := fun child : nat => bind (_resolve _ child _) _).
  js_unfold. js_step. rewrite Hf. js_step. rewrite Hret. js_step.
  match goal with |- context [_moveChildren _ _ _ ?st] => change st with s1 end.
  rewrite (moveChildren_onto fuel s1 r nr (_children n) cs Hr1 Ha1 Hl1 Hrnotin Hfuel).
  fold (handed_over r nr (_children n) cs s1).
  rewrite (handed_over_other s1 r nr (_children n) cs this Hnotin) by congruence.
  cbn [settled promises]. rewrite (lookup_insert_same _ _ _ _ Hn). js_step.
  rewrite (for_of_end _ _ [] 0 body _
             (handed_over_old_array s1 r nr (_children n) cs Ha1 Hl1 Hrnotin)) by (cbn; lia).
  reflexivity.
Qed.
End ResolveHandOver.

(** ** [InternalPromise.resolve(v)] *)

Definition fresh_fulfilled (w : jsvalue) (a : ref) : InternalPromise :=
  {| _state := Fulfilled; _result := w; _reason := VUndefined; _children := a;
     _onFulfilled := None; _onRejected := None; _rejectWasConsumed := false |}.

(** The store after [InternalPromise.resolve(w)]: one more promise, already
    Fulfilled with [w], and its empty array of children. *)
Definition with_fresh (w : jsvalue) (s : store) : store :=
  {| promises := (promises s ++ [fresh_fulfilled w (length (arrays s))])%list;
     arrays := (arrays s ++ [[]])%list;
     agregators := agregators s;
     trace := EvResolve (length (promises s)) w :: trace s |}.

Lemma alloc_then_resolve (fuel : nat) (w : jsvalue) (s : store) {A} (k : ref -> M A) :
  bind alloc_promise (fun p => bind (_resolve (S (S fuel)) p w) (fun _ => k p)) s =
  k (length (promises s)) (with_fresh w s).
Proof.
  unfold alloc_promise. unfold bind at 1 2. unfold new_array.
  cbn [promises arrays agregators trace].
  match goal with
  | |- bind (_resolve _ ?p _) _ ?st = _ =>
      rewrite (bind_Normal _ _ _ _ _
                 (resolve_bare fuel st p
                    {| _state := Pending; _result := VUndefined; _reason := VUndefined;
                       _children := length (arrays s); _onFulfilled := None;
                       _onRejected := None; _rejectWasConsumed := false |} w
                    (list_lookup_middle _ _ _ _ eq_refl) eq_refl
                    (list_lookup_middle _ _ _ _ eq_refl)))
  end.
  unfold settled, with_fresh. cbn [promises arrays agregators trace].
  rewrite insert_app_r_alt, Nat.sub_diag by lia.
  reflexivity.
Qed.

Lemma static_resolve_run (fuel : nat) (w : jsvalue) (s : store) :
  resolve (S (S fuel)) w s = Normal (length (promises s)) (with_fresh w s).
Proof. unfold resolve. apply (alloc_then_resolve fuel w s ret). Qed.

Lemma call_ReturnResolved fuel f v w s :
  f v = ReturnResolved w ->
  call_onFulfilled (_resolve (S (S fuel))) (UserFulfilled f) v s =
    Normal (VPromise (length (promises s))) (with_fresh w s).
Proof.
  intros Hret. unfold call_onFulfilled. rewrite Hret.
  apply (alloc_then_resolve fuel w s (fun p => ret (VPromise p))).
Qed.

Lemma bare_leaf_with_fresh w s c : bare_leaf s c -> bare_leaf (with_fresh w s) c.
Proof.
  intros (n & Hn & Hf & Hr & Ha). exists n. cbn.
  rewrite !lookup_app_l by (eapply lookup_lt_Some; eassumption). auto.
Qed.

Section ResolveFreshReturn.
Variable fuel : nat.
Variable s : store.
Variable this : ref.
Variable n : InternalPromise.
Variable v : jsvalue.
Variable cs : list ref.
Hypothesis Hn : promises s !! this = Some n.
Hypothesis Ha : arrays s !! _children n = Some cs.
Hypothesis Hleaves : forall c, c ∈ cs -> bare_leaf s c.
Hypothesis Hfuel : length cs <= S fuel.

Local Abbreviation s1 :=
  (settled this (with_result v (with_state Fulfilled n))
     [EvOnFulfilled this v; EvResolve this v] s).

(** A continuation that returns [InternalPromise.resolve(w)]. *)
Lemma resolve_fresh_return f w :
  _onFulfilled n = Some (UserFulfilled f) -> f v = ReturnResolved w ->
  _resolve (S (S (S (S fuel)))) this v s =
    Normal (VPromise (length (promises s)))
      (handed_over (length (promises s)) (fresh_fulfilled w (length (arrays s)))
         (_children n) cs (with_fresh w s1)).
Proof.
  intros Hf Hret.
  pose proof (parent_not_among_leaves s this n cs Hn Ha Hleaves) as Hnotin.
  assert (Hlen : length (promises s1) = length (promises s)) by apply length_insert.
  assert (Hthis : this < length (promises s)) by (eapply lookup_lt_Some, Hn).
  assert (Hr1 : promises (with_fresh w s1) !! length (promises s) =
                Some (fresh_fulfilled w (length (arrays s)))).
  { cbn [with_fresh promises]. rewrite <- Hlen at 1. apply list_lookup_middle. reflexivity. }
  assert (Hl1 : forall c, c ∈ cs -> bare_leaf (with_fresh w s1) c).
  { intros c Hc. apply bare_leaf_with_fresh, bare_leaf_settled_other;
      [intros ->; contradiction | auto]. }
  assert (Ha1 : arrays (with_fresh w s1) !! _children n = Some cs).
  { cbn. rewrite lookup_app_l by (eapply lookup_lt_Some, Ha). exact Ha. }
  assert (Hrnotin : length (promises s) ∉ cs).
  { intros Hin. destruct (Hleaves _ Hin) as (nc & Hc & _).
    apply lookup_lt_Some in Hc. lia. }
  rewrite _resolve_S. unfold resolve_body.
  set (body := fun child : nat => bind (_resolve _ child _) _).
  repeat (progress unfold try_catch, bind, ret, emit, read, update);
    cbv beta; cbn [promises arrays agregators trace].
  js_step. rewrite Hf. js_step.
  match goal with |- context [call_onFulfilled _ _ _ ?st] => change st with s1 end.
  rewrite (call_ReturnResolved (S fuel) f v w s1 Hret), Hlen.
  js_step. cbn [with_fresh promises].
  rewrite lookup_app_l by (cbn; rewrite length_insert; exact Hthis).
  cbn [settled promises]. rewrite (lookup_insert_same _ _ _ _ Hn). js_step.
  rewrite (moveChildren_onto fuel (with_fresh w s1) _ _ (_children n) cs
             Hr1 Ha1 Hl1 Hrnotin Hfuel).
  fold (handed_over (length (promises s)) (fresh_fulfilled w (length (arrays s)))
          (_children n) cs (with_fresh w s1)).
  rewrite (handed_over_other (with_fresh w s1) _ _ (_children n) cs this Hnotin) by lia.
  cbn [with_fresh settled promises].
  rewrite lookup_app_l by (cbn; rewrite length_insert; exact Hthis).
  rewrite (lookup_insert_same _ _ _ _ Hn). js_step.
  rewrite (for_of_end _ _ [] 0 body _
             (handed_over_old_array (with_fresh w s1) _ _ (_children n) cs Ha1 Hl1 Hrnotin))
    by (cbn; lia).
  reflexivity.
Qed.
End ResolveFreshReturn.

Lemma resolve_more_fuel n m p v s r :
  _resolve n p v s = r -> r <> OutOfFuel -> n <= m -> _resolve m p v s = r.
Proof.
  intros Hr Hne Hnm.
  apply (enough_fuel (fun k => _resolve k p v) n s r); auto.
  intros k Hk. apply refines_resolve, Hk.
Qed.

Lemma reject_more_fuel n m p x s r :
  _reject n p x s = r -> r <> OutOfFuel -> n <= m -> _reject m p x s = r.
Proof.
  intros Hr Hne Hnm.
  apply (enough_fuel (fun k => _reject k p x) n s r); auto.
  intros k Hk. apply refines_reject, Hk.
Qed.

(** The chain of C5 and C6: [k = p.then(x => InternalPromise.resolve(42))],
    [c = k.then()], built while [p] is still Pending; then [p] is resolved. *)
Definition pending_parent_chain (fuel : nat) (x : jsvalue) : M (ref * ref * ref) :=
  p ← new_InternalPromise fuel None ;
  k ← then_ fuel p (Some (UserFulfilled (fun _ => ReturnResolved (VNumber 42)))) None ;
  c ← then_ fuel k None None ;
  _resolve fuel p x ;;
  ret (p, k, c).


(** ** [then] *)

(** The child [then] creates, before anything is replayed on it. *)
Definition new_child (f : option onFulfilled_fn) (g : option onRejected_fn) (a : ref)
    : InternalPromise :=
  {| _state := Pending; _result := VUndefined; _reason := VUndefined; _children := a;
     _onFulfilled := f; _onRejected := g; _rejectWasConsumed := false |}.

(** The store after the first half of [then] on promise [this], whose
    children are [pcs]: the new child exists, with its callbacks and its
    empty array, and is the last child of [this]. *)
Definition registered (np : InternalPromise) (pcs : list ref)
    (f : option onFulfilled_fn) (g : option onRejected_fn) (s : store) : store :=
  {| promises := (promises s ++ [new_child f g (length (arrays s))])%list;
     arrays := <[_children np := (pcs ++ [length (promises s)])%list]> (arrays s ++ [[]])%list;
     agregators := agregators s;
     trace := trace s |}.

Section Then.
Variable fuel : nat.
Variable s : store.
Variable this : ref.
Variable np : InternalPromise.
Variable pcs : list ref.
Variable f : option onFulfilled_fn.
Variable g : option onRejected_fn.
Hypothesis Hp : promises s !! this = Some np.
Hypothesis Hpa : arrays s !! _children np = Some pcs.

Lemma registered_parent : promises (registered np pcs f g s) !! this = Some np.
Proof. cbn. rewrite lookup_app_l by (eapply lookup_lt_Some, Hp). exact Hp. Qed.

Lemma registered_child :
  promises (registered np pcs f g s) !! length (promises s) =
    Some (new_child f g (length (arrays s))).
Proof. cbn. apply list_lookup_middle. reflexivity. Qed.

Lemma registered_child_array :
  arrays (registered np pcs f g s) !! length (arrays s) = Some [].
Proof.
  cbn. rewrite list_lookup_insert_ne by (apply lookup_lt_Some in Hpa; lia).
  apply list_lookup_middle. reflexivity.
Qed.

Lemma registered_parent_array :
  arrays (registered np pcs f g s) !! _children np =
    Some (pcs ++ [length (promises s)])%list.
Proof.
  cbn. apply list_lookup_insert_eq. rewrite length_app. apply lookup_lt_Some in Hpa. lia.
Qed.

(** [then] is its registration followed by the replay of the settlement
    of [this] on the new child. *)
Lemma then_registers :
  then_ fuel this f g s =
    (let newPromise := length (promises s) in
     if negb (bool_decide (_state np = Pending)) then
       if bool_decide (_state np = Fulfilled) || _rejectWasConsumed np then
         bind (_resolve fuel newPromise (_result np)) (fun returnedValue =>
           if negb (is_nullish returnedValue) then
             match as_promise returnedValue with
             | Some returnedPromise =>
                 bind (read newPromise) (fun c =>
                 bind (push (_children c) returnedPromise) (fun _ =>
                 ret returnedPromise))
             | None =>
                 bind (update newPromise (with_result returnedValue)) (fun _ =>
                 ret newPromise)
             end
           else ret newPromise)
       else bind (_reject fuel newPromise (_reason np)) (fun _ => ret newPromise)
     else ret newPromise) (registered np pcs f g s).
Proof.
  assert (Hlt : this < length (promises s)) by (eapply lookup_lt_Some, Hp).
  assert (Hlta : _children np < length (arrays s)) by (eapply lookup_lt_Some, Hpa).
  unfold then_, alloc_promise, new_array.
  unfold bind at 1 2 3. cbn [promises arrays agregators trace].
  unfold update at 1.  cbn [promises arrays agregators trace].
  rewrite list_lookup_middle by reflexivity.
  rewrite insert_app_r_alt, Nat.sub_diag by lia.
  unfold bind at 1. unfold read at 1. cbn [promises arrays agregators trace].
  rewrite lookup_app_l by exact Hlt. rewrite Hp.
  unfold bind at 1. unfold push, bind at 1, read_array, write_array.
  cbn [promises arrays agregators trace].
  rewrite lookup_app_l by exact Hlta. rewrite Hpa.
  cbn [promises arrays agregators trace].
  rewrite lookup_app_l by exact Hlta. rewrite Hpa.
  unfold bind at 1. unfold read at 1. cbn [promises arrays agregators trace].
  rewrite lookup_app_l by exact Hlt. rewrite Hp.
  reflexivity.
Qed.
End Then.

Lemma read_run p n s : promises s !! p = Some n -> read p s = Normal n s.
Proof. intros H. unfold read. rewrite H. reflexivity. Qed.

Lemma push_run a l x s :
  arrays s !! a = Some l ->
  push a x s =
    Normal tt {| promises := promises s; arrays := <[a := (l ++ [x])%list]> (arrays s);
                 agregators := agregators s; trace := trace s |}.
Proof.
  intros H. unfold push, bind, read_array, write_array. rewrite H. cbn. rewrite H.
  reflexivity.
Qed.

(** [then] on a Pending promise only registers the child. *)
Lemma then_pending fuel s this np pcs f g :
  promises s !! this = Some np ->
  arrays s !! _children np = Some pcs ->
  _state np = Pending ->
  then_ fuel this f g s = Normal (length (promises s)) (registered np pcs f g s).
Proof.
  intros Hp Hpa Hst. rewrite (then_registers fuel s this np pcs f g Hp Hpa).
  cbv zeta. rewrite Hst. reflexivity.
Qed.

(** [then] on a Fulfilled promise with a continuation that returns
    [InternalPromise.resolve(w)]: the node handed back is that inner
    promise. *)
Lemma then_fulfilled_fresh_return fuel s this np pcs f g w :
  promises s !! this = Some np ->
  arrays s !! _children np = Some pcs ->
  _state np = Fulfilled ->
  f (_result np) = ReturnResolved w ->
  exists s',
    then_ (S (S (S (S fuel)))) this (Some (UserFulfilled f)) g s =
      Normal (S (length (promises s))) s' /\
    fulfilled_with (_result np) s' (length (promises s)) /\
    fulfilled_with w s' (S (length (promises s))) /\
    children_of s' this = Some (pcs ++ [length (promises s)])%list /\
    children_of s' (length (promises s)) = Some [S (length (promises s))] /\
    children_of s' (S (length (promises s))) = Some [] /\
    trace s' = EvResolve (S (length (promises s))) w ::
               EvOnFulfilled (length (promises s)) (_result np) ::
               EvResolve (length (promises s)) (_result np) :: trace s.
Proof.
  intros Hp Hpa Hst Hret.
  set (F := Some (UserFulfilled f)).
  set (sC := registered np pcs F g s).
  set (k := length (promises s)).
  set (kn := new_child F g (length (arrays s))).
  assert (Hk : promises sC !! k = Some kn) by (apply registered_child).
  assert (Hka : arrays sC !! _children kn = Some [])
    by (apply (registered_child_array s np pcs F g Hpa)).
  assert (Hleaves : forall c, c ∈ [] -> bare_leaf sC c) by (intros c Hc; inversion Hc).
  assert (Hfuel : length (@nil nat) <= S fuel) by (cbn; lia).
  pose proof (resolve_fresh_return fuel sC k kn (_result np) [] Hk Hka Hleaves Hfuel
                f w eq_refl Hret) as Hres.
  set (s1 := settled k (with_result (_result np) (with_state Fulfilled kn))
               [EvOnFulfilled k (_result np); EvResolve k (_result np)] sC) in *.
  set (r := length (promises sC)) in *.
  set (nr := fresh_fulfilled w (length (arrays s1))) in *.
  assert (Hr : r = S k) by (unfold r, k; cbn; rewrite length_app; cbn; lia).
  assert (Hlenk : k < length (promises sC)) by (unfold k; cbn; rewrite length_app; cbn; lia).
  assert (Hr1 : promises (with_fresh w s1) !! r = Some nr).
  { unfold r. cbn [with_fresh promises].
    replace (length (promises sC)) with (length (promises s1))
      by (cbn; apply length_insert).
    apply list_lookup_middle. reflexivity. }
  assert (Ha1 : arrays (with_fresh w s1) !! _children kn = Some []).
  { cbn [with_fresh arrays]. rewrite lookup_app_l by (eapply lookup_lt_Some, Hka).
    exact Hka. }
  assert (Hl1 : forall c, c ∈ [] -> bare_leaf (with_fresh w s1) c)
    by (intros c Hc; inversion Hc).
  assert (Hrnotin : r ∉ @nil nat) by (intros Hc; inversion Hc).
  set (sH := handed_over r nr (_children kn) [] (with_fresh w s1)) in *.
  assert (Hrec : promises sH !! r = Some (with_children (length (arrays (with_fresh w s1))) nr))
    by (apply handed_over_receiver; assumption).
  assert (Hold : arrays sH !! _children kn = Some [])
    by (apply handed_over_old_array; assumption).
  assert (Hnew : arrays sH !! length (arrays (with_fresh w s1)) = Some [])
    by (apply handed_over_new_array; assumption).
  assert (Hnil : forall q : nat, q ∉ @nil nat) by (intros q Hc; inversion Hc).
  assert (Hltp : this < length (promises s)) by (eapply lookup_lt_Some, Hp).
  assert (Hnek : k <> r) by lia.
  assert (Hnep : this <> r) by (unfold k in Hr; lia).
  assert (Hkn : promises sH !! k = Some (with_result (_result np) (with_state Fulfilled kn))).
  { unfold sH. rewrite handed_over_other by auto.
    cbn [with_fresh promises]. rewrite lookup_app_l by (cbn; rewrite length_insert; exact Hlenk).
    apply (lookup_insert_same _ _ _ _ Hk). }
  assert (Hparent : promises sH !! this = Some np).
  { unfold sH. rewrite handed_over_other by auto.
    cbn [with_fresh promises].
    rewrite lookup_app_l by (cbn; rewrite length_insert, length_app; lia).
    cbn [s1 settled promises]. rewrite list_lookup_insert_ne by (unfold k; lia).
    apply registered_parent. exact Hp. }
  assert (Hparr : arrays sH !! _children np = Some (pcs ++ [k])%list).
  { assert (_children np < length (arrays s)) by (eapply lookup_lt_Some, Hpa).
    unfold sH. rewrite handed_over_arrays by assumption.
    rewrite lookup_app_l by (rewrite length_insert; cbn; rewrite length_app, length_insert, length_app; lia).
    rewrite list_lookup_insert_ne by (cbn; lia).
    cbn [with_fresh arrays]. rewrite lookup_app_l by (cbn; rewrite length_insert, length_app; lia).
    apply (registered_parent_array s np pcs F g Hpa). }
  assert (Htrace : trace sH = EvResolve r w :: EvOnFulfilled k (_result np) ::
                              EvResolve k (_result np) :: trace s).
  { unfold sH. rewrite handed_over_trace by assumption. cbn. unfold r. cbn.
    rewrite length_insert. reflexivity. }
  eexists. split.
  - rewrite (then_registers _ s this np pcs F g Hp Hpa). cbv zeta.
    rewrite Hst.
    rewrite (bool_decide_eq_false_2 (Fulfilled = Pending)) by discriminate.
    rewrite (bool_decide_eq_true_2 (Fulfilled = Fulfilled)) by reflexivity.
    cbn [negb orb].
    fold sC k. rewrite (bind_Normal _ _ _ _ _ Hres).
    cbn [negb is_nullish as_promise].
    fold sH. rewrite (bind_Normal _ _ _ _ _ (read_run k _ sH Hkn)).
    cbn [_children with_result with_state kn new_child].
    rewrite (bind_Normal _ _ _ _ _ (push_run _ _ r sH Hold)).
    rewrite Hr. reflexivity.
  - cbn [app]. rewrite <- Hr. unfold fulfilled_with, children_of.
    cbn [promises arrays trace].
    rewrite Hkn, Hrec, Hparent. cbn [_children with_children with_result with_state kn new_child].
    assert (Hne : _children np <> length (arrays s)) by (apply lookup_lt_Some in Hpa; lia).
    assert (Hne2 : length (arrays (with_fresh w s1)) <> length (arrays s))
      by (cbn; rewrite length_app, length_insert, length_app; cbn; lia).
    rewrite (lookup_insert_same _ _ _ _ Hold).
    rewrite !list_lookup_insert_ne by congruence.
    rewrite Hparr, Hnew, Htrace.
    repeat split; eauto.
Qed.

Lemma refines_pending_parent_chain n m x :
  n <= m -> refines (pending_parent_chain n x) (pending_parent_chain m x).
Proof. intros H. unfold pending_parent_chain. refines_fuel H. Qed.

Lemma pending_parent_chain_run fuel x :
  5 <= fuel ->
  exists s',
    pending_parent_chain fuel x empty_store = Normal (0, 1, 2) s' /\
    fulfilled_with x s' 1 /\
    children_of s' 1 = Some [] /\
    fulfilled_with (VNumber 42) s' 3 /\
    children_of s' 3 = Some [2] /\
    fulfilled_with (VNumber 42) s' 2 /\
    trace s' = [EvResolve 2 (VNumber 42); EvResolve 3 (VNumber 42);
                EvOnFulfilled 1 x; EvResolve 1 x; EvResolve 0 x].
Proof.
  intros Hfuel.
  assert (H5 : exists s', pending_parent_chain 5 x empty_store = Normal (0, 1, 2) s' /\
             fulfilled_with x s' 1 /\ children_of s' 1 = Some [] /\
             fulfilled_with (VNumber 42) s' 3 /\ children_of s' 3 = Some [2] /\
             fulfilled_with (VNumber 42) s' 2 /\
             trace s' = [EvResolve 2 (VNumber 42); EvResolve 3 (VNumber 42);
                         EvOnFulfilled 1 x; EvResolve 1 x; EvResolve 0 x]).
  { eexists. split; [vm_compute; reflexivity|].
    repeat split; try reflexivity; eexists; cbn; eauto. }
  destruct H5 as (s' & Hrun & Hprops). exists s'. split; [|exact Hprops].
  apply (enough_fuel (fun n => pending_parent_chain n x) 5 empty_store);
    [intros m Hm; apply refines_pending_parent_chain, Hm | exact Hrun | discriminate
    | exact Hfuel].
Qed.



(** ** Failures of the user's callbacks *)

Lemma settled_settled p n n' evs evs' s :
  settled p n' evs' (settled p n evs s) = settled p n' (evs' ++ evs) s.
Proof.
  unfold settled. cbn. rewrite insert_insert_same, app_assoc. reflexivity.
Qed.

(** The calls a resolver makes on the promise under construction, which has
    no callback and no child yet: each call settles it anew. *)
Lemma run_resolver_calls_bare fuel p calls : forall s n,
  promises s !! p = Some n ->
  _onFulfilled n = None -> _onRejected n = None ->
  arrays s !! _children n = Some [] ->
  exists n' evs,
    run_resolver_calls (S (S fuel)) p calls s = Normal tt (settled p n' evs s) /\
    _onFulfilled n' = None /\ _onRejected n' = None /\ _children n' = _children n.
Proof.
  induction calls as [|[v|r] calls IH]; intros s n Hn Hf Hr Ha; cbn [run_resolver_calls].
  - exists n, []. unfold settled. cbn. rewrite list_insert_id by exact Hn.
    destruct s; auto.
  - rewrite (bind_Normal _ _ _ _ _ (resolve_bare fuel s p n v Hn Hf Ha)).
    destruct (IH (settled p (with_result v (with_state Fulfilled n)) [EvResolve p v] s)
                (with_result v (with_state Fulfilled n)))
      as (n' & evs & Hrun & Hf' & Hr' & Hc'); try assumption.
    { apply (lookup_insert_same _ _ _ _ Hn). }
    exists n', (evs ++ [EvResolve p v])%list. rewrite Hrun, settled_settled. auto.
  - rewrite (bind_Normal _ _ _ _ _ (reject_bare fuel s p n r Hn Hr Ha)).
    destruct (IH (settled p (with_reason r (with_state Rejected n)) [EvReject p r] s)
                (with_reason r (with_state Rejected n)))
      as (n' & evs & Hrun & Hf' & Hr' & Hc'); try assumption.
    { apply (lookup_insert_same _ _ _ _ Hn). }
    exists n', (evs ++ [EvReject p r])%list. rewrite Hrun, settled_settled. auto.
Qed.

(** The store after the field initialisers of [new InternalPromise()]. *)
Definition allocated (s : store) : store :=
  {| promises := (promises s ++ [new_child None None (length (arrays s))])%list;
     arrays := (arrays s ++ [[]])%list;
     agregators := agregators s;
     trace := trace s |}.

Lemma alloc_promise_run s : alloc_promise s = Normal (length (promises s)) (allocated s).
Proof. reflexivity. Qed.

Lemma constructor_resolver_raises fuel s calls message :
  exists s',
    new_InternalPromise (S (S fuel))
      (Some {| resolver_calls := calls; resolver_raises := Some message |}) s =
      Normal (length (promises s)) s' /\
    rejected_with (VString message) s' (length (promises s)) /\
    (forall q n, promises s !! q = Some n -> promises s' !! q = Some n).
Proof.
  unfold new_InternalPromise. rewrite (bind_Normal _ _ _ _ _ (alloc_promise_run s)).
  cbn [resolver_calls resolver_raises].
  set (p := length (promises s)).
  assert (Hp : promises (allocated s) !! p = Some (new_child None None (length (arrays s))))
    by (apply list_lookup_middle; reflexivity).
  assert (Ha : arrays (allocated s) !! length (arrays s) = Some [])
    by (apply list_lookup_middle; reflexivity).
  destruct (run_resolver_calls_bare fuel p calls (allocated s) _ Hp eq_refl eq_refl Ha)
    as (n' & evs & Hrun & Hf' & Hr' & Hc').
  assert (Hp' : promises (settled p n' evs (allocated s)) !! p = Some n')
    by (apply (lookup_insert_same _ _ _ _ Hp)).
  assert (Ha' : arrays (settled p n' evs (allocated s)) !! _children n' = Some [])
    by (rewrite Hc'; exact Ha).
  eexists. split.
  - unfold bind at 1. unfold try_catch. unfold bind at 1. rewrite Hrun.
    unfold throw.
    rewrite (reject_bare fuel _ p n' (VString message) Hp' Hr' Ha'). reflexivity.
  - split.
    + eexists. split; [apply (lookup_insert_same _ _ _ _ Hp')|]. auto.
    + intros q n Hq. cbn.
      assert (q < length (promises s)) by (eapply lookup_lt_Some, Hq).
      rewrite !list_lookup_insert_ne by (unfold p; lia).
      rewrite lookup_app_l by assumption. exact Hq.
Qed.

Section ContinuationRaises.
Variable fuel : nat.
Variable s : store.
Variable this : ref.
Variable n : InternalPromise.
Variable v : jsvalue.
Variable f : jsvalue -> completion.
Variable message : string.
Hypothesis Hn : promises s !! this = Some n.
Hypothesis Hf : _onFulfilled n = Some (UserFulfilled f).
Hypothesis Hraise : f v = Raise message.

Local Abbreviation s1 :=
  (settled this (with_result v (with_state Fulfilled n))
     [EvOnFulfilled this v; EvResolve this v] s).

(** The [catch] block of [_resolve] takes over in the store the [try]
    block left. *)
Lemma resolve_raise_caught F :
  _resolve (S F) this v s =
    bind (_reject F this (VString message)) (fun _ => ret VNull) s1.
Proof.
  rewrite _resolve_S. unfold resolve_body.
  set (handler := fun message0 : string => bind (_reject _ _ _) _).
  set (body := fun child : nat => bind (_resolve _ child _) _).
  repeat (progress unfold try_catch, bind at 1 2 3 4 5, ret, emit, read, update,
            call_onFulfilled, throw);
    cbv beta; cbn [promises arrays agregators trace].
  js_step. rewrite Hf. js_step. rewrite Hraise. js_step.
  reflexivity.
Qed.
End ContinuationRaises.

(** ** Concrete instances *)

(** The decidable form of [bare_leaf]. *)
Definition bare_leafb (s : store) (c : ref) : bool :=
  match promises s !! c with
  | Some n =>
      match _onFulfilled n, _onRejected n, arrays s !! _children n with
      | None, None, Some [] => true
      | _, _, _ => false
      end
  | None => false
  end.

Lemma bare_leafb_correct s c : bare_leafb s c = true -> bare_leaf s c.
Proof.
  unfold bare_leafb, bare_leaf. intros H.
  repeat case_match; try discriminate. subst. eexists. eauto.
Qed.

Lemma bare_leaves_correct s cs :
  forallb (bare_leafb s) cs = true -> forall c, c ∈ cs -> bare_leaf s c.
Proof.
  intros H c Hc. apply bare_leafb_correct.
  apply list_elem_of_In in Hc. rewrite forallb_forall in H. auto.
Qed.

(** A promise with the callbacks [f] and [g] and two children nothing is
    chained on. *)
Definition parent_of_two (st : PromiseStates) (f : option onFulfilled_fn)
    (g : option onRejected_fn) : store :=
  {| promises :=
       [ {| _state := st; _result := VUndefined; _reason := VUndefined; _children := 0;
            _onFulfilled := f; _onRejected := g; _rejectWasConsumed := false |};
         new_child None None 1; new_child None None 2 ];
     arrays := [[1; 2]; []; []];
     agregators := [];
     trace := [] |}.


(** ** The two closures of [_RegisterForFulfillment] *)

(** [agregator.results[index] = value; agregator.count++] *)
Definition counted (index : nat) (v : jsvalue) (g : FulFillmentAgregator)
    : FulFillmentAgregator :=
  {| count := S (count g); target := target g; rootPromise := rootPromise g;
     results := array_store (results g) index v |}.

(** The store after the fulfilment closure of node [c] has run. *)
Definition registered_resolved_store (c a root : ref) (cn rn : InternalPromise)
    (g : FulFillmentAgregator) (index : nat) (v : jsvalue) (s : store) : store :=
  if decide (S (count g) = target g) then
    {| promises := <[root := with_result (VArray a) (with_state Fulfilled rn)]>
                     (<[c := with_result v (with_state Fulfilled cn)]> (promises s));
       arrays := arrays s;
       agregators := <[a := counted index v g]> (agregators s);
       trace := EvResolve root (VArray a) :: EvOnFulfilled c v :: EvResolve c v ::
                trace s |}
  else
    {| promises := <[c := with_result v (with_state Fulfilled cn)]> (promises s);
       arrays := arrays s;
       agregators := <[a := counted index v g]> (agregators s);
       trace := EvOnFulfilled c v :: EvResolve c v :: trace s |}.

(** The store after the rejection closure of node [c] has run. *)
Definition registered_rejected_store (c root : ref) (cn rn : InternalPromise)
    (r : jsvalue) (s : store) : store :=
  if decide (_state rn = Rejected) then
    {| promises := <[c := with_rejectWasConsumed true
                            (with_reason r (with_state Rejected cn))]> (promises s);
       arrays := arrays s;
       agregators := agregators s;
       trace := EvOnRejected c r :: EvReject c r :: trace s |}
  else
    {| promises := <[c := with_rejectWasConsumed true
                            (with_reason r (with_state Rejected cn))]>
                     (<[root := with_reason r (with_state Rejected rn)]>
                        (<[c := with_reason r (with_state Rejected cn)]> (promises s)));
       arrays := arrays s;
       agregators := agregators s;
       trace := EvReject root r :: EvOnRejected c r :: EvReject c r :: trace s |}.

Section Registered.
Variable fuel : nat.
Variable s : store.
Variables c a root : ref.
Variables (cn rn : InternalPromise) (g : FulFillmentAgregator).
Hypothesis Hc : promises s !! c = Some cn.
Hypothesis Hca : arrays s !! _children cn = Some [].
Hypothesis Hg : agregators s !! a = Some g.
Hypothesis Hroot : rootPromise g = root.
Hypothesis Hr : promises s !! root = Some rn.
Hypothesis Hra : arrays s !! _children rn = Some [].
Hypothesis Hne : c <> root.

(** The fulfilment closure: the slot is filled, the count goes up, and the
    root is resolved with the results array when the count reaches the
    target. *)
Lemma registered_resolved index v :
  _onFulfilled cn = Some (AgregatorFulfilled a index) ->
  _onFulfilled rn = None ->
  _resolve (S (S (S fuel))) c v s =
    Normal VNull (registered_resolved_store c a root cn rn g index v s).
Proof.
  intros Hf Hrf. unfold registered_resolved_store.
  rewrite _resolve_S. unfold resolve_body.
  set (body := fun child : nat => bind (_resolve _ child _) _).
  js_unfold. js_step. rewrite Hf. js_step.
  unfold counted. cbn [count target rootPromise results].
  destruct (decide (S (count g) = target g)) as [Heq|Hneq].
  - rewrite Hroot.
    match goal with
    | |- context [_resolve (S (S fuel)) root ?x ?st] =>
        rewrite (resolve_bare fuel st root rn x)
    end.
    + unfold settled. js_step.
      match goal with
      | |- context [for_of (S ?f) ?arr 0 body ?st] =>
          rewrite (for_of_end f arr [] 0 body st Hca) by (cbn; lia)
      end.
      reflexivity.
    + cbn. rewrite list_lookup_insert_ne by congruence. exact Hr.
    + exact Hrf.
    + exact Hra.
  - js_step. match goal with
      | |- context [for_of (S ?f) ?arr 0 body ?st] =>
          rewrite (for_of_end f arr [] 0 body st Hca) by (cbn; lia)
      end. reflexivity.
Qed.

(** The rejection closure: the root is rejected with the reason unless it
    is Rejected already. *)
Lemma registered_rejected r :
  _onRejected cn = Some (AgregatorRejected a) ->
  _onRejected rn = None ->
  _reject (S (S (S fuel))) c r s =
    Normal tt (registered_rejected_store c root cn rn r s).
Proof.
  intros Hf Hrf. unfold registered_rejected_store.
  rewrite _reject_S. unfold reject_body.
  set (body := fun child : nat => bind (read c) _).
  js_unfold. js_step. rewrite Hf. js_step.
  rewrite Hroot. js_step.
  destruct (decide (_state rn = Rejected)) as [Heq|Hneq].
  - rewrite bool_decide_eq_true_2 by exact Heq. js_step.
    match goal with
      | |- context [for_of (S ?f) ?arr 0 body ?st] =>
          rewrite (for_of_end f arr [] 0 body st Hca) by (cbn; lia)
      end. reflexivity.
  - rewrite bool_decide_eq_false_2 by exact Hneq. js_step. rewrite Hroot.
    match goal with
    | |- context [_reject (S (S fuel)) root ?x ?st] =>
        rewrite (reject_bare fuel st root rn x)
    end.
    + unfold settled. js_step.
      match goal with
      | |- context [for_of (S ?f) ?arr 0 body ?st] =>
          rewrite (for_of_end f arr [] 0 body st Hca) by (cbn; lia)
      end.
      reflexivity.
    + cbn. rewrite list_lookup_insert_ne by congruence. exact Hr.
    + exact Hrf.
    + exact Hra.
Qed.
End Registered.

Lemma for_of_singleton fuel arr c body s s2 :
  arrays s !! arr = Some [c] ->
  body c s = Normal tt s2 ->
  arrays s2 !! arr = Some [c] ->
  for_of (S (S fuel)) arr 0 body s = Normal tt s2.
Proof.
  intros Ha Hbody Ha2.
  rewrite (for_of_next _ arr [c] 0 c body s Ha eq_refl).
  rewrite (bind_Normal _ _ _ _ _ Hbody).
  apply (for_of_end fuel arr [c] 1 body s2 Ha2). cbn. lia.
Qed.

Lemma registered_resolved_store_arrays c a root cn rn g index v s :
  arrays (registered_resolved_store c a root cn rn g index v s) = arrays s.
Proof. unfold registered_resolved_store. destruct (decide _); reflexivity. Qed.

Lemma registered_rejected_store_arrays c root cn rn r s :
  arrays (registered_rejected_store c root cn rn r s) = arrays s.
Proof. unfold registered_rejected_store. destruct (decide _); reflexivity. Qed.

(** ** An input of [all] settles *)

Section InputSettled.
Variable fuel : nat.
Variable s : store.
Variables p c a root : ref.
Variables (pn cn rn : InternalPromise) (g : FulFillmentAgregator) (index : nat).
Hypothesis Hp : promises s !! p = Some pn.
Hypothesis Hpa : arrays s !! _children pn = Some [c].
Hypothesis Hpf : _onFulfilled pn = None.
Hypothesis Hpr : _onRejected pn = None.
Hypothesis Hpflag : _rejectWasConsumed pn = false.
Hypothesis Hc : promises s !! c = Some cn.
Hypothesis Hca : arrays s !! _children cn = Some [].
Hypothesis Hcf : _onFulfilled cn = Some (AgregatorFulfilled a index).
Hypothesis Hcr : _onRejected cn = Some (AgregatorRejected a).
Hypothesis Hg : agregators s !! a = Some g.
Hypothesis Hroot : rootPromise g = root.
Hypothesis Hr : promises s !! root = Some rn.
Hypothesis Hra : arrays s !! _children rn = Some [].
Hypothesis Hrf : _onFulfilled rn = None.
Hypothesis Hrr : _onRejected rn = None.
Hypothesis Hpc : p <> c.
Hypothesis Hproot : p <> root.
Hypothesis Hcroot : c <> root.

Lemma input_resolved v :
  _resolve (S (S (S (S fuel)))) p v s =
    Normal VNull
      (registered_resolved_store c a root cn rn g index v
         (settled p (with_result v (with_state Fulfilled pn)) [EvResolve p v] s)).
Proof.
  set (s1 := settled p (with_result v (with_state Fulfilled pn)) [EvResolve p v] s).
  assert (Hc1 : promises s1 !! c = Some cn)
    by (cbn; rewrite list_lookup_insert_ne by congruence; exact Hc).
  assert (Hr1 : promises s1 !! root = Some rn)
    by (cbn; rewrite list_lookup_insert_ne by congruence; exact Hr).
  pose proof (registered_resolved fuel s1 c a root cn rn g Hc1 Hca Hg Hroot Hr1 Hra Hcroot
                index v Hcf Hrf) as Hrun.
  rewrite _resolve_S. unfold resolve_body.
  set (body := fun child : nat => bind (_resolve _ child _) _).
  js_unfold. js_step. rewrite Hpf. js_step.
  match goal with
  | |- context [for_of (S (S ?f)) ?arr 0 body ?st] =>
      change st with s1;
      rewrite (for_of_singleton f arr c body s1
                 (registered_resolved_store c a root cn rn g index v s1) Hpa)
  end.
  - reflexivity.
  - unfold body. rewrite (bind_Normal _ _ _ _ _ Hrun). reflexivity.
  - rewrite registered_resolved_store_arrays. exact Hpa.
Qed.

Lemma input_rejected r :
  _reject (S (S (S (S fuel)))) p r s =
    Normal tt
      (registered_rejected_store c root cn rn r
         (settled p (with_reason r (with_state Rejected pn)) [EvReject p r] s)).
Proof.
  set (s1 := settled p (with_reason r (with_state Rejected pn)) [EvReject p r] s).
  assert (Hp1 : promises s1 !! p = Some (with_reason r (with_state Rejected pn)))
    by (apply (lookup_insert_same _ _ _ _ Hp)).
  assert (Hc1 : promises s1 !! c = Some cn)
    by (cbn; rewrite list_lookup_insert_ne by congruence; exact Hc).
  assert (Hr1 : promises s1 !! root = Some rn)
    by (cbn; rewrite list_lookup_insert_ne by congruence; exact Hr).
  pose proof (registered_rejected fuel s1 c a root cn rn g Hc1 Hca Hg Hroot Hr1 Hra Hcroot
                r Hcr Hrr) as Hrun.
  rewrite _reject_S. unfold reject_body.
  set (body := fun child : nat => bind (read p) _).
  js_unfold. js_step. rewrite Hpr. js_step.
  match goal with
  | |- context [for_of (S (S ?f)) ?arr 0 body ?st] =>
      change st with s1;
      rewrite (for_of_singleton f arr c body s1
                 (registered_rejected_store c root cn rn r s1) Hpa)
  end.
  - reflexivity.
  - unfold body. rewrite (bind_Normal _ _ _ _ _ (read_run p _ s1 Hp1)).
    cbn [_rejectWasConsumed with_reason with_state]. rewrite Hpflag. exact Hrun.
  - rewrite registered_rejected_store_arrays. exact Hpa.
Qed.
End InputSettled.

(** ** [all] over inputs that are still Pending *)

(** One of the two functions the constructor hands to the resolver, called
    after the constructor has returned (lines 65-69). *)
Definition settle (fuel : nat) (p : ref) (c : settle_call) : M unit :=
  match c with
  | CallResolve v => _resolve fuel p v ;; ret tt
  | CallReject r => _reject fuel p r
  end.

(** [n] times [new InternalPromise()] *)
Fixpoint new_promises (fuel n : nat) : M (list ref) :=
  match n with
  | 0 => ret []
  | S n =>
      p ← new_InternalPromise fuel None ;
      ps ← new_promises fuel n ;
      ret (p :: ps)
  end.

(** The events [(i, call)]: input number [i] is settled by [call]. *)
Fixpoint settle_each (fuel : nat) (ps : list ref) (events : list (nat * settle_call))
    : M unit :=
  match events with
  | [] => ret tt
  | (i, call) :: events =>
      match ps !! i with
      | Some p => settle fuel p call ;; settle_each fuel ps events
      | None => settle_each fuel ps events
      end
  end.

(** [n] fresh promises, [all] over them, and then the events. *)
Definition all_of_pending (fuel n : nat) (events : list (nat * settle_call)) : M ref :=
  ps ← new_promises fuel n ;
  root ← all fuel ps ;
  settle_each fuel ps events ;;
  ret root.

(** [s'] has the promises of [s] with the same children arrays and the same
    callbacks; only states, results, reasons and the flag of nodes with a
    rejection handler may differ. *)
Definition same_wiring (s s' : store) : Prop :=
  arrays s' = arrays s /\
  forall q n, promises s !! q = Some n ->
    exists n', promises s' !! q = Some n' /\
      _children n' = _children n /\
      _onFulfilled n' = _onFulfilled n /\
      _onRejected n' = _onRejected n /\
      (_onRejected n = None -> _rejectWasConsumed n' = _rejectWasConsumed n).

Lemma same_wiring_refl s : same_wiring s s.
Proof. split; [reflexivity|]. intros q n Hq. exists n. auto. Qed.

Lemma same_wiring_trans s1 s2 s3 :
  same_wiring s1 s2 -> same_wiring s2 s3 -> same_wiring s1 s3.
Proof.
  intros [Ha1 H1] [Ha2 H2]. split; [congruence|].
  intros q n Hq. destruct (H1 q n Hq) as (n2 & Hq2 & Hc2 & Hf2 & Hr2 & Hfl2).
  destruct (H2 q n2 Hq2) as (n3 & Hq3 & Hc3 & Hf3 & Hr3 & Hfl3).
  exists n3. repeat split; try congruence.
  intros Hnone. rewrite Hfl3 by congruence. auto.
Qed.

Lemma same_wiring_insert s s' q n n' :
  promises s !! q = Some n ->
  promises s' = <[q := n']> (promises s) ->
  arrays s' = arrays s ->
  _children n' = _children n ->
  _onFulfilled n' = _onFulfilled n ->
  _onRejected n' = _onRejected n ->
  (_onRejected n = None -> _rejectWasConsumed n' = _rejectWasConsumed n) ->
  same_wiring s s'.
Proof.
  intros Hq Hp Ha Hc Hf Hr Hfl. split; [exact Ha|].
  intros q0 n0 Hq0. rewrite Hp. destruct (decide (q = q0)) as [->|Hne].
  - rewrite (lookup_insert_same _ _ _ _ Hq0). exists n'.
    assert (n0 = n) as -> by congruence. auto.
  - rewrite list_lookup_insert_ne by exact Hne. exists n0. auto.
Qed.

Lemma same_wiring_same s s' s'' :
  promises s'' = promises s' -> arrays s'' = arrays s' ->
  same_wiring s s' -> same_wiring s s''.
Proof. intros Hp Ha [Ha' H]. split; [congruence|]. rewrite Hp. exact H. Qed.

Lemma registered_resolved_store_wiring c a root cn rn g index v s :
  promises s !! c = Some cn -> promises s !! root = Some rn -> c <> root ->
  same_wiring s (registered_resolved_store c a root cn rn g index v s).
Proof.
  intros Hc Hr Hne.
  set (s1 := settled c (with_result v (with_state Fulfilled cn)) [] s).
  assert (H1 : same_wiring s s1)
    by (apply (same_wiring_insert s s1 c cn (with_result v (with_state Fulfilled cn)) Hc);
        auto).
  unfold registered_resolved_store. destruct (decide _).
  - eapply same_wiring_trans; [exact H1|].
    apply (same_wiring_insert s1 _ root rn (with_result (VArray a) (with_state Fulfilled rn)));
      auto.
    cbn. rewrite list_lookup_insert_ne by congruence. exact Hr.
  - eapply same_wiring_same; [| |exact H1]; reflexivity.
Qed.

Lemma registered_rejected_store_wiring c root cn rn r s :
  promises s !! c = Some cn -> promises s !! root = Some rn -> c <> root ->
  is_Some (_onRejected cn) ->
  same_wiring s (registered_rejected_store c root cn rn r s).
Proof.
  intros Hc Hr Hne [h Hh].
  assert (Hflag : forall b, _onRejected cn = None -> b = _rejectWasConsumed cn)
    by (intros b E; congruence).
  unfold registered_rejected_store. destruct (decide _).
  - apply (same_wiring_insert s _ c cn
             (with_rejectWasConsumed true (with_reason r (with_state Rejected cn))) Hc);
      auto.
  - set (s1 := settled c (with_reason r (with_state Rejected cn)) [] s).
    set (s2 := settled root (with_reason r (with_state Rejected rn)) [] s1).
    assert (H1 : same_wiring s s1)
      by (apply (same_wiring_insert s s1 c cn (with_reason r (with_state Rejected cn)) Hc);
          auto).
    assert (Hr1 : promises s1 !! root = Some rn)
      by (cbn; rewrite list_lookup_insert_ne by congruence; exact Hr).
    assert (H2 : same_wiring s1 s2)
      by (apply (same_wiring_insert s1 s2 root rn (with_reason r (with_state Rejected rn))
                   Hr1); auto).
    assert (Hc2 : promises s2 !! c = Some (with_reason r (with_state Rejected cn))).
    { cbn. rewrite list_lookup_insert_ne by congruence.
      apply (lookup_insert_same _ _ _ _ Hc). }
    eapply same_wiring_trans; [exact H1|]. eapply same_wiring_trans; [exact H2|].
    apply (same_wiring_insert s2 _ c _
             (with_rejectWasConsumed true (with_reason r (with_state Rejected cn))) Hc2);
      auto; cbn; auto.
Qed.

(** The object graph [all] builds over [n] fresh promises in the empty
    store: the inputs are the promises [0 .. n-1], the root is promise [n],
    the continuation registered on input [i] is promise [n + 1 + i], every
    promise owns the array of its own number, and the agregator is number 0. *)
Record wired (n : nat) (s : store) : Prop := {
  w_input : forall i, i < n ->
    exists np, promises s !! i = Some np /\ _children np = i /\
      _onFulfilled np = None /\ _onRejected np = None /\ _rejectWasConsumed np = false;
  w_root :
    exists rn, promises s !! n = Some rn /\ _children rn = n /\
      _onFulfilled rn = None /\ _onRejected rn = None;
  w_registered : forall i, i < n ->
    exists cn, promises s !! (n + 1 + i) = Some cn /\ _children cn = n + 1 + i /\
      _onFulfilled cn = Some (AgregatorFulfilled 0 i) /\
      _onRejected cn = Some (AgregatorRejected 0);
  w_input_array : forall i, i < n -> arrays s !! i = Some [n + 1 + i];
  w_other_array : forall i, n <= i -> i < n + 1 + n -> arrays s !! i = Some [];
  w_agregator :
    exists g, agregators s !! 0 = Some g /\ target g = n /\ rootPromise g = n
}.

Lemma wired_preserved n s s' :
  wired n s -> same_wiring s s' ->
  (forall g, agregators s !! 0 = Some g ->
     exists g', agregators s' !! 0 = Some g' /\ target g' = target g /\
                rootPromise g' = rootPromise g) ->
  wired n s'.
Proof.
  intros [Hi Hr Hc Hia Hoa Hg] [Ha Hw] Hagg. split.
  - intros i Hlt. destruct (Hi i Hlt) as (np & Hp & Hch & Hf & Hrj & Hfl).
    destruct (Hw i np Hp) as (np' & Hp' & Hch' & Hf' & Hrj' & Hfl').
    exists np'. repeat split; try congruence. rewrite Hfl' by exact Hrj. exact Hfl.
  - destruct Hr as (rn & Hp & Hch & Hf & Hrj).
    destruct (Hw n rn Hp) as (rn' & Hp' & Hch' & Hf' & Hrj' & _).
    exists rn'. repeat split; congruence.
  - intros i Hlt. destruct (Hc i Hlt) as (cn & Hp & Hch & Hf & Hrj).
    destruct (Hw _ cn Hp) as (cn' & Hp' & Hch' & Hf' & Hrj' & _).
    exists cn'. repeat split; congruence.
  - intros i Hlt. rewrite Ha. auto.
  - intros i H1 H2. rewrite Ha. auto.
  - destruct Hg as (g & Hg & Ht & Hrt). destruct (Hagg g Hg) as (g' & Hg' & Ht' & Hrt').
    exists g'. repeat split; congruence.
Qed.

Lemma settle_input fuel n s i call :
  wired n s -> i < n ->
  exists g rn pn s',
    agregators s !! 0 = Some g /\ promises s !! n = Some rn /\
    promises s !! i = Some pn /\
    settle (4 + fuel) i call s = Normal tt s' /\
    wired n s' /\
    (forall j, j < n -> j <> i -> promises s' !! j = promises s !! j) /\
    match call with
    | CallResolve v =>
        agregators s' !! 0 = Some (counted i v g) /\
        promises s' !! n =
          Some (if decide (S (count g) = n)
                then with_result (VArray 0) (with_state Fulfilled rn) else rn) /\
        promises s' !! i = Some (with_result v (with_state Fulfilled pn))
    | CallReject r =>
        agregators s' !! 0 = Some g /\
        promises s' !! n =
          Some (if decide (_state rn = Rejected) then rn
                else with_reason r (with_state Rejected rn)) /\
        promises s' !! i = Some (with_reason r (with_state Rejected pn))
    end.
Proof.
  intros Hw Hlt. pose proof Hw as [Hi Hr Hc Hia Hoa Hg].
  destruct (Hi i Hlt) as (pn & Hp & Hpch & Hpf & Hpr & Hpfl).
  destruct Hr as (rn & Hrn & Hrch & Hrf & Hrr).
  destruct (Hc i Hlt) as (cn & Hcn & Hcch & Hcf & Hcr).
  destruct Hg as (g & Hg & Htarget & Hroot).
  assert (Hpa : arrays s !! _children pn = Some [n + 1 + i]) by (rewrite Hpch; auto).
  assert (Hca : arrays s !! _children cn = Some []) by (rewrite Hcch; apply Hoa; lia).
  assert (Hra : arrays s !! _children rn = Some []) by (rewrite Hrch; apply Hoa; lia).
  exists g, rn, pn. destruct call as [v|r]; cbn [settle Nat.add].
  - set (s1 := settled i (with_result v (with_state Fulfilled pn)) [EvResolve i v] s).
    set (s' := registered_resolved_store (n + 1 + i) 0 n cn rn g i v s1).
    assert (Hrun : _resolve (S (S (S (S fuel)))) i v s = Normal VNull s').
    { apply (input_resolved fuel s i (n + 1 + i) 0 n pn cn rn g i); auto; lia. }
    assert (Hc1 : promises s1 !! (n + 1 + i) = Some cn)
      by (cbn; rewrite list_lookup_insert_ne by lia; exact Hcn).
    assert (Hr1 : promises s1 !! n = Some rn)
      by (cbn; rewrite list_lookup_insert_ne by lia; exact Hrn).
    assert (Hp1 : promises s1 !! i = Some (with_result v (with_state Fulfilled pn)))
      by (apply (lookup_insert_same _ _ _ _ Hp)).
    exists s'. split; [exact Hg|]. split; [exact Hrn|]. split; [exact Hp|].
    split; [rewrite (bind_Normal _ _ _ _ _ Hrun); reflexivity|].
    assert (Hagg : agregators s' !! 0 = Some (counted i v g)).
    { unfold s', registered_resolved_store. destruct (decide _); cbn;
        apply (lookup_insert_same _ _ _ _ Hg). }
    split; [|split; [|split; [exact Hagg|split]]].
    + apply (wired_preserved n s s' Hw).
      * eapply same_wiring_trans.
        -- apply (same_wiring_insert s s1 i pn (with_result v (with_state Fulfilled pn)) Hp);
             auto.
        -- apply registered_resolved_store_wiring; auto. lia.
      * intros g0 Hg0. assert (g0 = g) as -> by congruence.
        exists (counted i v g). auto.
    + intros j Hj Hne. unfold s', registered_resolved_store.
      destruct (decide _); cbn; rewrite !list_lookup_insert_ne by lia; reflexivity.
    + unfold s', registered_resolved_store. rewrite Htarget.
      destruct (decide _); cbn.
      * rewrite list_lookup_insert_eq by (rewrite !length_insert; eapply lookup_lt_Some, Hrn).
        reflexivity.
      * rewrite !list_lookup_insert_ne by lia. exact Hrn.
    + unfold s', registered_resolved_store.
      destruct (decide _); cbn; rewrite !list_lookup_insert_ne by lia; exact Hp1.
  - set (s1 := settled i (with_reason r (with_state Rejected pn)) [EvReject i r] s).
    set (s' := registered_rejected_store (n + 1 + i) n cn rn r s1).
    assert (Hrun : _reject (S (S (S (S fuel)))) i r s = Normal tt s').
    { apply (input_rejected fuel s i (n + 1 + i) 0 n pn cn rn g); auto; lia. }
    assert (Hc1 : promises s1 !! (n + 1 + i) = Some cn)
      by (cbn; rewrite list_lookup_insert_ne by lia; exact Hcn).
    assert (Hr1 : promises s1 !! n = Some rn)
      by (cbn; rewrite list_lookup_insert_ne by lia; exact Hrn).
    assert (Hp1 : promises s1 !! i = Some (with_reason r (with_state Rejected pn)))
      by (apply (lookup_insert_same _ _ _ _ Hp)).
    exists s'. split; [exact Hg|]. split; [exact Hrn|]. split; [exact Hp|].
    split; [exact Hrun|].
    assert (Hagg : agregators s' !! 0 = Some g).
    { unfold s', registered_rejected_store. destruct (decide _); exact Hg. }
    split; [|split; [|split; [exact Hagg|split]]].
    + apply (wired_preserved n s s' Hw).
      * eapply same_wiring_trans.
        -- apply (same_wiring_insert s s1 i pn (with_reason r (with_state Rejected pn)) Hp);
             auto.
        -- apply registered_rejected_store_wiring; auto; try lia; rewrite Hcr; eauto.
      * intros g0 Hg0. assert (g0 = g) as -> by congruence. exists g. auto.
    + intros j Hj Hne. unfold s', registered_rejected_store.
      destruct (decide _); cbn; rewrite !list_lookup_insert_ne by lia; reflexivity.
    + unfold s', registered_rejected_store.
      destruct (decide _); cbn.
      * rewrite !list_lookup_insert_ne by lia. exact Hrn.
      * rewrite list_lookup_insert_ne by lia.
        rewrite list_lookup_insert_eq by (rewrite !length_insert; eapply lookup_lt_Some, Hrn).
        reflexivity.
    + unfold s', registered_rejected_store.
      destruct (decide _); cbn; rewrite !list_lookup_insert_ne by lia; exact Hp1.
Qed.

(** *** Writing into the results array *)

Lemma array_store_lookup_eq l i v : array_store l i v !! i = Some v.
Proof.
  unfold array_store. destruct (decide (i < length l)).
  - apply list_lookup_insert_eq. assumption.
  - rewrite lookup_app_r by lia.
    rewrite lookup_app_r by (rewrite length_replicate; lia).
    rewrite length_replicate, Nat.sub_diag. reflexivity.
Qed.

Lemma array_store_lookup_ne l i j v :
  j <> i -> j < length l -> array_store l i v !! j = l !! j.
Proof.
  intros Hne Hlt. unfold array_store. destruct (decide (i < length l)).
  - apply list_lookup_insert_ne. congruence.
  - apply lookup_app_l. assumption.
Qed.

Lemma length_array_store l i v : length (array_store l i v) = max (length l) (S i).
Proof.
  unfold array_store. destruct (decide (i < length l)).
  - rewrite length_insert. lia.
  - rewrite !length_app, length_replicate. cbn. lia.
Qed.

(** *** The history of an aggregation *)

(** The number of fulfilments among the events. *)
Fixpoint resolutions (events : list (nat * settle_call)) : nat :=
  match events with
  | [] => 0
  | (_, CallResolve _) :: events => S (resolutions events)
  | (_, CallReject _) :: events => resolutions events
  end.

(** The reason of the first rejection among the events. *)
Fixpoint first_rejection (events : list (nat * settle_call)) : option jsvalue :=
  match events with
  | [] => None
  | (_, CallReject r) :: _ => Some r
  | (_, CallResolve _) :: events => first_rejection events
  end.

Lemma resolutions_app l1 l2 : resolutions (l1 ++ l2) = resolutions l1 + resolutions l2.
Proof. induction l1 as [|[i [v|r]] l1 IH]; cbn; lia. Qed.

Lemma first_rejection_app l1 l2 :
  first_rejection (l1 ++ l2) =
    match first_rejection l1 with
    | Some r => Some r
    | None => first_rejection l2
    end.
Proof. induction l1 as [|[i [v|r]] l1 IH]; cbn; auto. Qed.

Lemma resolutions_le l : resolutions l <= length l.
Proof. induction l as [|[i [v|r]] l IH]; cbn; lia. Qed.

Lemma resolutions_no_rejection l : first_rejection l = None -> resolutions l = length l.
Proof. induction l as [|[i [v|r]] l IH]; cbn; intros H; try discriminate; auto. Qed.

Lemma resolutions_with_rejection l r :
  first_rejection l = Some r -> resolutions l < length l.
Proof.
  induction l as [|[i [v|r']] l IH]; cbn; intros H; try discriminate.
  - apply IH in H. lia.
  - pose proof (resolutions_le l). lia.
Qed.

Lemma distinct_bounded_length (l : list nat) n :
  NoDup l -> (forall x, x ∈ l -> x < n) -> length l <= n.
Proof.
  intros Hnd Hb.
  assert (H : length l <= length (seq 0 n)); [|rewrite length_seq in H; exact H].
  apply NoDup_incl_length; [apply NoDup_ListNoDup, Hnd|].
  intros x Hx. apply in_seq. apply list_elem_of_In, Hb in Hx. lia.
Qed.

(** What holds between the events: the graph is wired, the agregator has
    counted the fulfilments and stored their values, the inputs that were
    settled hold what they were settled with, and the root is Rejected with
    the first reason if there was a rejection, Fulfilled with the results
    array once all [n] inputs are fulfilled, and Pending otherwise. *)
Definition all_inv (n : nat) (done : list (nat * settle_call)) (s : store) : Prop :=
  wired n s /\
  exists g rn,
    agregators s !! 0 = Some g /\ promises s !! n = Some rn /\
    count g = resolutions done /\
    length (results g) <= n /\
    (forall i v, (i, CallResolve v) ∈ done ->
       results g !! i = Some v /\ fulfilled_with v s i) /\
    (forall i r, (i, CallReject r) ∈ done -> rejected_with r s i) /\
    match first_rejection done with
    | Some r => _state rn = Rejected /\ _reason rn = r
    | None =>
        if decide (length done = n /\ 0 < n)
        then _state rn = Fulfilled /\ _result rn = VArray 0
        else _state rn = Pending
    end.

Lemma all_inv_step fuel n done s i call :
  all_inv n done s -> i < n -> i ∉ map fst done -> length done < n ->
  (forall j x, (j, x) ∈ done -> j < n) ->
  exists s',
    settle (4 + fuel) i call s = Normal tt s' /\
    all_inv n (done ++ [(i, call)]) s'.
Proof.
  intros (Hw & g & rn & Hg & Hrn & Hcount & Hlen & Hres & Hrej & Hroot) Hlt Hnew Hdone Hb.
  destruct (settle_input fuel n s i call Hw Hlt)
    as (g0 & rn0 & pn & s' & Hg0 & Hrn0 & Hp & Hrun & Hw' & Hothers & Hcall).
  assert (g0 = g) as -> by congruence. assert (rn0 = rn) as -> by congruence.
  assert (Hne : forall j x, (j, x) ∈ done -> j <> i).
  { intros j x Hin ->. apply Hnew. apply list_elem_of_In.
    apply list_elem_of_In, (in_map fst) in Hin. exact Hin. }
  assert (Hkeep_res : forall j w, (j, CallResolve w) ∈ done -> fulfilled_with w s' j).
  { intros j w Hin. destruct (Hres j w Hin) as (_ & nj & Hnj & Hst).
    exists nj. rewrite Hothers by eauto. auto. }
  assert (Hkeep_rej : forall j w, (j, CallReject w) ∈ done -> rejected_with w s' j).
  { intros j w Hin. destruct (Hrej j w Hin) as (nj & Hnj & Hst).
    exists nj. rewrite Hothers by eauto. auto. }
  exists s'. split; [exact Hrun|]. split; [exact Hw'|].
  rewrite first_rejection_app, resolutions_app, length_app. cbn [length].
  destruct call as [v|r]; cbn [first_rejection resolutions];
    destruct Hcall as (Hg' & Hrn' & Hp').
  - eexists _, _. split; [exact Hg'|]. split; [exact Hrn'|].
    cbn [count results counted].
    split; [lia|]. split; [rewrite length_array_store; lia|].
    split; [|split].
    + intros j w Hin. apply elem_of_app in Hin as [Hin|Hin].
      * split; [|apply Hkeep_res, Hin].
        destruct (Hres j w Hin) as (Hslot & _).
        rewrite array_store_lookup_ne; [exact Hslot|eauto|].
        eapply lookup_lt_Some, Hslot.
      * apply list_elem_of_singleton in Hin. injection Hin as -> ->.
        split; [apply array_store_lookup_eq|].
        eexists. split; [exact Hp'|]. auto.
    + intros j w Hin. apply elem_of_app in Hin as [Hin|Hin]; [apply Hkeep_rej, Hin|].
      apply list_elem_of_singleton in Hin. discriminate.
    + destruct (first_rejection done) as [r0|] eqn:Hfirst.
      * pose proof (resolutions_with_rejection done r0 Hfirst).
        rewrite decide_False by lia. exact Hroot.
      * pose proof (resolutions_no_rejection done Hfirst) as Hall.
        rewrite decide_False in Hroot by lia.
        destruct (decide (S (count g) = n)) as [Heq|Hneq].
        -- rewrite decide_True by lia. cbn. auto.
        -- rewrite decide_False by lia. exact Hroot.
  - eexists _, _. split; [exact Hg'|]. split; [exact Hrn'|].
    split; [lia|]. split; [exact Hlen|].
    split; [|split].
    + intros j w Hin. apply elem_of_app in Hin as [Hin|Hin].
      * split; [apply (Hres j w Hin) | apply Hkeep_res, Hin].
      * apply list_elem_of_singleton in Hin. discriminate.
    + intros j w Hin. apply elem_of_app in Hin as [Hin|Hin]; [apply Hkeep_rej, Hin|].
      apply list_elem_of_singleton in Hin. injection Hin as -> ->.
      eexists. split; [exact Hp'|]. auto.
    + destruct (first_rejection done) as [r0|] eqn:Hfirst.
      * destruct Hroot as [Hst Hre]. rewrite decide_True by exact Hst. auto.
      * rewrite decide_False in Hroot by lia.
        rewrite decide_False by congruence. cbn. auto.
Qed.

Lemma settle_each_inv fuel n events : forall done s,
  all_inv n done s ->
  NoDup (map fst (done ++ events)%list) ->
  (forall j x, (j, x) ∈ (done ++ events)%list -> j < n) ->
  exists s',
    settle_each (4 + fuel) (seq 0 n) events s = Normal tt s' /\
    all_inv n (done ++ events)%list s'.
Proof.
  induction events as [|[i call] events IH]; intros done s Hinv Hnd Hb.
  - exists s. rewrite app_nil_r. split; [reflexivity | exact Hinv].
  - assert (Hi : i < n) by (apply (Hb i call), elem_of_app; right; left).
    assert (Hsplit : (done ++ (i, call) :: events = (done ++ [(i, call)]) ++ events)%list)
      by (rewrite <- app_assoc; reflexivity).
    rewrite Hsplit in Hnd, Hb. rewrite Hsplit.
    pose proof Hnd as Hnd1. rewrite map_app in Hnd1.
    apply list.NoDup_app in Hnd1 as (Hnd1 & _ & _).
    assert (Hlen : length (done ++ [(i, call)])%list <= n).
    { rewrite <- (length_map fst). apply distinct_bounded_length; [exact Hnd1|].
      intros x Hx. apply list_elem_of_In, in_map_iff in Hx as ([j y] & <- & Hin).
      apply (Hb j y), elem_of_app. left. apply list_elem_of_In, Hin. }
    rewrite length_app in Hlen. cbn in Hlen.
    rewrite map_app in Hnd1. apply list.NoDup_app in Hnd1 as (_ & Hdisj & _).
    assert (Hnew : i ∉ map fst done).
    { intros Hin. apply (Hdisj i Hin). left. }
    destruct (all_inv_step fuel n done s i call Hinv Hi Hnew) as (s1 & Hrun & Hinv1);
      [lia | |].
    { intros j x Hin. apply (Hb j x), elem_of_app. left. apply elem_of_app. left.
      exact Hin. }
    destruct (IH (done ++ [(i, call)])%list s1 Hinv1 Hnd Hb) as (s' & Hrest & Hinv').
    exists s'. split; [|exact Hinv'].
    cbn [settle_each]. rewrite lookup_seq_lt by exact Hi. cbn [Nat.add].
    rewrite (bind_Normal _ _ _ _ _ Hrun). exact Hrest.
Qed.

(** *** What [all] builds *)

(** [m] promises, all fresh. *)
Definition blank (m : nat) (s : store) : Prop :=
  length (promises s) = m /\ length (arrays s) = m /\
  (forall i, i < m -> promises s !! i = Some (new_child None None i)) /\
  (forall i, i < m -> arrays s !! i = Some []) /\
  agregators s = [] /\ trace s = [].

Lemma blank_allocated m s : blank m s -> blank (S m) (allocated s).
Proof.
  intros (Hlp & Hla & Hp & Ha & Hg & Ht). unfold blank, allocated. cbn.
  rewrite !length_app, Hlp, Hla. cbn. repeat split; auto; try lia.
  - intros i Hi. destruct (decide (i = m)) as [->|Hne].
    + rewrite <- Hlp at 1. rewrite list_lookup_middle by reflexivity. reflexivity.
    + rewrite lookup_app_l by lia. apply Hp. lia.
  - intros i Hi. destruct (decide (i = m)) as [->|Hne].
    + rewrite <- Hla at 1. rewrite list_lookup_middle by reflexivity. reflexivity.
    + rewrite lookup_app_l by lia. apply Ha. lia.
Qed.

Lemma new_promises_blank fuel n : forall m s,
  blank m s ->
  exists s', new_promises fuel n s = Normal (seq m n) s' /\ blank (m + n) s'.
Proof.
  induction n as [|n IH]; intros m s Hb.
  - exists s. rewrite Nat.add_0_r. split; [reflexivity | exact Hb].
  - destruct (IH (S m) (allocated s) (blank_allocated m s Hb)) as (s' & Hrun & Hb').
    exists s'. split; [|replace (m + S n) with (S m + n) by lia; exact Hb'].
    cbn [new_promises]. unfold new_InternalPromise.
    unfold bind at 1. unfold bind at 1. rewrite alloc_promise_run. unfold ret at 1.
    destruct Hb as (Hlp & _). rewrite Hlp.
    rewrite (bind_Normal _ _ _ _ _ Hrun). reflexivity.
Qed.

(** The graph after [k] of the [n] inputs have been registered. *)
Definition half_wired (n k : nat) (s : store) : Prop :=
  length (promises s) = n + 1 + k /\ length (arrays s) = n + 1 + k /\
  (forall i, i <= n -> promises s !! i = Some (new_child None None i)) /\
  (forall i, i < k ->
     promises s !! (n + 1 + i) =
       Some (new_child (Some (AgregatorFulfilled 0 i)) (Some (AgregatorRejected 0))
               (n + 1 + i))) /\
  (forall i, i < k -> arrays s !! i = Some [n + 1 + i]) /\
  (forall i, k <= i -> i < n + 1 + k -> arrays s !! i = Some []) /\
  agregators s = [ {| count := 0; target := n; rootPromise := n; results := [] |} ] /\
  trace s = [].

Lemma half_wired_register fuel n k s :
  k < n -> half_wired n k s ->
  exists s',
    _RegisterForFulfillment fuel k 0 k s = Normal tt s' /\ half_wired n (S k) s'.
Proof.
  intros Hk (Hlp & Hla & Hp & Hc & Hia & Hoa & Hg & Ht).
  assert (Hpk : promises s !! k = Some (new_child None None k)) by (apply Hp; lia).
  assert (Hak : arrays s !! _children (new_child None None k) = Some [])
    by (cbn; apply Hoa; lia).
  eexists. unfold _RegisterForFulfillment.
  rewrite (bind_Normal _ _ _ _ _
             (then_pending fuel s k _ [] _ _ Hpk Hak eq_refl)).
  split; [reflexivity|].
  unfold half_wired, registered. cbn [promises arrays agregators trace _children new_child].
  rewrite !length_app, length_insert, !length_app, Hlp, Hla. cbn [length app].
  repeat split; auto; try lia.
  - intros i Hi. rewrite lookup_app_l by lia. apply Hp, Hi.
  - intros i Hi. destruct (decide (i = k)) as [->|Hne].
    + rewrite <- Hlp at 1. rewrite list_lookup_middle by reflexivity. reflexivity.
    + rewrite lookup_app_l by lia. apply Hc. lia.
  - intros i Hi. destruct (decide (i = k)) as [->|Hne].
    + rewrite list_lookup_insert_eq by (rewrite length_app; lia). reflexivity.
    + rewrite list_lookup_insert_ne by lia. rewrite lookup_app_l by lia. apply Hia. lia.
  - intros i Hi1 Hi2. rewrite list_lookup_insert_ne by lia.
    destruct (decide (i = n + 1 + k)) as [->|Hne].
    + rewrite <- Hla at 1. rewrite list_lookup_middle by reflexivity. reflexivity.
    + rewrite lookup_app_l by lia. apply Hoa; lia.
Qed.

Lemma half_wired_register_from fuel n d : forall k s,
  k + d = n -> half_wired n k s ->
  exists s', register_from fuel (seq k d) 0 k s = Normal tt s' /\ half_wired n n s'.
Proof.
  induction d as [|d IH]; intros k s Hkd Hw.
  - exists s. replace n with k by lia. split; [reflexivity|].
    replace n with k in Hw by lia. exact Hw.
  - destruct (half_wired_register fuel n k s) as (s1 & Hrun & Hw1); [lia|exact Hw|].
    destruct (IH (S k) s1) as (s' & Hrest & Hw'); [lia|exact Hw1|].
    exists s'. split; [|exact Hw']. cbn [seq register_from].
    rewrite (bind_Normal _ _ _ _ _ Hrun). exact Hrest.
Qed.

Lemma half_wired_all_inv n s : half_wired n n s -> all_inv n [] s.
Proof.
  intros (Hlp & Hla & Hp & Hc & Hia & Hoa & Hg & Ht). split.
  - split.
    + intros i Hi. eexists. split; [apply Hp; lia|]. auto.
    + eexists. split; [apply Hp; lia|]. auto.
    + intros i Hi. eexists. split; [apply Hc; lia|]. auto.
    + intros i Hi. apply Hia, Hi.
    + intros i H1 H2. apply Hoa; lia.
    + eexists. rewrite Hg. split; [reflexivity|]. auto.
  - eexists _, _. rewrite Hg. split; [reflexivity|]. split; [apply Hp; lia|].
    cbn. split; [reflexivity|]. split; [lia|].
    split; [intros i v Hin; inversion Hin|].
    split; [intros i r Hin; inversion Hin|].
    rewrite decide_False by lia. reflexivity.
Qed.

Lemma blank_empty : blank 0 empty_store.
Proof. unfold blank. cbn. repeat split; auto; intros i Hi; lia. Qed.

(** [all] over [n] fresh promises of the empty store, followed by events
    that settle every input at most once. *)
Lemma all_of_pending_inv fuel n events :
  NoDup (map fst events) ->
  (forall j x, (j, x) ∈ events -> j < n) ->
  exists s',
    all_of_pending (4 + fuel) n events empty_store = Normal n s' /\
    all_inv n events s'.
Proof.
  intros Hnd Hb.
  destruct (new_promises_blank (4 + fuel) n 0 empty_store blank_empty)
    as (s1 & Hnew & Hb1).
  cbn [Nat.add] in Hb1.
  pose proof (blank_allocated n s1 Hb1) as Hb2.
  set (s2 := allocated s1) in *.
  set (s3 := {| promises := promises s2; arrays := arrays s2;
               agregators := [ {| count := 0; target := n; rootPromise := n;
                                  results := [] |} ];
               trace := trace s2 |}).
  assert (Hw0 : half_wired n 0 s3).
  { unfold half_wired, s3. clearbody s2.
    destruct Hb2 as (Hlp & Hla & Hp & Ha & Hg & Ht). cbn.
    repeat split; auto; try lia; intros; try lia;
      first [apply Hp; lia | apply Ha; lia]. }
  destruct (half_wired_register_from (4 + fuel) n n 0 s3 eq_refl Hw0) as (s4 & Hreg & Hw4).
  destruct (settle_each_inv fuel n events [] s4 (half_wired_all_inv n s4 Hw4) Hnd Hb)
    as (s' & Hev & Hinv).
  exists s'. split; [|exact Hinv].
  unfold all_of_pending. rewrite (bind_Normal _ _ _ _ _ Hnew).
  assert (Hall : all (4 + fuel) (seq 0 n) s1 = Normal n s4).
  { unfold all. rewrite (bind_Normal _ _ _ _ _ (alloc_promise_run s1)).
    destruct Hb1 as (Hlp & _ & _ & _ & Hg & _). rewrite Hlp.
    unfold new_FulFillmentAgregator. unfold bind at 1. rewrite length_seq.
    fold s2. destruct Hb2 as (_ & _ & _ & _ & Hg2 & _).
    rewrite Hg2. cbn [length app].
    replace {| promises := promises s2; arrays := arrays s2;
               agregators := [ {| count := 0; target := n; rootPromise := n;
                                  results := [] |} ];
               trace := trace s2 |} with s3 by reflexivity.
    rewrite (bind_Normal _ _ _ _ _ Hreg). reflexivity. }
  rewrite (bind_Normal _ _ _ _ _ Hall).
  rewrite (bind_Normal _ _ _ _ _ Hev). reflexivity.
Qed.

(** *** Scenarios around [all] *)

(** [b = p.catch(h); root = all([b]); p] is rejected with [R]. *)
Definition all_of_caught (fuel : nat) (h : jsvalue -> option string) (R : jsvalue)
    : M (ref * ref) :=
  p ← new_InternalPromise fuel None ;
  b ← catch fuel p (UserRejected h) ;
  root ← all fuel [b] ;
  _reject fuel p R ;;
  ret (b, root).

(** [b = p.then(f); root = all([b]); p] is resolved with [v]. *)
Definition all_of_continued (fuel : nat) (f : jsvalue -> completion) (v : jsvalue)
    : M (ref * ref) :=
  p ← new_InternalPromise fuel None ;
  b ← then_ fuel p (Some (UserFulfilled f)) None ;
  root ← all fuel [b] ;
  _resolve fuel p v ;;
  ret (b, root).

(** Inputs that are settled when [all] receives them:
    [InternalPromise.resolve(v)], or
    [new InternalPromise((resolve, reject) => reject(r))]. *)
Definition settled_input (fuel : nat) (c : settle_call) : M ref :=
  match c with
  | CallResolve v => resolve fuel v
  | CallReject r =>
      new_InternalPromise fuel
        (Some {| resolver_calls := [CallReject r]; resolver_raises := None |})
  end.

Fixpoint settled_inputs (fuel : nat) (calls : list settle_call) : M (list ref) :=
  match calls with
  | [] => ret []
  | c :: calls =>
      p ← settled_input fuel c ;
      ps ← settled_inputs fuel calls ;
      ret (p :: ps)
  end.

Definition all_of_settled (fuel : nat) (calls : list settle_call) : M ref :=
  ps ← settled_inputs fuel calls ;
  all fuel ps.

Lemma refines_all_of_caught n m h R :
  n <= m -> refines (all_of_caught n h R) (all_of_caught m h R).
Proof. intros H. unfold all_of_caught. refines_fuel H. Qed.

Lemma refines_all_of_continued n m f v :
  n <= m -> refines (all_of_continued n f v) (all_of_continued m f v).
Proof. intros H. unfold all_of_continued. refines_fuel H. Qed.

Lemma refines_settled_input n m c :
  n <= m -> refines (settled_input n c) (settled_input m c).
Proof. intros H. destruct c; cbn [settled_input]; refines_fuel H. Qed.

Lemma refines_settled_inputs n m calls :
  n <= m -> refines (settled_inputs n calls) (settled_inputs m calls).
Proof.
  intros H. induction calls as [|c calls IH]; cbn [settled_inputs].
  - apply refines_refl.
  - apply refines_bind; [apply refines_settled_input, H|intros p].
    apply refines_bind; [exact IH|intros ps; apply refines_refl].
Qed.

Lemma refines_all_of_settled n m calls :
  n <= m -> refines (all_of_settled n calls) (all_of_settled m calls).
Proof.
  intros H. unfold all_of_settled.
  apply refines_bind; [apply refines_settled_inputs, H|intros ps; apply refines_all, H].
Qed.

Lemma NoDup_events_prefix (l1 l2 : list (nat * settle_call)) :
  NoDup (map fst (l1 ++ l2)%list) -> NoDup (map fst l1).
Proof. rewrite map_app. intros H. apply list.NoDup_app in H. tauto. Qed.

(** The results array of the agregator of the only [all] of a scenario. *)
Definition results_of (s : store) (a : ref) : option (list jsvalue) :=
  results <$> agregators s !! a.


Lemma lookup_map_seq {A} (f : nat -> A) n i :
  i < n -> map f (seq 0 n) !! i = Some (f i).
Proof.
  intros Hi. change (map f (seq 0 n)) with (f <$> seq 0 n).
  rewrite list_lookup_fmap, lookup_seq_lt by exact Hi. reflexivity.
Qed.


(** * Further properties of the class *)

(** ** Promises that are born settled *)

Lemma with_fresh_frame w s q n :
  promises s !! q = Some n -> promises (with_fresh w s) !! q = Some n.
Proof.
  intros Hq. cbn. rewrite lookup_app_l by (eapply lookup_lt_Some, Hq). exact Hq.
Qed.

Lemma with_fresh_fulfilled w s : fulfilled_with w (with_fresh w s) (length (promises s)).
Proof.
  eexists. split; [cbn; apply list_lookup_middle; reflexivity|]. auto.
Qed.

Lemma value_fulfilled s this n :
  promises s !! this = Some n -> _state n = Fulfilled ->
  value this s = Normal (_result n) s.
Proof.
  intros Hn Hst. js_unfold. rewrite Hn. cbn. rewrite Hst.
  rewrite bool_decide_eq_true_2 by reflexivity. cbn. rewrite Hn. reflexivity.
Qed.

(** X1: [InternalPromise.resolve(v).value()] is [v], for every value and in
    every store.  The call adds one Fulfilled promise and changes no promise
    that existed; no callback runs (the trace gains the resolution only). *)
Theorem static_resolve_value_round_trip (fuel : nat) (v : jsvalue) (s : store) :
  exists s',
    (p ← resolve (2 + fuel) v ; value p) s = Normal v s' /\
    fulfilled_with v s' (length (promises s)) /\
    children_of s' (length (promises s)) = Some [] /\
    length (promises s') = S (length (promises s)) /\
    (forall q n, promises s !! q = Some n -> promises s' !! q = Some n) /\
    trace s' = EvResolve (length (promises s)) v :: trace s.
Proof.
  exists (with_fresh v s). split.
  - rewrite (bind_Normal _ _ _ _ _ (static_resolve_run fuel v s)).
    apply (value_fulfilled _ _ (fresh_fulfilled v (length (arrays s))));
      [cbn; apply list_lookup_middle; reflexivity | reflexivity].
  - split; [apply with_fresh_fulfilled|]. split.
    + unfold children_of. cbn. rewrite list_lookup_middle by reflexivity. cbn.
      apply list_lookup_middle. reflexivity.
    + split; [cbn; rewrite length_app; cbn; lia|].
      split; [apply with_fresh_frame | reflexivity].
Qed.

(** X2: [new InternalPromise((resolve, reject) => resolve(v))] and
    [InternalPromise.resolve(v)] are the same operation: same promise
    returned, same store left. *)
Theorem constructor_resolving_is_static_resolve (fuel : nat) (v : jsvalue) (s : store) :
  new_InternalPromise (2 + fuel)
    (Some {| resolver_calls := [CallResolve v]; resolver_raises := None |}) s =
  resolve (2 + fuel) v s.
Proof.
  change (2 + fuel) with (S (S fuel)).
  rewrite (static_resolve_run fuel v s).
  unfold new_InternalPromise. cbn [resolver_calls resolver_raises run_resolver_calls].
  unfold bind at 1. rewrite alloc_promise_run.
  assert (Hp : promises (allocated s) !! length (promises s) =
               Some (new_child None None (length (arrays s))))
    by (apply list_lookup_middle; reflexivity).
  assert (Ha : arrays (allocated s) !! length (arrays s) = Some [])
    by (apply list_lookup_middle; reflexivity).
  unfold bind at 1. unfold try_catch. unfold bind at 1. unfold bind at 1.
  rewrite (resolve_bare fuel (allocated s) (length (promises s)) _ v Hp eq_refl Ha).
  unfold ret. unfold settled, with_fresh, allocated. cbn [promises arrays agregators trace].
  rewrite insert_app_r_alt, Nat.sub_diag by lia. reflexivity.
Qed.

Lemma run_resolver_calls_app fuel p l1 l2 s :
  run_resolver_calls fuel p (l1 ++ l2) s =
  bind (run_resolver_calls fuel p l1) (fun _ => run_resolver_calls fuel p l2) s.
Proof.
  revert s. induction l1 as [|[v|r] l1 IH]; intros s; cbn [app run_resolver_calls].
  - reflexivity.
  - unfold bind in *. destruct (_resolve fuel p v s); auto.
  - unfold bind in *. destruct (_reject fuel p r s); auto.
Qed.

(** What a settling call leaves in the promise it is made on. *)
Definition settled_as (c : settle_call) (s : store) (p : ref) : Prop :=
  match c with
  | CallResolve v => fulfilled_with v s p
  | CallReject r => rejected_with r s p
  end.

(** X3: a resolver that makes several settling calls and returns: the
    promise built holds what the last call gave it (nothing guards against
    a second settlement), and no promise that existed is changed. *)
Theorem constructor_last_call_wins (fuel : nat) (s : store)
    (calls : list settle_call) (last : settle_call) :
  exists s',
    new_InternalPromise (2 + fuel)
      (Some {| resolver_calls := calls ++ [last]; resolver_raises := None |}) s =
      Normal (length (promises s)) s' /\
    settled_as last s' (length (promises s)) /\
    (forall q n, promises s !! q = Some n -> promises s' !! q = Some n).
Proof.
  change (2 + fuel) with (S (S fuel)).
  unfold new_InternalPromise. rewrite (bind_Normal _ _ _ _ _ (alloc_promise_run s)).
  cbn [resolver_calls resolver_raises].
  set (p := length (promises s)).
  assert (Hp : promises (allocated s) !! p = Some (new_child None None (length (arrays s))))
    by (apply list_lookup_middle; reflexivity).
  assert (Ha : arrays (allocated s) !! length (arrays s) = Some [])
    by (apply list_lookup_middle; reflexivity).
  destruct (run_resolver_calls_bare fuel p calls (allocated s) _ Hp eq_refl eq_refl Ha)
    as (n' & evs & Hrun & Hf' & Hr' & Hc').
  set (s1 := settled p n' evs (allocated s)) in *.
  assert (Hp' : promises s1 !! p = Some n') by (apply (lookup_insert_same _ _ _ _ Hp)).
  assert (Ha' : arrays s1 !! _children n' = Some []) by (rewrite Hc'; exact Ha).
  assert (Hframe : forall n2 evs2 q n,
            promises s !! q = Some n ->
            promises (settled p n2 evs2 s1) !! q = Some n).
  { intros n2 evs2 q n Hq. cbn.
    assert (q < length (promises s)) by (eapply lookup_lt_Some, Hq).
    rewrite !list_lookup_insert_ne by (unfold p; lia).
    rewrite lookup_app_l by assumption. exact Hq. }
  destruct last as [v|r].
  - eexists. split; [|split].
    + unfold bind at 1. unfold try_catch. unfold bind at 1.
      rewrite run_resolver_calls_app, (bind_Normal _ _ _ _ _ Hrun).
      cbn [run_resolver_calls].
      rewrite (bind_Normal _ _ _ _ _ (resolve_bare fuel s1 p n' v Hp' Hf' Ha')).
      reflexivity.
    + eexists. split; [apply (lookup_insert_same _ _ _ _ Hp')|]. auto.
    + apply Hframe.
  - eexists. split; [|split].
    + unfold bind at 1. unfold try_catch. unfold bind at 1.
      rewrite run_resolver_calls_app, (bind_Normal _ _ _ _ _ Hrun).
      cbn [run_resolver_calls].
      rewrite (bind_Normal _ _ _ _ _ (reject_bare fuel s1 p n' r Hp' Hr' Ha')).
      reflexivity.
    + eexists. split; [apply (lookup_insert_same _ _ _ _ Hp')|]. auto.
    + apply Hframe.
Qed.

(** ** [then] on every kind of parent *)

Lemma registered_frame np pcs f g s q n :
  promises s !! q = Some n -> promises (registered np pcs f g s) !! q = Some n.
Proof.
  intros Hq. cbn. rewrite lookup_app_l by (eapply lookup_lt_Some, Hq). exact Hq.
Qed.

Lemma registered_settled_frame np pcs f g s n' evs q n :
  promises s !! q = Some n ->
  promises (settled (length (promises s)) n' evs (registered np pcs f g s)) !! q = Some n.
Proof.
  intros Hq. assert (q < length (promises s)) by (eapply lookup_lt_Some, Hq).
  cbn. rewrite list_lookup_insert_ne by lia.
  rewrite lookup_app_l by assumption. exact Hq.
Qed.

Lemma children_of_registered_settled s this np pcs f g n' evs :
  promises s !! this = Some np ->
  arrays s !! _children np = Some pcs ->
  children_of (settled (length (promises s)) n' evs (registered np pcs f g s)) this =
    Some (pcs ++ [length (promises s)])%list.
Proof.
  intros Hp Hpa. unfold children_of.
  rewrite (registered_settled_frame np pcs f g s n' evs this np Hp).
  apply (registered_parent_array s np pcs f g Hpa).
Qed.

(** X4: [then] on a Pending promise only registers: it returns a new
    Pending promise that holds the two callbacks and has no child, appends
    it to the children of the promise, calls no callback (the trace is
    unchanged) and changes no other promise.  This needs no fuel: nothing is
    settled. *)
Theorem then_on_pending_only_registers (fuel : nat) (s : store) (this : ref)
    (np : InternalPromise) (pcs : list ref)
    (f : option onFulfilled_fn) (g : option onRejected_fn) :
  promises s !! this = Some np ->
  arrays s !! _children np = Some pcs ->
  _state np = Pending ->
  exists s',
    then_ fuel this f g s = Normal (length (promises s)) s' /\
    promises s' !! length (promises s) = Some (new_child f g (length (arrays s))) /\
    children_of s' (length (promises s)) = Some [] /\
    children_of s' this = Some (pcs ++ [length (promises s)])%list /\
    (forall q n, promises s !! q = Some n -> promises s' !! q = Some n) /\
    trace s' = trace s /\ agregators s' = agregators s.
Proof.
  intros Hp Hpa Hst. exists (registered np pcs f g s).
  split; [apply then_pending; assumption|].
  split; [apply registered_child|].
  split.
  { unfold children_of. rewrite registered_child. cbn [_children new_child].
    apply (registered_child_array s np pcs f g Hpa). }
  split.
  { unfold children_of. rewrite (registered_parent s this np pcs f g Hp).
    apply (registered_parent_array s np pcs f g Hpa). }
  split; [intros q n; apply registered_frame|]. split; reflexivity.
Qed.

Lemma then_on_pending_only_registers_witness :
  exists s',
    then_ 0 0 (Some (UserFulfilled (fun v => Return v))) None (allocated empty_store) =
      Normal 1 s' /\
    children_of s' 0 = Some [1] /\ trace s' = [].
Proof.
  destruct (then_on_pending_only_registers 0 (allocated empty_store) 0
              (new_child None None 0) [] (Some (UserFulfilled (fun v => Return v))) None
              eq_refl eq_refl eq_refl)
    as (s' & Hrun & _ & _ & Hch & _ & Htr & _).
  exists s'. split; [exact Hrun|]. split; [exact Hch | exact Htr].
Defined.

(** The parents whose settlement [then] replays as a fulfilment: Fulfilled,
    or Rejected with the rejection consumed by the parent's own handler. *)
Definition replays_fulfilment (np : InternalPromise) : Prop :=
  _state np = Fulfilled \/ (_state np = Rejected /\ _rejectWasConsumed np = true).

Lemma replays_fulfilment_test np :
  replays_fulfilment np ->
  negb (bool_decide (_state np = Pending)) = true /\
  bool_decide (_state np = Fulfilled) || _rejectWasConsumed np = true.
Proof.
  intros [H|[H1 H2]]; rewrite ?H, ?H1, ?H2; split; reflexivity.
Qed.

(** X5: [then] without continuation (so also [catch]) on a promise that is
    Fulfilled, or Rejected with its rejection consumed: the promise returned
    is the new child, Fulfilled with the [_result] of the parent; the
    rejection handler given is not called (the trace gains the resolution of
    the child only). *)
Theorem then_without_continuation_passes_result (fuel : nat) (s : store) (this : ref)
    (np : InternalPromise) (pcs : list ref) (g : option onRejected_fn) :
  promises s !! this = Some np ->
  arrays s !! _children np = Some pcs ->
  replays_fulfilment np ->
  exists s',
    then_ (2 + fuel) this None g s = Normal (length (promises s)) s' /\
    fulfilled_with (_result np) s' (length (promises s)) /\
    children_of s' this = Some (pcs ++ [length (promises s)])%list /\
    (forall q n, promises s !! q = Some n -> promises s' !! q = Some n) /\
    trace s' = EvResolve (length (promises s)) (_result np) :: trace s.
Proof.
  intros Hp Hpa Hre. change (2 + fuel) with (S (S fuel)).
  destruct (replays_fulfilment_test np Hre) as (Ht1 & Ht2).
  rewrite (then_registers (S (S fuel)) s this np pcs None g Hp Hpa).
  cbv zeta. rewrite Ht1, Ht2.
  rewrite (bind_Normal _ _ _ _ _
             (resolve_bare fuel (registered np pcs None g s) (length (promises s))
                (new_child None g (length (arrays s))) (_result np)
                (registered_child s np pcs None g) eq_refl
                (registered_child_array s np pcs None g Hpa))).
  cbn [is_nullish negb]. eexists. split; [reflexivity|].
  split.
  { eexists. split; [apply (lookup_insert_same _ _ _ _ (registered_child s np pcs None g))|].
    auto. }
  split; [apply children_of_registered_settled; assumption|].
  split; [intros q n; apply registered_settled_frame | reflexivity].
Qed.

Lemma then_without_continuation_passes_result_witness :
  exists s',
    catch 2 0 (UserRejected (fun _ => None)) (with_fresh (VNumber 7) empty_store) =
      Normal 1 s' /\
    fulfilled_with (VNumber 7) s' 1.
Proof.
  destruct (then_without_continuation_passes_result 0 (with_fresh (VNumber 7) empty_store) 0
              (fresh_fulfilled (VNumber 7) 0) [] (Some (UserRejected (fun _ => None)))
              eq_refl eq_refl (or_introl eq_refl))
    as (s' & Hrun & Hful & _).
  exists s'. split; [exact Hrun | exact Hful].
Defined.

Lemma no_leaves (s : store) : forall c : nat, c ∈ @nil nat -> bare_leaf s c.
Proof. intros c Hc. inversion Hc. Qed.

Lemma update_run p n f s :
  promises s !! p = Some n ->
  update p f s =
    Normal tt {| promises := <[p := f n]> (promises s); arrays := arrays s;
                 agregators := agregators s; trace := trace s |}.
Proof. intros H. unfold update. rewrite H. reflexivity. Qed.

(** X6: [then] with a continuation that returns a value that is not a
    promise, on a promise that is Fulfilled (or Rejected with its rejection
    consumed): the continuation is called once, with the [_result] of the
    parent, and the promise returned is the new child, Fulfilled with the
    value returned; when that value is null or undefined the child keeps
    the [_result] of the parent. *)
Theorem then_replay_stores_returned_value (fuel : nat) (s : store) (this : ref)
    (np : InternalPromise) (pcs : list ref) (f : jsvalue -> completion)
    (g : option onRejected_fn) (w : jsvalue) :
  promises s !! this = Some np ->
  arrays s !! _children np = Some pcs ->
  replays_fulfilment np ->
  f (_result np) = Return w ->
  as_promise w = None ->
  exists s',
    then_ (3 + fuel) this (Some (UserFulfilled f)) g s = Normal (length (promises s)) s' /\
    fulfilled_with (if is_nullish w then _result np else w) s' (length (promises s)) /\
    children_of s' this = Some (pcs ++ [length (promises s)])%list /\
    (forall q n, promises s !! q = Some n -> promises s' !! q = Some n) /\
    trace s' = EvOnFulfilled (length (promises s)) (_result np)
               :: EvResolve (length (promises s)) (_result np) :: trace s.
Proof.
  intros Hp Hpa Hre Hret Hw. change (3 + fuel) with (S (S (S fuel))).
  destruct (replays_fulfilment_test np Hre) as (Ht1 & Ht2).
  set (F := Some (UserFulfilled f)).
  rewrite (then_registers (S (S (S fuel))) s this np pcs F g Hp Hpa).
  cbv zeta. rewrite Ht1, Ht2.
  rewrite (bind_Normal _ _ _ _ _
             (resolve_plain_return fuel (registered np pcs F g s) (length (promises s))
                (new_child F g (length (arrays s))) (_result np) []
                (registered_child s np pcs F g)
                (registered_child_array s np pcs F g Hpa)
                (no_leaves _) (Nat.le_0_l _) f w eq_refl Hret Hw)).
  cbn [foldl].
  set (n1 := with_result (_result np) (with_state Fulfilled (new_child F g (length (arrays s))))).
  set (evs := [EvOnFulfilled (length (promises s)) (_result np);
               EvResolve (length (promises s)) (_result np)]).
  assert (Hc1 : promises (settled (length (promises s)) n1 evs (registered np pcs F g s))
                  !! length (promises s) = Some n1)
    by apply (lookup_insert_same _ _ _ _ (registered_child s np pcs F g)).
  destruct (is_nullish w) eqn:Hnull; cbn [negb].
  - eexists. split; [reflexivity|].
    split; [exists n1; auto|].
    split; [apply children_of_registered_settled; assumption|].
    split; [intros q n; apply registered_settled_frame | reflexivity].
  - rewrite Hw. rewrite (bind_Normal _ _ _ _ _ (update_run _ _ _ _ Hc1)).
    eexists. split; [reflexivity|].
    split.
    { eexists. cbn [promises]. split; [apply (lookup_insert_same _ _ _ _ Hc1)|]. auto. }
    split.
    { unfold children_of. cbn [promises arrays].
      assert (Hlt : this < length (promises s)) by (eapply lookup_lt_Some, Hp).
      rewrite list_lookup_insert_ne by lia.
      rewrite (registered_settled_frame np pcs F g s n1 evs this np Hp).
      apply (registered_parent_array s np pcs F g Hpa). }
    split; [|reflexivity].
    intros q n Hq. cbn [promises].
    assert (Hlt : q < length (promises s)) by (eapply lookup_lt_Some, Hq).
    rewrite list_lookup_insert_ne by lia.
    apply (registered_settled_frame np pcs F g s n1 evs q n Hq).
Qed.

Lemma then_replay_stores_returned_value_witness :
  exists s',
    then_ 3 0 (Some (UserFulfilled (fun _ => Return (VString "next")))) None
      (with_fresh (VNumber 7) empty_store) = Normal 1 s' /\
    fulfilled_with (VString "next") s' 1.
Proof.
  destruct (then_replay_stores_returned_value 0 (with_fresh (VNumber 7) empty_store) 0
              (fresh_fulfilled (VNumber 7) 0) [] (fun _ => Return (VString "next")) None
              (VString "next") eq_refl eq_refl (or_introl eq_refl) eq_refl eq_refl)
    as (s' & Hrun & Hful & _).
  exists s'. split; [exact Hrun | exact Hful].
Defined.

(** X7: [then] with a continuation that raises, on a promise that is
    Fulfilled (or Rejected with its rejection consumed): the promise
    returned is the new child, Rejected with the message of the failure.
    A rejection handler given in the same call of [then] is called with that
    message, and then the child counts as consumed. *)
Theorem then_replay_raise_rejects (fuel : nat) (s : store) (this : ref)
    (np : InternalPromise) (pcs : list ref) (f : jsvalue -> completion)
    (message : string) :
  promises s !! this = Some np ->
  arrays s !! _children np = Some pcs ->
  replays_fulfilment np ->
  f (_result np) = Raise message ->
  (exists s',
     then_ (3 + fuel) this (Some (UserFulfilled f)) None s =
       Normal (length (promises s)) s' /\
     rejected_with (VString message) s' (length (promises s)) /\
     (forall q n, promises s !! q = Some n -> promises s' !! q = Some n) /\
     trace s' = EvReject (length (promises s)) (VString message)
                :: EvOnFulfilled (length (promises s)) (_result np)
                :: EvResolve (length (promises s)) (_result np) :: trace s) /\
  (forall h, h (VString message) = None ->
   exists s' n',
     then_ (4 + fuel) this (Some (UserFulfilled f)) (Some (UserRejected h)) s =
       Normal (length (promises s)) s' /\
     promises s' !! length (promises s) = Some n' /\
     _state n' = Rejected /\ _reason n' = VString message /\
     _rejectWasConsumed n' = true /\
     (forall q n, promises s !! q = Some n -> promises s' !! q = Some n) /\
     trace s' = EvOnRejected (length (promises s)) (VString message)
                :: EvReject (length (promises s)) (VString message)
                :: EvOnFulfilled (length (promises s)) (_result np)
                :: EvResolve (length (promises s)) (_result np) :: trace s).
Proof.
  intros Hp Hpa Hre Hraise.
  destruct (replays_fulfilment_test np Hre) as (Ht1 & Ht2).
  set (F := Some (UserFulfilled f)).
  set (c := length (promises s)).
  split.
  - change (3 + fuel) with (S (S (S fuel))).
    rewrite (then_registers (S (S (S fuel))) s this np pcs F None Hp Hpa).
    cbv zeta. rewrite Ht1, Ht2. fold c.
    pose proof (registered_child s np pcs F None) as Hc. fold c in Hc.
    set (n1 := with_result (_result np)
                 (with_state Fulfilled (new_child F None (length (arrays s))))).
    set (s1 := settled c n1 [EvOnFulfilled c (_result np); EvResolve c (_result np)]
                 (registered np pcs F None s)).
    assert (Hc1 : promises s1 !! c = Some n1) by apply (lookup_insert_same _ _ _ _ Hc).
    assert (Ha1 : arrays s1 !! _children n1 = Some [])
      by apply (registered_child_array s np pcs F None Hpa).
    assert (Hres : _resolve (S (S (S fuel))) c (_result np) (registered np pcs F None s) =
                   Normal VNull (settled c (with_reason (VString message)
                                              (with_state Rejected n1))
                                   [EvReject c (VString message)] s1)).
    { rewrite (resolve_raise_caught (registered np pcs F None s) c _ (_result np) f
                 message Hc eq_refl Hraise (S (S fuel))).
      rewrite (bind_Normal _ _ _ _ _
                 (reject_bare fuel s1 c n1 (VString message) Hc1 eq_refl Ha1)).
      reflexivity. }
    rewrite (bind_Normal _ _ _ _ _ Hres).
    cbn [is_nullish negb]. unfold s1. rewrite settled_settled.
    eexists. split; [reflexivity|].
    split; [eexists; split; [apply (lookup_insert_same _ _ _ _ Hc)|]; auto|].
    split; [intros q n; apply registered_settled_frame | reflexivity].
  - intros h Hh. change (4 + fuel) with (S (S (S (S fuel)))).
    set (G := Some (UserRejected h)).
    rewrite (then_registers (S (S (S (S fuel)))) s this np pcs F G Hp Hpa).
    cbv zeta. rewrite Ht1, Ht2. fold c.
    pose proof (registered_child s np pcs F G) as Hc. fold c in Hc.
    set (n1 := with_result (_result np)
                 (with_state Fulfilled (new_child F G (length (arrays s))))).
    set (s1 := settled c n1 [EvOnFulfilled c (_result np); EvResolve c (_result np)]
                 (registered np pcs F G s)).
    assert (Hc1 : promises s1 !! c = Some n1) by apply (lookup_insert_same _ _ _ _ Hc).
    assert (Ha1 : arrays s1 !! _children n1 = Some [])
      by apply (registered_child_array s np pcs F G Hpa).
    assert (Hres : _resolve (S (S (S (S fuel)))) c (_result np) (registered np pcs F G s) =
                   Normal VNull
                     (settled c (with_rejectWasConsumed true
                                   (with_reason (VString message) (with_state Rejected n1)))
                        [EvOnRejected c (VString message); EvReject c (VString message)]
                        s1)).
    { rewrite (resolve_raise_caught (registered np pcs F G s) c _ (_result np) f
                 message Hc eq_refl Hraise (S (S (S fuel)))).
      rewrite (bind_Normal _ _ _ _ _
                 (reject_consumed fuel s1 c n1 (VString message) [] Hc1 Ha1
                    (no_leaves _) (Nat.le_0_l _) h eq_refl Hh)).
      reflexivity. }
    rewrite (bind_Normal _ _ _ _ _ Hres).
    cbn [is_nullish negb]. unfold s1. rewrite settled_settled.
    eexists _, _. split; [reflexivity|].
    split; [apply (lookup_insert_same _ _ _ _ Hc)|].
    split; [reflexivity|]. split; [reflexivity|]. split; [reflexivity|].
    split; [intros q n; apply registered_settled_frame | reflexivity].
Qed.

Lemma then_replay_raise_rejects_witness :
  exists s',
    then_ 3 0 (Some (UserFulfilled (fun _ => Raise "failed"))) None
      (with_fresh (VNumber 7) empty_store) = Normal 1 s' /\
    rejected_with (VString "failed") s' 1.
Proof.
  destruct (then_replay_raise_rejects 0 (with_fresh (VNumber 7) empty_store) 0
              (fresh_fulfilled (VNumber 7) 0) [] (fun _ => Raise "failed") "failed"
              eq_refl eq_refl (or_introl eq_refl) eq_refl)
    as ((s' & Hrun & Hrej & _) & _).
  exists s'. split; [exact Hrun | exact Hrej].
Defined.

(** X8: [then] on a promise that is Rejected and whose rejection was not
    consumed: the continuation is not called; the promise returned is the
    new child, Rejected with the reason of the parent.  A rejection handler
    given in the call is called once with that reason, and the child then
    counts as consumed. *)
Theorem then_on_rejected_replays_rejection (fuel : nat) (s : store) (this : ref)
    (np : InternalPromise) (pcs : list ref) (f : option onFulfilled_fn) :
  promises s !! this = Some np ->
  arrays s !! _children np = Some pcs ->
  _state np = Rejected ->
  _rejectWasConsumed np = false ->
  (exists s',
     then_ (2 + fuel) this f None s = Normal (length (promises s)) s' /\
     rejected_with (_reason np) s' (length (promises s)) /\
     children_of s' this = Some (pcs ++ [length (promises s)])%list /\
     (forall q n, promises s !! q = Some n -> promises s' !! q = Some n) /\
     trace s' = EvReject (length (promises s)) (_reason np) :: trace s) /\
  (forall h, h (_reason np) = None ->
   exists s' n',
     then_ (3 + fuel) this f (Some (UserRejected h)) s = Normal (length (promises s)) s' /\
     promises s' !! length (promises s) = Some n' /\
     _state n' = Rejected /\ _reason n' = _reason np /\ _rejectWasConsumed n' = true /\
     children_of s' this = Some (pcs ++ [length (promises s)])%list /\
     (forall q n, promises s !! q = Some n -> promises s' !! q = Some n) /\
     trace s' = EvOnRejected (length (promises s)) (_reason np)
                :: EvReject (length (promises s)) (_reason np) :: trace s).
Proof.
  intros Hp Hpa Hst Hflag.
  assert (Ht1 : negb (bool_decide (_state np = Pending)) = true)
    by (rewrite Hst; reflexivity).
  assert (Ht2 : bool_decide (_state np = Fulfilled) || _rejectWasConsumed np = false)
    by (rewrite Hst, Hflag; reflexivity).
  set (c := length (promises s)).
  split.
  - change (2 + fuel) with (S (S fuel)).
    rewrite (then_registers (S (S fuel)) s this np pcs f None Hp Hpa).
    cbv zeta. rewrite Ht1, Ht2. fold c.
    pose proof (registered_child s np pcs f None) as Hc. fold c in Hc.
    rewrite (bind_Normal _ _ _ _ _
               (reject_bare fuel _ c _ (_reason np) Hc eq_refl
                  (registered_child_array s np pcs f None Hpa))).
    eexists. split; [reflexivity|].
    split; [eexists; split; [apply (lookup_insert_same _ _ _ _ Hc)|]; auto|].
    split; [apply children_of_registered_settled; assumption|].
    split; [intros q n; apply registered_settled_frame | reflexivity].
  - intros h Hh. change (3 + fuel) with (S (S (S fuel))).
    set (G := Some (UserRejected h)).
    rewrite (then_registers (S (S (S fuel))) s this np pcs f G Hp Hpa).
    cbv zeta. rewrite Ht1, Ht2. fold c.
    pose proof (registered_child s np pcs f G) as Hc. fold c in Hc.
    rewrite (bind_Normal _ _ _ _ _
               (reject_consumed fuel _ c _ (_reason np) [] Hc
                  (registered_child_array s np pcs f G Hpa)
                  (no_leaves _) (Nat.le_0_l _) h eq_refl Hh)).
    cbn [foldl].
    eexists _, _. split; [reflexivity|].
    split; [apply (lookup_insert_same _ _ _ _ Hc)|].
    split; [reflexivity|]. split; [reflexivity|]. split; [reflexivity|].
    split; [apply children_of_registered_settled; assumption|].
    split; [intros q n; apply registered_settled_frame | reflexivity].
Qed.

Lemma then_on_rejected_replays_rejection_witness :
  let s := {| promises := [ {| _state := Rejected; _result := VUndefined;
                               _reason := VString "boom"; _children := 0;
                               _onFulfilled := None; _onRejected := None;
                               _rejectWasConsumed := false |} ];
              arrays := [ [] ]; agregators := []; trace := [] |} in
  exists s',
    then_ 2 0 (Some (UserFulfilled (fun v => Return v))) None s = Normal 1 s' /\
    rejected_with (VString "boom") s' 1 /\
    trace s' = [EvReject 1 (VString "boom")].
Proof.
  intros s.
  destruct (then_on_rejected_replays_rejection 0 s 0 _ []
              (Some (UserFulfilled (fun v => Return v))) eq_refl eq_refl eq_refl eq_refl)
    as ((s' & Hrun & Hrej & _ & _ & Htr) & _).
  exists s'. split; [exact Hrun|]. split; [exact Hrej | exact Htr].
Defined.

(** ** The value a continuation returns, before and after settlement *)

(** [p = InternalPromise.resolve(v); c = p.then(f); d = c.then()] *)
Definition then_after_resolve (fuel : nat) (f : jsvalue -> completion) (v : jsvalue)
    : M (ref * ref) :=
  p ← resolve fuel v ;
  c ← then_ fuel p (Some (UserFulfilled f)) None ;
  d ← then_ fuel c None None ;
  ret (c, d).

(** [p = new InternalPromise(); c = p.then(f); d = c.then()], and [p] is
    resolved with [v] afterwards. *)
Definition then_before_resolve (fuel : nat) (f : jsvalue -> completion) (v : jsvalue)
    : M (ref * ref) :=
  p ← new_InternalPromise fuel None ;
  c ← then_ fuel p (Some (UserFulfilled f)) None ;
  d ← then_ fuel c None None ;
  _resolve fuel p v ;;
  ret (c, d).

Lemma refines_then_after_resolve n m f v :
  n <= m -> refines (then_after_resolve n f v) (then_after_resolve m f v).
Proof. intros H. unfold then_after_resolve. refines_fuel H. Qed.

Lemma refines_then_before_resolve n m f v :
  n <= m -> refines (then_before_resolve n f v) (then_before_resolve m f v).
Proof. intros H. unfold then_before_resolve. refines_fuel H. Qed.



(** ** A promise returned by a continuation loses its own continuations *)

(** [x = r.then(); q = p.then(_ => r); y = q.then()], then [p] is resolved
    with [v] and [r] with [w]. *)
Definition return_pending_promise (fuel : nat) (v w : jsvalue)
    : M (ref * ref * ref * ref) :=
  r ← new_InternalPromise fuel None ;
  x ← then_ fuel r None None ;
  p ← new_InternalPromise fuel None ;
  q ← then_ fuel p (Some (UserFulfilled (fun _ => Return (VPromise r)))) None ;
  y ← then_ fuel q None None ;
  _resolve fuel p v ;;
  _resolve fuel r w ;;
  ret (r, x, q, y).

Lemma refines_return_pending_promise n m v w :
  n <= m -> refines (return_pending_promise n v w) (return_pending_promise m v w).
Proof. intros H. unfold return_pending_promise. refines_fuel H. Qed.

(** X11: when the continuation of [q] returns a promise [r] that is still
    Pending, the continuations chained on [q] are moved to [r] and are
    settled by [r] later ([y] ends Fulfilled with the value of [r]); but the
    continuation [x] that was chained on [r] before is dropped from the
    children of [r]: once [r] is resolved, [x] is still Pending. *)
Theorem returned_promise_drops_its_children (fuel : nat) (v w : jsvalue) :
  exists s',
    return_pending_promise (5 + fuel) v w empty_store = Normal (0, 1, 3, 4) s' /\
    fulfilled_with w s' 0 /\
    fulfilled_with v s' 3 /\
    fulfilled_with w s' 4 /\
    state_of s' 1 = Some Pending /\
    children_of s' 0 = Some [4] /\
    children_of s' 3 = Some [].
Proof.
  assert (H5 : exists s',
             return_pending_promise 5 v w empty_store = Normal (0, 1, 3, 4) s' /\
             fulfilled_with w s' 0 /\ fulfilled_with v s' 3 /\ fulfilled_with w s' 4 /\
             state_of s' 1 = Some Pending /\
             children_of s' 0 = Some [4] /\ children_of s' 3 = Some []).
  { eexists. split; [vm_compute; reflexivity|].
    split; [eexists; cbn; eauto|]. split; [eexists; cbn; eauto|].
    split; [eexists; cbn; eauto|]. split; [reflexivity|]. split; reflexivity. }
  destruct H5 as (s' & Hrun & Hprops). exists s'. split; [|exact Hprops].
  apply (enough_fuel (fun n => return_pending_promise n v w) 5 empty_store);
    [intros m Hm; apply refines_return_pending_promise, Hm | exact Hrun | discriminate | lia].
Qed.

(** ** No operation of the class takes a promise back to Pending *)

Lemma preserves_then fuel this f g : preserves (then_ fuel this f g).
Proof.
  destruct (preserves_routines fuel) as (Hr & Hj & Hm).
  unfold then_. preserves_tac.
Qed.

Lemma preserves_run_resolver_calls fuel this calls :
  preserves (run_resolver_calls fuel this calls).
Proof.
  destruct (preserves_routines fuel) as (Hr & Hj & Hm).
  induction calls as [|[v|r] calls IH]; cbn [run_resolver_calls]; preserves_tac.
Qed.

Lemma preserves_register_from fuel ps a : forall i, preserves (register_from fuel ps a i).
Proof.
  induction ps as [|p ps IH]; intros i; cbn [register_from].
  - apply preserves_ret.
  - apply preserves_bind; [|intros _; apply IH].
    unfold _RegisterForFulfillment.
    apply preserves_bind; [apply preserves_then | intros _; apply preserves_ret].
Qed.

Lemma preserves_new_FulFillmentAgregator t r : preserves (new_FulFillmentAgregator t r).
Proof. apply preserves_same_promises. intros s s' [= <-]. reflexivity. Qed.

(** X12: [then], [catch], the constructor, [InternalPromise.resolve],
    [all] and [_moveChildren], run on any store with any callbacks: when
    the call returns or throws, every promise that existed still exists, and
    every promise that was Fulfilled or Rejected is still Fulfilled or
    Rejected. *)
Theorem operations_never_unsettle (fuel : nat) :
  (forall this f g, preserves (then_ fuel this f g)) /\
  (forall this g, preserves (catch fuel this g)) /\
  (forall resolver, preserves (new_InternalPromise fuel resolver)) /\
  (forall v, preserves (resolve fuel v)) /\
  (forall ps, preserves (all fuel ps)) /\
  (forall r children, preserves (_moveChildren fuel r children)).
Proof.
  destruct (preserves_routines fuel) as (Hr & Hj & Hm).
  split; [intros; apply preserves_then|].
  split; [intros; apply preserves_then|].
  split.
  { intros resolver. unfold new_InternalPromise.
    pose proof (preserves_run_resolver_calls fuel) as Hcalls. preserves_tac. }
  split; [intros v; unfold resolve; preserves_tac|].
  split; [|exact Hm].
  intros ps. unfold all.
  apply preserves_bind; [apply preserves_alloc_promise|intros root].
  apply preserves_bind; [apply preserves_new_FulFillmentAgregator|intros a].
  apply preserves_bind; [apply preserves_register_from|intros _; apply preserves_ret].
Qed.

(** ** [all] while some inputs are still Pending *)



(** ** The order of the calls a fulfilment makes *)

(** X14: [_resolve] on a promise whose children have no continuation, no
    rejection handler and nothing chained on them, with no continuation of
    its own or one that returns something that is not a promise: the
    continuation is called exactly once, before any child is notified, every
    child is resolved exactly once, in the order of registration, and the
    call returns what the continuation returned ([null] without
    continuation).  The trace lists the newest event first. *)
Theorem resolve_notifies_children_in_order (fuel : nat) (s : store) (this : ref)
    (n : InternalPromise) (v : jsvalue) (cs : list ref) :
  promises s !! this = Some n ->
  arrays s !! _children n = Some cs ->
  (forall c, c ∈ cs -> bare_leaf s c) ->
  length cs <= S fuel ->
  (_onFulfilled n = None ->
   exists s',
     _resolve (3 + fuel) this v s = Normal VNull s' /\
     trace s' = (rev (map (fun c => EvResolve c v) cs) ++
                 EvResolve this v :: trace s)%list) /\
  (forall f w, _onFulfilled n = Some (UserFulfilled f) -> f v = Return w ->
   as_promise w = None ->
   exists s',
     _resolve (3 + fuel) this v s = Normal w s' /\
     trace s' = (rev (map (fun c => EvResolve c v) cs) ++
                 EvOnFulfilled this v :: EvResolve this v :: trace s)%list).
Proof.
  intros Hn Ha Hleaves Hfuel.
  pose proof (parent_not_among_leaves s this n cs Hn Ha Hleaves) as Hnotin.
  change (3 + fuel) with (S (S (S fuel))).
  split.
  - intros Hf. eexists.
    split; [apply (resolve_no_continuation fuel s this n v cs Hn Ha Hleaves Hfuel Hf)|].
    match goal with |- context [foldl _ ?st cs] => set (s1 := st) end.
    assert (Hl1 : forall c, c ∈ cs -> bare_leaf s1 c).
    { intros c Hc. apply bare_leaf_settled_other; [intros ->; contradiction | auto]. }
    destruct (foldl_resolve_leaf v cs s1 Hl1) as (_ & _ & Htr). exact Htr.
  - intros f w Hf Hret Hw. eexists.
    split; [apply (resolve_plain_return fuel s this n v cs Hn Ha Hleaves Hfuel f w
                     Hf Hret Hw)|].
    match goal with |- context [foldl _ ?st cs] => set (s1 := st) end.
    assert (Hl1 : forall c, c ∈ cs -> bare_leaf s1 c).
    { intros c Hc. apply bare_leaf_settled_other; [intros ->; contradiction | auto]. }
    destruct (foldl_resolve_leaf v cs s1 Hl1) as (_ & _ & Htr). exact Htr.
Qed.

Lemma resolve_notifies_children_in_order_witness :
  let s := parent_of_two Pending (Some (UserFulfilled (fun _ => Return (VNumber 5)))) None in
  exists s',
    _resolve 4 0 (VNumber 1) s = Normal (VNumber 5) s' /\
    trace s' = [EvResolve 2 (VNumber 1); EvResolve 1 (VNumber 1);
                EvOnFulfilled 0 (VNumber 1); EvResolve 0 (VNumber 1)].
Proof.
  intros s.
  destruct (resolve_notifies_children_in_order 1 s 0 _ (VNumber 1) [1; 2] eq_refl eq_refl
              (bare_leaves_correct s [1; 2] eq_refl) (le_n 2)) as (_ & H).
  destruct (H (fun _ => Return (VNumber 5)) (VNumber 5) eq_refl eq_refl eq_refl)
    as (s' & Hrun & Htr).
  exists s'. split; [exact Hrun | exact Htr].
Defined.

(** ** [all] over inputs that are settled already *)

(** The promise [settled_input] builds for a call; [a] is its array of
    children. *)
Definition settled_node (c : settle_call) (a : ref) : InternalPromise :=
  match c with
  | CallResolve v => fresh_fulfilled v a
  | CallReject r => with_reason r (with_state Rejected (new_child None None a))
  end.

Definition settled_event (c : settle_call) (p : ref) : event :=
  match c with
  | CallResolve v => EvResolve p v
  | CallReject r => EvReject p r
  end.

Definition with_settled (c : settle_call) (s : store) : store :=
  {| promises := (promises s ++ [settled_node c (length (arrays s))])%list;
     arrays := (arrays s ++ [[]])%list;
     agregators := agregators s;
     trace := settled_event c (length (promises s)) :: trace s |}.

Lemma settled_input_run fuel c s :
  settled_input (S (S fuel)) c s = Normal (length (promises s)) (with_settled c s).
Proof.
  destruct c as [v|r]; cbn [settled_input].
  - apply static_resolve_run.
  - unfold new_InternalPromise. cbn [resolver_calls resolver_raises run_resolver_calls].
    unfold bind at 1. rewrite alloc_promise_run.
    assert (Hp : promises (allocated s) !! length (promises s) =
                 Some (new_child None None (length (arrays s))))
      by (apply list_lookup_middle; reflexivity).
    assert (Ha : arrays (allocated s) !! length (arrays s) = Some [])
      by (apply list_lookup_middle; reflexivity).
    unfold bind at 1. unfold try_catch. unfold bind at 1. unfold bind at 1.
    rewrite (reject_bare fuel (allocated s) (length (promises s)) _ r Hp eq_refl Ha).
    unfold ret. unfold settled, with_settled, allocated.
    cbn [promises arrays agregators trace].
    rewrite insert_app_r_alt, Nat.sub_diag by lia. reflexivity.
Qed.

(** The store that holds the settled inputs [pre], and nothing else. *)
Definition stocked (pre : list settle_call) (s : store) : Prop :=
  length (promises s) = length pre /\ length (arrays s) = length pre /\
  (forall i c, pre !! i = Some c -> promises s !! i = Some (settled_node c i)) /\
  (forall i, i < length pre -> arrays s !! i = Some []) /\
  agregators s = [].

Lemma stocked_with_settled pre c s :
  stocked pre s -> stocked (pre ++ [c]) (with_settled c s).
Proof.
  intros (Hlp & Hla & Hp & Ha & Hg). unfold stocked, with_settled.
  cbn [promises arrays agregators trace]. rewrite !length_app, Hlp, Hla. cbn [length].
  split; [reflexivity|]. split; [reflexivity|]. split; [|split; [|exact Hg]].
  - intros i c' Hi. destruct (decide (i < length pre)) as [Hlt|Hge].
    + rewrite lookup_app_l in Hi by exact Hlt.
      rewrite lookup_app_l by lia. apply Hp, Hi.
    + assert (i = length pre) as ->.
      { apply lookup_lt_Some in Hi. rewrite length_app in Hi. cbn in Hi. lia. }
      rewrite list_lookup_middle in Hi by reflexivity. injection Hi as <-.
      rewrite <- Hlp at 1. rewrite list_lookup_middle by reflexivity. reflexivity.
  - intros i Hi. destruct (decide (i = length pre)) as [->|Hne].
    + rewrite <- Hla at 1. apply list_lookup_middle. reflexivity.
    + rewrite lookup_app_l by lia. apply Ha. lia.
Qed.

Lemma settled_inputs_stocked fuel calls : forall pre s,
  stocked pre s ->
  exists s',
    settled_inputs (S (S fuel)) calls s = Normal (seq (length pre) (length calls)) s' /\
    stocked (pre ++ calls) s'.
Proof.
  induction calls as [|c calls IH]; intros pre s Hs.
  - exists s. rewrite app_nil_r. split; [reflexivity | exact Hs].
  - destruct (IH (pre ++ [c])%list (with_settled c s) (stocked_with_settled pre c s Hs))
      as (s' & Hrun & Hs').
    exists s'. rewrite <- app_assoc in Hs'. split; [|exact Hs'].
    cbn [settled_inputs length seq].
    rewrite (bind_Normal _ _ _ _ _ (settled_input_run fuel c s)).
    rewrite (bind_Normal _ _ _ _ _ Hrun).
    destruct Hs as (Hlp & _). rewrite Hlp, length_app. cbn [length].
    replace (length pre + 1) with (S (length pre)) by lia. reflexivity.
Qed.

(** The fulfilments among the calls, and the reason of the first rejection. *)
Fixpoint fulfilments (calls : list settle_call) : nat :=
  match calls with
  | [] => 0
  | CallResolve _ :: calls => S (fulfilments calls)
  | CallReject _ :: calls => fulfilments calls
  end.

Fixpoint first_reason (calls : list settle_call) : option jsvalue :=
  match calls with
  | [] => None
  | CallReject r :: _ => Some r
  | CallResolve _ :: calls => first_reason calls
  end.

Lemma fulfilments_app l1 l2 : fulfilments (l1 ++ l2) = fulfilments l1 + fulfilments l2.
Proof. induction l1 as [|[v|r] l1 IH]; cbn; lia. Qed.

Lemma first_reason_app l1 l2 :
  first_reason (l1 ++ l2) =
    match first_reason l1 with Some r => Some r | None => first_reason l2 end.
Proof. induction l1 as [|[v|r] l1 IH]; cbn; auto. Qed.

Lemma fulfilments_all l : first_reason l = None -> fulfilments l = length l.
Proof. induction l as [|[v|r] l IH]; cbn; intros H; try discriminate; auto. Qed.

Lemma fulfilments_some l r : first_reason l = Some r -> fulfilments l < length l.
Proof.
  induction l as [|[v|r'] l IH]; cbn; intros H; try discriminate.
  - apply IH in H. lia.
  - clear. induction l as [|[v|r''] l IH]; cbn in *; lia.
Qed.

(** The graph after [all] has registered the first [j] of the settled
    inputs [calls]: their settlements have been replayed into the
    agregator and the root. *)
Definition replayed (calls : list settle_call) (j : nat) (s : store) : Prop :=
  length (promises s) = length calls + 1 + j /\
  length (arrays s) = length calls + 1 + j /\
  (forall i c, calls !! i = Some c -> promises s !! i = Some (settled_node c i)) /\
  (forall i, j <= i -> i <= length calls -> arrays s !! i = Some []) /\
  exists g rn,
    agregators s = [g] /\ target g = length calls /\ rootPromise g = length calls /\
    count g = fulfilments (take j calls) /\
    length (results g) <= j /\
    (forall i v, i < j -> calls !! i = Some (CallResolve v) -> results g !! i = Some v) /\
    promises s !! length calls = Some rn /\
    _children rn = length calls /\ _onFulfilled rn = None /\ _onRejected rn = None /\
    match first_reason (take j calls) with
    | Some r => _state rn = Rejected /\ _reason rn = r
    | None =>
        if decide (j = length calls /\ 0 < length calls)
        then _state rn = Fulfilled /\ _result rn = VArray 0
        else _state rn = Pending
    end.

Lemma replayed_register fuel calls j c s :
  replayed calls j s -> calls !! j = Some c ->
  exists s',
    _RegisterForFulfillment (4 + fuel) j 0 j s = Normal tt s' /\
    replayed calls (S j) s'.
Proof.
  intros (Hlp & Hla & Hin & Harr & g & rn & Hg & Htg & Hrp & Hcnt & Hlen & Hres & Hrn &
          Hrc & Hrf & Hrr & Hroot) Hj.
  change (4 + fuel) with (S (S (S (S fuel)))).
  set (k := length calls) in *.
  assert (Hjk : j < k) by (eapply lookup_lt_Some, Hj).
  assert (Htake : take (S j) calls = (take j calls ++ [c])%list) by (apply take_S_r, Hj).
  assert (Hltake : length (take j calls) = j) by (rewrite length_take; fold k; lia).
  set (F := Some (AgregatorFulfilled 0 j)).
  set (G := Some (AgregatorRejected 0)).
  set (np := settled_node c j).
  assert (Hp : promises s !! j = Some np) by (apply Hin, Hj).
  assert (Hpa : arrays s !! _children np = Some []).
  { unfold np. destruct c; cbn; apply Harr; lia. }
  set (sreg := registered np [] F G s).
  set (child := length (promises s)).
  set (cn := new_child F G (length (arrays s))).
  assert (Hc : promises sreg !! child = Some cn) by apply registered_child.
  assert (Hca : arrays sreg !! _children cn = Some [])
    by apply (registered_child_array s np [] F G Hpa).
  assert (Hgs : agregators sreg !! 0 = Some g) by (cbn; rewrite Hg; reflexivity).
  assert (Hr : promises sreg !! k = Some rn) by (apply registered_frame, Hrn).
  assert (Harrs : forall i, i <> j -> i <= k -> arrays sreg !! i = arrays s !! i).
  { intros i Hne Hi. cbn. assert (_children np = j) as -> by (unfold np; destruct c; reflexivity).
    rewrite list_lookup_insert_ne by congruence. apply lookup_app_l. lia. }
  assert (Hra : arrays sreg !! _children rn = Some []).
  { rewrite Hrc, Harrs by lia. apply Harr; lia. }
  assert (Hne : child <> k) by (unfold child; lia).
  assert (Hlreg : length (promises sreg) = k + 1 + S j /\ length (arrays sreg) = k + 1 + S j).
  { cbn. rewrite length_insert, !length_app, Hlp, Hla. cbn. lia. }
  assert (Hinreg : forall i c0, calls !! i = Some c0 ->
                     i <> k /\ i <> child /\ promises sreg !! i = Some (settled_node c0 i)).
  { intros i c0 Hi. assert (i < k) by (eapply lookup_lt_Some, Hi).
    split; [lia|]. split; [unfold child; lia|]. apply registered_frame, Hin, Hi. }
  assert (Harr' : forall s', arrays s' = arrays sreg ->
                    forall i, S j <= i -> i <= k -> arrays s' !! i = Some []).
  { intros s' E i H1 H2. rewrite E, Harrs by lia. apply Harr; lia. }
  unfold _RegisterForFulfillment. fold F G.
  unfold bind at 1.
  rewrite (then_registers (S (S (S (S fuel)))) s j np [] F G Hp Hpa). cbv zeta.
  fold sreg child. destruct c as [v|r].
  - (* the input is Fulfilled with [v] *)
    change (negb (bool_decide (_state np = Pending))) with true.
    change (bool_decide (_state np = Fulfilled) || _rejectWasConsumed np) with true.
    change (_result np) with v. cbv iota.
    pose proof (registered_resolved (S fuel) sreg child 0 k cn rn g Hc Hca Hgs Hrp Hr Hra Hne
                  j v eq_refl Hrf) as Hrun.
    rewrite (bind_Normal _ _ _ _ _ Hrun).
    cbn [is_nullish negb]. unfold ret. eexists. split; [reflexivity|].
    assert (Hfa : fulfilments (take (S j) calls) = S (count g)).
    { rewrite Htake, fulfilments_app, <- Hcnt. cbn. lia. }
    assert (Hfr : first_reason (take (S j) calls) = first_reason (take j calls)).
    { rewrite Htake, first_reason_app. cbn. destruct (first_reason (take j calls)); auto. }
    assert (Hres' : forall i w, i < S j -> calls !! i = Some (CallResolve w) ->
                      array_store (results g) j v !! i = Some w).
    { intros i w Hi Hcall. destruct (decide (i = j)) as [->|Hij].
      - assert (w = v) as -> by congruence. apply array_store_lookup_eq.
      - assert (Hw : results g !! i = Some w) by (apply Hres; [lia | exact Hcall]).
        rewrite array_store_lookup_ne; [exact Hw | exact Hij | eapply lookup_lt_Some, Hw]. }
    assert (Hlen' : length (array_store (results g) j v) <= S j)
      by (rewrite length_array_store; lia).
    unfold registered_resolved_store.
    destruct (decide (S (count g) = target g)) as [Hdone|Hnot].
    + assert (Hnone : first_reason (take j calls) = None).
      { destruct (first_reason (take j calls)) as [r0|] eqn:E; [|reflexivity].
        apply fulfilments_some in E. lia. }
      assert (Hsj : S j = k).
      { apply fulfilments_all in Hnone. rewrite <- Hcnt, Hltake in Hnone. lia. }
      split; [cbn [promises]; rewrite !length_insert; apply Hlreg|].
      split; [cbn [arrays]; apply Hlreg|].
      split.
      { intros i c0 Hi. destruct (Hinreg i c0 Hi) as (H1 & H2 & H3).
        cbn [promises]. rewrite !list_lookup_insert_ne by congruence. exact H3. }
      split; [apply Harr'; reflexivity|].
      exists (counted j v g), (with_result (VArray 0) (with_state Fulfilled rn)).
      split; [cbn; rewrite Hg; reflexivity|].
      split; [exact Htg|]. split; [exact Hrp|]. split; [cbn; lia|].
      split; [exact Hlen'|]. split; [exact Hres'|].
      split.
      { cbn [promises]. apply list_lookup_insert_eq. rewrite length_insert.
        eapply lookup_lt_Some, Hr. }
      split; [exact Hrc|]. split; [exact Hrf|]. split; [exact Hrr|].
      rewrite Hfr, Hnone, decide_True by (split; lia). auto.
    + split; [cbn [promises]; rewrite !length_insert; apply Hlreg|].
      split; [cbn [arrays]; apply Hlreg|].
      split.
      { intros i c0 Hi. destruct (Hinreg i c0 Hi) as (H1 & H2 & H3).
        cbn [promises]. rewrite !list_lookup_insert_ne by congruence. exact H3. }
      split; [apply Harr'; reflexivity|].
      exists (counted j v g), rn.
      split; [cbn; rewrite Hg; reflexivity|].
      split; [exact Htg|]. split; [exact Hrp|]. split; [cbn; lia|].
      split; [exact Hlen'|]. split; [exact Hres'|].
      split; [cbn [promises]; rewrite list_lookup_insert_ne by exact Hne; exact Hr|].
      split; [exact Hrc|]. split; [exact Hrf|]. split; [exact Hrr|].
      rewrite Hfr. destruct (first_reason (take j calls)) as [r0|] eqn:E; [exact Hroot|].
      rewrite decide_False in Hroot by lia.
      apply fulfilments_all in E. rewrite <- Hcnt, Hltake in E.
      rewrite decide_False by lia. exact Hroot.
  - (* the input is Rejected with [r] *)
    change (negb (bool_decide (_state np = Pending))) with true.
    change (bool_decide (_state np = Fulfilled) || _rejectWasConsumed np) with false.
    change (_reason np) with r. cbv iota.
    pose proof (registered_rejected (S fuel) sreg child 0 k cn rn g Hc Hca Hgs Hrp Hr Hra Hne
                  r eq_refl Hrr) as Hrun.
    rewrite (bind_Normal _ _ _ _ _ Hrun).
    unfold ret. eexists. split; [reflexivity|].
    assert (Hfa : fulfilments (take (S j) calls) = count g).
    { rewrite Htake, fulfilments_app, <- Hcnt. cbn. lia. }
    assert (Hfr : first_reason (take (S j) calls) =
                  match first_reason (take j calls) with Some r0 => Some r0 | None => Some r end).
    { rewrite Htake, first_reason_app. reflexivity. }
    assert (Hres' : forall i w, i < S j -> calls !! i = Some (CallResolve w) ->
                      results g !! i = Some w).
    { intros i w Hi Hcall. destruct (decide (i = j)) as [->|Hij]; [congruence|].
      apply Hres; [lia | exact Hcall]. }
    unfold registered_rejected_store.
    destruct (decide (_state rn = Rejected)) as [Hrej|Hnot].
    + split; [cbn [promises]; rewrite !length_insert; apply Hlreg|].
      split; [cbn [arrays]; apply Hlreg|].
      split.
      { intros i c0 Hi. destruct (Hinreg i c0 Hi) as (H1 & H2 & H3).
        cbn [promises]. rewrite !list_lookup_insert_ne by congruence. exact H3. }
      split; [apply Harr'; reflexivity|].
      exists g, rn.
      split; [exact Hg|].
      split; [exact Htg|]. split; [exact Hrp|]. split; [lia|].
      split; [lia|]. split; [exact Hres'|].
      split; [cbn [promises]; rewrite list_lookup_insert_ne by exact Hne; exact Hr|].
      split; [exact Hrc|]. split; [exact Hrf|]. split; [exact Hrr|].
      rewrite Hfr. destruct (first_reason (take j calls)) as [r0|]; [exact Hroot|].
      rewrite decide_False in Hroot by lia. congruence.
    + split; [cbn [promises]; rewrite !length_insert; apply Hlreg|].
      split; [cbn [arrays]; apply Hlreg|].
      split.
      { intros i c0 Hi. destruct (Hinreg i c0 Hi) as (H1 & H2 & H3).
        cbn [promises]. rewrite !list_lookup_insert_ne by congruence. exact H3. }
      split; [apply Harr'; reflexivity|].
      exists g, (with_reason r (with_state Rejected rn)).
      split; [exact Hg|].
      split; [exact Htg|]. split; [exact Hrp|]. split; [lia|].
      split; [lia|]. split; [exact Hres'|].
      split.
      { cbn [promises]. rewrite list_lookup_insert_ne by exact Hne.
        apply list_lookup_insert_eq. rewrite length_insert.
        eapply lookup_lt_Some, Hr. }
      split; [exact Hrc|]. split; [exact Hrf|]. split; [exact Hrr|].
      rewrite Hfr. destruct (first_reason (take j calls)) as [r0|].
      * destruct Hroot as (Hst & _). contradiction.
      * cbn. auto.
Qed.

Lemma replayed_register_from fuel calls d : forall j s,
  j + d = length calls -> replayed calls j s ->
  exists s',
    register_from (4 + fuel) (seq j d) 0 j s = Normal tt s' /\
    replayed calls (length calls) s'.
Proof.
  induction d as [|d IH]; intros j s Hjd Hre.
  - exists s. replace (length calls) with j by lia. split; [reflexivity | exact Hre].
  - destruct (lookup_lt_is_Some_2 calls j) as (c & Hc); [lia|].
    destruct (replayed_register fuel calls j c s Hre Hc) as (s1 & Hrun & Hre1).
    destruct (IH (S j) s1) as (s' & Hrest & Hre'); [lia | exact Hre1|].
    exists s'. split; [|exact Hre']. cbn [seq register_from].
    rewrite (bind_Normal _ _ _ _ _ Hrun). exact Hrest.
Qed.

Lemma stocked_replayed calls s :
  stocked calls s ->
  replayed calls 0
    {| promises := promises (allocated s); arrays := arrays (allocated s);
       agregators := [ {| count := 0; target := length calls;
                          rootPromise := length (promises s); results := [] |} ];
       trace := trace (allocated s) |}.
Proof.
  intros (Hlp & Hla & Hp & Ha & Hg). unfold replayed, allocated.
  cbn [promises arrays agregators trace]. rewrite !length_app, Hlp, Hla. cbn [length].
  split; [lia|]. split; [lia|]. split; [|split].
  - intros i c Hi. rewrite lookup_app_l by (rewrite Hlp; eapply lookup_lt_Some, Hi).
    apply Hp, Hi.
  - intros i _ Hi. destruct (decide (i = length calls)) as [->|Hne].
    + rewrite <- Hla at 1. apply list_lookup_middle. reflexivity.
    + rewrite lookup_app_l by lia. apply Ha. lia.
  - eexists _, (new_child None None (length calls)).
    split; [reflexivity|]. split; [reflexivity|]. split; [reflexivity|].
    split; [reflexivity|]. split; [cbn; lia|].
    split; [intros i v Hi; lia|].
    split; [rewrite <- Hlp at 1; apply list_lookup_middle; reflexivity|].
    split; [reflexivity|]. split; [reflexivity|]. split; [reflexivity|].
    cbn. rewrite decide_False by lia. reflexivity.
Qed.

Lemma stocked_empty : stocked [] empty_store.
Proof. unfold stocked. cbn. repeat split; auto. intros i c Hi. inversion Hi. lia. Qed.

(** [all] over inputs that are settled when it is called. *)
Lemma all_of_settled_replayed fuel calls :
  exists s',
    all_of_settled (4 + fuel) calls empty_store = Normal (length calls) s' /\
    replayed calls (length calls) s'.
Proof.
  change (4 + fuel) with (S (S (S (S fuel)))).
  destruct (settled_inputs_stocked (S (S fuel)) calls [] empty_store stocked_empty)
    as (s1 & Hin & Hs1).
  cbn [app length] in Hin, Hs1.
  pose proof (stocked_replayed calls s1 Hs1) as Hre0.
  destruct Hs1 as (Hlp & _ & _ & _ & Hg).
  destruct (replayed_register_from fuel calls (length calls) 0 _ eq_refl Hre0)
    as (s' & Hreg & Hre).
  exists s'. split; [|exact Hre].
  unfold all_of_settled. rewrite (bind_Normal _ _ _ _ _ Hin).
  unfold all. rewrite (bind_Normal _ _ _ _ _ (alloc_promise_run s1)).
  unfold new_FulFillmentAgregator. unfold bind at 1.
  assert (Hls : length (seq 0 (length calls)) = length calls) by apply length_seq.
  rewrite Hls. change (agregators (allocated s1)) with (agregators s1).
  rewrite Hg. cbn [app length].
  change (4 + fuel) with (S (S (S (S fuel)))) in Hreg.
  rewrite (bind_Normal _ _ _ _ _ Hreg). rewrite Hlp. reflexivity.
Qed.

Lemma first_reason_resolves vs : first_reason (map CallResolve vs) = None.
Proof. induction vs as [|v vs IH]; cbn; auto. Qed.

Lemma reason_rejected s this n :
  promises s !! this = Some n -> _state n = Rejected ->
  reason this s = Normal (_reason n) s.
Proof.
  intros Hn Hst. js_unfold. rewrite Hn. cbn. rewrite Hst.
  rewrite bool_decide_eq_true_2 by reflexivity. cbn. rewrite Hn. reflexivity.
Qed.

(** X15: [all] over promises that are settled when it is called, built by
    [InternalPromise.resolve(v)] or by a resolver that calls [reject(r)], so
    that nothing is chained on them and a Rejected one is not consumed.
    When all of them are Fulfilled, and there is at least one, the root is
    Fulfilled when [all] returns and [value()] gives the array of their
    values, in the order of the inputs.  When one of them is Rejected, the
    root is Rejected when [all] returns, and [reason()] gives the reason of
    the first Rejected input in the order of the inputs, whatever comes
    after it. *)
Theorem all_of_settled_inputs (fuel : nat) :
  (forall vs, vs <> [] ->
   exists s',
     all_of_settled (4 + fuel) (map CallResolve vs) empty_store =
       Normal (length vs) s' /\
     value (length vs) s' = Normal (VArray 0) s' /\
     results_of s' 0 = Some vs) /\
  (forall vs r rest,
   exists s',
     all_of_settled (4 + fuel) (map CallResolve vs ++ CallReject r :: rest)%list
       empty_store = Normal (length vs + S (length rest)) s' /\
     reason (length vs + S (length rest)) s' = Normal r s').
Proof.
  split.
  - intros vs Hvs.
    destruct (all_of_settled_replayed fuel (map CallResolve vs))
      as (s' & Hrun & _ & _ & _ & _ & g & rn & Hg & _ & _ & _ & Hlen & Hres & Hrn & _ & _ & _ &
          Hroot).
    rewrite length_map in *.
    rewrite firstn_all2 in Hroot by (rewrite length_map; lia).
    rewrite first_reason_resolves in Hroot.
    rewrite decide_True in Hroot by (split; [reflexivity | destruct vs; [congruence|cbn; lia]]).
    destruct Hroot as (Hst & Hresult).
    exists s'. split; [exact Hrun|]. split.
    + rewrite (value_fulfilled s' (length vs) rn Hrn Hst), Hresult. reflexivity.
    + unfold results_of. rewrite Hg. cbn. f_equal.
      apply list_eq. intros i. destruct (vs !! i) as [v|] eqn:E.
      * apply Hres; [eapply lookup_lt_Some, E|].
        change (map CallResolve vs) with (CallResolve <$> vs).
        rewrite list_lookup_fmap, E. reflexivity.
      * apply lookup_ge_None_2. apply lookup_ge_None_1 in E. lia.
  - intros vs r rest.
    destruct (all_of_settled_replayed fuel (map CallResolve vs ++ CallReject r :: rest)%list)
      as (s' & Hrun & _ & _ & _ & _ & g & rn & _ & _ & _ & _ & _ & _ & Hrn & _ & _ & _ & Hroot).
    rewrite firstn_all2 in Hroot by lia.
    rewrite first_reason_app, first_reason_resolves in Hroot. cbn in Hroot.
    destruct Hroot as (Hst & Hreason).
    rewrite length_app, length_map in *. cbn [length] in *.
    exists s'. split; [exact Hrun|].
    rewrite (reason_rejected s' _ rn Hrn Hst), Hreason. reflexivity.
Qed.

Lemma all_of_settled_inputs_witness :
  exists s',
    all_of_settled 4 [CallResolve (VNumber 1); CallResolve (VNumber 2)] empty_store =
      Normal 2 s' /\
    results_of s' 0 = Some [VNumber 1; VNumber 2].
Proof.
  destruct (all_of_settled_inputs 0) as (H & _).
  destruct (H [VNumber 1; VNumber 2]) as (s' & Hrun & _ & Hres); [discriminate|].
  exists s'. split; [exact Hrun | exact Hres].
Defined.

(** ** [then] when a callback raises or returns an existing promise *)

(** X16: [then] with a rejection handler that raises, on a promise that is
    Rejected and not consumed: the failure escapes from [then] to its
    caller.  The child has been created all the same: it is the last child
    of the promise, it is Rejected with the reason of the parent, and it is
    not marked consumed. *)
Theorem then_on_rejected_handler_raise_escapes (fuel : nat) (s : store) (this : ref)
    (np : InternalPromise) (pcs : list ref) (f : option onFulfilled_fn)
    (h : jsvalue -> option string) (message : string) :
  promises s !! this = Some np ->
  arrays s !! _children np = Some pcs ->
  _state np = Rejected ->
  _rejectWasConsumed np = false ->
  h (_reason np) = Some message ->
  exists s' n',
    then_ (1 + fuel) this f (Some (UserRejected h)) s = Thrown message s' /\
    children_of s' this = Some (pcs ++ [length (promises s)])%list /\
    promises s' !! length (promises s) = Some n' /\
    _state n' = Rejected /\ _reason n' = _reason np /\ _rejectWasConsumed n' = false /\
    (forall q n, promises s !! q = Some n -> promises s' !! q = Some n).
Proof.
  intros Hp Hpa Hst Hflag Hraise. change (1 + fuel) with (S fuel).
  assert (Ht1 : negb (bool_decide (_state np = Pending)) = true)
    by (rewrite Hst; reflexivity).
  assert (Ht2 : bool_decide (_state np = Fulfilled) || _rejectWasConsumed np = false)
    by (rewrite Hst, Hflag; reflexivity).
  set (G := Some (UserRejected h)).
  rewrite (then_registers (S fuel) s this np pcs f G Hp Hpa).
  cbv zeta. rewrite Ht1, Ht2.
  pose proof (registered_child s np pcs f G) as Hc.
  rewrite (bind_Thrown _ _ _ _ _
             (reject_handler_raise_escapes_aux fuel (registered np pcs f G s)
                (length (promises s)) _ h (_reason np) message Hc eq_refl Hraise)).
  eexists _, _. split; [reflexivity|].
  split.
  { apply (children_of_registered_settled s this np pcs f G
             (with_reason (_reason np) (with_state Rejected
                (new_child f G (length (arrays s)))))
             [EvOnRejected (length (promises s)) (_reason np);
              EvReject (length (promises s)) (_reason np)] Hp Hpa). }
  split; [cbn [promises]; apply (lookup_insert_same _ _ _ _ Hc)|].
  split; [reflexivity|]. split; [reflexivity|]. split; [reflexivity|].
  intros q n Hq.
  apply (registered_settled_frame np pcs f G s
           (with_reason (_reason np) (with_state Rejected
              (new_child f G (length (arrays s)))))
           [EvOnRejected (length (promises s)) (_reason np);
            EvReject (length (promises s)) (_reason np)] q n Hq).
Qed.

Lemma then_on_rejected_handler_raise_escapes_witness :
  let s := {| promises := [ {| _state := Rejected; _result := VUndefined;
                               _reason := VString "boom"; _children := 0;
                               _onFulfilled := None; _onRejected := None;
                               _rejectWasConsumed := false |} ];
              arrays := [ [] ]; agregators := []; trace := [] |} in
  exists s',
    catch 1 0 (UserRejected (fun _ => Some "handler failed")) s =
      Thrown "handler failed" s' /\
    children_of s' 0 = Some [1].
Proof.
  intros s.
  destruct (then_on_rejected_handler_raise_escapes 0 s 0 _ [] None
              (fun _ => Some "handler failed") "handler failed"
              eq_refl eq_refl eq_refl eq_refl eq_refl)
    as (s' & n' & Hrun & Hch & _).
  exists s'. split; [exact Hrun | exact Hch].
Defined.

(** X17: [then] with a continuation that returns a promise [r] that exists
    already, on a promise that is Fulfilled (or Rejected with its rejection
    consumed): [then] returns [r] itself.  The new child keeps the [_result]
    of the parent and gets [r] as its only child; [r] keeps its state, but
    its list of children is emptied, so the continuations that were chained
    on [r] before are its children no more; no other promise is changed. *)
Theorem then_replay_returns_existing_promise (fuel : nat) (s : store) (this : ref)
    (np : InternalPromise) (pcs : list ref) (f : jsvalue -> completion)
    (g : option onRejected_fn) (r : ref) (nr : InternalPromise) :
  promises s !! this = Some np ->
  arrays s !! _children np = Some pcs ->
  replays_fulfilment np ->
  f (_result np) = Return (VPromise r) ->
  promises s !! r = Some nr ->
  exists s',
    then_ (4 + fuel) this (Some (UserFulfilled f)) g s = Normal r s' /\
    fulfilled_with (_result np) s' (length (promises s)) /\
    children_of s' (length (promises s)) = Some [r] /\
    children_of s' r = Some [] /\
    (exists nr', promises s' !! r = Some nr' /\ _state nr' = _state nr /\
                 _result nr' = _result nr /\ _reason nr' = _reason nr) /\
    (forall q n, q <> r -> promises s !! q = Some n -> promises s' !! q = Some n).
Proof.
  intros Hp Hpa Hre Hret Hr. change (4 + fuel) with (S (S (S (S fuel)))).
  destruct (replays_fulfilment_test np Hre) as (Ht1 & Ht2).
  set (F := Some (UserFulfilled f)).
  set (child := length (promises s)).
  set (arr := length (arrays s)).
  set (sreg := registered np pcs F g s).
  set (cn := new_child F g arr).
  set (n1 := with_result (_result np) (with_state Fulfilled cn)).
  set (s1 := settled child n1
               [EvOnFulfilled child (_result np); EvResolve child (_result np)] sreg).
  assert (Hrlt : r < child) by (eapply lookup_lt_Some, Hr).
  assert (Hne : r <> child) by lia.
  assert (Hc : promises sreg !! child = Some cn) by apply registered_child.
  assert (Hca : arrays sreg !! _children cn = Some [])
    by apply (registered_child_array s np pcs F g Hpa).
  assert (Hrreg : promises sreg !! r = Some nr) by (apply registered_frame, Hr).
  assert (Hnotin : r ∉ @nil nat) by (intros H; inversion H).
  assert (Hr1 : promises s1 !! r = Some nr).
  { unfold s1. cbn [promises settled]. rewrite list_lookup_insert_ne by lia. exact Hrreg. }
  assert (Hc1 : promises s1 !! child = Some n1)
    by apply (lookup_insert_same _ _ _ _ Hc).
  assert (Ha1 : arrays s1 !! arr = Some []) by exact Hca.
  assert (Hlen1 : length (arrays s1) = S arr).
  { unfold s1, sreg, arr. cbn [arrays settled registered].
    rewrite length_insert, length_app. cbn. lia. }
  set (s2 := handed_over r nr arr [] s1).
  assert (Hrun : _resolve (S (S (S (S fuel)))) child (_result np) sreg =
                 Normal (VPromise r) s2).
  { apply (resolve_promise_return fuel sreg child cn (_result np) [] Hc Hca
             (no_leaves _) (Nat.le_0_l _) f r nr eq_refl Hret Hrreg Hne Hnotin). }
  assert (Hrec : promises s2 !! r = Some (with_children (length (arrays s1)) nr))
    by (apply handed_over_receiver; assumption).
  assert (Hold : arrays s2 !! arr = Some [])
    by (apply handed_over_old_array; first [assumption | apply no_leaves]).
  assert (Hnew : arrays s2 !! length (arrays s1) = Some [])
    by (apply handed_over_new_array; first [assumption | apply no_leaves]).
  assert (Hoth : forall q, q <> r -> promises s2 !! q = promises s1 !! q)
    by (intros q Hq; apply handed_over_other; [intros H; inversion H | exact Hq]).
  assert (Hc2 : promises s2 !! child = Some n1) by (rewrite Hoth by lia; exact Hc1).
  rewrite (then_registers (S (S (S (S fuel)))) s this np pcs F g Hp Hpa).
  cbv zeta. rewrite Ht1, Ht2. fold child sreg.
  rewrite (bind_Normal _ _ _ _ _ Hrun). cbn [is_nullish negb as_promise].
  rewrite (bind_Normal _ _ _ _ _ (read_run child n1 s2 Hc2)).
  rewrite (bind_Normal _ _ _ _ _ (push_run (_children n1) [] r s2 Hold)).
  eexists. split; [reflexivity|].
  cbn [app].
  split; [exists n1; split; [exact Hc2 | auto]|].
  split.
  { unfold children_of. cbn [promises arrays]. rewrite Hc2.
    apply list_lookup_insert_eq. eapply lookup_lt_Some, Hold. }
  split.
  { unfold children_of. cbn [promises arrays]. rewrite Hrec.
    cbn [_children with_children n1 with_result with_state cn new_child].
    rewrite list_lookup_insert_ne by lia. exact Hnew. }
  split; [eexists; cbn [promises]; split; [exact Hrec | auto]|].
  intros q n Hq Hqs. cbn [promises]. rewrite Hoth by exact Hq.
  apply (registered_settled_frame np pcs F g s n1 _ q n Hqs).
Qed.

Lemma then_replay_returns_existing_promise_witness :
  let s := with_fresh (VNumber 7) (allocated empty_store) in
  exists s',
    then_ 4 1 (Some (UserFulfilled (fun _ => Return (VPromise 0)))) None s = Normal 0 s' /\
    children_of s' 2 = Some [0] /\ children_of s' 0 = Some [].
Proof.
  intros s.
  destruct (then_replay_returns_existing_promise 0 s 1 (fresh_fulfilled (VNumber 7) 1) []
              (fun _ => Return (VPromise 0)) None 0 (new_child None None 0)
              eq_refl eq_refl (or_introl eq_refl) eq_refl eq_refl)
    as (s' & Hrun & _ & Hch & Hr & _).
  exists s'. split; [exact Hrun|]. split; [exact Hch | exact Hr].
Defined.

(** ** A continuation that raises does not stop the fan-out *)

(** [c1 = p.then(f); c2 = p.then()], then [p] is resolved with [v]. *)
Definition siblings (fuel : nat) (f : jsvalue -> completion) (v : jsvalue)
    : M (ref * ref * ref) :=
  p ← new_InternalPromise fuel None ;
  c1 ← then_ fuel p (Some (UserFulfilled f)) None ;
  c2 ← then_ fuel p None None ;
  _resolve fuel p v ;;
  ret (p, c1, c2).

Lemma refines_siblings n m f v : n <= m -> refines (siblings n f v) (siblings m f v).
Proof. intros H. unfold siblings. refines_fuel H. Qed.

(** ** The getters agree with the accessors *)

(** X19: on a promise of the store, the four getters return without
    changing the store; [state] gives the state, exactly one of [isPending],
    [isFulfilled] and [isRejected] answers [true], [value()] returns (the
    result) exactly when [isFulfilled] answers [true], and [reason()]
    returns (the reason) exactly when [isRejected] answers [true]. *)
Theorem getters_agree_with_accessors (s : store) (this : ref) (n : InternalPromise) :
  promises s !! this = Some n ->
  exists p f r : bool,
    state this s = Normal (_state n) s /\
    isPending this s = Normal p s /\
    isFulfilled this s = Normal f s /\
    isRejected this s = Normal r s /\
    (p = true /\ f = false /\ r = false \/
     p = false /\ f = true /\ r = false \/
     p = false /\ f = false /\ r = true) /\
    (f = true <-> value this s = Normal (_result n) s) /\
    (r = true <-> reason this s = Normal (_reason n) s) /\
    (f = false <-> value this s = Thrown "Promise is not fulfilled" s) /\
    (r = false <-> reason this s = Thrown "Promise is not rejected" s).
Proof.
  intros Hn.
  exists (bool_decide (_state n = Pending)), (bool_decide (_state n = Fulfilled)),
         (bool_decide (_state n = Rejected)).
  js_unfold. rewrite Hn. cbn.
  destruct (_state n) eqn:E; repeat case_bool_decide; try congruence;
    cbn; rewrite ?Hn; cbn;
    repeat split; intros; try congruence; try discriminate; tauto.
Qed.

Lemma getters_agree_with_accessors_witness :
  isFulfilled 0 (with_fresh (VNumber 7) empty_store) =
    Normal true (with_fresh (VNumber 7) empty_store) /\
  value 0 (with_fresh (VNumber 7) empty_store) =
    Normal (VNumber 7) (with_fresh (VNumber 7) empty_store).
Proof.
  destruct (getters_agree_with_accessors (with_fresh (VNumber 7) empty_store) 0
              (fresh_fulfilled (VNumber 7) 0) eq_refl)
    as (p & f & r & _ & _ & Hf & _ & _ & Hv & _).
  assert (Hft : f = true) by (cbv in Hf; congruence).
  split; [rewrite Hf, Hft; reflexivity | apply Hv, Hft].
Defined.

(** ** Settlement runs down a chain of any length *)

Fixpoint extend_chain (fuel k : nat) (last : ref) : M unit :=
  match k with
  | 0 => ret tt
  | S k => c ← then_ fuel last None None ; extend_chain fuel k c
  end.

(** [p0 = new InternalPromise(); p1 = p0.then(); ...; pk = p(k-1).then()];
    the head [p0] is returned. *)
Definition build_chain (fuel k : nat) : M ref :=
  p ← new_InternalPromise fuel None ;
  extend_chain fuel k p ;;
  ret p.

(** The promises [0 .. m] form a chain of Pending promises: each is the
    only child of the one before. *)
Definition chained (m : nat) (s : store) : Prop :=
  length (promises s) = S m /\ length (arrays s) = S m /\
  (forall q, q <= m -> promises s !! q = Some (new_child None None q)) /\
  (forall q, q < m -> arrays s !! q = Some [S q]) /\
  arrays s !! m = Some [] /\ trace s = [].

Lemma chained_extend fuel k : forall m s,
  chained m s ->
  exists s', extend_chain fuel k m s = Normal tt s' /\ chained (m + k) s'.
Proof.
  induction k as [|k IH]; intros m s Hch.
  - exists s. rewrite Nat.add_0_r. split; [reflexivity | exact Hch].
  - destruct Hch as (Hlp & Hla & Hpl & Harr & Hlast & Htr).
    assert (Hp : promises s !! m = Some (new_child None None m)) by (apply Hpl; lia).
    assert (Hpa : arrays s !! _children (new_child None None m) = Some []) by exact Hlast.
    destruct (IH (S m) (registered (new_child None None m) [] None None s))
      as (s' & Hrun & Hch').
    { unfold chained, registered. cbn [promises arrays trace _children new_child].
      rewrite length_insert, !length_app, Hlp, Hla. cbn [length app].
      split; [lia|]. split; [lia|]. split; [|split; [|split]].
      - intros q Hq. destruct (decide (q = S m)) as [->|Hne].
        + rewrite <- Hlp at 1. apply list_lookup_middle. reflexivity.
        + rewrite lookup_app_l by lia. apply Hpl. lia.
      - intros q Hq. destruct (decide (q = m)) as [->|Hne].
        + apply list_lookup_insert_eq. rewrite length_app. cbn. lia.
        + rewrite list_lookup_insert_ne by congruence.
          rewrite lookup_app_l by lia. apply Harr. lia.
      - rewrite list_lookup_insert_ne by lia.
        rewrite <- Hla at 1. apply list_lookup_middle. reflexivity.
      - exact Htr. }
    exists s'. replace (m + S k) with (S m + k) by lia. split; [|exact Hch'].
    cbn [extend_chain].
    rewrite (bind_Normal _ _ _ _ _
               (then_pending fuel s m _ [] None None Hp Hpa eq_refl)).
    rewrite Hlp. exact Hrun.
Qed.

Lemma build_chain_chained fuel k :
  exists s, build_chain fuel k empty_store = Normal 0 s /\ chained k s.
Proof.
  destruct (chained_extend fuel k 0 (allocated empty_store)) as (s & Hrun & Hch).
  { unfold chained. cbn. repeat split; auto; intros q Hq.
    - assert (q = 0) as -> by lia. reflexivity.
    - lia. }
  exists s. split; [|exact Hch].
  unfold build_chain, new_InternalPromise.
  rewrite (bind_Normal _ _ _ _ _ (bind_Normal _ _ _ _ _ (alloc_promise_run empty_store))).
  cbn [length promises empty_store]. rewrite (bind_Normal _ _ _ _ _ Hrun). reflexivity.
Qed.

(** A promise without callbacks whose array of children has its own
    index, as [then()] and the constructor allocate them. *)
Definition plain (s : store) (q : ref) : Prop :=
  exists n, promises s !! q = Some n /\ _children n = q /\
    _onFulfilled n = None /\ _onRejected n = None /\ _rejectWasConsumed n = false.

Lemma foldl_reject_leaf_arrays r l : forall s,
  arrays (foldl (reject_leaf r) s l) = arrays s.
Proof.
  induction l as [|c l IH]; intros s; [reflexivity|]. cbn [foldl]. rewrite IH.
  unfold reject_leaf. destruct (promises s !! c); reflexivity.
Qed.

Lemma foldl_resolve_leaf_arrays v l : forall s,
  arrays (foldl (resolve_leaf v) s l) = arrays s.
Proof.
  induction l as [|c l IH]; intros s; [reflexivity|]. cbn [foldl]. rewrite IH.
  unfold resolve_leaf. destruct (promises s !! c); reflexivity.
Qed.

Lemma plain_settled_other s p n evs q :
  p <> q -> plain s q -> plain (settled p n evs s) q.
Proof.
  intros Hne (nq & Hq & H). exists nq. split; [|exact H].
  cbn. rewrite list_lookup_insert_ne by exact Hne. exact Hq.
Qed.

(** [_reject] on promise [i] of a chain that ends at promise [i + d]. *)
Lemma reject_runs_down fuel R m d : forall i s,
  i + d = m ->
  (forall q, i <= q -> q <= m -> plain s q) ->
  (forall q, q < m -> arrays s !! q = Some [S q]) ->
  arrays s !! m = Some [] ->
  _reject (S (S d) + fuel) i R s = Normal tt (foldl (reject_leaf R) s (seq i (S d))).
Proof.
  induction d as [|d IH]; intros i s Hid Hpl Harr Hlast.
  - destruct (Hpl i) as (n & Hn & Hc & Hf & Hr & Hflag); [lia|lia|].
    cbn [seq foldl Nat.add]. unfold reject_leaf. rewrite Hn.
    apply reject_bare; [exact Hn | exact Hr|]. rewrite Hc. replace i with m by lia.
    exact Hlast.
  - destruct (Hpl i) as (n & Hn & Hc & Hf & Hr & Hflag); [lia|lia|].
    set (s1 := settled i (with_reason R (with_state Rejected n)) [EvReject i R] s).
    assert (Hn1 : promises s1 !! i = Some (with_reason R (with_state Rejected n)))
      by apply (lookup_insert_same _ _ _ _ Hn).
    assert (Ha1 : arrays s1 !! _children n = Some [S i]) by (rewrite Hc; apply Harr; lia).
    assert (Hrec : _reject (S (S d) + fuel) (S i) R s1 =
                   Normal tt (foldl (reject_leaf R) s1 (seq (S i) (S d)))).
    { apply IH; [lia| |exact Harr|exact Hlast].
      intros q H1 H2. apply plain_settled_other; [lia|]. apply Hpl; lia. }
    change (S (S (S d)) + fuel) with (S (S (S (d + fuel)))).
    change (S (S d) + fuel) with (S (S (d + fuel))) in Hrec.
    rewrite _reject_S. unfold reject_body.
    set (body := fun child : nat => bind (read i) _).
    js_unfold. js_step. rewrite Hr. js_step.
    match goal with
    | |- for_of _ _ _ _ ?st = _ => change st with s1
    end.
    rewrite (for_of_singleton (d + fuel) (_children n) (S i) body s1
               (foldl (reject_leaf R) s1 (seq (S i) (S d))) Ha1).
    + change (seq i (S (S d))) with (i :: seq (S i) (S d)). cbn [foldl].
      replace (reject_leaf R s i) with s1; [reflexivity|].
      unfold reject_leaf. rewrite Hn. reflexivity.
    + unfold body. rewrite (bind_Normal _ _ _ _ _ (read_run i _ s1 Hn1)).
      cbn [_rejectWasConsumed with_reason with_state]. rewrite Hflag. exact Hrec.
    + rewrite foldl_reject_leaf_arrays. exact Ha1.
Qed.

(** [_resolve] on promise [i] of a chain that ends at promise [i + d]. *)
Lemma resolve_runs_down fuel v m d : forall i s,
  i + d = m ->
  (forall q, i <= q -> q <= m -> plain s q) ->
  (forall q, q < m -> arrays s !! q = Some [S q]) ->
  arrays s !! m = Some [] ->
  _resolve (S (S d) + fuel) i v s =
    Normal VNull (foldl (resolve_leaf v) s (seq i (S d))).
Proof.
  induction d as [|d IH]; intros i s Hid Hpl Harr Hlast.
  - destruct (Hpl i) as (n & Hn & Hc & Hf & Hr & Hflag); [lia|lia|].
    cbn [seq foldl Nat.add]. unfold resolve_leaf. rewrite Hn.
    apply resolve_bare; [exact Hn | exact Hf|]. rewrite Hc. replace i with m by lia.
    exact Hlast.
  - destruct (Hpl i) as (n & Hn & Hc & Hf & Hr & Hflag); [lia|lia|].
    set (s1 := settled i (with_result v (with_state Fulfilled n)) [EvResolve i v] s).
    assert (Ha1 : arrays s1 !! _children n = Some [S i]) by (rewrite Hc; apply Harr; lia).
    assert (Hrec : _resolve (S (S d) + fuel) (S i) v s1 =
                   Normal VNull (foldl (resolve_leaf v) s1 (seq (S i) (S d)))).
    { apply IH; [lia| |exact Harr|exact Hlast].
      intros q H1 H2. apply plain_settled_other; [lia|]. apply Hpl; lia. }
    change (S (S (S d)) + fuel) with (S (S (S (d + fuel)))).
    change (S (S d) + fuel) with (S (S (d + fuel))) in Hrec.
    rewrite _resolve_S. unfold resolve_body.
    set (body := fun child : nat => bind (_resolve _ child _) _).
    js_unfold. js_step. rewrite Hf. js_step.
    match goal with
    | |- context [for_of _ _ _ _ ?st] => change st with s1
    end.
    rewrite (for_of_singleton (d + fuel) (_children n) (S i) body s1
               (foldl (resolve_leaf v) s1 (seq (S i) (S d))) Ha1).
    + change (seq i (S (S d))) with (i :: seq (S i) (S d)). cbn [foldl].
      replace (resolve_leaf v s i) with s1; [reflexivity|].
      unfold resolve_leaf. rewrite Hn. reflexivity.
    + unfold body. rewrite (bind_Normal _ _ _ _ _ Hrec). reflexivity.
    + rewrite foldl_resolve_leaf_arrays. exact Ha1.
Qed.

Lemma foldl_reject_leaf_keeps r l q : forall s,
  rejected_with r s q -> rejected_with r (foldl (reject_leaf r) s l) q.
Proof.
  induction l as [|c l IH]; intros s H; [exact H|].
  cbn [foldl]. apply IH, reject_leaf_keeps, H.
Qed.

Lemma foldl_resolve_leaf_keeps v l q : forall s,
  fulfilled_with v s q -> fulfilled_with v (foldl (resolve_leaf v) s l) q.
Proof.
  induction l as [|c l IH]; intros s H; [exact H|].
  cbn [foldl]. apply IH, resolve_leaf_keeps, H.
Qed.

Lemma reject_leaf_is_Some r s c q :
  is_Some (promises s !! q) -> is_Some (promises (reject_leaf r s c) !! q).
Proof.
  intros H. destruct (decide (c = q)) as [->|Hne].
  - destruct (reject_leaf_rejected r s q H) as (n & Hn & _). eauto.
  - rewrite reject_leaf_lookup_ne by exact Hne. exact H.
Qed.

Lemma resolve_leaf_is_Some v s c q :
  is_Some (promises s !! q) -> is_Some (promises (resolve_leaf v s c) !! q).
Proof.
  intros H. destruct (decide (c = q)) as [->|Hne].
  - destruct (resolve_leaf_fulfilled v s q H) as (n & Hn & _). eauto.
  - rewrite resolve_leaf_lookup_ne by exact Hne. exact H.
Qed.

Lemma foldl_reject_leaf_all r l : forall s,
  (forall q, q ∈ l -> is_Some (promises s !! q)) ->
  (forall q, q ∈ l -> rejected_with r (foldl (reject_leaf r) s l) q) /\
  trace (foldl (reject_leaf r) s l) = (rev (map (fun q => EvReject q r) l) ++ trace s)%list.
Proof.
  induction l as [|c l IH]; intros s Hs.
  - split; [intros q Hq; inversion Hq | reflexivity].
  - assert (Hc : is_Some (promises s !! c)) by (apply Hs; left).
    destruct (IH (reject_leaf r s c)) as (Hall & Htr).
    { intros q Hq. apply reject_leaf_is_Some, Hs. right. exact Hq. }
    cbn [foldl]. split.
    + intros q Hq. apply elem_of_cons in Hq as [->|Hq]; [|apply Hall, Hq].
      apply foldl_reject_leaf_keeps, reject_leaf_rejected, Hc.
    + rewrite Htr, reject_leaf_trace by exact Hc.
      cbn [map rev]. rewrite <- app_assoc. reflexivity.
Qed.

Lemma foldl_resolve_leaf_all v l : forall s,
  (forall q, q ∈ l -> is_Some (promises s !! q)) ->
  (forall q, q ∈ l -> fulfilled_with v (foldl (resolve_leaf v) s l) q) /\
  trace (foldl (resolve_leaf v) s l) = (rev (map (fun q => EvResolve q v) l) ++ trace s)%list.
Proof.
  induction l as [|c l IH]; intros s Hs.
  - split; [intros q Hq; inversion Hq | reflexivity].
  - assert (Hc : is_Some (promises s !! c)) by (apply Hs; left).
    destruct (IH (resolve_leaf v s c)) as (Hall & Htr).
    { intros q Hq. apply resolve_leaf_is_Some, Hs. right. exact Hq. }
    cbn [foldl]. split.
    + intros q Hq. apply elem_of_cons in Hq as [->|Hq]; [|apply Hall, Hq].
      apply foldl_resolve_leaf_keeps, resolve_leaf_fulfilled, Hc.
    + rewrite Htr, resolve_leaf_trace by exact Hc.
      cbn [map rev]. rewrite <- app_assoc. reflexivity.
Qed.

Lemma chained_plain m s q : chained m s -> q <= m -> plain s q.
Proof.
  intros (_ & _ & Hpl & _) Hq. eexists. split; [apply Hpl, Hq|]. cbn. auto.
Qed.


(** ** A continuation chained on the root of [all] *)

(** [root = all([p1, p2]); c = root.then(f)], then [p2] is resolved with
    [w2] and [p1] with [w1]. *)
Definition all_then (fuel : nat) (f : jsvalue -> completion) (w1 w2 : jsvalue)
    : M (ref * ref) :=
  p1 ← new_InternalPromise fuel None ;
  p2 ← new_InternalPromise fuel None ;
  root ← all fuel [p1; p2] ;
  c ← then_ fuel root (Some (UserFulfilled f)) None ;
  _resolve fuel p2 w2 ;;
  _resolve fuel p1 w1 ;;
  ret (root, c).

(** The same, stopped before [p1] is resolved. *)
Definition all_then_partial (fuel : nat) (f : jsvalue -> completion) (w2 : jsvalue)
    : M (ref * ref) :=
  p1 ← new_InternalPromise fuel None ;
  p2 ← new_InternalPromise fuel None ;
  root ← all fuel [p1; p2] ;
  c ← then_ fuel root (Some (UserFulfilled f)) None ;
  _resolve fuel p2 w2 ;;
  ret (root, c).

Lemma refines_all_then n m f w1 w2 :
  n <= m -> refines (all_then n f w1 w2) (all_then m f w1 w2).
Proof. intros H. unfold all_then. refines_fuel H. Qed.

Lemma refines_all_then_partial n m f w2 :
  n <= m -> refines (all_then_partial n f w2) (all_then_partial m f w2).
Proof. intros H. unfold all_then_partial. refines_fuel H. Qed.


(** Reduce the computation on the left as far as its first callback. *)
Ltac js_head :=
  match goal with
  | |- ?lhs = _ => let v := eval lazy head in lhs in change lhs with v
  end.



(** * Settlement walking down a tree of promises

    The promises chained below a promise, children lists read in order. The
    lemmas of this part follow a call of [_resolve] or [_reject] through such
    a tree when no promise occurs twice in it, no continuation in it returns
    a promise, no rejection handler in it raises, and none of its callbacks
    is a closure of [_RegisterForFulfillment]. *)

Inductive ptree := PNode (p : ref) (kids : list ptree).

Definition root (t : ptree) : ref := match t with PNode p _ => p end.

Fixpoint refs (t : ptree) : list ref :=
  match t with PNode p kids => p :: flat_map refs kids end.

Section PtreeInduction.
Variable P : ptree -> Prop.
Hypothesis Hnode : forall p kids, Forall P kids -> P (PNode p kids).

Fixpoint ptree_induction (t : ptree) : P t :=
  match t with
  | PNode p kids =>
      Hnode p kids
        ((fix go (ks : list ptree) : Forall P ks :=
            match ks with
            | [] => @Forall_nil _ P
            | k :: ks => @Forall_cons _ P k ks (ptree_induction k) (go ks)
            end) kids)
  end.
End PtreeInduction.

Lemma refs_root t : root t ∈ refs t.
Proof. destruct t. cbn. left. Qed.

Lemma refs_forest (kids : list ptree) k q :
  k ∈ kids -> q ∈ refs k -> q ∈ flat_map refs kids.
Proof.
  intros Hk Hq. apply list_elem_of_In, in_flat_map. exists k.
  split; apply list_elem_of_In; assumption.
Qed.

Lemma refs_forest_inv (kids : list ptree) q :
  q ∈ flat_map refs kids -> exists k, k ∈ kids /\ q ∈ refs k.
Proof.
  intros Hq. apply list_elem_of_In, in_flat_map in Hq as (k & Hk & Hq).
  exists k. split; apply list_elem_of_In; assumption.
Qed.

Lemma NoDup_forest_cons (k : ptree) rest :
  NoDup (flat_map refs (k :: rest)) ->
  NoDup (refs k) /\ NoDup (flat_map refs rest) /\
  (forall q, q ∈ refs k -> q ∉ flat_map refs rest).
Proof.
  cbn [flat_map]. intros H. apply list.NoDup_app in H as (H1 & H2 & H3). auto.
Qed.

Lemma NoDup_forest_kid (kids : list ptree) k :
  NoDup (flat_map refs kids) -> k ∈ kids -> NoDup (refs k).
Proof.
  induction kids as [|k' kids IH]; intros Hnd Hk; [inversion Hk|].
  apply NoDup_forest_cons in Hnd as (H1 & H2 & _).
  apply elem_of_cons in Hk as [->|Hk]; auto.
Qed.

Lemma length_forest_kid (kids : list ptree) k :
  k ∈ kids -> length (refs k) <= length (flat_map refs kids).
Proof.
  induction kids as [|k' kids IH]; intros Hk; [inversion Hk|].
  cbn [flat_map]. rewrite length_app.
  apply elem_of_cons in Hk as [->|Hk]; [lia|]. specialize (IH Hk). lia.
Qed.

Lemma length_forest (kids : list ptree) : length kids <= length (flat_map refs kids).
Proof.
  induction kids as [|[p ks] kids IH]; [reflexivity|].
  cbn [flat_map]. rewrite length_app. cbn. lia.
Qed.

(** ** What one node makes of a call *)

(** The node after the call, the events of the call (newest first), the call
    its children receive, and the value [_resolve] returns. *)
Record reaction := {
  r_node : InternalPromise;
  r_events : list event;
  r_next : settle_call;
  r_value : jsvalue
}.

(** [_reject(R)] on node [p]: a handler that returns consumes the rejection,
    and then the children are resolved with [null]; without a handler they
    are rejected with [R]. A handler that raises is outside the walk. *)
Definition on_reject (p : ref) (R : jsvalue) (n : InternalPromise) : option reaction :=
  match _onRejected n with
  | None =>
      Some {| r_node := with_reason R (with_state Rejected n);
              r_events := [EvReject p R];
              r_next := if _rejectWasConsumed n then CallResolve VNull else CallReject R;
              r_value := VNull |}
  | Some (UserRejected h) =>
      match h R with
      | None =>
          Some {| r_node := with_rejectWasConsumed true
                              (with_reason R (with_state Rejected n));
                  r_events := [EvOnRejected p R; EvReject p R];
                  r_next := CallResolve VNull; r_value := VNull |}
      | Some _ => None
      end
  | Some (AgregatorRejected _) => None
  end.

(** [_resolve(v)] on node [p]: the children receive [v] whatever the
    continuation returns; a continuation that raises makes the node reject
    itself with the message. A continuation that returns a promise is
    outside the walk. *)
Definition on_resolve (p : ref) (v : jsvalue) (n : InternalPromise) : option reaction :=
  match _onFulfilled n with
  | None =>
      Some {| r_node := with_result v (with_state Fulfilled n);
              r_events := [EvResolve p v];
              r_next := CallResolve v; r_value := VNull |}
  | Some (UserFulfilled f) =>
      match f v with
      | Return w =>
          match as_promise w with
          | None =>
              Some {| r_node := with_result v (with_state Fulfilled n);
                      r_events := [EvOnFulfilled p v; EvResolve p v];
                      r_next := CallResolve v; r_value := w |}
          | Some _ => None
          end
      | ReturnResolved _ => None
      | Raise message =>
          match on_reject p (VString message) (with_result v (with_state Fulfilled n)) with
          | Some r =>
              Some {| r_node := r_node r;
                      r_events := (r_events r ++ [EvOnFulfilled p v; EvResolve p v])%list;
                      r_next := r_next r; r_value := VNull |}
          | None => None
          end
      end
  | Some (AgregatorFulfilled _ _) => None
  end.

Definition react (p : ref) (c : settle_call) (n : InternalPromise) : option reaction :=
  match c with
  | CallResolve v => on_resolve p v n
  | CallReject R => on_reject p R n
  end.

(** The tree [t] of the store [s] is quiet under the call [c]: its nodes
    exist, the children list of every node is the list of its subtrees, and
    every node reacts to the call that reaches it. *)
Inductive quiet (s : store) : settle_call -> ptree -> Prop :=
| quiet_node c p n r kids :
    promises s !! p = Some n ->
    arrays s !! _children n = Some (map root kids) ->
    react p c n = Some r ->
    Forall (quiet s (r_next r)) kids ->
    quiet s c (PNode p kids).

(** The store after the call [c] has walked down the tree [t]. *)
Fixpoint settle_down (c : settle_call) (t : ptree) (s : store) : store :=
  match t with
  | PNode p kids =>
      match promises s !! p with
      | Some n =>
          match react p c n with
          | Some r =>
              foldl (fun s k => settle_down (r_next r) k s)
                (settled p (r_node r) (r_events r) s) kids
          | None => s
          end
      | None => s
      end
  end.

Definition settle_forest (c : settle_call) (kids : list ptree) (s : store) : store :=
  foldl (fun s k => settle_down c k s) s kids.

Lemma settle_down_node c p kids s n r :
  promises s !! p = Some n -> react p c n = Some r ->
  settle_down c (PNode p kids) s =
    settle_forest (r_next r) kids (settled p (r_node r) (r_events r) s).
Proof. intros Hn Hr. cbn [settle_down]. rewrite Hn, Hr. reflexivity. Qed.

(** ** What the walk leaves alone *)

Lemma settle_down_frame c t : forall s,
  arrays (settle_down c t s) = arrays s /\
  agregators (settle_down c t s) = agregators s /\
  length (promises (settle_down c t s)) = length (promises s) /\
  forall q, q ∉ refs t -> promises (settle_down c t s) !! q = promises s !! q.
Proof.
  revert c. induction t as [p kids IH] using ptree_induction. intros c s.
  cbn [settle_down refs].
  destruct (promises s !! p) as [n|] eqn:Hn; [|auto].
  destruct (react p c n) as [r|]; [|auto].
  set (s1 := settled p (r_node r) (r_events r) s).
  assert (Hforest : forall s2,
            arrays (foldl (fun s k => settle_down (r_next r) k s) s2 kids) = arrays s2 /\
            agregators (foldl (fun s k => settle_down (r_next r) k s) s2 kids) =
              agregators s2 /\
            length (promises (foldl (fun s k => settle_down (r_next r) k s) s2 kids)) =
              length (promises s2) /\
            forall q, q ∉ flat_map refs kids ->
              promises (foldl (fun s k => settle_down (r_next r) k s) s2 kids) !! q =
                promises s2 !! q).
  { clear s1 Hn. induction kids as [|k kids IHk]; intros s2; [cbn; auto|].
    apply Forall_cons_1 in IH as [IHhead IHrest].
    cbn [foldl flat_map].
    destruct (IHk IHrest (settle_down (r_next r) k s2)) as (Ha & Hg & Hl & Hq).
    destruct (IHhead (r_next r) s2) as (Ha' & Hg' & Hl' & Hq').
    split; [congruence|]. split; [congruence|]. split; [congruence|].
    intros q Hnot. apply not_elem_of_app in Hnot as [Hk Hrest].
    rewrite Hq by exact Hrest. apply Hq', Hk. }
  destruct (Hforest s1) as (Ha & Hg & Hl & Hq).
  split; [exact Ha|]. split; [exact Hg|].
  split; [rewrite Hl; cbn; apply length_insert|].
  intros q Hnot. apply not_elem_of_cons in Hnot as [Hne Hnot].
  rewrite Hq by exact Hnot. cbn. apply list_lookup_insert_ne. congruence.
Qed.

Lemma settle_down_arrays c t s : arrays (settle_down c t s) = arrays s.
Proof. apply settle_down_frame. Qed.

Lemma settle_down_agregators c t s : agregators (settle_down c t s) = agregators s.
Proof. apply settle_down_frame. Qed.

Lemma settle_down_notin c t s q :
  q ∉ refs t -> promises (settle_down c t s) !! q = promises s !! q.
Proof. apply settle_down_frame. Qed.

Lemma settle_forest_arrays c kids : forall s, arrays (settle_forest c kids s) = arrays s.
Proof.
  unfold settle_forest. induction kids as [|k kids IH]; intros s; [reflexivity|].
  cbn [foldl]. rewrite IH. apply settle_down_arrays.
Qed.

Lemma settle_forest_agregators c kids : forall s,
  agregators (settle_forest c kids s) = agregators s.
Proof.
  unfold settle_forest. induction kids as [|k kids IH]; intros s; [reflexivity|].
  cbn [foldl]. rewrite IH. apply settle_down_agregators.
Qed.

Lemma settle_forest_notin c kids q : forall s,
  q ∉ flat_map refs kids -> promises (settle_forest c kids s) !! q = promises s !! q.
Proof.
  unfold settle_forest. induction kids as [|k kids IH]; intros s Hq; [reflexivity|].
  cbn [flat_map] in Hq. apply not_elem_of_app in Hq as [Hk Hrest].
  cbn [foldl]. rewrite IH by exact Hrest. apply settle_down_notin, Hk.
Qed.

(** The predicate only reads the nodes of the tree and their children
    lists. *)
Lemma quiet_frame s s' c t :
  (forall q n l, q ∈ refs t -> promises s !! q = Some n ->
     arrays s !! _children n = Some l ->
     promises s' !! q = Some n /\ arrays s' !! _children n = Some l) ->
  quiet s c t -> quiet s' c t.
Proof.
  revert c. induction t as [p kids IH] using ptree_induction. intros c Hq Hc.
  inversion Hc as [c' p' n r kids' Hn Harr Hr Hkids]; subst.
  destruct (Hq p n _ (refs_root (PNode p kids)) Hn Harr) as (Hn' & Harr').
  apply (quiet_node s' c p n r kids Hn' Harr' Hr).
  apply list.Forall_forall. intros k Hk.
  rewrite list.Forall_forall in IH, Hkids.
  apply (IH k Hk); [|apply Hkids, Hk].
  intros q nq l Hqk. apply Hq. cbn [refs]. right. eapply refs_forest; eassumption.
Qed.

Lemma quiet_same_arrays s s' c t :
  arrays s' = arrays s ->
  (forall q, q ∈ refs t -> promises s' !! q = promises s !! q) ->
  quiet s c t -> quiet s' c t.
Proof.
  intros Ha Hq. apply quiet_frame. intros q n l Hin Hn Hl.
  rewrite Hq by exact Hin. rewrite Ha. auto.
Qed.

Lemma quiet_is_Some s c t q : quiet s c t -> q ∈ refs t -> is_Some (promises s !! q).
Proof.
  revert c q. induction t as [p kids IH] using ptree_induction. intros c q Hc Hq.
  inversion Hc as [c' p' n r kids' Hn Harr Hr Hkids]; subst.
  cbn in Hq. apply elem_of_cons in Hq as [->|Hq]; [eauto|].
  apply refs_forest_inv in Hq as (k & Hk & Hqk).
  rewrite list.Forall_forall in IH, Hkids.
  apply (IH k Hk _ q (Hkids k Hk) Hqk).
Qed.

(** ** The loop over the children *)

Lemma for_of_kids (body : ref -> M unit) (step : store -> ptree -> store)
    (I : list ptree -> store -> Prop) (arr : ref) (kids : list ptree) (tail : list ref) :
  (forall rest s, I rest s -> arrays s !! arr = Some (map root kids ++ tail)%list) ->
  (forall k rest s, I (k :: rest) s ->
     body (root k) s = Normal tt (step s k) /\ I rest (step s k)) ->
  forall rest done s f,
    (done ++ rest)%list = kids -> I rest s ->
    for_of (length rest + f) arr (length done) body s =
      for_of f arr (length kids) body (foldl step s rest) /\
    I [] (foldl step s rest).
Proof.
  intros Harr Hbody. induction rest as [|k rest IH]; intros done s f Hsplit HI.
  - cbn [foldl length Nat.add]. rewrite app_nil_r in Hsplit. subst done. auto.
  - destruct (Hbody k rest s HI) as (Hrun & HI').
    assert (Hk : (map root kids ++ tail)%list !! length done = Some (root k)).
    { rewrite <- Hsplit, map_app. cbn [map]. rewrite <- app_assoc.
      rewrite <- (length_map root done). apply list_lookup_middle. reflexivity. }
    cbn [length Nat.add].
    rewrite (for_of_next _ arr _ (length done) (root k) body s (Harr _ _ HI) Hk).
    rewrite (bind_Normal _ _ _ _ _ Hrun). cbn [foldl].
    replace (S (length done)) with (length (done ++ [k])%list)
      by (rewrite length_app; cbn; lia).
    apply IH; [rewrite <- app_assoc; exact Hsplit | exact HI'].
Qed.

(** The invariant of a fan-out: the node [this] whose loop is running keeps
    its fields, and the subtrees still to come are untouched. *)
Definition fan_out_inv (F : nat) (c : settle_call) (arrs : list (list ref))
    (this : ref) (nt : InternalPromise) (rest : list ptree) (s : store) : Prop :=
  arrays s = arrs /\ promises s !! this = Some nt /\
  Forall (quiet s c) rest /\ NoDup (flat_map refs rest) /\
  this ∉ flat_map refs rest /\ 2 * length (flat_map refs rest) < F.

(** The subtrees after their parent has been given new fields. *)
Lemma quiet_kids_settled s c p n' evs kids :
  Forall (quiet s c) kids -> p ∉ flat_map refs kids ->
  Forall (quiet (settled p n' evs s) c) kids.
Proof.
  intros Hkids Hp. apply list.Forall_forall. intros k Hk.
  rewrite list.Forall_forall in Hkids.
  apply (quiet_same_arrays s); [reflexivity| |apply Hkids, Hk].
  intros q Hq. cbn. apply list_lookup_insert_ne. intros ->.
  apply Hp. eapply refs_forest; eassumption.
Qed.

Section Walk.
Variable F : nat.
Hypothesis IHresolve : forall t v s,
  2 * length (refs t) < F -> NoDup (refs t) -> quiet s (CallResolve v) t ->
  exists n r,
    promises s !! root t = Some n /\ on_resolve (root t) v n = Some r /\
    _resolve F (root t) v s = Normal (r_value r) (settle_down (CallResolve v) t s).
Hypothesis IHreject : forall t R s,
  2 * length (refs t) <= F -> NoDup (refs t) -> quiet s (CallReject R) t ->
  _reject F (root t) R s = Normal tt (settle_down (CallReject R) t s).

Lemma walk_kid c k s :
  2 * length (refs k) < F -> NoDup (refs k) -> quiet s c k ->
  settle F (root k) c s = Normal tt (settle_down c k s).
Proof.
  intros HF Hnd Hq. destruct c as [v|R]; cbn [settle].
  - destruct (IHresolve k v s HF Hnd Hq) as (n & r & _ & _ & Hrun).
    rewrite (bind_Normal _ _ _ _ _ Hrun). reflexivity.
  - apply IHreject; [lia | exact Hnd | exact Hq].
Qed.

(** A loop whose body, while [this] keeps its fields, is the call [c] on the
    child: the loop walks down the subtrees the array starts with. *)
Lemma fan_out_then c body this nt arr kids tail s f :
  (forall child s2, promises s2 !! this = Some nt -> body child s2 = settle F child c s2) ->
  arrays s !! arr = Some (map root kids ++ tail)%list ->
  promises s !! this = Some nt ->
  Forall (quiet s c) kids -> NoDup (flat_map refs kids) ->
  this ∉ flat_map refs kids -> 2 * length (flat_map refs kids) < F ->
  for_of (length kids + f) arr 0 body s =
    for_of f arr (length kids) body (settle_forest c kids s).
Proof.
  intros Hbody Harr Hthis Hkids Hnd Hnotin HF.
  pose proof (for_of_kids body (fun s k => settle_down c k s)
                (fan_out_inv F c (arrays s) this nt) arr kids tail) as Hk.
  destruct Hk with (rest := kids) (done := @nil ptree) (s := s) (f := f) as (Hrun & _).
  - intros rest s2 (Ha2 & _). rewrite Ha2. exact Harr.
  - intros k rest s2 (Ha2 & Hn2 & Hq & Hnd2 & Hnot2 & Hlen).
    apply Forall_cons_1 in Hq as [Hqk Hqrest].
    destruct (NoDup_forest_cons k rest Hnd2) as (Hndk & Hndrest & Hdisj).
    cbn [flat_map] in Hnot2, Hlen. rewrite length_app in Hlen.
    apply not_elem_of_app in Hnot2 as [Hpk Hprest].
    split.
    { rewrite (Hbody _ _ Hn2). apply walk_kid; [lia | exact Hndk | exact Hqk]. }
    split; [rewrite settle_down_arrays; exact Ha2|].
    split; [rewrite settle_down_notin by exact Hpk; exact Hn2|].
    split.
    { apply list.Forall_forall. intros k' Hk'. rewrite list.Forall_forall in Hqrest.
      apply (quiet_same_arrays s2); [apply settle_down_arrays| |apply Hqrest, Hk'].
      intros q Hq'. apply settle_down_notin. intros Hqk'.
      apply (Hdisj q Hqk'). eapply refs_forest; eassumption. }
    split; [exact Hndrest|]. split; [exact Hprest | lia].
  - reflexivity.
  - repeat split; assumption.
  - exact Hrun.
Qed.

Lemma fan_out c body this nt arr kids s :
  (forall child s2, promises s2 !! this = Some nt -> body child s2 = settle F child c s2) ->
  arrays s !! arr = Some (map root kids) ->
  promises s !! this = Some nt ->
  Forall (quiet s c) kids -> NoDup (flat_map refs kids) ->
  this ∉ flat_map refs kids -> 2 * length (flat_map refs kids) < F ->
  for_of F arr 0 body s = Normal tt (settle_forest c kids s).
Proof.
  intros Hbody Harr Hthis Hkids Hnd Hnotin HF.
  pose proof (length_forest kids) as Hlen.
  assert (Harr' : arrays s !! arr = Some (map root kids ++ [])%list)
    by (rewrite app_nil_r; exact Harr).
  replace F with (length kids + S (F - length kids - 1)) at 1 by lia.
  rewrite (fan_out_then c body this nt arr kids [] s _ Hbody Harr' Hthis Hkids Hnd Hnotin HF).
  apply (for_of_end _ arr (map root kids)).
  - rewrite settle_forest_arrays. exact Harr.
  - rewrite length_map. lia.
Qed.

Lemma reject_step t R s :
  2 * length (refs t) <= S F -> NoDup (refs t) -> quiet s (CallReject R) t ->
  _reject (S F) (root t) R s = Normal tt (settle_down (CallReject R) t s).
Proof.
  intros HF Hnd Hq. destruct t as [p kids].
  inversion Hq as [c' p' n r kids' Hn Harr Hr Hkids]; subst.
  cbn [root refs] in *. apply list.NoDup_cons in Hnd as [Hp Hnd].
  rewrite (settle_down_node _ p kids s n r Hn Hr).
  cbn [react] in Hr. unfold on_reject in Hr.
  set (s1 := settled p (r_node r) (r_events r) s).
  assert (Hn1 : promises s1 !! p = Some (r_node r))
    by (apply (lookup_insert_same _ _ _ _ Hn)).
  assert (Hk1 : Forall (quiet s1 (r_next r)) kids)
    by (apply quiet_kids_settled; assumption).
  assert (Hloop : forall body,
            (forall child s2, promises s2 !! p = Some (r_node r) ->
               body child s2 = settle F child (r_next r) s2) ->
            for_of F (_children n) 0 body s1 = Normal tt (settle_forest (r_next r) kids s1)).
  { intros body Hbody.
    apply (fan_out (r_next r) body p (r_node r) (_children n) kids s1); auto.
    cbn in HF. lia. }
  rewrite _reject_S. unfold reject_body.
  set (body := fun child : nat => bind (read p) _).
  assert (Hbody : forall child s2, promises s2 !! p = Some (r_node r) ->
            body child s2 =
              (if _rejectWasConsumed (r_node r)
               then bind (_resolve F child VNull) (fun _ => ret tt)
               else _reject F child R) s2).
  { intros child s2 H2. unfold body. rewrite (bind_Normal _ _ _ _ _ (read_run p _ s2 H2)).
    reflexivity. }
  clearbody body.
  js_unfold. js_step.
  destruct (_onRejected n) as [[h|a]|] eqn:Hh; [|discriminate|].
  - destruct (h R) as [m|] eqn:HhR; [discriminate|].
    injection Hr as <-. cbn [r_node r_events r_next] in *.
    js_step.
    match goal with
    | |- for_of _ _ _ _ ?st = _ => change st with s1
    end.
    apply Hloop. intros child s2 H2. rewrite (Hbody child s2 H2). reflexivity.
  - injection Hr as <-. cbn [r_node r_events r_next] in *.
    js_step.
    match goal with
    | |- for_of _ _ _ _ ?st = _ => change st with s1
    end.
    apply Hloop. intros child s2 H2. rewrite (Hbody child s2 H2).
    cbn [_rejectWasConsumed with_reason with_state].
    destruct (_rejectWasConsumed n); reflexivity.
Qed.

Lemma resolve_step t v s :
  2 * length (refs t) < S F -> NoDup (refs t) -> quiet s (CallResolve v) t ->
  exists n r,
    promises s !! root t = Some n /\ on_resolve (root t) v n = Some r /\
    _resolve (S F) (root t) v s = Normal (r_value r) (settle_down (CallResolve v) t s).
Proof.
  intros HF Hnd Hq. destruct t as [p kids].
  inversion Hq as [c' p' n r kids' Hn Harr Hr Hkids]; subst.
  cbn [root refs] in *. exists n, r. split; [exact Hn|]. split; [exact Hr|].
  pose proof Hnd as Hnd'. apply list.NoDup_cons in Hnd as [Hp Hnd].
  rewrite (settle_down_node _ p kids s n r Hn Hr).
  cbn [react] in Hr. unfold on_resolve in Hr.
  assert (Hloop : forall evs, Forall (quiet s (CallResolve v)) kids ->
            for_of F (_children n) 0
              (fun child : nat => bind (_resolve F child v) (fun _ => ret tt))
              (settled p (with_result v (with_state Fulfilled n)) evs s) =
            Normal tt
              (settle_forest (CallResolve v) kids
                 (settled p (with_result v (with_state Fulfilled n)) evs s))).
  { intros evs Hk.
    apply (fan_out (CallResolve v) _ p (with_result v (with_state Fulfilled n))
             (_children n) kids); auto.
    - apply (lookup_insert_same _ _ _ _ Hn).
    - apply quiet_kids_settled; assumption.
    - cbn in HF. lia. }
  destruct (_onFulfilled n) as [[f|a i]|] eqn:Hf; [|discriminate|].
  - destruct (f v) as [w|w|m] eqn:Hfv; [|discriminate|].
    + destruct (as_promise w) eqn:Hw; [discriminate|].
      injection Hr as <-. cbn [r_node r_events r_next r_value] in *.
      specialize (Hloop [EvOnFulfilled p v; EvResolve p v] Hkids).
      rewrite _resolve_S. unfold resolve_body.
      set (body := fun child : nat => bind (_resolve _ child _) _) in *.
      js_unfold. js_step. rewrite Hf. js_step. rewrite Hfv. js_step. rewrite Hw.
      destruct (negb (is_nullish w)); js_step;
        (match goal with
         | |- context [for_of _ _ _ _ ?st] => change st with
             (settled p (with_result v (with_state Fulfilled n))
                [EvOnFulfilled p v; EvResolve p v] s)
         end);
        rewrite Hloop; reflexivity.
    + destruct (on_reject p (VString m) (with_result v (with_state Fulfilled n)))
        as [r0|] eqn:Hrej; [|discriminate].
      injection Hr as <-. cbn [r_node r_events r_next r_value] in *.
      rewrite (resolve_raise_caught s p n v f m Hn Hf Hfv F).
      set (s1 := settled p (with_result v (with_state Fulfilled n))
                   [EvOnFulfilled p v; EvResolve p v] s).
      assert (Hn1 : promises s1 !! p = Some (with_result v (with_state Fulfilled n)))
        by (apply (lookup_insert_same _ _ _ _ Hn)).
      assert (Hq1 : quiet s1 (CallReject (VString m)) (PNode p kids)).
      { apply (quiet_node s1 _ p _ r0 kids Hn1); [exact Harr | exact Hrej|].
        apply quiet_kids_settled; assumption. }
      rewrite (bind_Normal _ _ _ _ _
                 (IHreject (PNode p kids) (VString m) s1 ltac:(cbn in *; lia) Hnd' Hq1)).
      rewrite (settle_down_node (CallReject (VString m)) p kids s1 _ r0 Hn1 Hrej).
      unfold s1. rewrite settled_settled. reflexivity.
  - injection Hr as <-. cbn [r_node r_events r_next r_value] in *.
    specialize (Hloop [EvResolve p v] Hkids).
    rewrite _resolve_S. unfold resolve_body.
    set (body := fun child : nat => bind (_resolve _ child _) _) in *.
    js_unfold. js_step. rewrite Hf. js_step.
    match goal with
    | |- context [for_of _ _ _ _ ?st] => change st with
        (settled p (with_result v (with_state Fulfilled n)) [EvResolve p v] s)
    end.
    rewrite Hloop. reflexivity.
Qed.
End Walk.

(** A call of [_resolve] or [_reject] on the root of a quiet tree returns,
    and leaves the store [settle_down] describes. *)
Lemma settle_quiet F :
  (forall t v s,
     2 * length (refs t) < F -> NoDup (refs t) -> quiet s (CallResolve v) t ->
     exists n r,
       promises s !! root t = Some n /\ on_resolve (root t) v n = Some r /\
       _resolve F (root t) v s = Normal (r_value r) (settle_down (CallResolve v) t s)) /\
  (forall t R s,
     2 * length (refs t) <= F -> NoDup (refs t) -> quiet s (CallReject R) t ->
     _reject F (root t) R s = Normal tt (settle_down (CallReject R) t s)).
Proof.
  induction F as [|F [IH1 IH2]].
  - split; [intros t v s H; lia|]. intros [p kids] R s H. cbn in H. lia.
  - split.
    + intros t v s. apply (resolve_step F IH1 IH2).
    + intros t R s. apply (reject_step F IH1 IH2).
Qed.

Lemma resolve_quiet F t v s :
  2 * length (refs t) < F -> NoDup (refs t) -> quiet s (CallResolve v) t ->
  exists n r,
    promises s !! root t = Some n /\ on_resolve (root t) v n = Some r /\
    _resolve F (root t) v s = Normal (r_value r) (settle_down (CallResolve v) t s).
Proof. apply settle_quiet. Qed.

Lemma reject_quiet F t R s :
  2 * length (refs t) < F -> NoDup (refs t) -> quiet s (CallReject R) t ->
  _reject F (root t) R s = Normal tt (settle_down (CallReject R) t s).
Proof. intros HF. apply settle_quiet. lia. Qed.

Lemma fan_out_quiet F c body this nt arr kids s :
  (forall child s2, promises s2 !! this = Some nt -> body child s2 = settle F child c s2) ->
  arrays s !! arr = Some (map root kids) ->
  promises s !! this = Some nt ->
  Forall (quiet s c) kids -> NoDup (flat_map refs kids) ->
  this ∉ flat_map refs kids -> 2 * length (flat_map refs kids) < F ->
  for_of F arr 0 body s = Normal tt (settle_forest c kids s).
Proof.
  destruct (settle_quiet F) as (H1 & H2). apply (fan_out F H1 H2).
Qed.

Lemma fan_out_then_quiet F c body this nt arr kids tail s f :
  (forall child s2, promises s2 !! this = Some nt -> body child s2 = settle F child c s2) ->
  arrays s !! arr = Some (map root kids ++ tail)%list ->
  promises s !! this = Some nt ->
  Forall (quiet s c) kids -> NoDup (flat_map refs kids) ->
  this ∉ flat_map refs kids -> 2 * length (flat_map refs kids) < F ->
  for_of (length kids + f) arr 0 body s =
    for_of f arr (length kids) body (settle_forest c kids s).
Proof.
  destruct (settle_quiet F) as (H1 & H2). apply (fan_out_then F H1 H2).
Qed.

(** ** Where the walk leaves every promise of the tree *)

(** The call that reaches a promise of the tree. *)
Inductive reaches (s : store) : settle_call -> ptree -> ref -> settle_call -> Prop :=
| reaches_root c t : reaches s c t (root t) c
| reaches_kid c p kids n r k q cq :
    promises s !! p = Some n -> react p c n = Some r -> k ∈ kids ->
    reaches s (r_next r) k q cq ->
    reaches s c (PNode p kids) q cq.

Lemma reaches_refs s c t q cq : reaches s c t q cq -> q ∈ refs t.
Proof.
  induction 1 as [c t|c p kids n r k q cq Hn Hr Hk Hreach IH]; [apply refs_root|].
  cbn [refs]. right. eapply refs_forest; eassumption.
Qed.

Lemma reaches_frame s s' c t q cq :
  (forall x, x ∈ refs t -> promises s' !! x = promises s !! x) ->
  reaches s c t q cq -> reaches s' c t q cq.
Proof.
  intros Hsame Hreach.
  induction Hreach as [c t|c p kids n r k q cq Hn Hr Hk Hreach IH]; [constructor|].
  apply (reaches_kid s' c p kids n r k q cq); auto.
  - rewrite Hsame by (cbn; left). exact Hn.
  - apply IH. intros x Hx. apply Hsame. cbn [refs]. right.
    eapply refs_forest; eassumption.
Qed.

Lemma settle_down_reaches t : forall s c q cq nq rq,
  NoDup (refs t) -> reaches s c t q cq ->
  promises s !! q = Some nq -> react q cq nq = Some rq ->
  promises (settle_down c t s) !! q = Some (r_node rq).
Proof.
  induction t as [p kids IH] using ptree_induction.
  intros s c q cq nq rq Hnd Hreach Hq Hrq.
  cbn [refs] in Hnd. apply list.NoDup_cons in Hnd as [Hp Hnd].
  inversion Hreach as [c' t' E1 E2 E3|c' p' kids' n r k q' cq' Hn Hr Hk Hrk]; subst.
  - cbn [root] in *. rewrite (settle_down_node _ p kids s nq rq Hq Hrq).
    rewrite settle_forest_notin by exact Hp.
    apply (lookup_insert_same _ _ _ _ Hq).
  - rewrite (settle_down_node _ p kids s n r Hn Hr).
    pose proof (reaches_refs _ _ _ _ _ Hrk) as Hqk.
    assert (Hne : p <> q).
    { intros ->. apply Hp. eapply refs_forest; eassumption. }
    set (s1 := settled p (r_node r) (r_events r) s).
    assert (Hq1 : promises s1 !! q = Some nq).
    { cbn. rewrite list_lookup_insert_ne by exact Hne. exact Hq. }
    assert (Hrk1 : reaches s1 (r_next r) k q cq).
    { apply (reaches_frame s); [|exact Hrk]. intros x Hx. cbn.
      apply list_lookup_insert_ne. intros ->. apply Hp.
      eapply refs_forest; eassumption. }
    clearbody s1. clear Hq Hrk Hn Hreach Hp.
    revert s1 Hq1 Hrk1. unfold settle_forest.
    induction kids as [|k' kids IHk]; intros s1 Hq1 Hrk1; [inversion Hk|].
    apply Forall_cons_1 in IH as [IHhead IHrest].
    apply NoDup_forest_cons in Hnd as (Hndk & Hndrest & Hdisj).
    cbn [foldl]. apply elem_of_cons in Hk as [<-|Hk].
    + fold (settle_forest (r_next r) kids (settle_down (r_next r) k s1)).
      rewrite settle_forest_notin by (apply Hdisj, Hqk).
      apply (IHhead s1 (r_next r) q cq nq rq Hndk Hrk1 Hq1 Hrq).
    + assert (Hout : forall x, x ∈ refs k -> x ∉ refs k').
      { intros x Hx Hx'. apply (Hdisj x Hx'). eapply refs_forest; eassumption. }
      apply (IHk IHrest Hndrest Hk).
      * rewrite settle_down_notin by (apply Hout, Hqk). exact Hq1.
      * apply (reaches_frame s1); [|exact Hrk1].
        intros x Hx. apply settle_down_notin, Hout, Hx.
Qed.

(** Every promise of a quiet tree is reached by a call it reacts to, and is
    settled after the walk. *)
Lemma quiet_reached t : forall s c q,
  quiet s c t -> q ∈ refs t ->
  exists cq nq rq,
    reaches s c t q cq /\ promises s !! q = Some nq /\ react q cq nq = Some rq.
Proof.
  induction t as [p kids IH] using ptree_induction. intros s c q Hquiet Hq.
  inversion Hquiet as [c' p' n r kids' Hn Harr Hr Hkids]; subst.
  cbn [refs] in Hq. apply elem_of_cons in Hq as [->|Hq].
  - exists c, n, r. split; [apply (reaches_root s c (PNode p kids))|]. auto.
  - apply refs_forest_inv in Hq as (k & Hk & Hqk).
    rewrite list.Forall_forall in IH, Hkids.
    destruct (IH k Hk s (r_next r) q (Hkids k Hk) Hqk) as (cq & nq & rq & H1 & H2 & H3).
    exists cq, nq, rq. split; [|auto].
    apply (reaches_kid s c p kids n r k q cq); assumption.
Qed.

Lemma react_settles p c n r : react p c n = Some r -> _state (r_node r) <> Pending.
Proof.
  destruct c as [v|R]; cbn [react]; unfold on_resolve, on_reject; intros H.
  - destruct (_onFulfilled n) as [[f|a i]|]; [|discriminate|].
    + destruct (f v) as [w|w|m]; [|discriminate|].
      * destruct (as_promise w); [discriminate|]. injection H as <-. discriminate.
      * cbn [_onRejected with_result with_state _rejectWasConsumed] in H.
        destruct (_onRejected n) as [[h|a]|]; [|discriminate|].
        -- destruct (h (VString m)); [discriminate|]. injection H as <-. discriminate.
        -- injection H as <-. discriminate.
    + injection H as <-. discriminate.
  - destruct (_onRejected n) as [[h|a]|]; [|discriminate|].
    + destruct (h R); [discriminate|]. injection H as <-. discriminate.
    + injection H as <-. discriminate.
Qed.

Lemma settle_down_settled t s c q :
  NoDup (refs t) -> quiet s c t -> q ∈ refs t ->
  exists n', promises (settle_down c t s) !! q = Some n' /\ _state n' <> Pending.
Proof.
  intros Hnd Hquiet Hq.
  destruct (quiet_reached t s c q Hquiet Hq) as (cq & nq & rq & H1 & H2 & H3).
  exists (r_node rq). split; [eapply settle_down_reaches; eassumption|].
  eapply react_settles, H3.
Qed.

(** ** Children lists stay inside the tree *)

Definition below (t : ptree) : list ref :=
  match t with PNode _ kids => flat_map refs kids end.

Lemma quiet_children_below t : forall s c q n l x,
  quiet s c t -> q ∈ refs t -> promises s !! q = Some n ->
  arrays s !! _children n = Some l -> x ∈ l -> x ∈ below t.
Proof.
  induction t as [p kids IH] using ptree_induction.
  intros s c q n l x Hquiet Hq Hn Hl Hx.
  inversion Hquiet as [c' p' n0 r kids' Hn0 Harr Hr Hkids]; subst.
  cbn [refs below] in *. apply elem_of_cons in Hq as [->|Hq].
  - assert (n0 = n) as -> by congruence.
    assert (l = map root kids) as -> by congruence.
    apply list_elem_of_In, in_map_iff in Hx as (k & <- & Hk).
    apply list_elem_of_In in Hk. eapply refs_forest; [exact Hk | apply refs_root].
  - apply refs_forest_inv in Hq as (k & Hk & Hqk).
    rewrite list.Forall_forall in IH, Hkids.
    pose proof (IH k Hk s (r_next r) q n l x (Hkids k Hk) Hqk Hn Hl Hx) as Hb.
    eapply refs_forest; [exact Hk|]. destruct k as [pk kk]. cbn in *. right. exact Hb.
Qed.

(** A promise of the forest that [arr] lists does not own [arr]. *)
Lemma forest_array_ne s c kids arr k q n :
  Forall (quiet s c) kids -> NoDup (flat_map refs kids) ->
  arrays s !! arr = Some (map root kids) ->
  k ∈ kids -> q ∈ refs k -> promises s !! q = Some n -> _children n <> arr.
Proof.
  intros Hkids Hnd Harr Hk Hq Hn E.
  rewrite list.Forall_forall in Hkids.
  assert (Hx : root k ∈ map root kids).
  { apply list_elem_of_In, in_map, list_elem_of_In, Hk. }
  rewrite <- E in Harr.
  pose proof (quiet_children_below k s c q n _ (root k) (Hkids k Hk) Hq Hn Harr Hx) as Hb.
  pose proof (NoDup_forest_kid kids k Hnd Hk) as Hndk.
  destruct k as [pk kk]. cbn in *. apply list.NoDup_cons in Hndk as [Hnot _].
  contradiction.
Qed.

Lemma quiet_spliced s c r nr arr kids :
  Forall (quiet s c) kids -> NoDup (flat_map refs kids) ->
  arrays s !! arr = Some (map root kids) -> r ∉ flat_map refs kids ->
  Forall (quiet (spliced r nr arr (map root kids) s) c) kids.
Proof.
  intros Hkids Hnd Harr Hr. apply list.Forall_forall. intros k Hk.
  pose proof Hkids as Hkids'. rewrite list.Forall_forall in Hkids'.
  apply (quiet_frame s); [|apply Hkids', Hk].
  intros q n l Hq Hn Hl. cbn. split.
  - rewrite list_lookup_insert_ne; [exact Hn|].
    intros ->. apply Hr. eapply refs_forest; eassumption.
  - rewrite lookup_app_l by (rewrite length_insert; eapply lookup_lt_Some, Hl).
    rewrite list_lookup_insert_ne; [exact Hl|].
    intros E. symmetry in E. revert E.
    eapply forest_array_ne; eassumption.
Qed.

(** ** Children handed over to a returned promise *)

(** What the promise [r] does to the children it takes over. *)
Definition hand_over_call (nr : InternalPromise) : option settle_call :=
  match _state nr with
  | Fulfilled => Some (CallResolve (_result nr))
  | Rejected => Some (CallReject (_reason nr))
  | Pending => None
  end.

Definition taken_over (r : ref) (nr : InternalPromise) (arr : ref) (kids : list ptree)
    (s : store) : store :=
  match hand_over_call nr with
  | Some c => settle_forest c kids (spliced r nr arr (map root kids) s)
  | None => spliced r nr arr (map root kids) s
  end.

Lemma moveChildren_forest F s r nr arr kids :
  promises s !! r = Some nr ->
  arrays s !! arr = Some (map root kids) ->
  NoDup (flat_map refs kids) -> r ∉ flat_map refs kids ->
  2 * length (flat_map refs kids) < F ->
  (forall c, hand_over_call nr = Some c -> Forall (quiet s c) kids) ->
  _moveChildren (S F) r arr s = Normal tt (taken_over r nr arr kids s).
Proof.
  intros Hr Harr Hnd Hnotin HF Hquiet.
  set (s1 := spliced r nr arr (map root kids) s).
  assert (Hnew : arrays s1 !! length (arrays s) = Some (map root kids)).
  { cbn. rewrite lookup_app_r by (rewrite length_insert; lia).
    rewrite length_insert, Nat.sub_diag. reflexivity. }
  assert (Hr1 : promises s1 !! r = Some (with_children (length (arrays s)) nr)).
  { cbn. apply (lookup_insert_same _ _ _ _ Hr). }
  assert (Hloop : forall c body,
            hand_over_call nr = Some c ->
            (forall child s2,
               promises s2 !! r = Some (with_children (length (arrays s)) nr) ->
               body child s2 = settle F child c s2) ->
            for_of F (length (arrays s)) 0 body s1 = Normal tt (settle_forest c kids s1)).
  { intros c body Hc Hbody.
    apply (fan_out_quiet F c body r (with_children (length (arrays s)) nr)); auto.
    apply quiet_spliced; auto. }
  unfold taken_over. fold s1.
  rewrite _moveChildren_S. unfold moveChildren_body.
  set (body1 := fun child : nat => bind (read r) (fun n => bind (_resolve _ _ _) _)).
  set (body2 := fun child : nat => bind (read r) (fun n => _reject _ _ _)).
  assert (Hb1 : forall child s2,
            promises s2 !! r = Some (with_children (length (arrays s)) nr) ->
            body1 child s2 = settle F child (CallResolve (_result nr)) s2).
  { intros child s2 H2. unfold body1.
    rewrite (bind_Normal _ _ _ _ _ (read_run r _ s2 H2)). reflexivity. }
  assert (Hb2 : forall child s2,
            promises s2 !! r = Some (with_children (length (arrays s)) nr) ->
            body2 child s2 = settle F child (CallReject (_reason nr)) s2).
  { intros child s2 H2. unfold body2.
    rewrite (bind_Normal _ _ _ _ _ (read_run r _ s2 H2)). reflexivity. }
  clearbody body1 body2.
  js_unfold. js_step. rewrite length_insert.
  change {| promises := <[r:=with_children (length (arrays s)) nr]> (promises s);
            arrays := <[arr:=[]]> (arrays s) ++ [map root kids];
            agregators := agregators s; trace := trace s |}
    with s1.
  unfold hand_over_call in *.
  destruct (_state nr) eqn:Est;
    repeat (first [rewrite Est | case_bool_decide | progress js_step]);
    try congruence.
  - apply (Hloop _ body1 eq_refl Hb1).
  - apply (Hloop _ body2 eq_refl Hb2).
Qed.

Lemma taken_over_frame r nr arr kids s :
  arrays (taken_over r nr arr kids s) =
    (<[arr := []]> (arrays s) ++ [map root kids])%list /\
  agregators (taken_over r nr arr kids s) = agregators s /\
  forall q, q ∉ flat_map refs kids ->
    promises (taken_over r nr arr kids s) !! q =
      <[r := with_children (length (arrays s)) nr]> (promises s) !! q.
Proof.
  unfold taken_over. destruct (hand_over_call nr) as [c|].
  - rewrite settle_forest_arrays, settle_forest_agregators.
    split; [reflexivity|]. split; [reflexivity|].
    intros q Hq. rewrite settle_forest_notin by exact Hq. reflexivity.
  - split; [reflexivity|]. split; reflexivity.
Qed.

(** [_resolve] on a node whose continuation returns the existing promise
    [r]: the children are handed over to [r] and the node's own fan-out finds
    its list empty. *)
Lemma resolve_hand_over F s this n v f r nr kids :
  promises s !! this = Some n ->
  arrays s !! _children n = Some (map root kids) ->
  _onFulfilled n = Some (UserFulfilled f) -> f v = Return (VPromise r) ->
  promises s !! r = Some nr -> r <> this ->
  NoDup (this :: flat_map refs kids) -> r ∉ flat_map refs kids ->
  2 * length (flat_map refs kids) < F ->
  (forall c, hand_over_call nr = Some c -> Forall (quiet s c) kids) ->
  _resolve (S (S F)) this v s =
    Normal (VPromise r)
      (taken_over r nr (_children n) kids
         (settled this (with_result v (with_state Fulfilled n))
            [EvOnFulfilled this v; EvResolve this v] s)).
Proof.
  intros Hn Harr Hf Hret Hr Hne Hnd Hrnotin HF Hquiet.
  apply list.NoDup_cons in Hnd as [Hthis Hnd].
  set (s1 := settled this (with_result v (with_state Fulfilled n))
               [EvOnFulfilled this v; EvResolve this v] s).
  assert (Hr1 : promises s1 !! r = Some nr).
  { cbn. rewrite list_lookup_insert_ne by congruence. exact Hr. }
  assert (Hq1 : forall c, hand_over_call nr = Some c -> Forall (quiet s1 c) kids).
  { intros c Hc. apply quiet_kids_settled; auto. }
  pose proof (moveChildren_forest F s1 r nr (_children n) kids Hr1 Harr Hnd Hrnotin HF Hq1)
    as Hmove.
  destruct (taken_over_frame r nr (_children n) kids s1) as (Ha2 & _ & Hp2).
  rewrite _resolve_S. unfold resolve_body.
  set (body := fun child : nat => bind (_resolve _ child _) _).
  js_unfold. js_step. rewrite Hf. js_step. rewrite Hret. js_step.
  match goal with |- context [_moveChildren _ _ _ ?st] => change st with s1 end.
  rewrite Hmove. rewrite (Hp2 this Hthis).
  rewrite list_lookup_insert_ne by exact Hne.
  cbn [s1 settled promises]. rewrite (lookup_insert_same _ _ _ _ Hn). js_step.
  rewrite (for_of_end _ _ [] 0 body _) ; [reflexivity| |cbn; lia].
  rewrite Ha2.
  rewrite lookup_app_l by (rewrite length_insert; eapply lookup_lt_Some, Harr).
  apply (lookup_insert_same _ _ _ _ Harr).
Qed.

Lemma quiet_with_fresh w s c t : quiet s c t -> quiet (with_fresh w s) c t.
Proof.
  apply quiet_frame. intros q n l _ Hn Hl. cbn.
  rewrite !lookup_app_l by (eapply lookup_lt_Some; eassumption). auto.
Qed.

(** The same when the continuation returns [InternalPromise.resolve(w)],
    a promise that did not exist before. *)
Lemma resolve_hand_over_fresh F s this n v f w kids :
  promises s !! this = Some n ->
  arrays s !! _children n = Some (map root kids) ->
  _onFulfilled n = Some (UserFulfilled f) -> f v = ReturnResolved w ->
  NoDup (this :: flat_map refs kids) ->
  2 * length (flat_map refs kids) < F ->
  Forall (quiet s (CallResolve w)) kids ->
  _resolve (S (S (S F))) this v s =
    Normal (VPromise (length (promises s)))
      (taken_over (length (promises s)) (fresh_fulfilled w (length (arrays s)))
         (_children n) kids
         (with_fresh w
            (settled this (with_result v (with_state Fulfilled n))
               [EvOnFulfilled this v; EvResolve this v] s))).
Proof.
  intros Hn Harr Hf Hret Hnd HF Hquiet.
  apply list.NoDup_cons in Hnd as [Hthis Hnd].
  set (s1 := settled this (with_result v (with_state Fulfilled n))
               [EvOnFulfilled this v; EvResolve this v] s).
  assert (Hlen : length (promises s1) = length (promises s)) by apply length_insert.
  assert (Hlt : this < length (promises s)) by (eapply lookup_lt_Some, Hn).
  assert (Hr1 : promises (with_fresh w s1) !! length (promises s) =
                Some (fresh_fulfilled w (length (arrays s)))).
  { cbn [with_fresh promises]. rewrite <- Hlen at 1. apply list_lookup_middle. reflexivity. }
  assert (Ha1 : arrays (with_fresh w s1) !! _children n = Some (map root kids)).
  { cbn. rewrite lookup_app_l by (eapply lookup_lt_Some, Harr). exact Harr. }
  assert (Hrnotin : length (promises s) ∉ flat_map refs kids).
  { intros Hin. apply refs_forest_inv in Hin as (k & Hk & Hqk).
    rewrite list.Forall_forall in Hquiet.
    destruct (quiet_is_Some s _ k _ (Hquiet k Hk) Hqk) as (nq & Hq).
    apply lookup_lt_Some in Hq. lia. }
  assert (Hq1 : forall c, hand_over_call (fresh_fulfilled w (length (arrays s))) = Some c ->
                  Forall (quiet (with_fresh w s1) c) kids).
  { intros c Hc. injection Hc as <-. cbn [_result fresh_fulfilled].
    apply list.Forall_forall. intros k Hk.
    apply quiet_with_fresh.
    pose proof (quiet_kids_settled s (CallResolve w) this
                  (with_result v (with_state Fulfilled n))
                  [EvOnFulfilled this v; EvResolve this v] kids Hquiet Hthis) as H.
    rewrite list.Forall_forall in H. apply H, Hk. }
  pose proof (moveChildren_forest (S F) (with_fresh w s1) _ _ (_children n) kids
                Hr1 Ha1 Hnd Hrnotin ltac:(lia) Hq1) as Hmove.
  destruct (taken_over_frame (length (promises s)) (fresh_fulfilled w (length (arrays s)))
              (_children n) kids (with_fresh w s1)) as (Ha2 & _ & Hp2).
  assert (Hthis1 : promises (with_fresh w s1) !! this =
                   Some (with_result v (with_state Fulfilled n))).
  { cbn. rewrite lookup_app_l by (rewrite length_insert; exact Hlt).
    apply (lookup_insert_same _ _ _ _ Hn). }
  rewrite _resolve_S. unfold resolve_body.
  set (body := fun child : nat => bind (_resolve _ child _) _).
  repeat (progress unfold try_catch, bind, ret, emit, read, update);
    cbv beta; cbn [promises arrays agregators trace].
  js_step. rewrite Hf. js_step.
  match goal with |- context [call_onFulfilled _ _ _ ?st] => change st with s1 end.
  rewrite (call_ReturnResolved F f v w s1 Hret), Hlen.
  js_step.
  rewrite Hmove. rewrite (Hp2 this Hthis).
  rewrite list_lookup_insert_ne by lia. rewrite Hthis1. js_step.
  rewrite (for_of_end _ _ [] 0 body _) ; [reflexivity| |cbn; lia].
  rewrite Ha2.
  rewrite lookup_app_l by (rewrite length_insert; eapply lookup_lt_Some, Ha1).
  apply (lookup_insert_same _ _ _ _ Ha1).
Qed.

(** * The claims about settlement, over trees of chained promises *)

(** The continuation of the node is absent or returns, at [v], a value that
    is not a promise. *)
Definition continues (v : jsvalue) (n : InternalPromise) : Prop :=
  _onFulfilled n = None \/
  exists f w, _onFulfilled n = Some (UserFulfilled f) /\ f v = Return w /\
              as_promise w = None.

Lemma on_resolve_continues p v n :
  continues v n ->
  exists r, on_resolve p v n = Some r /\
    r_node r = with_result v (with_state Fulfilled n) /\ r_next r = CallResolve v.
Proof.
  unfold on_resolve. intros [Hf|(f & w & Hf & Hw & Hp)]; rewrite Hf.
  - eexists. split; [reflexivity|]. auto.
  - rewrite Hw, Hp. eexists. split; [reflexivity|]. auto.
Qed.

Lemma on_resolve_result p v n r : on_resolve p v n = Some r -> _result (r_node r) = v.
Proof.
  unfold on_resolve, on_reject. intros H.
  destruct (_onFulfilled n) as [[f|a i]|]; [|discriminate|].
  - destruct (f v) as [w|w|m]; [|discriminate|].
    + destruct (as_promise w); [discriminate|]. injection H as <-. reflexivity.
    + cbn [_onRejected with_result with_state _rejectWasConsumed] in H.
      destruct (_onRejected n) as [[h|a]|]; [|discriminate|].
      * destruct (h (VString m)); [discriminate|]. injection H as <-. reflexivity.
      * injection H as <-. reflexivity.
  - injection H as <-. reflexivity.
Qed.

Lemma on_reject_rejected p R n r :
  on_reject p R n = Some r ->
  _state (r_node r) = Rejected /\ _reason (r_node r) = R /\
  _result (r_node r) = _result n /\
  _rejectWasConsumed (r_node r) =
    match _onRejected n with Some _ => true | None => _rejectWasConsumed n end.
Proof.
  unfold on_reject. intros H.
  destruct (_onRejected n) as [[h|a]|]; [|discriminate|].
  - destruct (h R); [discriminate|]. injection H as <-. auto.
  - injection H as <-. auto.
Qed.

(** The children of the root of a tree, after the walk. *)
Lemma settle_down_child c p kids s n r k nk rk :
  NoDup (p :: flat_map refs kids) ->
  promises s !! p = Some n -> react p c n = Some r ->
  k ∈ kids -> promises s !! root k = Some nk -> react (root k) (r_next r) nk = Some rk ->
  promises (settle_down c (PNode p kids) s) !! root k = Some (r_node rk).
Proof.
  intros Hnd Hn Hr Hk Hnk Hrk.
  apply (settle_down_reaches (PNode p kids) s c (root k) (r_next r) nk rk Hnd); auto.
  apply (reaches_kid s c p kids n r k (root k) (r_next r) Hn Hr Hk).
  apply reaches_root.
Qed.

Lemma settle_down_root c p kids s n r :
  NoDup (p :: flat_map refs kids) ->
  promises s !! p = Some n -> react p c n = Some r ->
  promises (settle_down c (PNode p kids) s) !! p = Some (r_node r).
Proof.
  intros Hnd Hn Hr.
  apply (settle_down_reaches (PNode p kids) s c p c n r Hnd); auto.
  apply (reaches_root s c (PNode p kids)).
Qed.

Lemma quiet_kid_reacts s c kids k :
  Forall (quiet s c) kids -> k ∈ kids ->
  exists nk rk, promises s !! root k = Some nk /\ react (root k) c nk = Some rk.
Proof.
  intros Hq Hk. rewrite list.Forall_forall in Hq. specialize (Hq k Hk).
  inversion Hq; subst. cbn. eauto.
Qed.

(** ** Rejection: consumed, propagated, or escaping *)



(** A promise in state [st] with the callbacks [f] and [g] and two children:
    [1], which has a continuation and a child [3] of its own, and [2], which
    has a rejection handler. *)
Definition household_in (st : PromiseStates) (f : option onFulfilled_fn)
    (g : option onRejected_fn) : store :=
  {| promises :=
       [ {| _state := st; _result := VUndefined; _reason := VUndefined; _children := 0;
            _onFulfilled := f; _onRejected := g; _rejectWasConsumed := false |};
         new_child (Some (UserFulfilled (fun _ => Return (VNumber 7)))) None 1;
         new_child None (Some (UserRejected (fun _ => None))) 2;
         new_child None None 3 ];
     arrays := [[1; 2]; [3]; []; []];
     agregators := [];
     trace := [] |}.

Definition household := household_in Pending.

Definition household_kids : list ptree := [PNode 1 [PNode 3 []]; PNode 2 []].

Ltac quiet_tac :=
  repeat first
    [ apply Forall_nil
    | apply Forall_cons
    | eapply quiet_node; [reflexivity | reflexivity | reflexivity | cbn [r_next] ] ].

Ltac nodup_tac :=
  cbn; repeat (apply NoDup_cons_2; [rewrite ?elem_of_cons, elem_of_nil; lia|]);
  apply NoDup_nil_2.


(** ** An exception on the way down *)

(** The first child's [_resolve] throws during the fan-out of its parent: the
    [catch] block of the parent's [_resolve] takes over in the store reached
    and rejects the parent with the message. *)
Lemma resolve_child_throws F s p n v c rest message s2 :
  promises s !! p = Some n -> continues v n ->
  arrays s !! _children n = Some (c :: rest) ->
  (forall evs,
     _resolve F c v (settled p (with_result v (with_state Fulfilled n)) evs s) =
       Thrown message (s2 evs)) ->
  exists evs,
    _resolve (S F) p v s =
      bind (_reject F p (VString message)) (fun _ => ret VNull) (s2 evs) /\
    (evs = [EvResolve p v] \/ evs = [EvOnFulfilled p v; EvResolve p v]).
Proof.
  intros Hn Hcont Harr Hchild.
  assert (Hloop : forall evs,
            for_of F (_children n) 0
              (fun child : nat => bind (_resolve F child v) (fun _ => ret tt))
              (settled p (with_result v (with_state Fulfilled n)) evs s) =
            Thrown message (s2 evs)).
  { intros evs. destruct F as [|F]; [specialize (Hchild evs); discriminate|].
    rewrite (for_of_next F (_children n) (c :: rest) 0 c _
               (settled p (with_result v (with_state Fulfilled n)) evs s) Harr eq_refl).
    apply bind_Thrown, bind_Thrown. apply Hchild. }
  destruct Hcont as [Hf|(f & w & Hf & Hw & Hp)].
  - exists [EvResolve p v]. split; [|auto].
    specialize (Hloop [EvResolve p v]).
    rewrite _resolve_S. unfold resolve_body.
    set (handler := fun message0 : string => bind (_reject _ _ _) _).
    set (body := fun child : nat => bind (_resolve _ child _) _) in *.
    repeat (progress unfold try_catch, bind, ret, emit, read, update);
      cbv beta; cbn [promises arrays agregators trace].
    js_step. rewrite Hf. js_step.
    match goal with
    | |- context [for_of _ _ _ _ ?st] => change st with
        (settled p (with_result v (with_state Fulfilled n)) [EvResolve p v] s)
    end.
    rewrite Hloop. subst handler. reflexivity.
  - exists [EvOnFulfilled p v; EvResolve p v]. split; [|auto].
    specialize (Hloop [EvOnFulfilled p v; EvResolve p v]).
    rewrite _resolve_S. unfold resolve_body.
    set (handler := fun message0 : string => bind (_reject _ _ _) _).
    set (body := fun child : nat => bind (_resolve _ child _) _) in *.
    repeat (progress unfold try_catch, bind, ret, emit, read, update, call_onFulfilled);
      cbv beta; cbn [promises arrays agregators trace].
    js_step. rewrite Hf. js_step. rewrite Hw. js_step. rewrite Hp.
    destruct (negb (is_nullish w)); js_step;
      (match goal with
       | |- context [for_of _ _ _ _ ?st] => change st with
           (settled p (with_result v (with_state Fulfilled n))
              [EvOnFulfilled p v; EvResolve p v] s)
       end);
      rewrite Hloop; subst handler; reflexivity.
Qed.

(** The first child's [_reject] throws during the fan-out of a rejection
    that nothing consumes: nothing catches it. *)
Lemma reject_child_throws F s p n R c rest message s2 :
  promises s !! p = Some n ->
  _onRejected n = None -> _rejectWasConsumed n = false ->
  arrays s !! _children n = Some (c :: rest) ->
  _reject F c R (settled p (with_reason R (with_state Rejected n)) [EvReject p R] s) =
    Thrown message s2 ->
  _reject (S F) p R s = Thrown message s2.
Proof.
  intros Hn Hh Hflag Harr Hchild.
  set (s1 := settled p (with_reason R (with_state Rejected n)) [EvReject p R] s) in *.
  assert (Hn1 : promises s1 !! p = Some (with_reason R (with_state Rejected n)))
    by (apply (lookup_insert_same _ _ _ _ Hn)).
  rewrite _reject_S. unfold reject_body.
  set (body := fun child : nat => bind (read p) _).
  assert (Hloop : for_of F (_children n) 0 body s1 = Thrown message s2).
  { destruct F as [|F]; [discriminate|].
    rewrite (for_of_next F (_children n) (c :: rest) 0 c body s1 Harr eq_refl).
    apply bind_Thrown. unfold body.
    rewrite (bind_Normal _ _ _ _ _ (read_run p _ s1 Hn1)).
    cbn [_rejectWasConsumed with_reason with_state]. rewrite Hflag. exact Hchild. }
  clearbody body.
  js_unfold. js_step. rewrite Hh. js_step.
  match goal with
  | |- context [for_of _ _ _ _ ?st] => change st with s1
  end.
  rewrite Hloop. reflexivity.
Qed.

(** ** Failures that become rejections *)

(** [k = p.then(f, h)] where both callbacks throw, and then [p] is
    resolved. *)
Definition doubly_failing_chain (fuel : nat) : M (ref * ref) :=
  p ← new_InternalPromise fuel None ;
  k ← then_ fuel p (Some (UserFulfilled (fun _ => Raise "continuation failed")))
                   (Some (UserRejected (fun _ => Some "handler failed"))) ;
  _resolve fuel p (VNumber 1) ;;
  ret (p, k).




(** ** Settlement is last-call-wins *)

(** C1, amended: the routines have no guard on the state. Whenever a call of
    [_resolve] or [_reject] returns or throws, the node it was called on is
    settled and every node that was settled before is still settled; but the
    last call wins, whatever the state of the node was. [_resolve(x)] on a
    node whose continuation is absent or returns something that is not a
    promise leaves the node Fulfilled with the result [x]; [_reject(x)] on a
    node whose rejection handler is absent or returns leaves it Rejected with
    the reason [x]. Both are stated for children lists forming a tree below
    the node in which no continuation returns a promise, no rejection
    handler raises and no node was registered by [all]. *)
Theorem settlement_last_call_wins (fuel : nat) (s : store) (this : ref) (x : jsvalue) :
  (forall s', final_store (_resolve fuel this x s) = Some s' ->
     stays_settled s s' /\
     exists n', promises s' !! this = Some n' /\ _state n' <> Pending) /\
  (forall s', final_store (_reject fuel this x s) = Some s' ->
     stays_settled s s' /\
     exists n', promises s' !! this = Some n' /\ _state n' <> Pending) /\
  (forall n kids,
     promises s !! this = Some n ->
     arrays s !! _children n = Some (map root kids) ->
     NoDup (this :: flat_map refs kids) ->
     2 * length (this :: flat_map refs kids) < fuel ->
     (continues x n -> Forall (quiet s (CallResolve x)) kids ->
      exists w s',
        _resolve fuel this x s = Normal w s' /\
        state_of s' this = Some Fulfilled /\
        result_of s' this = Some x /\
        reason_of s' this = Some (_reason n)) /\
     (_onRejected n = None -> _rejectWasConsumed n = false ->
      Forall (quiet s (CallReject x)) kids ->
      exists s',
        _reject fuel this x s = Normal tt s' /\
        state_of s' this = Some Rejected /\
        reason_of s' this = Some x /\
        result_of s' this = Some (_result n)) /\
     (forall h, _onRejected n = Some (UserRejected h) -> h x = None ->
      Forall (quiet s (CallResolve VNull)) kids ->
      exists s',
        _reject fuel this x s = Normal tt s' /\
        state_of s' this = Some Rejected /\
        reason_of s' this = Some x /\
        result_of s' this = Some (_result n))).
Proof.
  destruct (preserves_routines fuel) as (Hr & Hj & _).
  split; [|split].
  - intros s' H. split; [apply (Hr this x s s' H) | apply (resolve_leaves_settled _ _ _ _ _ H)].
  - intros s' H. split; [apply (Hj this x s s' H) | apply (reject_leaves_settled _ _ _ _ _ H)].
  - intros n kids Hn Harr Hnd HF.
    assert (Hrej : forall c, on_reject this x n = Some c ->
              Forall (quiet s (r_next c)) kids ->
              exists s',
                _reject fuel this x s = Normal tt s' /\
                state_of s' this = Some Rejected /\
                reason_of s' this = Some x /\
                result_of s' this = Some (_result n)).
    { intros c Hreact Hkids.
      assert (Hq : quiet s (CallReject x) (PNode this kids))
        by (apply (quiet_node s (CallReject x) this n c kids Hn Harr Hreact); exact Hkids).
      exists (settle_down (CallReject x) (PNode this kids) s).
      split; [apply (reject_quiet fuel (PNode this kids) x s HF Hnd Hq)|].
      destruct (on_reject_rejected this x n c Hreact) as (Hst & Hre & Hres & _).
      unfold state_of, result_of, reason_of.
      rewrite (settle_down_root (CallReject x) this kids s n c Hnd Hn Hreact). cbn.
      rewrite Hst, Hre, Hres. auto. }
    split; [|split].
    + intros Hcont Hkids.
      destruct (on_resolve_continues this x n Hcont) as (r & Hreact & Hnode & Hnext).
      assert (Hq : quiet s (CallResolve x) (PNode this kids)).
      { apply (quiet_node s (CallResolve x) this n r kids Hn Harr Hreact).
        rewrite Hnext. exact Hkids. }
      destruct (resolve_quiet fuel (PNode this kids) x s HF Hnd Hq)
        as (n' & r' & Hn' & Hr' & Hrun).
      exists (r_value r'), (settle_down (CallResolve x) (PNode this kids) s).
      split; [exact Hrun|].
      unfold state_of, result_of, reason_of.
      rewrite (settle_down_root (CallResolve x) this kids s n r Hnd Hn Hreact), Hnode. auto.
    + intros Hh Hflag Hkids. eapply Hrej; [unfold on_reject; rewrite Hh, Hflag; reflexivity|].
      exact Hkids.
    + intros h Hh HhR Hkids. eapply Hrej; [unfold on_reject; rewrite Hh, HhR; reflexivity|].
      exact Hkids.
Qed.

Lemma settlement_last_call_wins_witness :
  let s := household_in Fulfilled None None in
  exists s',
    _reject 9 0 (VString "late") s = Normal tt s' /\
    state_of s' 0 = Some Rejected /\
    reason_of s' 0 = Some (VString "late") /\
    stays_settled s s'.
Proof.
  intros s.
  destruct (settlement_last_call_wins 9 s 0 (VString "late")) as (_ & Hj & H).
  destruct (H _ household_kids eq_refl eq_refl) as (_ & Hrej & _).
  - nodup_tac.
  - cbn. lia.
  - destruct (Hrej eq_refl eq_refl) as (s' & Hrun & Hst & Hre & _).
    + quiet_tac.
    + exists s'. repeat (split; [assumption|]).
      apply (Hj s'). rewrite Hrun. reflexivity.
Defined.

(** ** Fan-out, and children handed over *)

Lemma taken_over_child r nr arr kids s k nk :
  NoDup (flat_map refs kids) -> r ∉ flat_map refs kids ->
  k ∈ kids -> promises s !! root k = Some nk ->
  match hand_over_call nr with
  | Some c =>
      forall rk, react (root k) c nk = Some rk ->
        promises (taken_over r nr arr kids s) !! root k = Some (r_node rk)
  | None => promises (taken_over r nr arr kids s) !! root k = Some nk
  end.
Proof.
  intros Hnd Hr Hk Hnk. unfold taken_over.
  assert (Hne : r <> root k).
  { intros ->. apply Hr. eapply refs_forest; [exact Hk | apply refs_root]. }
  assert (Hnk1 : promises (spliced r nr arr (map root kids) s) !! root k = Some nk).
  { cbn. rewrite list_lookup_insert_ne by exact Hne. exact Hnk. }
  destruct (hand_over_call nr) as [c|]; [|exact Hnk1].
  intros rk Hrk. revert Hnk1. generalize (spliced r nr arr (map root kids) s).
  clear Hnk Hr Hne. unfold settle_forest.
  induction kids as [|k' kids IH]; intros s1 Hnk1; [inversion Hk|].
  apply NoDup_forest_cons in Hnd as (Hndk & Hndrest & Hdisj).
  cbn [foldl]. apply elem_of_cons in Hk as [<-|Hk].
  - fold (settle_forest c kids (settle_down c k s1)).
    rewrite settle_forest_notin by (apply Hdisj, refs_root).
    destruct k as [pk kk]. cbn [root] in *.
    apply (settle_down_root c pk kk s1 nk rk Hndk Hnk1 Hrk).
  - apply (IH Hndrest Hk).
    rewrite settle_down_notin; [exact Hnk1|].
    intros Hin. apply (Hdisj _ Hin). eapply refs_forest; [exact Hk | apply refs_root].
Qed.



(** ** A rejection handler that raises *)

(** The first child's [_reject] throws while a Rejected promise settles the
    children it has taken over. *)
Lemma moveChildren_first_throws F s r nr arr c rest message s2 :
  promises s !! r = Some nr -> _state nr = Rejected ->
  arrays s !! arr = Some (c :: rest) ->
  _reject F c (_reason nr) (spliced r nr arr (c :: rest) s) = Thrown message s2 ->
  _moveChildren (S F) r arr s = Thrown message s2.
Proof.
  intros Hr Hst Harr Hchild.
  set (s1 := spliced r nr arr (c :: rest) s) in *.
  assert (Hnew : arrays s1 !! length (arrays s) = Some (c :: rest)).
  { cbn. rewrite lookup_app_r by (rewrite length_insert; lia).
    rewrite length_insert, Nat.sub_diag. reflexivity. }
  assert (Hr1 : promises s1 !! r = Some (with_children (length (arrays s)) nr)).
  { cbn. apply (lookup_insert_same _ _ _ _ Hr). }
  rewrite _moveChildren_S. unfold moveChildren_body.
  set (body1 := fun child : nat => bind (read r) (fun n => bind (_resolve _ _ _) _)).
  set (body2 := fun child : nat => bind (read r) (fun n => _reject _ _ _)).
  assert (Hloop : for_of F (length (arrays s)) 0 body2 s1 = Thrown message s2).
  { destruct F as [|F]; [discriminate|].
    rewrite (for_of_next F _ (c :: rest) 0 c body2 s1 Hnew eq_refl).
    apply bind_Thrown. unfold body2.
    rewrite (bind_Normal _ _ _ _ _ (read_run r _ s1 Hr1)). exact Hchild. }
  clearbody body1 body2.
  js_unfold. js_step. rewrite length_insert.
  change {| promises := <[r:=with_children (length (arrays s)) nr]> (promises s);
            arrays := <[arr:=[]]> (arrays s) ++ [c :: rest];
            agregators := agregators s; trace := trace s |}
    with s1.
  repeat (first [rewrite Hst | rewrite Hloop | case_bool_decide | progress js_step]);
    congruence.
Qed.

(** [k = p.then(() => r)] for a promise [r] that is already Rejected,
    [c = k.catch(h)] with a handler that throws, and then [p] is resolved. *)
Definition rejected_return_chain (fuel : nat) : M (ref * ref * ref * ref) :=
  r ← new_InternalPromise fuel
        (Some {| resolver_calls := [CallReject (VString "inner")];
                 resolver_raises := None |}) ;
  p ← new_InternalPromise fuel None ;
  k ← then_ fuel p (Some (UserFulfilled (fun _ => Return (VPromise r)))) None ;
  c ← catch fuel k (UserRejected (fun _ => Some "handler failed")) ;
  _resolve fuel p (VNumber 1) ;;
  ret (r, p, k, c).

(** C10, as stated, fails in its second part: the exception of a rejection
    handler can be converted into a rejection. [c] is handed over to the
    Rejected promise [r] and rejected; its handler throws; the exception
    leaves the [_reject] of [c] and is caught by the [_resolve] of [k], which
    rejects [k] with the message of the handler. Nothing reaches the caller:
    the [_resolve] of [p] returns. *)
Lemma handler_exception_becomes_rejection :
  exists s',
    rejected_return_chain 6 empty_store = Normal (0, 1, 2, 3) s' /\
    fulfilled_with (VNumber 1) s' 1 /\
    rejected_with (VString "handler failed") s' 2 /\
    rejected_with (VString "inner") s' 3 /\
    EvOnRejected 3 (VString "inner") ∈ trace s'.
Proof.
  eexists. split; [vm_compute; reflexivity|].
  split; [eexists; cbn; eauto|]. split; [eexists; cbn; eauto|].
  split; [eexists; cbn; eauto|]. cbn. rewrite !elem_of_cons. auto 10.
Qed.

(** C10, amended: when the [onRejected] handler of a node raises, the call
    of [_reject] on that node ends with the exception, for [_reject] has no
    [try]: the node itself has been marked Rejected with the reason, its
    [_rejectWasConsumed] flag is as before, no other promise and no array has
    changed, and the trace stops at the handler call, so no child was
    notified. [_reject] converts the exception into no rejection; a
    [_resolve] further up the call stack does. When the node is the first
    child of a node [k] (without a rejection handler) whose continuation
    returns a third promise [r] that is Rejected with the reason, the
    children of [k] are handed over to [r], the node is rejected, its handler
    raises, and the [_resolve] of [k] catches the exception and leaves [k]
    Rejected with the message of the handler. *)
Theorem reject_handler_raise_escapes (fuel : nat) (s : store) (this : ref)
    (n : InternalPromise) (f : jsvalue -> option string) (reason : jsvalue)
    (message : string) :
  promises s !! this = Some n ->
  _onRejected n = Some (UserRejected f) ->
  f reason = Some message ->
  _reject (S fuel) this reason s =
    Thrown message
      {| promises := <[this := with_reason reason (with_state Rejected n)]> (promises s);
         arrays := arrays s;
         agregators := agregators s;
         trace := EvOnRejected this reason :: EvReject this reason :: trace s |} /\
  (forall k nk g v r nr rest,
     promises s !! k = Some nk ->
     _onFulfilled nk = Some (UserFulfilled g) -> g v = Return (VPromise r) ->
     _onRejected nk = None ->
     arrays s !! _children nk = Some (this :: rest) ->
     promises s !! r = Some nr -> _state nr = Rejected -> _reason nr = reason ->
     k <> this -> r <> this -> r <> k ->
     exists s',
       _resolve (S (S (S fuel))) k v s = Normal VNull s' /\
       rejected_with (VString message) s' k /\
       promises s' !! this = Some (with_reason reason (with_state Rejected n)) /\
       forall q, q <> k -> q <> this -> q <> r -> promises s' !! q = promises s !! q).
Proof.
  intros Hn Hf Hraise. split.
  - exact (reject_handler_raise_escapes_aux fuel s this n f reason message Hn Hf Hraise).
  - intros k nk g v r nr rest Hk Hg Hgv Hkh Harr Hr Hst Hre Hne1 Hne2 Hne3.
    set (nk1 := with_result v (with_state Fulfilled nk)).
    set (s1 := settled k nk1 [EvOnFulfilled k v; EvResolve k v] s).
    set (s2 := spliced r nr (_children nk) (this :: rest) s1).
    assert (Hr1 : promises s1 !! r = Some nr).
    { cbn. rewrite list_lookup_insert_ne by congruence. exact Hr. }
    assert (Hthis2 : promises s2 !! this = Some n).
    { cbn. rewrite !list_lookup_insert_ne by congruence. exact Hn. }
    set (s3 := settled this (with_reason reason (with_state Rejected n))
                 [EvOnRejected this reason; EvReject this reason] s2).
    assert (Hchild : _reject (S fuel) this (_reason nr) s2 = Thrown message s3).
    { rewrite Hre.
      apply (reject_handler_raise_escapes_aux fuel s2 this n f reason message Hthis2 Hf Hraise). }
    pose proof (moveChildren_first_throws (S fuel) s1 r nr (_children nk) this rest message s3
                  Hr1 Hst Harr Hchild) as Hmove.
    assert (Hk3 : promises s3 !! k = Some nk1).
    { cbn. rewrite !list_lookup_insert_ne by congruence.
      apply (lookup_insert_same _ _ _ _ Hk). }
    assert (Ha3 : arrays s3 !! _children nk1 = Some []).
    { cbn. rewrite lookup_app_l by (rewrite length_insert; eapply lookup_lt_Some, Harr).
      apply (lookup_insert_same _ _ _ _ Harr). }
    pose proof (reject_bare fuel s3 k nk1 (VString message) Hk3 Hkh Ha3) as Hrej.
    exists (settled k (with_reason (VString message) (with_state Rejected nk1))
              [EvReject k (VString message)] s3).
    split.
    + rewrite _resolve_S. unfold resolve_body.
      set (handler := fun message0 : string => bind (_reject _ _ _) _).
      set (body := fun child : nat => bind (_resolve _ child _) _).
      repeat (progress unfold try_catch, bind, ret, emit, read, update, call_onFulfilled);
        cbv beta; cbn [promises arrays agregators trace].
      js_step. rewrite Hg. js_step. rewrite Hgv. js_step.
      match goal with |- context [_moveChildren _ _ _ ?st] => change st with s1 end.
      rewrite Hmove. subst handler. cbv beta. unfold bind, ret. rewrite Hrej. reflexivity.
    + split; [|split].
      * eexists. split; [apply (lookup_insert_same _ _ _ _ Hk3)|]. auto.
      * cbn. rewrite list_lookup_insert_ne by congruence.
        apply list_lookup_insert_eq. rewrite !length_insert. eapply lookup_lt_Some, Hn.
      * intros q Hq1 Hq2 Hq3. cbn. rewrite !list_lookup_insert_ne by congruence.
        reflexivity.
Qed.

Lemma reject_handler_raise_escapes_witness :
  let n := {| _state := Pending; _result := VUndefined; _reason := VUndefined;
              _children := 0; _onFulfilled := None;
              _onRejected := Some (UserRejected (fun _ => Some "handler failed"));
              _rejectWasConsumed := false |} in
  let nk := {| _state := Pending; _result := VUndefined; _reason := VUndefined;
               _children := 1;
               _onFulfilled := Some (UserFulfilled (fun _ => Return (VPromise 2)));
               _onRejected := None; _rejectWasConsumed := false |} in
  let nr := {| _state := Rejected; _result := VUndefined; _reason := VString "R";
               _children := 2; _onFulfilled := None; _onRejected := None;
               _rejectWasConsumed := false |} in
  let s := {| promises := [n; nk; nr]; arrays := [[]; [0]; []]; agregators := [];
              trace := [] |} in
  _reject 1 0 (VString "R") s =
    Thrown "handler failed"
      {| promises := [with_reason (VString "R") (with_state Rejected n); nk; nr];
         arrays := [[]; [0]; []]; agregators := [];
         trace := [EvOnRejected 0 (VString "R"); EvReject 0 (VString "R")] |} /\
  exists s',
    _resolve 3 1 (VNumber 1) s = Normal VNull s' /\
    rejected_with (VString "handler failed") s' 1 /\
    promises s' !! 0 = Some (with_reason (VString "R") (with_state Rejected n)).
Proof.
  intros n nk nr s.
  pose proof (reject_handler_raise_escapes 0 s 0 n (fun _ => Some "handler failed")
                (VString "R") "handler failed" eq_refl eq_refl eq_refl) as [Hone Hup].
  split; [exact Hone|].
  destruct (Hup 1 nk (fun _ => Return (VPromise 2)) (VNumber 1) 2 nr []
              eq_refl eq_refl eq_refl eq_refl eq_refl eq_refl eq_refl eq_refl)
    as (s' & Hrun & Hk & Hthis & _); [lia | lia | lia |].
  exists s'. split; [exact Hrun|]. split; [exact Hk | exact Hthis].
Defined.

(** * [all] over Pending promises of any store *)

(** ** An input of [all] settles

    The input [p] has the subtrees [kids] chained on it, and then the node
    [c] that [_RegisterForFulfillment] registered. *)
Section InputWithKids.
Variable fuel : nat.
Variable s : store.
Variables p c a rootp : ref.
Variables (pn cn rn : InternalPromise) (g : FulFillmentAgregator) (index : nat).
Variable kids : list ptree.
Hypothesis Hp : promises s !! p = Some pn.
Hypothesis Hpa : arrays s !! _children pn = Some (map root kids ++ [c])%list.
Hypothesis Hpr : _onRejected pn = None.
Hypothesis Hpflag : _rejectWasConsumed pn = false.
Hypothesis Hc : promises s !! c = Some cn.
Hypothesis Hca : arrays s !! _children cn = Some [].
Hypothesis Hcf : _onFulfilled cn = Some (AgregatorFulfilled a index).
Hypothesis Hcr : _onRejected cn = Some (AgregatorRejected a).
Hypothesis Hg : agregators s !! a = Some g.
Hypothesis Hrootp : rootPromise g = rootp.
Hypothesis Hr : promises s !! rootp = Some rn.
Hypothesis Hra : arrays s !! _children rn = Some [].
Hypothesis Hrf : _onFulfilled rn = None.
Hypothesis Hrr : _onRejected rn = None.
Hypothesis Hpc : p <> c.
Hypothesis Hprootp : p <> rootp.
Hypothesis Hcrootp : c <> rootp.
Hypothesis Hnd : NoDup (p :: flat_map refs kids).
Hypothesis Hckids : c ∉ flat_map refs kids.
Hypothesis Hrkids : rootp ∉ flat_map refs kids.
Hypothesis Hfuel : 2 * length (flat_map refs kids) < fuel.

Lemma input_with_kids_resolved v :
  continues v pn -> Forall (quiet s (CallResolve v)) kids ->
  exists w evs,
    _resolve (S (S (S (S fuel)))) p v s =
      Normal w
        (registered_resolved_store c a rootp cn rn g index v
           (settle_forest (CallResolve v) kids
              (settled p (with_result v (with_state Fulfilled pn)) evs s))).
Proof.
  intros Hcont Hkids.
  apply list.NoDup_cons in Hnd as [Hpkids Hndk].
  assert (Htail : forall evs,
    for_of (S (S (S fuel))) (_children pn) 0
      (fun child : nat => bind (_resolve (S (S (S fuel))) child v) (fun _ => ret tt))
      (settled p (with_result v (with_state Fulfilled pn)) evs s) =
    Normal tt
      (registered_resolved_store c a rootp cn rn g index v
         (settle_forest (CallResolve v) kids
            (settled p (with_result v (with_state Fulfilled pn)) evs s)))).
  { intros evs.
    set (s1 := settled p (with_result v (with_state Fulfilled pn)) evs s).
    set (s2 := settle_forest (CallResolve v) kids s1).
    pose proof (length_forest kids) as Hlen.
    replace (S (S (S fuel))) with (length kids + S (S (S fuel - length kids))) at 1 by lia.
    rewrite (fan_out_then_quiet (S (S (S fuel))) (CallResolve v) _ p
               (with_result v (with_state Fulfilled pn)) (_children pn) kids [c] s1).
    - assert (Hc2 : promises s2 !! c = Some cn).
      { unfold s2. rewrite settle_forest_notin by exact Hckids. cbn.
        rewrite list_lookup_insert_ne by congruence. exact Hc. }
      assert (Hr2 : promises s2 !! rootp = Some rn).
      { unfold s2. rewrite settle_forest_notin by exact Hrkids. cbn.
        rewrite list_lookup_insert_ne by congruence. exact Hr. }
      assert (Hca2 : arrays s2 !! _children cn = Some [])
        by (unfold s2; rewrite settle_forest_arrays; exact Hca).
      assert (Hra2 : arrays s2 !! _children rn = Some [])
        by (unfold s2; rewrite settle_forest_arrays; exact Hra).
      assert (Hg2 : agregators s2 !! a = Some g)
        by (unfold s2; rewrite settle_forest_agregators; exact Hg).
      assert (Hpa2 : arrays s2 !! _children pn = Some (map root kids ++ [c])%list)
        by (unfold s2; rewrite settle_forest_arrays; exact Hpa).
      pose proof (registered_resolved fuel s2 c a rootp cn rn g Hc2 Hca2 Hg2 Hrootp Hr2 Hra2
                    Hcrootp index v Hcf Hrf) as Hrun.
      rewrite (for_of_next _ (_children pn) _ (length kids) c _ s2 Hpa2).
      + assert (Hrun' : bind (_resolve (S (S (S fuel))) c v) (fun _ => ret tt) s2 =
                          Normal tt (registered_resolved_store c a rootp cn rn g index v s2))
          by (rewrite (bind_Normal _ _ _ _ _ Hrun); reflexivity).
        rewrite (bind_Normal _ _ _ _ _ Hrun').
        apply (for_of_end _ (_children pn) (map root kids ++ [c])%list).
        * rewrite registered_resolved_store_arrays. exact Hpa2.
        * rewrite length_app, length_map. cbn. lia.
      + rewrite <- (length_map root kids). apply list_lookup_middle. reflexivity.
    - intros child s3 _. reflexivity.
    - exact Hpa.
    - apply (lookup_insert_same _ _ _ _ Hp).
    - apply quiet_kids_settled; assumption.
    - exact Hndk.
    - exact Hpkids.
    - lia. }
  destruct Hcont as [Hf|(f & w & Hf & Hw & Hpw)].
  - exists VNull, [EvResolve p v]. specialize (Htail [EvResolve p v]).
    rewrite _resolve_S. unfold resolve_body.
    set (body := fun child : nat => bind (_resolve _ child _) _) in *.
    js_unfold. js_step. rewrite Hf. js_step.
    match goal with
    | |- context [for_of _ _ _ _ ?st] => change st with
        (settled p (with_result v (with_state Fulfilled pn)) [EvResolve p v] s)
    end.
    rewrite Htail. reflexivity.
  - exists w, [EvOnFulfilled p v; EvResolve p v].
    specialize (Htail [EvOnFulfilled p v; EvResolve p v]).
    rewrite _resolve_S. unfold resolve_body.
    set (body := fun child : nat => bind (_resolve _ child _) _) in *.
    js_unfold. js_step. rewrite Hf. js_step. rewrite Hw. js_step. rewrite Hpw.
    destruct (negb (is_nullish w)); js_step;
      (match goal with
       | |- context [for_of _ _ _ _ ?st] => change st with
           (settled p (with_result v (with_state Fulfilled pn))
              [EvOnFulfilled p v; EvResolve p v] s)
       end);
      rewrite Htail; reflexivity.
Qed.

Lemma input_with_kids_rejected r :
  Forall (quiet s (CallReject r)) kids ->
  _reject (S (S (S (S fuel)))) p r s =
    Normal tt
      (registered_rejected_store c rootp cn rn r
         (settle_forest (CallReject r) kids
            (settled p (with_reason r (with_state Rejected pn)) [EvReject p r] s))).
Proof.
  intros Hkids.
  apply list.NoDup_cons in Hnd as [Hpkids Hndk].
  set (s1 := settled p (with_reason r (with_state Rejected pn)) [EvReject p r] s).
  set (s2 := settle_forest (CallReject r) kids s1).
  assert (Hp1 : promises s1 !! p = Some (with_reason r (with_state Rejected pn)))
    by (apply (lookup_insert_same _ _ _ _ Hp)).
  assert (Hp2 : promises s2 !! p = Some (with_reason r (with_state Rejected pn)))
    by (unfold s2; rewrite settle_forest_notin by exact Hpkids; exact Hp1).
  assert (Hc2 : promises s2 !! c = Some cn).
  { unfold s2. rewrite settle_forest_notin by exact Hckids. cbn.
    rewrite list_lookup_insert_ne by congruence. exact Hc. }
  assert (Hr2 : promises s2 !! rootp = Some rn).
  { unfold s2. rewrite settle_forest_notin by exact Hrkids. cbn.
    rewrite list_lookup_insert_ne by congruence. exact Hr. }
  assert (Hca2 : arrays s2 !! _children cn = Some [])
    by (unfold s2; rewrite settle_forest_arrays; exact Hca).
  assert (Hra2 : arrays s2 !! _children rn = Some [])
    by (unfold s2; rewrite settle_forest_arrays; exact Hra).
  assert (Hg2 : agregators s2 !! a = Some g)
    by (unfold s2; rewrite settle_forest_agregators; exact Hg).
  assert (Hpa2 : arrays s2 !! _children pn = Some (map root kids ++ [c])%list)
    by (unfold s2; rewrite settle_forest_arrays; exact Hpa).
  pose proof (registered_rejected fuel s2 c a rootp cn rn g Hc2 Hca2 Hg2 Hrootp Hr2 Hra2
                Hcrootp r Hcr Hrr) as Hrun.
  pose proof (length_forest kids) as Hlen.
  rewrite _reject_S. unfold reject_body.
  set (body := fun child : nat => bind (read p) _).
  assert (Hbody : forall child s3,
            promises s3 !! p = Some (with_reason r (with_state Rejected pn)) ->
            body child s3 = settle (S (S (S fuel))) child (CallReject r) s3).
  { intros child s3 H3. unfold body.
    rewrite (bind_Normal _ _ _ _ _ (read_run p _ s3 H3)).
    cbn [_rejectWasConsumed with_reason with_state]. rewrite Hpflag. reflexivity. }
  assert (Htail : for_of (S (S (S fuel))) (_children pn) 0 body s1 =
                  Normal tt (registered_rejected_store c rootp cn rn r s2)).
  { replace (S (S (S fuel))) with (length kids + S (S (S fuel - length kids))) at 1 by lia.
    rewrite (fan_out_then_quiet (S (S (S fuel))) (CallReject r) body p
               (with_reason r (with_state Rejected pn)) (_children pn) kids [c] s1 _
               Hbody Hpa Hp1 (quiet_kids_settled _ _ _ _ _ _ Hkids Hpkids) Hndk Hpkids
               ltac:(lia)).
    fold s2.
    rewrite (for_of_next _ (_children pn) _ (length kids) c body s2 Hpa2).
    - assert (Hrun' : body c s2 = Normal tt (registered_rejected_store c rootp cn rn r s2))
        by (rewrite (Hbody c s2 Hp2); exact Hrun).
      rewrite (bind_Normal _ _ _ _ _ Hrun').
      apply (for_of_end _ (_children pn) (map root kids ++ [c])%list).
      + rewrite registered_rejected_store_arrays. exact Hpa2.
      + rewrite length_app, length_map. cbn. lia.
    - rewrite <- (length_map root kids). apply list_lookup_middle. reflexivity. }
  clearbody body.
  js_unfold. js_step. rewrite Hpr. js_step.
  match goal with
  | |- context [for_of _ _ _ _ ?st] => change st with s1
  end.
  rewrite Htail. reflexivity.
Qed.
End InputWithKids.

(** ** The walk keeps the wiring *)

Lemma react_same_shape p c n r :
  react p c n = Some r ->
  _children (r_node r) = _children n /\
  _onFulfilled (r_node r) = _onFulfilled n /\
  _onRejected (r_node r) = _onRejected n /\
  (_onRejected n = None -> _rejectWasConsumed (r_node r) = _rejectWasConsumed n).
Proof.
  destruct c as [v|R]; cbn [react]; unfold on_resolve, on_reject; intros H.
  - destruct (_onFulfilled n) as [[f|a i]|] eqn:Hf; [|discriminate|].
    + destruct (f v) as [w|w|m]; [|discriminate|].
      * destruct (as_promise w); [discriminate|]. injection H as <-. cbn. auto.
      * cbn [_onRejected with_result with_state _rejectWasConsumed] in H.
        destruct (_onRejected n) as [[h|a]|] eqn:Hh; [|discriminate|].
        -- destruct (h (VString m)); [discriminate|]. injection H as <-. cbn.
           repeat split; auto. discriminate.
        -- injection H as <-. cbn. auto.
    + injection H as <-. cbn. auto.
  - destruct (_onRejected n) as [[h|a]|] eqn:Hh; [|discriminate|].
    + destruct (h R); [discriminate|]. injection H as <-. cbn.
      repeat split; auto. discriminate.
    + injection H as <-. cbn. auto.
Qed.

Lemma settle_down_same_wiring c t : forall s, same_wiring s (settle_down c t s).
Proof.
  revert c. induction t as [p ks IH] using ptree_induction. intros c s.
  cbn [settle_down].
  destruct (promises s !! p) as [n|] eqn:Hn; [|apply same_wiring_refl].
  destruct (react p c n) as [r|] eqn:Hr; [|apply same_wiring_refl].
  destruct (react_same_shape p c n r Hr) as (H1 & H2 & H3 & H4).
  assert (Hs1 : same_wiring s (settled p (r_node r) (r_events r) s))
    by (apply (same_wiring_insert s _ p n (r_node r) Hn); auto).
  revert Hs1. generalize (settled p (r_node r) (r_events r) s). clear Hn.
  induction ks as [|k ks IHk]; intros s1 Hs1; [exact Hs1|].
  apply Forall_cons_1 in IH as [IHhead IHrest].
  cbn [foldl]. apply (IHk IHrest).
  eapply same_wiring_trans; [exact Hs1 | apply IHhead].
Qed.

Lemma settle_forest_same_wiring c ks : forall s, same_wiring s (settle_forest c ks s).
Proof.
  unfold settle_forest. induction ks as [|k ks IH]; intros s; [apply same_wiring_refl|].
  cbn [foldl]. eapply same_wiring_trans; [apply settle_down_same_wiring | apply IH].
Qed.

Lemma settle_forest_length c ks : forall s,
  length (promises (settle_forest c ks s)) = length (promises s).
Proof.
  unfold settle_forest. induction ks as [|k ks IH]; intros s; [reflexivity|].
  cbn [foldl]. rewrite IH. apply settle_down_frame.
Qed.

(** ** The inputs *)

Definition kids (t : ptree) : list ptree := match t with PNode _ ks => ks end.

Lemma refs_unfold t : refs t = root t :: flat_map refs (kids t).
Proof. destruct t. reflexivity. Qed.

(** No two promises of [l] share their children list. *)
Definition own_arrays (s : store) (l : list ref) : Prop :=
  forall q1 q2 n1 n2, q1 ∈ l -> q2 ∈ l ->
    promises s !! q1 = Some n1 -> promises s !! q2 = Some n2 ->
    _children n1 = _children n2 -> q1 = q2.

(** A promise [all] may receive: Pending, without a rejection handler, with
    the subtrees of [t] chained on it. *)
Definition pending_input (s : store) (t : ptree) : Prop :=
  exists np, promises s !! root t = Some np /\ _state np = Pending /\
    _onRejected np = None /\ _rejectWasConsumed np = false /\
    arrays s !! _children np = Some (map root (kids t)).

Definition eligible (s : store) (ts : list ptree) : Prop :=
  NoDup (flat_map refs ts) /\ own_arrays s (flat_map refs ts) /\
  Forall (pending_input s) ts.

(** The input [t] can take the call [c]: what is chained below it is quiet
    under the call, and a fulfilment meets a continuation that is absent or
    returns something that is not a promise. *)
Definition ready (s : store) (c : settle_call) (t : ptree) : Prop :=
  Forall (quiet s c) (kids t) /\
  match c with
  | CallResolve v => forall np, promises s !! root t = Some np -> continues v np
  | CallReject _ => True
  end.

Lemma distinct_trees (ts : list ptree) : forall i j t t' q,
  NoDup (flat_map refs ts) -> ts !! i = Some t -> ts !! j = Some t' -> i <> j ->
  q ∈ refs t -> q ∉ refs t'.
Proof.
  induction ts as [|t0 ts IH]; intros i j t t' q Hnd Hi Hj Hne Hq Hq'; [discriminate|].
  apply NoDup_forest_cons in Hnd as (Hnd0 & Hndrest & Hdisj).
  destruct i as [|i], j as [|j]; cbn in Hi, Hj.
  - congruence.
  - injection Hi as <-. apply (Hdisj q Hq).
    eapply refs_forest; [eapply list_elem_of_lookup_2, Hj | exact Hq'].
  - injection Hj as <-. apply (Hdisj q Hq').
    eapply refs_forest; [eapply list_elem_of_lookup_2, Hi | exact Hq].
  - apply (IH i j t t' q Hndrest Hi Hj); auto.
Qed.

(** [all] followed by the events that settle the inputs. *)
Definition all_and_settle (fuel : nat) (ps : list ref) (events : list (nat * settle_call))
    : M ref :=
  top ← all fuel ps ;
  settle_each fuel ps events ;;
  ret top.

Lemma refines_settle n m p c : n <= m -> refines (settle n p c) (settle m p c).
Proof.
  intros H. destruct c; cbn [settle].
  - apply refines_bind; [apply refines_resolve, H | intros ?; apply refines_refl].
  - apply refines_reject, H.
Qed.

Lemma refines_settle_each n m ps events :
  n <= m -> refines (settle_each n ps events) (settle_each m ps events).
Proof.
  intros H. induction events as [|[i c] events IH]; [apply refines_refl|].
  cbn [settle_each]. destruct (ps !! i); [|exact IH].
  apply refines_bind; [apply refines_settle, H | intros ?; exact IH].
Qed.

Lemma refines_all_and_settle n m ps events :
  n <= m -> refines (all_and_settle n ps events) (all_and_settle m ps events).
Proof.
  intros H. unfold all_and_settle.
  apply refines_bind; [apply refines_all, H|]. intros top.
  apply refines_bind; [apply refines_settle_each, H | intros ?; apply refines_refl].
Qed.

Section AllOver.
Variable s0 : store.
Variable ts : list ptree.
Hypothesis Helig : eligible s0 ts.

Local Abbreviation L := (length (promises s0)).
Local Abbreviation A := (length (arrays s0)).
Local Abbreviation G := (length (agregators s0)).
Local Abbreviation n := (length ts).

Lemma input_node i t :
  ts !! i = Some t ->
  exists np, promises s0 !! root t = Some np /\ _state np = Pending /\
    _onRejected np = None /\ _rejectWasConsumed np = false /\
    arrays s0 !! _children np = Some (map root (kids t)).
Proof.
  intros Hi. destruct Helig as (_ & _ & Hall).
  rewrite list.Forall_forall in Hall. apply Hall. eapply list_elem_of_lookup_2, Hi.
Qed.

Lemma input_refs i t q : ts !! i = Some t -> q ∈ refs t -> q ∈ flat_map refs ts.
Proof. intros Hi Hq. eapply refs_forest; [eapply list_elem_of_lookup_2, Hi | exact Hq]. Qed.

Lemma input_NoDup i t : ts !! i = Some t -> NoDup (refs t).
Proof.
  intros Hi. destruct Helig as (Hnd & _).
  eapply NoDup_forest_kid; [exact Hnd | eapply list_elem_of_lookup_2, Hi].
Qed.

Lemma input_array_ne i t np q nq :
  ts !! i = Some t -> promises s0 !! root t = Some np ->
  q ∈ flat_map refs ts -> q <> root t -> promises s0 !! q = Some nq ->
  _children nq <> _children np.
Proof.
  intros Hi Hnp Hq Hne Hnq E. apply Hne.
  destruct Helig as (_ & Hown & _).
  apply (Hown q (root t) nq np); auto.
  eapply input_refs; [exact Hi | apply refs_root].
Qed.

(** The graph while [all] registers its continuations: [k] inputs done. *)
Definition half_joined (k : nat) (s : store) : Prop :=
  length (promises s) = L + 1 + k /\ length (arrays s) = A + 1 + k /\
  (forall q, q < L -> promises s !! q = promises s0 !! q) /\
  promises s !! L = Some (new_child None None A) /\
  (forall i, i < k ->
     promises s !! (L + 1 + i) =
       Some (new_child (Some (AgregatorFulfilled G i)) (Some (AgregatorRejected G))
               (A + 1 + i))) /\
  (forall a, A <= a -> a < A + 1 + k -> arrays s !! a = Some []) /\
  (forall i t np, ts !! i = Some t -> promises s0 !! root t = Some np ->
     arrays s !! _children np =
       Some (if decide (i < k) then (map root (kids t) ++ [L + 1 + i])%list
             else map root (kids t))) /\
  (forall q nq l, q ∈ flat_map refs ts -> (forall i t, ts !! i = Some t -> q <> root t) ->
     promises s0 !! q = Some nq -> arrays s0 !! _children nq = Some l ->
     arrays s !! _children nq = Some l) /\
  agregators s =
    (agregators s0 ++ [ {| count := 0; target := n; rootPromise := L; results := [] |} ])%list /\
  trace s = trace s0.

Lemma half_joined_start :
  half_joined 0
    {| promises := (promises s0 ++ [new_child None None A])%list;
       arrays := (arrays s0 ++ [[]])%list;
       agregators :=
         (agregators s0 ++
            [ {| count := 0; target := n; rootPromise := L; results := [] |} ])%list;
       trace := trace s0 |}.
Proof.
  unfold half_joined. cbn [promises arrays agregators trace].
  rewrite !length_app. cbn [length].
  split; [lia|]. split; [lia|].
  split; [intros q Hq; apply lookup_app_l; exact Hq|].
  split; [apply list_lookup_middle; reflexivity|].
  split; [intros i Hi; lia|].
  split.
  { intros a H1 H2. assert (a = A) as -> by lia. apply list_lookup_middle. reflexivity. }
  split.
  { intros i t np Hi Hnp. rewrite decide_False by lia.
    destruct (input_node i t Hi) as (np' & Hnp' & _ & _ & _ & Harr).
    assert (np' = np) as -> by congruence.
    rewrite lookup_app_l by (eapply lookup_lt_Some, Harr). exact Harr. }
  split; [|auto].
  intros q nq l _ _ _ Hl. rewrite lookup_app_l by (eapply lookup_lt_Some, Hl). exact Hl.
Qed.

Lemma half_joined_register fuel k t s :
  ts !! k = Some t -> half_joined k s ->
  exists s',
    _RegisterForFulfillment fuel (root t) G k s = Normal tt s' /\ half_joined (S k) s'.
Proof.
  intros Hk (Hlp & Hla & Hold & Htop & Hreg & Hnew & Hin & Hbelow & Hg & Htr).
  destruct (input_node k t Hk) as (np & Hnp & Hst & _ & _ & Harr0).
  assert (HltL : root t < L) by (eapply lookup_lt_Some, Hnp).
  assert (HltA : _children np < A) by (eapply lookup_lt_Some, Harr0).
  assert (Hp : promises s !! root t = Some np) by (rewrite Hold by exact HltL; exact Hnp).
  assert (Hpa : arrays s !! _children np = Some (map root (kids t))).
  { rewrite (Hin k t np Hk Hnp). rewrite decide_False by lia. reflexivity. }
  eexists. unfold _RegisterForFulfillment.
  rewrite (bind_Normal _ _ _ _ _
             (then_pending fuel s (root t) np _ _ _ Hp Hpa Hst)).
  split; [reflexivity|].
  unfold half_joined, registered. cbn [promises arrays agregators trace].
  rewrite !length_app, length_insert, !length_app, Hlp, Hla. cbn [length].
  split; [lia|]. split; [lia|].
  split.
  { intros q Hq. rewrite lookup_app_l by lia. apply Hold, Hq. }
  split; [rewrite lookup_app_l by lia; exact Htop|].
  split.
  { intros i Hi. destruct (decide (i = k)) as [->|Hne].
    - rewrite <- Hlp at 1. rewrite list_lookup_middle by reflexivity. reflexivity.
    - rewrite lookup_app_l by lia. apply Hreg. lia. }
  split.
  { intros a H1 H2. rewrite list_lookup_insert_ne by lia.
    destruct (decide (a = A + 1 + k)) as [->|Hne].
    - rewrite <- Hla at 1. rewrite list_lookup_middle by reflexivity. reflexivity.
    - rewrite lookup_app_l by lia. apply Hnew; lia. }
  split.
  { intros i t' np' Hi Hnp'. destruct (decide (i = k)) as [->|Hne].
    - assert (t' = t) as -> by congruence. assert (np' = np) as -> by congruence.
      rewrite decide_True by lia.
      rewrite list_lookup_insert_eq by (rewrite length_app; cbn; lia). reflexivity.
    - assert (Hroots : root t' <> root t).
      { intros E. destruct Helig as (Hnd & _).
        apply (distinct_trees ts i k t' t (root t') Hnd Hi Hk Hne (refs_root t')).
        rewrite E. apply refs_root. }
      assert (Hne' : _children np' <> _children np).
      { apply (input_array_ne k t np (root t') np' Hk Hnp); auto.
        eapply input_refs; [exact Hi | apply refs_root]. }
      rewrite list_lookup_insert_ne by congruence.
      specialize (Hin i t' np' Hi Hnp').
      rewrite lookup_app_l by (eapply lookup_lt_Some, Hin).
      rewrite Hin. destruct (decide (i < k)), (decide (i < S k)); try lia; reflexivity. }
  split; [|auto].
  intros q nq l Hq Hnotroot Hnq Hl.
  assert (Hne' : _children nq <> _children np)
    by (apply (input_array_ne k t np q nq Hk Hnp); eauto).
  rewrite list_lookup_insert_ne by congruence.
  specialize (Hbelow q nq l Hq Hnotroot Hnq Hl).
  rewrite lookup_app_l by (eapply lookup_lt_Some, Hbelow). exact Hbelow.
Qed.

Lemma half_joined_register_from fuel : forall rest done s,
  (done ++ rest)%list = ts -> half_joined (length done) s ->
  exists s',
    register_from fuel (map root rest) G (length done) s = Normal tt s' /\
    half_joined n s'.
Proof.
  induction rest as [|t rest IH]; intros done s Hsplit Hw.
  - exists s. split; [reflexivity|]. rewrite app_nil_r in Hsplit. subst done. exact Hw.
  - assert (Hk : ts !! length done = Some t)
      by (rewrite <- Hsplit; apply list_lookup_middle; reflexivity).
    destruct (half_joined_register fuel (length done) t s Hk Hw) as (s1 & Hrun & Hw1).
    destruct (IH (done ++ [t])%list s1) as (s' & Hrest & Hw').
    + rewrite <- app_assoc. exact Hsplit.
    + rewrite length_app. cbn. replace (length done + 1) with (S (length done)) by lia.
      exact Hw1.
    + exists s'. split; [|exact Hw']. cbn [map register_from].
      rewrite (bind_Normal _ _ _ _ _ Hrun).
      rewrite length_app in Hrest. cbn in Hrest.
      replace (length done + 1) with (S (length done)) in Hrest by lia. exact Hrest.
Qed.

Lemma all_run fuel :
  exists s', all fuel (map root ts) s0 = Normal L s' /\ half_joined n s'.
Proof.
  destruct (half_joined_register_from fuel ts [] _ eq_refl half_joined_start)
    as (s' & Hrun & Hw).
  exists s'. split; [|exact Hw].
  unfold all. rewrite (bind_Normal _ _ _ _ _ (alloc_promise_run s0)).
  unfold new_FulFillmentAgregator. unfold bind at 1. rewrite length_map.
  cbn [allocated promises arrays agregators trace].
  cbn [length] in Hrun. rewrite (bind_Normal _ _ _ _ _ Hrun). reflexivity.
Qed.

(** The wiring [all] leaves, which the settlements keep. *)
Record linked (s : store) : Prop := {
  l_length : length (promises s) = L + 1 + n;
  l_input : forall i t np0, ts !! i = Some t -> promises s0 !! root t = Some np0 ->
    exists np, promises s !! root t = Some np /\
      _children np = _children np0 /\ _onFulfilled np = _onFulfilled np0 /\
      _onRejected np = None /\ _rejectWasConsumed np = false;
  l_input_array : forall i t np0, ts !! i = Some t -> promises s0 !! root t = Some np0 ->
    arrays s !! _children np0 = Some (map root (kids t) ++ [L + 1 + i])%list;
  l_top : exists rn, promises s !! L = Some rn /\
    _onFulfilled rn = None /\ _onRejected rn = None /\
    arrays s !! _children rn = Some [];
  l_registered : forall i, i < n ->
    exists cn, promises s !! (L + 1 + i) = Some cn /\
      _onFulfilled cn = Some (AgregatorFulfilled G i) /\
      _onRejected cn = Some (AgregatorRejected G) /\
      arrays s !! _children cn = Some [];
  l_agregator : exists g, agregators s !! G = Some g /\ target g = n /\ rootPromise g = L
}.

Lemma linked_preserved s s' :
  linked s -> same_wiring s s' ->
  length (promises s') = length (promises s) ->
  (forall g, agregators s !! G = Some g ->
     exists g', agregators s' !! G = Some g' /\ target g' = target g /\
                rootPromise g' = rootPromise g) ->
  linked s'.
Proof.
  intros [Hl Hi Hia Ht Hc Hg] [Ha Hw] Hlen Hagg. split.
  - congruence.
  - intros i t np0 Hit Hnp0. destruct (Hi i t np0 Hit Hnp0) as (np & Hp & Hch & Hf & Hr & Hfl).
    destruct (Hw _ np Hp) as (np' & Hp' & Hch' & Hf' & Hr' & Hfl').
    exists np'. repeat split; try congruence. rewrite Hfl' by exact Hr. exact Hfl.
  - intros i t np0 Hit Hnp0. rewrite Ha. eauto.
  - destruct Ht as (rn & Hp & Hf & Hr & Harr).
    destruct (Hw _ rn Hp) as (rn' & Hp' & Hch' & Hf' & Hr' & _).
    exists rn'. rewrite Ha, Hch'. repeat split; congruence.
  - intros i Hlt. destruct (Hc i Hlt) as (cn & Hp & Hf & Hr & Harr).
    destruct (Hw _ cn Hp) as (cn' & Hp' & Hch' & Hf' & Hr' & _).
    exists cn'. rewrite Ha, Hch'. repeat split; congruence.
  - destruct Hg as (g & Hg & Htg & Hrt). destruct (Hagg g Hg) as (g' & Hg' & Htg' & Hrt').
    exists g'. repeat split; congruence.
Qed.

(** The inputs that were not settled yet, and what is chained below them,
    are as [all] found them. *)
Definition untouched (done : list (nat * settle_call)) (s : store) : Prop :=
  forall i t q nq, ts !! i = Some t -> i ∉ map fst done -> q ∈ refs t ->
    promises s0 !! q = Some nq ->
    promises s !! q = Some nq /\
    (q <> root t -> forall l, arrays s0 !! _children nq = Some l ->
       arrays s !! _children nq = Some l).

Lemma half_joined_linked s : half_joined n s -> linked s /\ untouched [] s.
Proof.
  intros (Hlp & Hla & Hold & Htop & Hreg & Hnew & Hin & Hbelow & Hg & Htr).
  split; [split|].
  - exact Hlp.
  - intros i t np0 Hi Hnp0.
    destruct (input_node i t Hi) as (np & Hnp & _ & Hr & Hfl & _).
    assert (np = np0) as -> by congruence.
    exists np0. rewrite Hold by (eapply lookup_lt_Some, Hnp0). auto.
  - intros i t np0 Hi Hnp0. rewrite (Hin i t np0 Hi Hnp0).
    rewrite decide_True; [reflexivity|]. eapply lookup_lt_Some, Hi.
  - eexists. split; [exact Htop|]. cbn. repeat split. apply Hnew; lia.
  - intros i Hi. eexists. split; [apply Hreg, Hi|]. cbn. repeat split. apply Hnew; lia.
  - eexists. rewrite Hg. split; [apply list_lookup_middle; reflexivity|]. auto.
  - intros i t q nq Hi _ Hq Hnq. split.
    + rewrite Hold by (eapply lookup_lt_Some, Hnq). exact Hnq.
    + intros Hne l Hl. apply (Hbelow q nq l); auto.
      * eapply input_refs; eassumption.
      * intros j t' Hj E. destruct (decide (j = i)) as [->|Hji].
        -- assert (t' = t) as -> by congruence. contradiction.
        -- destruct Helig as (Hnd & _).
           apply (distinct_trees ts j i t' t q Hnd Hj Hi Hji); [|exact Hq].
           rewrite E. apply refs_root.
Qed.

(** One input settles: the step of the history. *)
Lemma settle_input_with_kids fuel s i t c done :
  2 * length (flat_map refs ts) < fuel ->
  linked s -> untouched done s ->
  ts !! i = Some t -> i ∉ map fst done -> ready s0 c t ->
  exists g rn pn s',
    agregators s !! G = Some g /\ promises s !! L = Some rn /\
    promises s0 !! root t = Some pn /\
    settle (4 + fuel) (root t) c s = Normal tt s' /\
    linked s' /\ untouched (done ++ [(i, c)])%list s' /\
    (forall q, q ∉ refs t -> q <> L -> q <> L + 1 + i ->
       promises s' !! q = promises s !! q) /\
    match c with
    | CallResolve v =>
        agregators s' !! G = Some (counted i v g) /\
        promises s' !! L =
          Some (if decide (S (count g) = n)
                then with_result (VArray G) (with_state Fulfilled rn) else rn) /\
        promises s' !! root t = Some (with_result v (with_state Fulfilled pn))
    | CallReject r =>
        agregators s' !! G = Some g /\
        promises s' !! L =
          Some (if decide (_state rn = Rejected) then rn
                else with_reason r (with_state Rejected rn)) /\
        promises s' !! root t = Some (with_reason r (with_state Rejected pn))
    end.
Proof.
  intros Hfuel Hlink Hunt Hi Hnew (Hquiet0 & Hcont).
  pose proof Hlink as [Hlen Hin Hina Htop Hreg Hagg].
  destruct (input_node i t Hi) as (pn & Hpn0 & Hst & Hpr & Hpfl & Harr0).
  assert (Hilt : i < n) by (eapply lookup_lt_Some, Hi).
  destruct (Hunt i t (root t) pn Hi Hnew (refs_root t) Hpn0) as (Hpn & _).
  pose proof (Hina i t pn Hi Hpn0) as Hpa.
  destruct Htop as (rn & Hrn & Hrf & Hrr & Hra).
  destruct (Hreg i Hilt) as (cn & Hcn & Hcf & Hcr & Hca).
  destruct Hagg as (g & Hg & Htarget & Hrootp).
  assert (HpL : root t < L) by (eapply lookup_lt_Some, Hpn0).
  assert (Hnd : NoDup (root t :: flat_map refs (kids t)))
    by (rewrite <- refs_unfold; apply (input_NoDup i t Hi)).
  pose proof Hnd as Hnd'. apply list.NoDup_cons in Hnd' as [Hpkids Hndk].
  assert (Hold : forall q, q ∈ flat_map refs (kids t) -> q < L).
  { intros q Hq. apply refs_forest_inv in Hq as (k & Hk & Hqk).
    rewrite list.Forall_forall in Hquiet0.
    destruct (quiet_is_Some s0 c k q (Hquiet0 k Hk) Hqk) as (nq & Hnq).
    eapply lookup_lt_Some, Hnq. }
  assert (Hckids : L + 1 + i ∉ flat_map refs (kids t)).
  { intros Hq. apply Hold in Hq. lia. }
  assert (Hrkids : L ∉ flat_map refs (kids t)).
  { intros Hq. apply Hold in Hq. lia. }
  assert (Hquiet : Forall (quiet s c) (kids t)).
  { apply list.Forall_forall. intros k Hk. rewrite list.Forall_forall in Hquiet0.
    apply (quiet_frame s0); [|apply Hquiet0, Hk].
    intros q nq l Hq Hnq Hl.
    assert (Hqt : q ∈ refs t).
    { rewrite refs_unfold. right. eapply refs_forest; eassumption. }
    destruct (Hunt i t q nq Hi Hnew Hqt Hnq) as (H1 & H2). split; [exact H1|].
    apply H2; [|exact Hl]. intros ->. apply Hpkids. eapply refs_forest; eassumption. }
  assert (Hlenk : length (flat_map refs (kids t)) <= length (flat_map refs ts)).
  { pose proof (length_forest_kid ts t (list_elem_of_lookup_2 _ _ _ Hi)) as H.
    rewrite refs_unfold in H. cbn in H. lia. }
  assert (Hothers : forall c' evs n1 s2,
            s2 = settle_forest c' (kids t) (settled (root t) n1 evs s) ->
            forall q, q ∉ refs t -> promises s2 !! q = promises s !! q).
  { intros c' evs n1 s2 -> q Hq. rewrite refs_unfold in Hq.
    apply not_elem_of_cons in Hq as [Hne Hq].
    rewrite settle_forest_notin by exact Hq. cbn.
    apply list_lookup_insert_ne. congruence. }
  assert (Hunt' : forall s', arrays s' = arrays s ->
            (forall q, q ∉ refs t -> q <> L -> q <> L + 1 + i ->
               promises s' !! q = promises s !! q) ->
            untouched (done ++ [(i, c)])%list s').
  { intros s' Ha' Hoth j t' q nq Hj Hjnew Hq Hnq.
    rewrite map_app, not_elem_of_app in Hjnew. destruct Hjnew as [Hjdone Hji].
    assert (j <> i) by (intros ->; apply Hji; left).
    assert (Hqt : q ∉ refs t).
    { destruct Helig as (Hnd0 & _).
      apply (distinct_trees ts j i t' t q Hnd0 Hj Hi); auto. }
    assert (q < L) by (eapply lookup_lt_Some, Hnq).
    destruct (Hunt j t' q nq Hj Hjdone Hq Hnq) as (H1 & H2).
    rewrite Hoth by (auto; lia). rewrite Ha'. auto. }
  exists g, rn, pn.
  destruct c as [v|r]; cbn [settle Nat.add].
  - pose proof (input_with_kids_resolved fuel s (root t) (L + 1 + i) G L pn cn rn g i
                  (kids t)) as Hres.
    repeat (match type of Hres with
            | ?P -> _ =>
                let HP := fresh in
                assert (HP : P) by (first [assumption | lia]); specialize (Hres HP); clear HP
            end).
    destruct (Hres v (Hcont pn Hpn0) Hquiet) as (w & evs & Hrun). clear Hres.
    set (n1 := with_result v (with_state Fulfilled pn)) in *.
    set (s1 := settled (root t) n1 evs s) in *.
    set (s2 := settle_forest (CallResolve v) (kids t) s1) in *.
    set (s' := registered_resolved_store (L + 1 + i) G L cn rn g i v s2) in *.
    assert (Hc2 : promises s2 !! (L + 1 + i) = Some cn).
    { rewrite (Hothers _ evs n1 s2 eq_refl); [exact Hcn|].
      rewrite refs_unfold. apply not_elem_of_cons. split; [lia | exact Hckids]. }
    assert (Hr2 : promises s2 !! L = Some rn).
    { rewrite (Hothers _ evs n1 s2 eq_refl); [exact Hrn|].
      rewrite refs_unfold. apply not_elem_of_cons. split; [lia | exact Hrkids]. }
    assert (Hp2 : promises s2 !! root t = Some n1).
    { unfold s2. rewrite settle_forest_notin by exact Hpkids.
      apply (lookup_insert_same _ _ _ _ Hpn). }
    assert (Hg2 : agregators s2 !! G = Some g)
      by (unfold s2; rewrite settle_forest_agregators; exact Hg).
    assert (Hw : same_wiring s s').
    { eapply same_wiring_trans;
        [apply (same_wiring_insert s s1 (root t) pn n1 Hpn); auto|].
      eapply same_wiring_trans; [apply settle_forest_same_wiring|].
      apply registered_resolved_store_wiring; auto. lia. }
    assert (Hlen' : length (promises s') = length (promises s)).
    { unfold s', registered_resolved_store.
      destruct (decide _); cbn [promises]; rewrite ?length_insert;
        unfold s2; rewrite settle_forest_length; apply length_insert. }
    assert (Hagg' : agregators s' !! G = Some (counted i v g)).
    { unfold s', registered_resolved_store. destruct (decide _); cbn;
        apply (lookup_insert_same _ _ _ _ Hg2). }
    assert (Hoth' : forall q, q ∉ refs t -> q <> L -> q <> L + 1 + i ->
               promises s' !! q = promises s !! q).
    { intros q Hq H1 H2. rewrite <- (Hothers _ evs n1 s2 eq_refl q Hq).
      unfold s', registered_resolved_store.
      destruct (decide _); cbn; rewrite !list_lookup_insert_ne by lia; reflexivity. }
    exists s'. split; [exact Hg|]. split; [exact Hrn|]. split; [exact Hpn0|].
    split; [rewrite (bind_Normal _ _ _ _ _ Hrun); reflexivity|].
    split.
    { apply (linked_preserved s s' Hlink Hw Hlen').
      intros g0 Hg0. assert (g0 = g) as -> by congruence.
      exists (counted i v g). auto. }
    split.
    { apply Hunt'; [|exact Hoth']. destruct Hw as [Ha _]. exact Ha. }
    split; [exact Hoth'|].
    split; [exact Hagg'|]. split.
    + unfold s', registered_resolved_store. rewrite Htarget.
      destruct (decide _); cbn.
      * rewrite list_lookup_insert_eq
          by (rewrite !length_insert; eapply lookup_lt_Some, Hr2).
        reflexivity.
      * rewrite !list_lookup_insert_ne by lia. exact Hr2.
    + unfold s', registered_resolved_store.
      destruct (decide _); cbn; rewrite !list_lookup_insert_ne by lia; exact Hp2.
  - pose proof (input_with_kids_rejected fuel s (root t) (L + 1 + i) G L pn cn rn g
                  (kids t)) as Hres.
    repeat (match type of Hres with
            | ?P -> _ =>
                let HP := fresh in
                assert (HP : P) by (first [assumption | lia]); specialize (Hres HP); clear HP
            end).
    pose proof (Hres r Hquiet) as Hrun. clear Hres.
    set (n1 := with_reason r (with_state Rejected pn)) in *.
    set (s1 := settled (root t) n1 [EvReject (root t) r] s) in *.
    set (s2 := settle_forest (CallReject r) (kids t) s1) in *.
    set (s' := registered_rejected_store (L + 1 + i) L cn rn r s2) in *.
    assert (Hc2 : promises s2 !! (L + 1 + i) = Some cn).
    { rewrite (Hothers _ [EvReject (root t) r] n1 s2 eq_refl); [exact Hcn|].
      rewrite refs_unfold. apply not_elem_of_cons. split; [lia | exact Hckids]. }
    assert (Hr2 : promises s2 !! L = Some rn).
    { rewrite (Hothers _ [EvReject (root t) r] n1 s2 eq_refl); [exact Hrn|].
      rewrite refs_unfold. apply not_elem_of_cons. split; [lia | exact Hrkids]. }
    assert (Hp2 : promises s2 !! root t = Some n1).
    { unfold s2. rewrite settle_forest_notin by exact Hpkids.
      apply (lookup_insert_same _ _ _ _ Hpn). }
    assert (Hg2 : agregators s2 !! G = Some g)
      by (unfold s2; rewrite settle_forest_agregators; exact Hg).
    assert (Hw : same_wiring s s').
    { eapply same_wiring_trans;
        [apply (same_wiring_insert s s1 (root t) pn n1 Hpn); auto|].
      eapply same_wiring_trans; [apply settle_forest_same_wiring|].
      apply registered_rejected_store_wiring; auto; try lia. }
    assert (Hlen' : length (promises s') = length (promises s)).
    { unfold s', registered_rejected_store.
      destruct (decide _); cbn [promises]; rewrite ?length_insert;
        unfold s2; rewrite settle_forest_length; apply length_insert. }
    assert (Hagg' : agregators s' !! G = Some g).
    { unfold s', registered_rejected_store. destruct (decide _); exact Hg2. }
    assert (Hoth' : forall q, q ∉ refs t -> q <> L -> q <> L + 1 + i ->
               promises s' !! q = promises s !! q).
    { intros q Hq H1 H2.
      rewrite <- (Hothers _ [EvReject (root t) r] n1 s2 eq_refl q Hq).
      unfold s', registered_rejected_store.
      destruct (decide _); cbn; rewrite !list_lookup_insert_ne by lia; reflexivity. }
    exists s'. split; [exact Hg|]. split; [exact Hrn|]. split; [exact Hpn0|].
    split; [exact Hrun|].
    split.
    { apply (linked_preserved s s' Hlink Hw Hlen').
      intros g0 Hg0. assert (g0 = g) as -> by congruence. exists g. auto. }
    split.
    { apply Hunt'; [|exact Hoth']. destruct Hw as [Ha _]. exact Ha. }
    split; [exact Hoth'|].
    split; [exact Hagg'|]. split.
    + unfold s', registered_rejected_store.
      destruct (decide _); cbn.
      * rewrite !list_lookup_insert_ne by lia. exact Hr2.
      * rewrite list_lookup_insert_ne by lia.
        rewrite list_lookup_insert_eq
          by (rewrite !length_insert; eapply lookup_lt_Some, Hr2).
        reflexivity.
    + unfold s', registered_rejected_store.
      destruct (decide _); cbn; rewrite !list_lookup_insert_ne by lia; exact Hp2.
Qed.

(** What the agregator and the root have seen of the history [done]. *)
Definition history (done : list (nat * settle_call)) (s : store) : Prop :=
  exists g rn,
    agregators s !! G = Some g /\ promises s !! L = Some rn /\
    count g = resolutions done /\
    length (results g) <= n /\
    (forall i v t, (i, CallResolve v) ∈ done -> ts !! i = Some t ->
       results g !! i = Some v /\ fulfilled_with v s (root t)) /\
    (forall i r t, (i, CallReject r) ∈ done -> ts !! i = Some t ->
       rejected_with r s (root t)) /\
    match first_rejection done with
    | Some r => _state rn = Rejected /\ _reason rn = r
    | None =>
        if decide (length done = n /\ 0 < n)
        then _state rn = Fulfilled /\ _result rn = VArray G
        else _state rn = Pending
    end.

Definition all_over_inv (done : list (nat * settle_call)) (s : store) : Prop :=
  linked s /\ untouched done s /\ history done s.

Lemma all_over_step fuel done s i t c :
  2 * length (flat_map refs ts) < fuel ->
  all_over_inv done s ->
  ts !! i = Some t -> i ∉ map fst done -> length done < n ->
  (forall j x, (j, x) ∈ done -> j < n) ->
  ready s0 c t ->
  exists s',
    settle (4 + fuel) (root t) c s = Normal tt s' /\
    all_over_inv (done ++ [(i, c)])%list s'.
Proof.
  intros Hfuel (Hlink & Hunt & g & rn & Hg & Hrn & Hcount & Hlen & Hres & Hrej & Hroot)
    Hi Hnew Hdone Hb Hready.
  destruct (settle_input_with_kids fuel s i t c done Hfuel Hlink Hunt Hi Hnew Hready)
    as (g0 & rn0 & pn & s' & Hg0 & Hrn0 & Hp & Hrun & Hlink' & Hunt' & Hothers & Hcall).
  assert (g0 = g) as -> by congruence. assert (rn0 = rn) as -> by congruence.
  assert (Hilt : i < n) by (eapply lookup_lt_Some, Hi).
  assert (Hne : forall j x, (j, x) ∈ done -> j <> i).
  { intros j x Hin ->. apply Hnew. apply list_elem_of_In.
    apply list_elem_of_In, (in_map fst) in Hin. exact Hin. }
  assert (Hkeep : forall j x tj nj, (j, x) ∈ done -> ts !! j = Some tj ->
            promises s !! root tj = Some nj -> promises s' !! root tj = Some nj).
  { intros j x tj nj Hin Hj Hnj. rewrite Hothers; [exact Hnj| | |].
    - destruct Helig as (Hnd & _).
      apply (distinct_trees ts j i tj t (root tj) Hnd Hj Hi (Hne j x Hin) (refs_root tj)).
    - destruct (input_node j tj Hj) as (np & Hnp & _). apply lookup_lt_Some in Hnp. lia.
    - destruct (input_node j tj Hj) as (np & Hnp & _). apply lookup_lt_Some in Hnp. lia. }
  assert (Hkeep_res : forall j w tj, (j, CallResolve w) ∈ done -> ts !! j = Some tj ->
            fulfilled_with w s' (root tj)).
  { intros j w tj Hin Hj. destruct (Hres j w tj Hin Hj) as (_ & nj & Hnj & Hst).
    exists nj. split; [eapply Hkeep; eassumption | exact Hst]. }
  assert (Hkeep_rej : forall j w tj, (j, CallReject w) ∈ done -> ts !! j = Some tj ->
            rejected_with w s' (root tj)).
  { intros j w tj Hin Hj. destruct (Hrej j w tj Hin Hj) as (nj & Hnj & Hst).
    exists nj. split; [eapply Hkeep; eassumption | exact Hst]. }
  exists s'. split; [exact Hrun|]. split; [exact Hlink'|]. split; [exact Hunt'|].
  unfold history.
  rewrite first_rejection_app, resolutions_app, length_app. cbn [length].
  destruct c as [v|r]; cbn [first_rejection resolutions];
    destruct Hcall as (Hg' & Hrn' & Hp').
  - eexists _, _. split; [exact Hg'|]. split; [exact Hrn'|].
    cbn [count results counted].
    split; [lia|]. split; [rewrite length_array_store; lia|].
    split; [|split].
    + intros j w tj Hin Hj. apply elem_of_app in Hin as [Hin|Hin].
      * split; [|eapply Hkeep_res; eassumption].
        destruct (Hres j w tj Hin Hj) as (Hslot & _).
        rewrite array_store_lookup_ne; [exact Hslot|eauto|].
        eapply lookup_lt_Some, Hslot.
      * apply list_elem_of_singleton in Hin. injection Hin as -> ->.
        assert (tj = t) as -> by congruence.
        split; [apply array_store_lookup_eq|].
        eexists. split; [exact Hp'|]. auto.
    + intros j w tj Hin Hj. apply elem_of_app in Hin as [Hin|Hin];
        [eapply Hkeep_rej; eassumption|].
      apply list_elem_of_singleton in Hin. discriminate.
    + destruct (first_rejection done) as [r0|] eqn:Hfirst.
      * pose proof (resolutions_with_rejection done r0 Hfirst).
        rewrite decide_False by lia. exact Hroot.
      * pose proof (resolutions_no_rejection done Hfirst) as Hall.
        rewrite decide_False in Hroot by lia.
        destruct (decide (S (count g) = n)) as [Heq|Hneq].
        -- rewrite decide_True by lia. cbn. auto.
        -- rewrite decide_False by lia. exact Hroot.
  - eexists _, _. split; [exact Hg'|]. split; [exact Hrn'|].
    split; [lia|]. split; [exact Hlen|].
    split; [|split].
    + intros j w tj Hin Hj. apply elem_of_app in Hin as [Hin|Hin].
      * split; [apply (Hres j w tj Hin Hj) | eapply Hkeep_res; eassumption].
      * apply list_elem_of_singleton in Hin. discriminate.
    + intros j w tj Hin Hj. apply elem_of_app in Hin as [Hin|Hin];
        [eapply Hkeep_rej; eassumption|].
      apply list_elem_of_singleton in Hin. injection Hin as -> ->.
      assert (tj = t) as -> by congruence.
      eexists. split; [exact Hp'|]. auto.
    + destruct (first_rejection done) as [r0|] eqn:Hfirst.
      * destruct Hroot as [Hst Hre]. rewrite decide_True by exact Hst. auto.
      * rewrite decide_False in Hroot by lia.
        rewrite decide_False by congruence. cbn. auto.
Qed.

Lemma settle_each_over fuel events : forall done s,
  2 * length (flat_map refs ts) < fuel ->
  all_over_inv done s ->
  NoDup (map fst (done ++ events)%list) ->
  (forall j x, (j, x) ∈ (done ++ events)%list ->
     exists t, ts !! j = Some t /\ ready s0 x t) ->
  exists s',
    settle_each (4 + fuel) (map root ts) events s = Normal tt s' /\
    all_over_inv (done ++ events)%list s'.
Proof.
  induction events as [|[i call] events IH]; intros done s Hfuel Hinv Hnd Hb.
  - exists s. rewrite app_nil_r. split; [reflexivity | exact Hinv].
  - destruct (Hb i call) as (t & Hi & Hready); [apply elem_of_app; right; left|].
    assert (Hbn : forall j x, (j, x) ∈ (done ++ (i, call) :: events)%list -> j < n).
    { intros j x Hin. destruct (Hb j x Hin) as (tj & Hj & _). eapply lookup_lt_Some, Hj. }
    assert (Hsplit : (done ++ (i, call) :: events = (done ++ [(i, call)]) ++ events)%list)
      by (rewrite <- app_assoc; reflexivity).
    rewrite Hsplit in Hnd, Hb, Hbn. rewrite Hsplit.
    pose proof Hnd as Hnd1. rewrite map_app in Hnd1.
    apply list.NoDup_app in Hnd1 as (Hnd1 & _ & _).
    assert (Hlen : length (done ++ [(i, call)])%list <= n).
    { rewrite <- (length_map fst). apply distinct_bounded_length; [exact Hnd1|].
      intros x Hx. apply list_elem_of_In, in_map_iff in Hx as ([j y] & <- & Hin).
      apply (Hbn j y), elem_of_app. left. apply list_elem_of_In, Hin. }
    rewrite length_app in Hlen. cbn in Hlen.
    rewrite map_app in Hnd1. apply list.NoDup_app in Hnd1 as (_ & Hdisj & _).
    assert (Hnew : i ∉ map fst done).
    { intros Hin. apply (Hdisj i Hin). left. }
    destruct (all_over_step fuel done s i t call Hfuel Hinv Hi Hnew) as (s1 & Hrun & Hinv1);
      [lia | | exact Hready |].
    { intros j x Hin. apply (Hbn j x), elem_of_app. left. apply elem_of_app. left.
      exact Hin. }
    destruct (IH (done ++ [(i, call)])%list s1 Hfuel Hinv1 Hnd Hb) as (s' & Hrest & Hinv').
    exists s'. split; [|exact Hinv'].
    cbn [settle_each].
    change (map root ts) with (root <$> ts). rewrite list_lookup_fmap, Hi. cbn [fmap option_fmap option_map].
    rewrite (bind_Normal _ _ _ _ _ Hrun). exact Hrest.
Qed.

Lemma history_start s : half_joined n s -> history [] s.
Proof.
  intros (Hlp & Hla & Hold & Htop & Hreg & Hnew & Hin & Hbelow & Hg & Htr).
  eexists _, _. rewrite Hg. split; [apply list_lookup_middle; reflexivity|].
  split; [exact Htop|]. cbn.
  split; [reflexivity|]. split; [lia|].
  split; [intros i v t Hi; inversion Hi|].
  split; [intros i r t Hi; inversion Hi|].
  rewrite decide_False by lia. reflexivity.
Qed.

Lemma all_over fuel events :
  2 * length (flat_map refs ts) < fuel ->
  NoDup (map fst events) ->
  (forall j x, (j, x) ∈ events -> exists t, ts !! j = Some t /\ ready s0 x t) ->
  exists s',
    all_and_settle (4 + fuel) (map root ts) events s0 = Normal L s' /\
    all_over_inv events s'.
Proof.
  intros Hfuel Hnd Hb.
  destruct (all_run (4 + fuel)) as (s1 & Hall & Hw).
  destruct (half_joined_linked s1 Hw) as (Hlink & Hunt).
  destruct (settle_each_over fuel events [] s1 Hfuel
              (conj Hlink (conj Hunt (history_start s1 Hw))) Hnd Hb)
    as (s' & Hev & Hinv).
  exists s'. split; [|exact Hinv].
  unfold all_and_settle. rewrite (bind_Normal _ _ _ _ _ Hall).
  rewrite (bind_Normal _ _ _ _ _ Hev). reflexivity.
Qed.
End AllOver.

(** ** [all]: the first rejection wins *)


(** Three Pending promises: [0], with a continuation that returns 5 and a
    child [3]; [1] and [2], with nothing chained on them. *)
Definition three_inputs : store :=
  {| promises :=
       [ new_child (Some (UserFulfilled (fun _ => Return (VNumber 5)))) None 0;
         new_child None None 1;
         new_child None None 2;
         new_child None None 3 ];
     arrays := [[3]; []; []; []];
     agregators := [];
     trace := [] |}.

Definition three_trees : list ptree := [PNode 0 [PNode 3 []]; PNode 1 []; PNode 2 []].

Lemma three_inputs_eligible : eligible three_inputs three_trees.
Proof.
  split; [nodup_tac|]. split.
  - intros q1 q2 n1 n2 H1 H2 Hn1 Hn2 E. cbn in H1, H2.
    rewrite !elem_of_cons, elem_of_nil in H1, H2.
    destruct H1 as [->|[->|[->|[->|[]]]]]; destruct H2 as [->|[->|[->|[->|[]]]]];
      cbn in Hn1, Hn2; injection Hn1 as <-; injection Hn2 as <-;
      cbn in E; congruence.
  - repeat apply Forall_cons; try apply Forall_nil; eexists; cbn;
      (split; [reflexivity|]); auto.
Defined.

Lemma three_inputs_ready c i t :
  three_trees !! i = Some t -> ready three_inputs c t.
Proof.
  intros Hi. destruct i as [|[|[|i]]]; cbn in Hi; try discriminate;
    injection Hi as <-; (split; [cbn [kids]|]).
  - destruct c; quiet_tac.
  - destruct c; [|exact I]. intros np Hnp. cbn in Hnp. injection Hnp as <-.
    right. eexists _, _. split; [reflexivity|]. split; reflexivity.
  - apply Forall_nil.
  - destruct c; [|exact I]. intros np Hnp. cbn in Hnp. injection Hnp as <-.
    left. reflexivity.
  - apply Forall_nil.
  - destruct c; [|exact I]. intros np Hnp. cbn in Hnp. injection Hnp as <-.
    left. reflexivity.
Defined.


(** ** [all]: results in index order *)



(** ** What [_moveChildren] does to the two promises *)

(** X10: [r._moveChildren(children)], where the elements of the array head
    trees of chained promises in which no promise occurs twice, no
    continuation returns a promise, no rejection handler raises and no node
    was registered by [all], and [r] is not one of these promises. The array passed is left empty, and the
    children list of [r] is replaced by what the array held, so the promises
    that were children of [r] before are its children no more, and they are
    not touched. The new children are resolved with the result of [r] when
    [r] is Fulfilled, rejected with its reason when it is Rejected, and left
    as they are while it is Pending; [r] keeps its state, result and
    reason. *)
Theorem moveChildren_replaces_children (fuel : nat) (s : store) (r : ref)
    (nr : InternalPromise) (arr : ref) (kids : list ptree) :
  promises s !! r = Some nr ->
  arrays s !! arr = Some (map root kids) ->
  NoDup (flat_map refs kids) ->
  r ∉ flat_map refs kids ->
  2 * length (flat_map refs kids) < fuel ->
  (forall c, hand_over_call nr = Some c -> Forall (quiet s c) kids) ->
  exists s',
    _moveChildren (S fuel) r arr s = Normal tt s' /\
    children_of s' r = Some (map root kids) /\
    arrays s' !! arr = Some [] /\
    (forall k nk, k ∈ kids -> promises s !! root k = Some nk ->
       match _state nr with
       | Fulfilled =>
           result_of s' (root k) = Some (_result nr) /\
           (continues (_result nr) nk -> fulfilled_with (_result nr) s' (root k))
       | Rejected => rejected_with (_reason nr) s' (root k)
       | Pending => promises s' !! root k = Some nk
       end) /\
    (forall q, q ∉ flat_map refs kids -> q <> r -> promises s' !! q = promises s !! q) /\
    (exists nr', promises s' !! r = Some nr' /\ _state nr' = _state nr /\
                 _result nr' = _result nr /\ _reason nr' = _reason nr).
Proof.
  intros Hr Harr Hnd Hnotin HF Hquiet.
  exists (taken_over r nr arr kids s).
  destruct (taken_over_frame r nr arr kids s) as (Ha2 & _ & Hp2).
  assert (Hrec : promises (taken_over r nr arr kids s) !! r =
                 Some (with_children (length (arrays s)) nr)).
  { rewrite (Hp2 r Hnotin). apply (lookup_insert_same _ _ _ _ Hr). }
  split; [apply moveChildren_forest; assumption|].
  split.
  { unfold children_of. rewrite Hrec, Ha2. cbn [_children with_children].
    rewrite lookup_app_r by (rewrite length_insert; lia).
    rewrite length_insert, Nat.sub_diag. reflexivity. }
  split.
  { rewrite Ha2.
    rewrite lookup_app_l by (rewrite length_insert; eapply lookup_lt_Some, Harr).
    apply (lookup_insert_same _ _ _ _ Harr). }
  split.
  { intros k nk Hk Hnk.
    pose proof (taken_over_child r nr arr kids s k nk Hnd Hnotin Hk Hnk) as H.
    unfold hand_over_call in *. destruct (_state nr) eqn:Est.
    - exact H.
    - destruct (quiet_kid_reacts s _ kids k (Hquiet _ eq_refl) Hk)
        as (nk' & rk & Hnk' & Hrk).
      assert (nk' = nk) as -> by congruence. specialize (H rk Hrk). split.
      + unfold result_of. rewrite H. cbn. f_equal.
        apply (on_resolve_result (root k) _ nk rk Hrk).
      + intros Hcont.
        destruct (on_resolve_continues (root k) _ nk Hcont) as (rk' & E & Hnode & _).
        cbn [react] in Hrk. assert (rk' = rk) as -> by congruence.
        exists (r_node rk). split; [exact H|]. rewrite Hnode. auto.
    - destruct (quiet_kid_reacts s _ kids k (Hquiet _ eq_refl) Hk)
        as (nk' & rk & Hnk' & Hrk).
      assert (nk' = nk) as -> by congruence. specialize (H rk Hrk).
      destruct (on_reject_rejected (root k) _ nk rk Hrk) as (Hst & Hre & _).
      exists (r_node rk). auto. }
  split.
  { intros q Hq Hne. rewrite (Hp2 q Hq). apply list_lookup_insert_ne. congruence. }
  eexists. split; [exact Hrec|]. auto.
Qed.

Lemma moveChildren_replaces_children_witness :
  let s := household_in Fulfilled None None in
  exists s',
    _moveChildren 9 0 0 s = Normal tt s' /\
    children_of s' 0 = Some [1; 2] /\ arrays s' !! 0 = Some [] /\
    fulfilled_with VUndefined s' 1.
Proof.
  intros s.
  destruct (moveChildren_replaces_children 8 s 0 _ 0 household_kids eq_refl eq_refl)
    as (s' & Hrun & Hch & Harr & Hkids & _).
  - nodup_tac.
  - cbn. rewrite !elem_of_cons, elem_of_nil. lia.
  - cbn. lia.
  - intros c Hc. injection Hc as <-. quiet_tac.
  - exists s'. split; [exact Hrun|]. split; [exact Hch|]. split; [exact Harr|].
    apply (Hkids (PNode 1 [PNode 3 []]) _ ltac:(left) eq_refl).
    right. eexists _, _. split; [reflexivity|]. split; reflexivity.
Defined.

(** ** A continuation that raises does not stop the fan-out *)

(** X18: [_resolve(v)] on a node whose continuation is absent or returns
    something that is not a promise, and below which the children lists form
    a tree in which no continuation returns a promise, no rejection handler
    raises and no node was registered by [all]. A child whose continuation
    raises at [v] ends Rejected with the message, the node stays Fulfilled with [v], and the children
    whose continuation is absent or returns, before that child and after it,
    are Fulfilled with [v]. So it is in [c1 = p.then(f); c2 = p.then()] when
    [p] is resolved and [f] raises. *)
Theorem raising_child_does_not_stop_fan_out (fuel : nat) (s : store) (this : ref)
    (n : InternalPromise) (v : jsvalue) (kids : list ptree) :
  promises s !! this = Some n ->
  continues v n ->
  arrays s !! _children n = Some (map root kids) ->
  Forall (quiet s (CallResolve v)) kids ->
  NoDup (this :: flat_map refs kids) ->
  2 * length (this :: flat_map refs kids) < fuel ->
  (exists w s',
     _resolve fuel this v s = Normal w s' /\
     fulfilled_with v s' this /\
     forall k nk, k ∈ kids -> promises s !! root k = Some nk ->
       (forall f message, _onFulfilled nk = Some (UserFulfilled f) -> f v = Raise message ->
          rejected_with (VString message) s' (root k)) /\
       (continues v nk -> fulfilled_with v s' (root k))) /\
  (forall f message, f v = Raise message ->
     exists s',
       siblings (4 + fuel) f v empty_store = Normal (0, 1, 2) s' /\
       fulfilled_with v s' 0 /\
       rejected_with (VString message) s' 1 /\
       fulfilled_with v s' 2).
Proof.
  intros Hn Hcont Harr Hkids Hnd HF. split.
  - destruct (on_resolve_continues this v n Hcont) as (r & Hreact & Hnode & Hnext).
    assert (Hq : quiet s (CallResolve v) (PNode this kids)).
    { apply (quiet_node s (CallResolve v) this n r kids Hn Harr Hreact).
      rewrite Hnext. exact Hkids. }
    destruct (resolve_quiet fuel (PNode this kids) v s HF Hnd Hq)
      as (n' & r' & Hn' & Hr' & Hrun).
    exists (r_value r'), (settle_down (CallResolve v) (PNode this kids) s).
    split; [exact Hrun|].
    pose proof (settle_down_root (CallResolve v) this kids s n r Hnd Hn Hreact) as Hroot.
    split; [exists (r_node r); split; [exact Hroot|]; rewrite Hnode; auto|].
    intros k nk Hk Hnk.
    destruct (quiet_kid_reacts s _ kids k Hkids Hk) as (nk' & rk & Hnk' & Hrk).
    assert (nk' = nk) as -> by congruence.
    assert (Hrk' : react (root k) (r_next r) nk = Some rk) by (rewrite Hnext; exact Hrk).
    pose proof (settle_down_child (CallResolve v) this kids s n r k nk rk Hnd Hn Hreact
                  Hk Hnk Hrk') as Hfin.
    split.
    + intros f message Hf Hraise. cbn [react] in Hrk. unfold on_resolve in Hrk.
      rewrite Hf, Hraise in Hrk.
      destruct (on_reject (root k) (VString message) (with_result v (with_state Fulfilled nk)))
        as [r0|] eqn:Hrej; [|discriminate].
      injection Hrk as <-. cbn [r_node] in Hfin.
      destruct (on_reject_rejected _ _ _ r0 Hrej) as (Hst & Hre & _).
      exists (r_node r0). auto.
    + intros Hc. destruct (on_resolve_continues (root k) v nk Hc) as (rk' & E & Hnode' & _).
      cbn [react] in Hrk. assert (rk' = rk) as -> by congruence.
      exists (r_node rk). split; [exact Hfin|]. rewrite Hnode'. auto.
  - intros f message Hraise.
    assert (H4 : exists s',
               siblings 4 f v empty_store = Normal (0, 1, 2) s' /\
               fulfilled_with v s' 0 /\ rejected_with (VString message) s' 1 /\
               fulfilled_with v s' 2).
    { eexists. split.
      - unfold siblings. do 4 js_phase ltac:(fun E => rewrite ?Hraise in E). reflexivity.
      - split; [eexists; cbn; eauto|]. split; eexists; cbn; eauto. }
    destruct H4 as (s' & Hrun & Hprops). exists s'. split; [|exact Hprops].
    apply (enough_fuel (fun n => siblings n f v) 4 empty_store);
      [intros m Hm; apply refines_siblings, Hm | exact Hrun | discriminate | lia].
Qed.

(** A promise with two children: [1], whose continuation raises, and [2],
    which has nothing. *)
Definition quarrel : store :=
  {| promises :=
       [ new_child None None 0;
         new_child (Some (UserFulfilled (fun _ => Raise "failed"))) None 1;
         new_child None None 2 ];
     arrays := [[1; 2]; []; []];
     agregators := [];
     trace := [] |}.

Lemma raising_child_does_not_stop_fan_out_witness :
  exists w s',
    _resolve 7 0 (VNumber 1) quarrel = Normal w s' /\
    rejected_with (VString "failed") s' 1 /\ fulfilled_with (VNumber 1) s' 2.
Proof.
  destruct (raising_child_does_not_stop_fan_out 7 quarrel 0 _ (VNumber 1)
              [PNode 1 []; PNode 2 []] eq_refl (or_introl eq_refl) eq_refl)
    as ((w & s' & Hrun & _ & Hkids) & _).
  - quiet_tac.
  - nodup_tac.
  - cbn. lia.
  - exists w, s'. split; [exact Hrun|]. split.
    + destruct (Hkids (PNode 1 []) _ ltac:(left) eq_refl) as (H & _).
      apply (H (fun _ => Raise "failed") "failed" eq_refl eq_refl).
    + destruct (Hkids (PNode 2 []) _ ltac:(right; left) eq_refl) as (_ & H).
      apply H. left. reflexivity.
Defined.
